(** * A cuckoo-style, filter-accelerated hash table: shallow embedding and
      verification of the shard ([Table]) and coordinator ([HashTable]).

    The byte buffer of a shard is a [list Z] of bytes, read and written at the
    offsets the source computes.  Stateful methods pass the object explicitly
    and return it; a method that can throw returns a [Res], which keeps the
    object as it was when the exception left the method. *)

From Stdlib Require Import ZArith Lia Bool.
From stdpp Require Import strings list pretty.

Open Scope Z_scope.

(* ================================================================= *)
(** ** Buffers *)

(** A [Buffer]/[Uint8Array] element holds a byte: a store keeps the value
    modulo 256, a store outside the array is ignored.  A load outside the
    array (JavaScript: [undefined]) is not modelled and reads a fixed default
    here; every load of the shard is inside its buffer (see [Shape]), and the
    callers' buffers are assumed to cover the ranges that are read. *)
Definition rd (b : list Z) (o : Z) : Z :=
  if o <? 0 then 0 else b !!! Z.to_nat o.

Definition wr (b : list Z) (o v : Z) : list Z :=
  if o <? 0 then b else <[Z.to_nat o := v mod 256]> b.

(** [Buffer.alloc(n)]: n zero bytes. *)
Definition alloc (n : Z) : list Z := replicate (Z.to_nat n) 0.

(** The [n] bytes of [b] from offset [o]. *)
Definition slice (b : list Z) (o : Z) (n : nat) : list Z :=
  map (fun j => rd b (o + Z.of_nat j)) (seq 0 n).

(** Sequential stores of the bytes [l] from offset [o]. *)
Fixpoint write_bytes (b : list Z) (o : Z) (l : list Z) : list Z :=
  match l with
  | [] => b
  | x :: l' => write_bytes (wr b o x) (o + 1) l'
  end.

(** The source of a copy: another buffer, or the very buffer written to
    ([vacate] copies a slot of [this.buffer] into [this.buffer]). *)
Inductive Src := Ext (b : list Z) | Self.

Definition src_rd (self : list Z) (s : Src) (o : Z) : Z :=
  match s with Ext b => rd b o | Self => rd self o end.

(** [t[tO + j] = s[sO + j]] for j = 0, 1, ..., n-1 in this order: the stores
    of [copy04] ... [copy256] and of the generic loops. *)
Fixpoint copy_loop (n : nat) (s : Src) (sO : Z) (t : list Z) (tO : Z) : list Z :=
  match n with
  | O => t
  | S n' => copy_loop n' s (sO + 1) (wr t tO (src_rd t s sO)) (tO + 1)
  end.

(** [s.copy(t, tO, sO, sO + size)]: the source bytes are read before any
    is written. *)
Definition buffer_copy (n : nat) (s : Src) (sO : Z) (t : list Z) (tO : Z) : list Z :=
  write_bytes t tO (map (fun j => src_rd t s (sO + Z.of_nat j)) (seq 0 n)).

Fixpoint zero_loop (n : nat) (b : list Z) (offset : Z) : list Z :=
  match n with
  | O => b
  | S n' => zero_loop n' (wr b offset 0) (offset + 1)
  end.

Fixpoint equal_loop (n : nat) (a : list Z) (aOffset : Z) (b : list Z) (bOffset : Z) : Z :=
  match n with
  | O => 1
  | S n' =>
      if negb (rd a aOffset =? rd b bOffset) then 0
      else equal_loop n' a (aOffset + 1) b (bOffset + 1)
  end.

Definition equal (a : list Z) (aOffset : Z) (b : list Z) (bOffset size : Z) : Z :=
  equal_loop (Z.to_nat size) a aOffset b bOffset.

(* ================================================================= *)
(** ** The slot lookup table *)

Fixpoint SLOT_first (n : nat) (index slot : Z) : Z :=
  match n with
  | O => slot
  | S n' =>
      if Z.land index (Z.shiftl 1 slot) =? 0 then slot
      else SLOT_first n' index (slot + 1)
  end.

Definition SLOT : list Z :=
  map (fun index => SLOT_first 8 (Z.of_nat index) 0) (seq 0 256).

(* ================================================================= *)
(** ** Results *)

Inductive Res (S A : Type) : Type :=
| Ret (s : S) (a : A)
| Throw (s : S) (e : string).
Arguments Ret {S A} s a.
Arguments Throw {S A} s e.

Definition state_of {S A} (r : Res S A) : S :=
  match r with Ret s _ => s | Throw s _ => s end.

Definition ERROR_MAXIMUM_CAPACITY_EXCEEDED : string := "maximum capacity exceeded".
Definition ERROR_MODE : string := "cache() and set() methods are mutually exclusive".
Definition ERROR_SET : string := "set() failed despite multiple resize attempts".
Definition ERROR_COUNT : string := "count should not be 0".
Definition ERROR_VACATE : string := "bucket !== b1 && bucket !== b2".

Definition BUCKETS_MAX : Z := 65536.

(** [Assert.GE], [Assert.LE] and [Assert.P2] on integers; [None] when the
    check passes, the message of the error otherwise. *)
Definition Assert_GE (key : string) (value bound : Z) : option string :=
  if value <? bound then Some (key +:+ " must be at least " +:+ pretty bound) else None.

Definition Assert_LE (key : string) (value bound : Z) : option string :=
  if value >? bound then Some (key +:+ " must be at most " +:+ pretty bound) else None.

(** The operator [&] works on the low 32 bits of its operands. *)
Definition Assert_P2 (key : string) (value : Z) : option string :=
  if value <=? 0 then Some (key +:+ " must be greater than 0")
  else if negb (Z.land (value mod 2 ^ 32) ((value - 1) mod 2 ^ 32) =? 0)
  then Some (key +:+ " must be a power of 2")
  else None.

(* ================================================================= *)
(** ** The shard *)

Record Table := mkTable {
  keySize : Z;
  valueSize : Z;
  bucket : Z;
  buckets : Z;
  mask : Z;
  buffer : list Z
}.

Definition with_buffer (t : Table) (b : list Z) : Table :=
  mkTable (keySize t) (valueSize t) (bucket t) (buckets t) (mask t) b.

(** [this.buffer[o]] and [this.buffer[o] = v]. *)
Definition bget (t : Table) (o : Z) : Z := rd (buffer t) o.
Definition bset (t : Table) (o v : Z) : Table := with_buffer t (wr (buffer t) o v).

Definition new_Table (keySize valueSize bucket buckets : Z) : Table :=
  mkTable keySize valueSize bucket buckets (buckets - 1) (alloc (bucket * buckets)).

Definition keyOffset (t : Table) (bucket slot : Z) : Z :=
  bucket + 20 + (keySize t + valueSize t) * slot.

Definition valueOffset (t : Table) (bucket slot : Z) : Z :=
  bucket + 20 + (keySize t + valueSize t) * slot + keySize t.

(** [copy(size)]: the sizes that have an unrolled routine. *)
Definition copy (size : Z) : option nat :=
  if existsb (Z.eqb size) [0; 4; 8; 16; 20; 32; 48; 64; 128; 256]
  then Some (Z.to_nat size) else None.

Definition copyKeyGeneric (t : Table) (s : Src) (sO : Z) (tg : list Z) (tO : Z) : list Z :=
  copy_loop (Z.to_nat (keySize t)) s sO tg tO.

Definition copyValueGeneric (t : Table) (s : Src) (sO : Z) (tg : list Z) (tO : Z) : list Z :=
  if valueSize t <? 128 then copy_loop (Z.to_nat (valueSize t)) s sO tg tO
  else buffer_copy (Z.to_nat (valueSize t)) s sO tg tO.

Definition copyKey (t : Table) (s : Src) (sO : Z) (tg : list Z) (tO : Z) : list Z :=
  match copy (keySize t) with
  | Some n => copy_loop n s sO tg tO
  | None => copyKeyGeneric t s sO tg tO
  end.

Definition copyValue (t : Table) (s : Src) (sO : Z) (tg : list Z) (tO : Z) : list Z :=
  match copy (valueSize t) with
  | Some n => copy_loop n s sO tg tO
  | None => copyValueGeneric t s sO tg tO
  end.

Definition zero (t : Table) (offset size : Z) : Table :=
  with_buffer t (zero_loop (Z.to_nat size) (buffer t) offset).

Definition assign (t : Table) (bucket tag slot : Z)
    (key : Src) (keyOff : Z) (value : Src) (valueOff : Z) : Table :=
  let t := bset t (bucket + 9) (Z.lor (bget t (bucket + 9)) (Z.shiftl 1 slot)) in
  let t := bset t (bucket + 9 + 1 + slot) tag in
  let t := with_buffer t (copyKey t key keyOff (buffer t) (keyOffset t bucket slot)) in
  with_buffer t (copyValue t value valueOff (buffer t) (valueOffset t bucket slot)).

Fixpoint scan_loop (n : nat) (t : Table) (bucket tag : Z) (key : list Z) (keyOff : Z) (slot : Z) : Z :=
  match n with
  | O => slot
  | S n' =>
      if (bget t (bucket + 9 + 1 + slot) =? tag)
         && negb (Z.land (bget t (bucket + 9)) (Z.shiftl 1 slot) =? 0)
         && negb (equal (buffer t) (keyOffset t bucket slot) key keyOff (keySize t) =? 0)
      then slot
      else scan_loop n' t bucket tag key keyOff (slot + 1)
  end.

Definition scan (t : Table) (bucket tag : Z) (key : list Z) (keyOff : Z) : Z :=
  scan_loop 8 t bucket tag key keyOff 0.

(** The CLOCK sweep: at most nine ticks. *)
Fixpoint evict_loop (tick : nat) (t : Table) (bucket : Z) (slot : Z) : Table * Z :=
  match tick with
  | O => (t, slot)
  | S tick' =>
      let slot := bget t (bucket + 18 + 1) in
      let t := bset t (bucket + 18 + 1) (Z.land (bget t (bucket + 18 + 1) + 1) 7) in
      if Z.land (bget t (bucket + 18)) (Z.shiftl 1 slot) =? 0 then (t, slot)
      else
        let t := bset t (bucket + 18)
                   (Z.land (bget t (bucket + 18)) (Z.lnot (Z.shiftl 1 slot))) in
        evict_loop tick' t bucket slot
  end.

Definition evict (t : Table) (bucket : Z) : Table * Z :=
  evict_loop 9 t bucket 0.

Fixpoint filterReset_loop (n : nat) (t : Table) (bucket filter slot : Z) : Table :=
  match n with
  | O => t
  | S n' =>
      let t :=
        if negb (Z.land (bget t (bucket + 9)) (Z.shiftl 1 slot) =? 0) then
          let tag := bget t (bucket + 9 + 1 + slot) in
          let f1 := Z.land (Z.shiftr tag 4) 7 in
          if f1 =? filter then
            let f2 := Z.shiftl 1 (Z.land tag 7) in
            bset t (bucket + filter) (Z.lor (bget t (bucket + filter)) f2)
          else t
        else t in
      filterReset_loop n' t bucket filter (slot + 1)
  end.

Definition filterReset (t : Table) (bucket filter : Z) : Table :=
  if negb (bget t (bucket + 8) =? 0) then t
  else if bget t (bucket + filter) =? 0 then t
  else filterReset_loop 8 (bset t (bucket + filter) 0) bucket filter 0.

Fixpoint filterReset_all (n : nat) (t : Table) (bucket filter : Z) : Table :=
  match n with
  | O => t
  | S n' => filterReset_all n' (filterReset t bucket filter) bucket (filter + 1)
  end.

Definition filterDecrementSecondPosition (t : Table) (bucket : Z) : Res Table unit :=
  if bget t (bucket + 8) =? 0 then Throw t ERROR_COUNT
  else if bget t (bucket + 8) <? 255 then
    let t := bset t (bucket + 8) (bget t (bucket + 8) - 1) in
    if bget t (bucket + 8) =? 0 then Ret (filterReset_all 8 t bucket 0) tt
    else Ret t tt
  else Ret t tt.

Definition filterIncrementSecondPosition (t : Table) (bucket : Z) : Table :=
  if bget t (bucket + 8) <? 255 then bset t (bucket + 8) (bget t (bucket + 8) + 1)
  else t.

(** The tag of a hash, and the filter and the filter bit of a tag. *)
Definition tag_of (h1 : Z) : Z := Z.land (Z.shiftr h1 16) 255.
Definition filter_of (tag : Z) : Z := Z.land (Z.shiftr tag 4) 7.
Definition bit_of (tag : Z) : Z := Z.shiftl 1 (Z.land tag 7).

Definition Table_exist (t : Table) (h1 h2 : Z) (key : list Z) (keyOff : Z) : Z :=
  let tag := Z.land (Z.shiftr h1 16) 255 in
  let b1 := Z.land h1 (mask t) * bucket t in
  let b2 := Z.land h2 (mask t) * bucket t in
  let f1 := Z.land (Z.shiftr tag 4) 7 in
  let f2 := Z.shiftl 1 (Z.land tag 7) in
  if negb (Z.land (bget t (b1 + f1)) f2 =? 0) then
    let s1 := scan t b1 tag key keyOff in
    if s1 <? 8 then 1
    else
      let s2 := scan t b2 tag key keyOff in
      if s2 <? 8 then 1 else 0
  else 0.

(** [get] returns the shard, the caller's value buffer and the result. *)
Definition Table_get (t : Table) (h1 h2 : Z) (key : list Z) (keyOff : Z)
    (value : list Z) (valueOff : Z) : Table * list Z * Z :=
  let tag := Z.land (Z.shiftr h1 16) 255 in
  let b1 := Z.land h1 (mask t) * bucket t in
  let b2 := Z.land h2 (mask t) * bucket t in
  let f1 := Z.land (Z.shiftr tag 4) 7 in
  let f2 := Z.shiftl 1 (Z.land tag 7) in
  if negb (Z.land (bget t (b1 + f1)) f2 =? 0) then
    let s1 := scan t b1 tag key keyOff in
    if s1 <? 8 then
      let t := bset t (b1 + 18) (Z.lor (bget t (b1 + 18)) (Z.shiftl 1 s1)) in
      (t, copyValue t (Ext (buffer t)) (valueOffset t b1 s1) value valueOff, 1)
    else
      let s2 := scan t b2 tag key keyOff in
      if s2 <? 8 then
        let t := bset t (b2 + 18) (Z.lor (bget t (b2 + 18)) (Z.shiftl 1 s2)) in
        (t, copyValue t (Ext (buffer t)) (valueOffset t b2 s2) value valueOff, 1)
      else (t, value, 0)
  else (t, value, 0).

(** The part of [cache] that follows the search for the key: evict a
    slot of the first-position bucket and store the new element there. *)
Definition cache_evict (t : Table) (tag b1 f1 f2 : Z) (key : list Z) (keyOff : Z)
    (value : list Z) (valueOff : Z) : Table * Z :=
  let '(t, s3) := evict t b1 in
  let eviction := Z.land (bget t (b1 + 9)) (Z.shiftl 1 s3) in
  let t :=
    if negb (eviction =? 0) then
      let t := bset t (b1 + 9) (Z.land (bget t (b1 + 9)) (Z.lnot (Z.shiftl 1 s3))) in
      filterReset t b1 (Z.land (bget t (b1 + 9 + 1 + s3)) 7)
    else t in
  let t := assign t b1 tag s3 (Ext key) keyOff (Ext value) valueOff in
  let t := bset t (b1 + f1) (Z.lor (bget t (b1 + f1)) f2) in
  let t := bset t (b1 + 18) (Z.lor (bget t (b1 + 18)) (Z.shiftl 1 s3)) in
  (t, if negb (eviction =? 0) then 2 else 0).

Definition Table_cache (t : Table) (h1 h2 : Z) (key : list Z) (keyOff : Z)
    (value : list Z) (valueOff : Z) : Table * Z :=
  let tag := Z.land (Z.shiftr h1 16) 255 in
  let b1 := Z.land h1 (mask t) * bucket t in
  let f1 := Z.land (Z.shiftr tag 4) 7 in
  let f2 := Z.shiftl 1 (Z.land tag 7) in
  if negb (Z.land (bget t (b1 + f1)) f2 =? 0) then
    let s1 := scan t b1 tag key keyOff in
    if s1 <? 8 then
      let t := bset t (b1 + 18) (Z.lor (bget t (b1 + 18)) (Z.shiftl 1 s1)) in
      (with_buffer t (copyValue t (Ext value) valueOff (buffer t) (valueOffset t b1 s1)), 1)
    else cache_evict t tag b1 f1 f2 key keyOff value valueOff
  else cache_evict t tag b1 f1 f2 key keyOff value valueOff.

Section Hashing.

(** The entropy table of the tabulation hash: 64 * 256 * 2 random 32-bit
    words, fixed for the life of the process. *)
Variable TABLE : Z -> Z.

(** [buffer.kMaxLength] of the host. *)
Variable BUFFER_MAX : Z.

(** Every statement of this section is about one host: a table of entropy
    and a maximum buffer length. *)
Set Default Proof Using "All".

Fixpoint Hash_loop (n : nat) (key : list Z) (keyOff keySize i h1 h2 : Z) : Z * Z :=
  match n with
  | O => (h1, h2)
  | S n' =>
      if i <? keySize then
        let h1 := Z.lxor h1
          (Z.lxor (Z.lxor (Z.lxor
            (TABLE (Z.shiftl (Z.shiftl i 1 + 0) 8 + rd key (keyOff + i + 0)))
            (TABLE (Z.shiftl (Z.shiftl i 1 + 1) 8 + rd key (keyOff + i + 1))))
            (TABLE (Z.shiftl (Z.shiftl i 1 + 2) 8 + rd key (keyOff + i + 2))))
            (TABLE (Z.shiftl (Z.shiftl i 1 + 3) 8 + rd key (keyOff + i + 3)))) in
        let h2 := Z.lxor h2
          (Z.lxor (Z.lxor (Z.lxor
            (TABLE (Z.shiftl (Z.shiftl i 1 + 4) 8 + rd key (keyOff + i + 0)))
            (TABLE (Z.shiftl (Z.shiftl i 1 + 5) 8 + rd key (keyOff + i + 1))))
            (TABLE (Z.shiftl (Z.shiftl i 1 + 6) 8 + rd key (keyOff + i + 2))))
            (TABLE (Z.shiftl (Z.shiftl i 1 + 7) 8 + rd key (keyOff + i + 3)))) in
        Hash_loop n' key keyOff keySize (i + 4) h1 h2
      else (h1, h2)
  end.

(** [Hash(key, keyOffset, keySize)]; the pair stands for the two module
    variables [H1] and [H2] it assigns.  The loop adds 4 to [i] each round,
    so [keySize] rounds always reach [i >= keySize]. *)
Definition Hash (key : list Z) (keyOff keySize : Z) : Z * Z :=
  Hash_loop (Z.to_nat keySize) key keyOff keySize 0 0 0.

Fixpoint vacate_loop (n : nat) (t : Table) (bkt slot : Z) : Res Table Z :=
  match n with
  | O => Ret t slot
  | S n' =>
      let keyOff := keyOffset t bkt slot in
      let valueOff := valueOffset t bkt slot in
      let '(H1, H2) := Hash (buffer t) keyOff (keySize t) in
      let tag := Z.land (Z.shiftr H1 16) 255 in
      let b1 := Z.land H1 (mask t) * bucket t in
      let b2 := Z.land H2 (mask t) * bucket t in
      if bkt =? b1 then
        let s2 := rd SLOT (bget t (b2 + 9)) in
        if s2 <? 8 then
          let t := assign t b2 tag s2 Self keyOff Self valueOff in
          let t := filterIncrementSecondPosition t b1 in
          Ret t slot
        else vacate_loop n' t bkt (slot + 1)
      else if bkt =? b2 then
        let s1 := rd SLOT (bget t (b1 + 9)) in
        if s1 <? 8 then
          let t := assign t b1 tag s1 Self keyOff Self valueOff in
          match filterDecrementSecondPosition t b1 with
          | Ret t _ => Ret t slot
          | Throw t e => Throw t e
          end
        else vacate_loop n' t bkt (slot + 1)
      else Throw t ERROR_VACATE
  end.

Definition vacate (t : Table) (bkt : Z) : Res Table Z :=
  vacate_loop 8 t bkt 0.

(** The part of [set] that follows the search for the key: the four
    attempts to find a slot for a new element. *)
Definition set_insert (t : Table) (tag b1 b2 f1 f2 : Z) (key : list Z) (keyOff : Z)
    (value : list Z) (valueOff : Z) : Res Table Z :=
  let s3 := rd SLOT (bget t (b1 + 9)) in
  if s3 <? 8 then
    let t := assign t b1 tag s3 (Ext key) keyOff (Ext value) valueOff in
    Ret (bset t (b1 + f1) (Z.lor (bget t (b1 + f1)) f2)) 0
  else
    let s4 := rd SLOT (bget t (b2 + 9)) in
    if s4 <? 8 then
      let t := assign t b2 tag s4 (Ext key) keyOff (Ext value) valueOff in
      let t := bset t (b1 + f1) (Z.lor (bget t (b1 + f1)) f2) in
      Ret (filterIncrementSecondPosition t b1) 0
    else
      match vacate t b1 with
      | Throw t e => Throw t e
      | Ret t s5 =>
          if s5 <? 8 then
            let t := assign t b1 tag s5 (Ext key) keyOff (Ext value) valueOff in
            Ret (bset t (b1 + f1) (Z.lor (bget t (b1 + f1)) f2)) 0
          else
            match vacate t b2 with
            | Throw t e => Throw t e
            | Ret t s6 =>
                if s6 <? 8 then
                  let t := assign t b2 tag s6 (Ext key) keyOff (Ext value) valueOff in
                  let t := bset t (b1 + f1) (Z.lor (bget t (b1 + f1)) f2) in
                  Ret (filterIncrementSecondPosition t b1) 0
                else Ret t (-1)
            end
      end.

Definition Table_set (t : Table) (h1 h2 : Z) (key : list Z) (keyOff : Z)
    (value : list Z) (valueOff : Z) : Res Table Z :=
  let tag := Z.land (Z.shiftr h1 16) 255 in
  let b1 := Z.land h1 (mask t) * bucket t in
  let b2 := Z.land h2 (mask t) * bucket t in
  let f1 := Z.land (Z.shiftr tag 4) 7 in
  let f2 := Z.shiftl 1 (Z.land tag 7) in
  if negb (Z.land (bget t (b1 + f1)) f2 =? 0) then
    let s1 := scan t b1 tag key keyOff in
    if s1 <? 8 then
      Ret (with_buffer t (copyValue t (Ext value) valueOff (buffer t) (valueOffset t b1 s1))) 1
    else
      let s2 := scan t b2 tag key keyOff in
      if s2 <? 8 then
        Ret (with_buffer t (copyValue t (Ext value) valueOff (buffer t) (valueOffset t b2 s2))) 1
      else set_insert t tag b1 b2 f1 f2 key keyOff value valueOff
  else set_insert t tag b1 b2 f1 f2 key keyOff value valueOff.

Definition Table_unset (t : Table) (h1 h2 : Z) (key : list Z) (keyOff : Z) : Res Table Z :=
  let tag := Z.land (Z.shiftr h1 16) 255 in
  let b1 := Z.land h1 (mask t) * bucket t in
  let b2 := Z.land h2 (mask t) * bucket t in
  let f1 := Z.land (Z.shiftr tag 4) 7 in
  let f2 := Z.shiftl 1 (Z.land tag 7) in
  if negb (Z.land (bget t (b1 + f1)) f2 =? 0) then
    let s1 := scan t b1 tag key keyOff in
    if s1 <? 8 then
      let t := bset t (b1 + 9) (Z.land (bget t (b1 + 9)) (Z.lnot (Z.shiftl 1 s1))) in
      let t := bset t (b1 + 9 + 1 + s1) 0 in
      let t := zero t (keyOffset t b1 s1) (keySize t) in
      let t := zero t (valueOffset t b1 s1) (valueSize t) in
      Ret (filterReset t b1 f1) 1
    else
      let s2 := scan t b2 tag key keyOff in
      if s2 <? 8 then
        let t := bset t (b2 + 9) (Z.land (bget t (b2 + 9)) (Z.lnot (Z.shiftl 1 s2))) in
        let t := bset t (b2 + 9 + 1 + s2) 0 in
        let t := zero t (keyOffset t b2 s2) (keySize t) in
        let t := zero t (valueOffset t b2 s2) (valueSize t) in
        match filterDecrementSecondPosition t b1 with
        | Ret t _ => Ret t 1
        | Throw t e => Throw t e
        end
      else Ret t 0
  else Ret t 0.

(** The rebuild loops of [resize]: [old] is the buffer being left; the
    boolean is [false] when a [set] returned -1. *)
Fixpoint resize_slots (n : nat) (t : Table) (old : list Z) (bkt slot : Z) : Res Table bool :=
  match n with
  | O => Ret t true
  | S n' =>
      if negb (Z.land (rd old (bkt + 9)) (Z.shiftl 1 slot) =? 0) then
        let keyOff := keyOffset t bkt slot in
        let valueOff := valueOffset t bkt slot in
        let '(H1, H2) := Hash old keyOff (keySize t) in
        match Table_set t H1 H2 old keyOff old valueOff with
        | Throw t e => Throw t e
        | Ret t r =>
            if r =? -1 then Ret t false
            else resize_slots n' t old bkt (slot + 1)
        end
      else resize_slots n' t old bkt (slot + 1)
  end.

Fixpoint resize_loop (n : nat) (t : Table) (old : list Z) (index : Z) : Res Table bool :=
  match n with
  | O => Ret t true
  | S n' =>
      match resize_slots 8 t old (index * bucket t) 0 with
      | Throw t e => Throw t e
      | Ret t false => Ret t false
      | Ret t true => resize_loop n' t old (index + 1)
      end
  end.

Definition resize (t : Table) (resizeBuckets : Z) : Res Table Z :=
  match Assert_GE "resizeBuckets" resizeBuckets (buckets t * 2) with
  | Some e => Throw t e
  | None =>
  match Assert_P2 "resizeBuckets" resizeBuckets with
  | Some e => Throw t e
  | None =>
      if (resizeBuckets >? BUCKETS_MAX) || (bucket t * resizeBuckets >? BUFFER_MAX)
      then Throw t ERROR_MAXIMUM_CAPACITY_EXCEEDED
      else
        let buckets0 := buckets t in
        let buffer0 := buffer t in
        let t := mkTable (keySize t) (valueSize t) (bucket t) resizeBuckets
                   (resizeBuckets - 1) (alloc (bucket t * resizeBuckets)) in
        match resize_loop (Z.to_nat buckets0) t buffer0 0 with
        | Throw t e => Throw t e
        | Ret t false =>
            Ret (mkTable (keySize t) (valueSize t) (bucket t) buckets0
                   (buckets0 - 1) buffer0) 0
        | Ret t true => Ret t 1
        end
  end end.

(* ================================================================= *)
(** ** The coordinator *)

Record HashTable := mkHashTable {
  ht_keySize : Z;
  ht_valueSize : Z;
  ht_bucket : Z;
  capacity : Z;
  ht_length : Z;
  ht_mask : Z;
  mode : Z;
  tables : list Table
}.

#[local] Instance Table_inhabited : Inhabited Table :=
  populate (mkTable 0 0 0 0 0 []).

(** The fallback value buffer when [valueSize] is 0. *)
Definition VALUE : list Z := alloc 0.

Definition with_mode (h : HashTable) (m : Z) : HashTable :=
  mkHashTable (ht_keySize h) (ht_valueSize h) (ht_bucket h) (capacity h)
    (ht_length h) (ht_mask h) m (tables h).

Definition with_length (h : HashTable) (n : Z) : HashTable :=
  mkHashTable (ht_keySize h) (ht_valueSize h) (ht_bucket h) (capacity h)
    n (ht_mask h) (mode h) (tables h).

Definition with_capacity (h : HashTable) (c : Z) : HashTable :=
  mkHashTable (ht_keySize h) (ht_valueSize h) (ht_bucket h) c
    (ht_length h) (ht_mask h) (mode h) (tables h).

(** The shard at an index is an object mutated in place: [with_table]
    stores its new state at the same index. *)
Definition with_table (h : HashTable) (idx : Z) (t : Table) : HashTable :=
  mkHashTable (ht_keySize h) (ht_valueSize h) (ht_bucket h) (capacity h)
    (ht_length h) (ht_mask h) (mode h) (<[Z.to_nat idx := t]> (tables h)).

Definition shard_index (h : HashTable) (H1 H2 : Z) : Z :=
  Z.land (Z.lor (Z.shiftl (Z.shiftr H1 24) 8) (Z.shiftr H2 24)) (ht_mask h).

Definition shard (h : HashTable) (idx : Z) : Table := tables h !!! Z.to_nat idx.

(** [HashTable.bucket(keySize, valueSize)]: the stride of a bucket, as the
    method computes it once its checks have passed (the constructor makes
    the same checks before it calls the method). *)
Definition HashTable_bucket (keySize valueSize : Z) : Z :=
  ((20 + (keySize + valueSize) * 8 + 63) / 64) * 64.

Definition KEY_MIN : Z := 4.
Definition KEY_MAX : Z := 64.
Definition VALUE_MIN : Z := 0.
Definition VALUE_MAX : Z := 1048576.

(** The whole method, with its checks: the stride, or the message of the
    first check that fails. *)
Definition HashTable_bucket_checked (keySize valueSize : Z) : string + Z :=
  match Assert_GE "keySize" keySize KEY_MIN with
  | Some e => inl e
  | None =>
  match Assert_LE "keySize" keySize KEY_MAX with
  | Some e => inl e
  | None =>
  if negb (Z.rem keySize 4 =? 0) then inl "keySize must be a multiple of 4"
  else
  match Assert_GE "valueSize" valueSize VALUE_MIN with
  | Some e => inl e
  | None =>
  match Assert_LE "valueSize" valueSize VALUE_MAX with
  | Some e => inl e
  | None =>
      let bucket := HashTable_bucket keySize valueSize in
      match Assert_GE "bucket" bucket 0 with
      | Some e => inl e
      | None => inr bucket
      end
  end end end end.

(** The tail of the constructor, once the sizing helpers have chosen the
    number of shards ([buffers]) and of buckets per shard. *)
Definition new_HashTable (keySize valueSize buffers buckets : Z) : HashTable :=
  let bucket := HashTable_bucket keySize valueSize in
  mkHashTable keySize valueSize bucket (buffers * buckets * 8) 0 (buffers - 1) 0
    (replicate (Z.to_nat buffers) (new_Table keySize valueSize bucket buckets)).

Definition HashTable_cache (h : HashTable) (key : list Z) (keyOff : Z)
    (value : list Z) (valueOff : Z) : Res HashTable Z :=
  if mode h =? 1 then Throw h ERROR_MODE
  else
    let h := with_mode h 2 in
    let '(value, valueOff) :=
      if ht_valueSize h =? 0 then (VALUE, 0) else (value, valueOff) in
    let '(H1, H2) := Hash key keyOff (ht_keySize h) in
    let idx := shard_index h H1 H2 in
    let '(t, result) := Table_cache (shard h idx) H1 H2 key keyOff value valueOff in
    let h := with_table h idx t in
    let h := if result =? 0 then with_length h (ht_length h + 1) else h in
    Ret h result.

Definition HashTable_exist (h : HashTable) (key : list Z) (keyOff : Z) : Z :=
  let '(H1, H2) := Hash key keyOff (ht_keySize h) in
  Table_exist (shard h (shard_index h H1 H2)) H1 H2 key keyOff.

Definition HashTable_get (h : HashTable) (key : list Z) (keyOff : Z)
    (value : list Z) (valueOff : Z) : HashTable * list Z * Z :=
  let '(H1, H2) := Hash key keyOff (ht_keySize h) in
  let idx := shard_index h H1 H2 in
  if ht_valueSize h =? 0 then
    let '(t, _, result) := Table_get (shard h idx) H1 H2 key keyOff VALUE 0 in
    (with_table h idx t, value, result)
  else
    let '(t, value, result) := Table_get (shard h idx) H1 H2 key keyOff value valueOff in
    (with_table h idx t, value, result).

(** The retry loop of [set]: [resize] runs from 1 to 2. *)
Fixpoint set_retry (n : nat) (h : HashTable) (idx h1 h2 : Z) (key : list Z) (keyOff : Z)
    (value : list Z) (valueOff : Z) (resize_ : Z) : Res HashTable Z :=
  match n with
  | O => Throw h ERROR_SET
  | S n' =>
      let table := shard h idx in
      let buckets0 := buckets table in
      match resize table (Z.shiftl buckets0 resize_) with
      | Throw t e => Throw (with_table h idx t) e
      | Ret t r =>
          let h := with_table h idx t in
          if negb (r =? 0) then
            let h := with_capacity h (capacity h - buckets0 * 8) in
            let h := with_capacity h (capacity h + buckets t * 8) in
            match Table_set t h1 h2 key keyOff value valueOff with
            | Throw t e => Throw (with_table h idx t) e
            | Ret t result =>
                let h := with_table h idx t in
                if result =? 1 then Ret h 1
                else if result =? 0 then Ret (with_length h (ht_length h + 1)) 0
                else set_retry n' h idx h1 h2 key keyOff value valueOff (resize_ + 1)
            end
          else set_retry n' h idx h1 h2 key keyOff value valueOff (resize_ + 1)
      end
  end.

Definition HashTable_set (h : HashTable) (key : list Z) (keyOff : Z)
    (value : list Z) (valueOff : Z) : Res HashTable Z :=
  if mode h =? 2 then Throw h ERROR_MODE
  else
    let h := with_mode h 1 in
    let '(value, valueOff) :=
      if ht_valueSize h =? 0 then (VALUE, 0) else (value, valueOff) in
    let '(h1, h2) := Hash key keyOff (ht_keySize h) in
    let idx := shard_index h h1 h2 in
    match Table_set (shard h idx) h1 h2 key keyOff value valueOff with
    | Throw t e => Throw (with_table h idx t) e
    | Ret t result =>
        let h := with_table h idx t in
        if result =? 1 then Ret h 1
        else if result =? 0 then Ret (with_length h (ht_length h + 1)) 0
        else set_retry 2 h idx h1 h2 key keyOff value valueOff 1
    end.

Definition HashTable_unset (h : HashTable) (key : list Z) (keyOff : Z) : Res HashTable Z :=
  let '(H1, H2) := Hash key keyOff (ht_keySize h) in
  let idx := shard_index h H1 H2 in
  match Table_unset (shard h idx) H1 H2 key keyOff with
  | Throw t e => Throw (with_table h idx t) e
  | Ret t result =>
      let h := with_table h idx t in
      Ret (if result =? 1 then with_length h (ht_length h - 1) else h) result
  end.

(* ================================================================= *)
(** * Verification *)

(** ** Bytes and buffers *)

Definition byte (z : Z) : Prop := 0 <= z < 256.

Lemma byte_mod v : byte (v mod 256).
Proof. unfold byte. apply Z.mod_pos_bound. lia. Qed.

Lemma mod_byte v : byte v -> v mod 256 = v.
Proof. unfold byte. intros. apply Z.mod_small. lia. Qed.

Lemma length_wr b o v : length (wr b o v) = length b.
Proof. unfold wr. destruct (o <? 0); [done|]. by rewrite length_insert. Qed.

Lemma rd_wr_eq b o v :
  0 <= o < Z.of_nat (length b) -> rd (wr b o v) o = v mod 256.
Proof.
  intros. unfold rd, wr. destruct (o <? 0) eqn:E; [lia|].
  rewrite list_lookup_total_insert_eq; [done|lia].
Qed.

Lemma rd_wr_ne b o o' v : o <> o' -> rd (wr b o v) o' = rd b o'.
Proof.
  unfold rd, wr. intros. destruct (o' <? 0) eqn:E'; [done|].
  destruct (o <? 0) eqn:E; [done|].
  rewrite list_lookup_total_insert_ne; [done|lia].
Qed.

Lemma bytes_wr b o v : Forall byte b -> Forall byte (wr b o v).
Proof.
  intros. unfold wr. destruct (o <? 0); [done|].
  apply Forall_insert; [done|apply byte_mod].
Qed.

Lemma rd_byte b o : Forall byte b -> byte (rd b o).
Proof.
  intros Hb. unfold rd. destruct (o <? 0); [unfold byte; lia|].
  destruct (b !! Z.to_nat o) as [x|] eqn:E.
  - rewrite (list_lookup_total_correct _ _ _ E).
    eapply Forall_lookup_1; eauto.
  - rewrite list_lookup_total_alt, E. simpl. unfold byte. lia.
Qed.

Lemma length_write_bytes l : forall b o, length (write_bytes b o l) = length b.
Proof.
  induction l as [|x l IH]; intros; simpl; [done|].
  by rewrite IH, length_wr.
Qed.

Lemma bytes_write_bytes l : forall b o, Forall byte b -> Forall byte (write_bytes b o l).
Proof.
  induction l as [|x l IH]; intros; simpl; [done|].
  apply IH. by apply bytes_wr.
Qed.

Lemma rd_write_bytes_out l : forall b o o',
  o' < o \/ o + Z.of_nat (length l) <= o' ->
  rd (write_bytes b o l) o' = rd b o'.
Proof.
  induction l as [|x l IH]; intros b o o' H; simpl in *; [done|].
  rewrite IH by lia. apply rd_wr_ne. lia.
Qed.

Lemma rd_write_bytes_in l : forall b o (j : nat),
  0 <= o -> o + Z.of_nat (length l) <= Z.of_nat (length b) ->
  (j < length l)%nat ->
  rd (write_bytes b o l) (o + Z.of_nat j) = (l !!! j) mod 256.
Proof.
  induction l as [|x l IH]; intros b o j Ho Hl Hj; simpl in *; [lia|].
  destruct j as [|j].
  - rewrite rd_write_bytes_out by lia.
    replace (o + Z.of_nat 0) with o by lia.
    rewrite rd_wr_eq by lia. done.
  - replace (o + Z.of_nat (S j)) with (o + 1 + Z.of_nat j) by lia.
    rewrite IH; [done|lia|rewrite length_wr; lia|lia].
Qed.

Lemma length_slice b o n : length (slice b o n) = n.
Proof. unfold slice. by rewrite length_map, length_seq. Qed.

Lemma slice_lookup b o n (j : nat) :
  (j < n)%nat -> slice b o n !!! j = rd b (o + Z.of_nat j).
Proof.
  intros. unfold slice.
  rewrite (list_lookup_total_fmap (fun j => rd b (o + Z.of_nat j))).
  - rewrite lookup_total_seq_lt by done. done.
  - by rewrite length_seq.
Qed.

Lemma slice_ext b b' o o' n :
  (forall j : nat, (j < n)%nat -> rd b (o + Z.of_nat j) = rd b' (o' + Z.of_nat j)) ->
  slice b o n = slice b' o' n.
Proof.
  intros H. unfold slice. apply map_ext_in. intros j Hj.
  apply in_seq in Hj. apply H. lia.
Qed.

Lemma slice_inv b b' o o' n (j : nat) :
  slice b o n = slice b' o' n -> (j < n)%nat ->
  rd b (o + Z.of_nat j) = rd b' (o' + Z.of_nat j).
Proof.
  intros E Hj. rewrite <- !(slice_lookup _ _ n) by done. by rewrite E.
Qed.

Lemma bytes_slice b o n : Forall byte b -> Forall byte (slice b o n).
Proof.
  intros Hb. unfold slice. apply Forall_forall. intros x Hx.
  apply list_elem_of_In, in_map_iff in Hx. destruct Hx as [j [<- _]].
  by apply rd_byte.
Qed.

Lemma slice_write_bytes_out l b o o' n :
  o' + Z.of_nat n <= o \/ o + Z.of_nat (length l) <= o' ->
  slice (write_bytes b o l) o' n = slice b o' n.
Proof.
  intros H. apply slice_ext. intros j Hj. apply rd_write_bytes_out. lia.
Qed.

Lemma slice_write_bytes_in l b o :
  0 <= o -> o + Z.of_nat (length l) <= Z.of_nat (length b) ->
  Forall byte l ->
  slice (write_bytes b o l) o (length l) = l.
Proof.
  intros Ho Hl Hb. apply list_eq_same_length with (n := length l).
  - done.
  - apply length_slice.
  - intros i x y Hi Hx Hy.
    assert (By : byte y) by (eapply Forall_lookup_1; eauto).
    apply list_lookup_total_correct in Hx, Hy.
    rewrite slice_lookup in Hx by done.
    rewrite rd_write_bytes_in in Hx by done.
    rewrite Hy, mod_byte in Hx; done.
Qed.

Lemma slice_wr_out b o v o' n :
  o < o' \/ o' + Z.of_nat n <= o ->
  slice (wr b o v) o' n = slice b o' n.
Proof.
  intros H. apply slice_ext. intros j Hj. apply rd_wr_ne. lia.
Qed.

Lemma slice_S b o n : slice b o (S n) = rd b o :: slice b (o + 1) n.
Proof.
  unfold slice. simpl seq. simpl map. rewrite <- seq_shift, map_map.
  replace (o + Z.of_nat 0) with o by lia.
  f_equal. apply map_ext. intros j. f_equal. lia.
Qed.

(** Every copy routine stores the source bytes at the target. *)
Lemma copy_loop_Ext n : forall s sO t tO,
  copy_loop n (Ext s) sO t tO = write_bytes t tO (slice s sO n).
Proof.
  induction n as [|n IH]; intros; [done|].
  rewrite slice_S. simpl. by rewrite IH.
Qed.

Lemma copy_loop_Self n : forall sO t tO,
  sO + Z.of_nat n <= tO \/ tO + Z.of_nat n <= sO ->
  copy_loop n Self sO t tO = write_bytes t tO (slice t sO n).
Proof.
  induction n as [|n IH]; intros sO t tO H; [done|].
  rewrite slice_S. simpl. rewrite IH by lia.
  f_equal. apply slice_wr_out. lia.
Qed.

Lemma zero_loop_write n : forall b o,
  zero_loop n b o = write_bytes b o (replicate n 0).
Proof. induction n as [|n IH]; intros; [done|]. simpl. by rewrite IH. Qed.

Lemma equal_loop_spec n : forall a aO b bO,
  equal_loop n a aO b bO = if decide (slice a aO n = slice b bO n) then 1 else 0.
Proof.
  induction n as [|n IH]; intros; [done|].
  rewrite !slice_S. simpl.
  destruct (rd a aO =? rd b bO) eqn:E; simpl.
  - apply Z.eqb_eq in E. rewrite IH.
    repeat case_decide; try done; congruence.
  - apply Z.eqb_neq in E. case_decide; [congruence|done].
Qed.

(** ** Bits of a byte *)

Lemma byte_forallb (P : Z -> bool) :
  forallb P (seqZ 0 256) = true -> forall p, byte p -> P p = true.
Proof.
  intros H p Hp. rewrite forallb_forall in H. apply H.
  apply list_elem_of_In, elem_of_seqZ. unfold byte in Hp. lia.
Qed.

Lemma slot_forallb (P : Z -> bool) :
  forallb P (seqZ 0 8) = true -> forall s, 0 <= s < 8 -> P s = true.
Proof.
  intros H s Hs. rewrite forallb_forall in H. apply H.
  apply list_elem_of_In, elem_of_seqZ. lia.
Qed.

Lemma land_mask_range h m : 0 <= m -> 0 <= Z.land h m <= m.
Proof.
  intros. apply Z.ldiff_le; [done|].
  apply Z.bits_inj'. intros k Hk.
  rewrite Z.ldiff_spec, Z.land_spec, Z.bits_0.
  destruct (Z.testbit h k), (Z.testbit m k); done.
Qed.

Lemma testbit_bit s s' :
  0 <= s -> Z.testbit (Z.shiftl 1 s) s' = (s =? s').
Proof. intros. rewrite Z.shiftl_1_l. by apply Z.pow2_bits_eqb. Qed.

Lemma testbit_set p s s' :
  0 <= s -> Z.testbit (Z.lor p (Z.shiftl 1 s)) s' = Z.testbit p s' || (s =? s').
Proof. intros. by rewrite Z.lor_spec, testbit_bit. Qed.

Lemma testbit_clear p s s' :
  0 <= s -> 0 <= s' ->
  Z.testbit (Z.land p (Z.lnot (Z.shiftl 1 s))) s' = Z.testbit p s' && negb (s =? s').
Proof. intros. by rewrite Z.land_spec, Z.lnot_spec, testbit_bit. Qed.

Lemma byte_bits p s :
  byte p -> 0 <= s < 8 ->
  byte (Z.lor p (Z.shiftl 1 s)) /\
  byte (Z.land p (Z.lnot (Z.shiftl 1 s))) /\
  (Z.land p (Z.shiftl 1 s) =? 0) = negb (Z.testbit p s).
Proof.
  intros Hp Hs.
  pose (P := fun p => forallb (fun s =>
     (0 <=? Z.lor p (Z.shiftl 1 s)) && (Z.lor p (Z.shiftl 1 s) <? 256) &&
     (0 <=? Z.land p (Z.lnot (Z.shiftl 1 s))) &&
     (Z.land p (Z.lnot (Z.shiftl 1 s)) <? 256) &&
     Bool.eqb (Z.land p (Z.shiftl 1 s) =? 0) (negb (Z.testbit p s))) (seqZ 0 8)).
  assert (HP : P p = true) by (apply byte_forallb; [by vm_compute|done]).
  unfold P in HP. pose proof (slot_forallb _ HP s Hs) as H. simpl in H.
  rewrite !andb_true_iff in H. destruct H as [[[[H1 H2] H3] H4] H5].
  apply Bool.eqb_prop in H5. unfold byte. repeat split; try lia; done.
Qed.

Lemma byte_lor_bit p s : byte p -> 0 <= s < 8 -> byte (Z.lor p (Z.shiftl 1 s)).
Proof. intros. by apply byte_bits. Qed.

Lemma byte_clear_bit p s :
  byte p -> 0 <= s < 8 -> byte (Z.land p (Z.lnot (Z.shiftl 1 s))).
Proof. intros. by apply byte_bits. Qed.

Lemma land_bit_eqb p s :
  byte p -> 0 <= s < 8 -> (Z.land p (Z.shiftl 1 s) =? 0) = negb (Z.testbit p s).
Proof. intros. by apply byte_bits. Qed.

Lemma SLOT_spec p :
  byte p ->
  0 <= rd SLOT p <= 8 /\
  (rd SLOT p < 8 -> Z.testbit p (rd SLOT p) = false) /\
  (8 <= rd SLOT p -> p = 255).
Proof.
  intros Hp.
  pose (P := fun p =>
     (0 <=? rd SLOT p) && (rd SLOT p <=? 8) &&
     ((8 <=? rd SLOT p) || negb (Z.testbit p (rd SLOT p))) &&
     ((rd SLOT p <? 8) || (p =? 255))).
  assert (HP : P p = true) by (apply byte_forallb; [by vm_compute|done]).
  unfold P in HP. rewrite !andb_true_iff, !orb_true_iff in HP.
  destruct HP as [[[H1 H2] H3] H4]. repeat split; try lia.
  intros. destruct H3 as [H3|H3]; [lia|]. by apply negb_true_iff in H3.
Qed.

Lemma full_bits s : 0 <= s < 8 -> Z.testbit 255 s = true.
Proof. intros. by apply (slot_forallb (fun s => Z.testbit 255 s)). Qed.

Lemma byte_tag_of h : byte (tag_of h).
Proof.
  unfold tag_of, byte. change 255 with (Z.ones 8).
  rewrite Z.land_ones by lia. apply Z.mod_pos_bound. lia.
Qed.

Lemma filter_of_range tag : 0 <= filter_of tag < 8.
Proof.
  unfold filter_of. change 7 with (Z.ones 3).
  rewrite Z.land_ones by lia. apply Z.mod_pos_bound. lia.
Qed.

Lemma low3_range tag : 0 <= Z.land tag 7 < 8.
Proof.
  change 7 with (Z.ones 3).
  rewrite Z.land_ones by lia. apply Z.mod_pos_bound. lia.
Qed.

(** ** The shard as an array of buckets

    [Shape] is what the constructor and [resize] establish for the sizes
    and the buffer.  A bucket is addressed by its index [i] (its offset is
    [i * bucket t]); [reg] reads and [put] writes a run of bytes at the
    in-bucket offset [c]. *)

Definition Shape (t : Table) : Prop :=
  0 <= keySize t /\ keySize t mod 4 = 0 /\ 0 <= valueSize t /\
  20 + 8 * (keySize t + valueSize t) <= bucket t /\
  1 <= buckets t /\ mask t = buckets t - 1 /\
  Z.of_nat (length (buffer t)) = bucket t * buckets t /\
  Forall byte (buffer t).

Definition params (t : Table) : Z * Z * Z * Z * Z :=
  (keySize t, valueSize t, bucket t, buckets t, mask t).

Definition inb (t : Table) (i : Z) : Prop := 0 <= i < buckets t.

Definition reg (t : Table) (i c : Z) (n : nat) : list Z :=
  slice (buffer t) (i * bucket t + c) n.

Definition put (t : Table) (i c : Z) (l : list Z) : Table :=
  with_buffer t (write_bytes (buffer t) (i * bucket t + c) l).

(** One byte of the metadata of bucket [i]. *)
Definition M (t : Table) (i c : Z) : Z := bget t (i * bucket t + c).

Definition esize (t : Table) : Z := keySize t + valueSize t.

(** The key and the value stored in slot [s] of bucket [i]. *)
Definition K (t : Table) (i s : Z) : list Z :=
  reg t i (20 + esize t * s) (Z.to_nat (keySize t)).

Definition V (t : Table) (i s : Z) : list Z :=
  reg t i (20 + esize t * s + keySize t) (Z.to_nat (valueSize t)).

Lemma off_range S n i c len :
  0 <= i < n -> 0 <= c -> 0 <= len -> c + len <= S ->
  0 <= i * S + c /\ i * S + c + len <= S * n.
Proof. intros. nia. Qed.

Lemma off_sep S i i' c c' len len' :
  0 <= c -> 0 <= len -> c + len <= S ->
  0 <= c' -> 0 <= len' -> c' + len' <= S ->
  i <> i' ->
  i * S + c + len <= i' * S + c' \/ i' * S + c' + len' <= i * S + c.
Proof. intros. nia. Qed.

Lemma params_put t i c l : params (put t i c l) = params t.
Proof. done. Qed.

Lemma Shape_put t i c l : Shape t -> Shape (put t i c l).
Proof.
  unfold Shape. simpl. intros (?&?&?&?&?&?&?&?).
  rewrite length_write_bytes. repeat split; try done.
  by apply bytes_write_bytes.
Qed.

Lemma M_byte t i c : Shape t -> byte (M t i c).
Proof. intros (?&?&?&?&?&?&?&?). by apply rd_byte. Qed.

Lemma M_put_out t i c l i' c' :
  Shape t -> 0 <= c -> c + Z.of_nat (length l) <= bucket t ->
  0 <= c' < bucket t ->
  i' <> i \/ c' < c \/ c + Z.of_nat (length l) <= c' ->
  M (put t i c l) i' c' = M t i' c'.
Proof.
  intros Hs Hc Hl Hc' Hd. unfold M, bget, put. simpl.
  apply rd_write_bytes_out.
  destruct (decide (i' = i)) as [->|Hne]; [lia|].
  pose proof (off_sep (bucket t) i i' c c' (Z.of_nat (length l)) 1). lia.
Qed.

Lemma M_put_in t i c v :
  Shape t -> inb t i -> 0 <= c < bucket t ->
  M (put t i c [v]) i c = v mod 256.
Proof.
  intros Hs Hi Hc. unfold M, bget, put. simpl.
  destruct Hs as (?&?&?&?&?&?&?&?).
  apply rd_wr_eq. pose proof (off_range (bucket t) (buckets t) i c 1). unfold inb in Hi. lia.
Qed.

Lemma reg_put_out t i c l i' c' n :
  Shape t -> 0 <= c -> c + Z.of_nat (length l) <= bucket t ->
  0 <= c' -> c' + Z.of_nat n <= bucket t ->
  i' <> i \/ c' + Z.of_nat n <= c \/ c + Z.of_nat (length l) <= c' ->
  reg (put t i c l) i' c' n = reg t i' c' n.
Proof.
  intros Hs Hc Hl Hc' Hn Hd. unfold reg, put. simpl.
  apply slice_write_bytes_out.
  destruct (decide (i' = i)) as [->|Hne]; [lia|].
  pose proof (off_sep (bucket t) i i' c c' (Z.of_nat (length l)) (Z.of_nat n)). lia.
Qed.

Lemma reg_put_in t i c l :
  Shape t -> inb t i -> 0 <= c -> c + Z.of_nat (length l) <= bucket t ->
  Forall byte l ->
  reg (put t i c l) i c (length l) = l.
Proof.
  intros Hs Hi Hc Hl Hb. unfold reg, put. simpl.
  destruct Hs as (?&?&?&?&?&?&?&?).
  pose proof (off_range (bucket t) (buckets t) i c (Z.of_nat (length l))).
  unfold inb in Hi. apply slice_write_bytes_in; [lia|lia|done].
Qed.

Lemma reg_byte t i c n : Shape t -> Forall byte (reg t i c n).
Proof. intros (?&?&?&?&?&?&?&?). by apply bytes_slice. Qed.

Lemma length_reg t i c n : length (reg t i c n) = n.
Proof. apply length_slice. Qed.

Lemma slot_bounds t s :
  Shape t -> 0 <= s < 8 ->
  0 <= esize t * s /\ 20 + esize t * s + esize t <= bucket t.
Proof. unfold Shape, esize. intros (?&?&?&?&?&?&?&?) ?. nia. Qed.

Lemma slot_sep t s s' :
  Shape t -> s <> s' ->
  esize t * s + esize t <= esize t * s' \/ esize t * s' + esize t <= esize t * s.
Proof. unfold Shape, esize. intros (?&?&?&?&?&?&?&?) ?. nia. Qed.

(** Writing one metadata byte. *)
Lemma M_put_meta t i c v i' c' :
  Shape t -> inb t i -> 0 <= c < 20 -> 0 <= c' < 20 ->
  M (put t i c [v]) i' c' = if decide (i' = i /\ c' = c) then v mod 256 else M t i' c'.
Proof.
  intros Hs Hi Hc Hc'.
  assert (20 <= bucket t) by (unfold Shape in Hs; lia).
  case_decide as Hd.
  - destruct Hd as [-> ->]. apply M_put_in; [done|done|lia].
  - apply M_put_out; simpl; try done; lia.
Qed.

Lemma K_put_meta t i c v i' s' :
  Shape t -> 0 <= c < 20 -> 0 <= s' < 8 ->
  K (put t i c [v]) i' s' = K t i' s'.
Proof.
  intros Hs Hc Hs'. unfold K. change (esize (put t i c [v])) with (esize t).
  change (keySize (put t i c [v])) with (keySize t).
  pose proof (slot_bounds t s' Hs Hs').
  assert (0 <= keySize t /\ 0 <= valueSize t) as [??] by (unfold Shape in Hs; tauto).
  apply reg_put_out; simpl; try done; unfold esize in *; lia.
Qed.

Lemma V_put_meta t i c v i' s' :
  Shape t -> 0 <= c < 20 -> 0 <= s' < 8 ->
  V (put t i c [v]) i' s' = V t i' s'.
Proof.
  intros Hs Hc Hs'. unfold V. change (esize (put t i c [v])) with (esize t).
  change (keySize (put t i c [v])) with (keySize t).
  change (valueSize (put t i c [v])) with (valueSize t).
  pose proof (slot_bounds t s' Hs Hs').
  assert (0 <= keySize t /\ 0 <= valueSize t) as [??] by (unfold Shape in Hs; tauto).
  apply reg_put_out; simpl; try done; unfold esize in *; lia.
Qed.

(** Writing the key bytes of a slot. *)
Lemma M_put_key t i s l i' c' :
  Shape t -> 0 <= s < 8 -> length l = Z.to_nat (keySize t) -> 0 <= c' < 20 ->
  M (put t i (20 + esize t * s) l) i' c' = M t i' c'.
Proof.
  intros Hs Hr Hl Hc'.
  pose proof (slot_bounds t s Hs Hr).
  assert (0 <= keySize t /\ 0 <= valueSize t) as [??] by (unfold Shape in Hs; tauto).
  apply M_put_out; try done; unfold esize in *; lia.
Qed.

Lemma K_put_key t i s l i' s' :
  Shape t -> inb t i -> 0 <= s < 8 -> 0 <= s' < 8 ->
  length l = Z.to_nat (keySize t) -> Forall byte l ->
  K (put t i (20 + esize t * s) l) i' s' =
  if decide (i' = i /\ s' = s) then l else K t i' s'.
Proof.
  intros Hs Hi Hr Hr' Hl Hb. unfold K.
  change (esize (put t i _ l)) with (esize t).
  change (keySize (put t i _ l)) with (keySize t).
  pose proof (slot_bounds t s Hs Hr). pose proof (slot_bounds t s' Hs Hr').
  assert (0 <= keySize t /\ 0 <= valueSize t) as [??] by (unfold Shape in Hs; tauto).
  case_decide as Hd.
  - destruct Hd as [-> ->]. rewrite <- Hl.
    apply reg_put_in; try done; unfold esize in *; lia.
  - apply reg_put_out; try done; unfold esize in *; try lia.
    destruct (decide (i' = i)) as [->|]; [right|left; done].
    assert (s <> s') by (intros ->; tauto).
    pose proof (slot_sep t s s' Hs). unfold esize in *. lia.
Qed.

Lemma V_put_key t i s l i' s' :
  Shape t -> 0 <= s < 8 -> 0 <= s' < 8 ->
  length l = Z.to_nat (keySize t) ->
  V (put t i (20 + esize t * s) l) i' s' = V t i' s'.
Proof.
  intros Hs Hr Hr' Hl. unfold V.
  change (esize (put t i _ l)) with (esize t).
  change (keySize (put t i _ l)) with (keySize t).
  change (valueSize (put t i _ l)) with (valueSize t).
  pose proof (slot_bounds t s Hs Hr). pose proof (slot_bounds t s' Hs Hr').
  assert (0 <= keySize t /\ 0 <= valueSize t) as [??] by (unfold Shape in Hs; tauto).
  apply reg_put_out; try done; unfold esize in *; try lia.
  destruct (decide (i' = i)) as [->|]; [right|left; done].
  destruct (decide (s = s')) as [->|]; [lia|].
  pose proof (slot_sep t s s' Hs). unfold esize in *. lia.
Qed.

(** Writing the value bytes of a slot. *)
Lemma M_put_value t i s l i' c' :
  Shape t -> 0 <= s < 8 -> length l = Z.to_nat (valueSize t) -> 0 <= c' < 20 ->
  M (put t i (20 + esize t * s + keySize t) l) i' c' = M t i' c'.
Proof.
  intros Hs Hr Hl Hc'.
  pose proof (slot_bounds t s Hs Hr).
  assert (0 <= keySize t /\ 0 <= valueSize t) as [??] by (unfold Shape in Hs; tauto).
  apply M_put_out; try done; unfold esize in *; lia.
Qed.

Lemma K_put_value t i s l i' s' :
  Shape t -> 0 <= s < 8 -> 0 <= s' < 8 ->
  length l = Z.to_nat (valueSize t) ->
  K (put t i (20 + esize t * s + keySize t) l) i' s' = K t i' s'.
Proof.
  intros Hs Hr Hr' Hl. unfold K.
  change (esize (put t i _ l)) with (esize t).
  change (keySize (put t i _ l)) with (keySize t).
  pose proof (slot_bounds t s Hs Hr). pose proof (slot_bounds t s' Hs Hr').
  assert (0 <= keySize t /\ 0 <= valueSize t) as [??] by (unfold Shape in Hs; tauto).
  apply reg_put_out; try done; unfold esize in *; try lia.
  destruct (decide (i' = i)) as [->|]; [right|left; done].
  destruct (decide (s = s')) as [->|]; [lia|].
  pose proof (slot_sep t s s' Hs). unfold esize in *. lia.
Qed.

Lemma V_put_value t i s l i' s' :
  Shape t -> inb t i -> 0 <= s < 8 -> 0 <= s' < 8 ->
  length l = Z.to_nat (valueSize t) -> Forall byte l ->
  V (put t i (20 + esize t * s + keySize t) l) i' s' =
  if decide (i' = i /\ s' = s) then l else V t i' s'.
Proof.
  intros Hs Hi Hr Hr' Hl Hb. unfold V.
  change (esize (put t i _ l)) with (esize t).
  change (keySize (put t i _ l)) with (keySize t).
  change (valueSize (put t i _ l)) with (valueSize t).
  pose proof (slot_bounds t s Hs Hr). pose proof (slot_bounds t s' Hs Hr').
  assert (0 <= keySize t /\ 0 <= valueSize t) as [??] by (unfold Shape in Hs; tauto).
  case_decide as Hd.
  - destruct Hd as [-> ->]. rewrite <- Hl.
    apply reg_put_in; try done; unfold esize in *; lia.
  - apply reg_put_out; try done; unfold esize in *; try lia.
    destruct (decide (i' = i)) as [->|]; [right|left; done].
    assert (s <> s') by (intros ->; tauto).
    pose proof (slot_sep t s s' Hs). unfold esize in *. lia.
Qed.

(** ** The fields of a bucket *)

Definition P (t : Table) (i s : Z) : bool := Z.testbit (M t i 9) s.
Definition TG (t : Table) (i s : Z) : Z := M t i (10 + s).
Definition F (t : Table) (i f : Z) : Z := M t i f.
Definition C (t : Table) (i : Z) : Z := M t i 8.
Definition HD (t : Table) (i : Z) : Z := M t i 19.

Lemma bget_tag t i s : bget t (i * bucket t + 9 + 1 + s) = TG t i s.
Proof. unfold TG, M. f_equal. lia. Qed.

Lemma bget_hand t i : bget t (i * bucket t + 18 + 1) = M t i 19.
Proof. unfold M. f_equal. lia. Qed.

Lemma keyOffset_eq t i s :
  keyOffset t (i * bucket t) s = i * bucket t + (20 + esize t * s).
Proof. unfold keyOffset, esize. lia. Qed.

Lemma valueOffset_eq t i s :
  valueOffset t (i * bucket t) s = i * bucket t + (20 + esize t * s + keySize t).
Proof. unfold valueOffset, esize. lia. Qed.

Lemma present_test t i s :
  Shape t -> 0 <= s < 8 ->
  (Z.land (bget t (i * bucket t + 9)) (Z.shiftl 1 s) =? 0) = negb (P t i s).
Proof. intros. apply land_bit_eqb; [by apply M_byte|done]. Qed.

Lemma bset_put t i c v : bset t (i * bucket t + c) v = put t i c [v].
Proof. done. Qed.

Lemma bset_tag_put t i s v : bset t (i * bucket t + 9 + 1 + s) v = put t i (10 + s) [v].
Proof. unfold bset, put. simpl. do 2 f_equal. lia. Qed.

Lemma bset_hand_put t i v : bset t (i * bucket t + 18 + 1) v = put t i 19 [v].
Proof. unfold bset, put. simpl. do 2 f_equal. lia. Qed.

(** ** The copy routines *)

Lemma copyKey_Ext t s sO tg tO :
  copyKey t (Ext s) sO tg tO = write_bytes tg tO (slice s sO (Z.to_nat (keySize t))).
Proof.
  unfold copyKey, copy, copyKeyGeneric.
  destruct (existsb _ _); apply copy_loop_Ext.
Qed.

Lemma copyValue_Ext t s sO tg tO :
  copyValue t (Ext s) sO tg tO = write_bytes tg tO (slice s sO (Z.to_nat (valueSize t))).
Proof.
  unfold copyValue, copy, copyValueGeneric.
  destruct (existsb _ _); [apply copy_loop_Ext|].
  destruct (valueSize t <? 128); [apply copy_loop_Ext|done].
Qed.

Lemma copyKey_Self t sO tg tO :
  sO + keySize t <= tO \/ tO + keySize t <= sO -> 0 <= keySize t ->
  copyKey t Self sO tg tO = write_bytes tg tO (slice tg sO (Z.to_nat (keySize t))).
Proof.
  intros. unfold copyKey, copy, copyKeyGeneric.
  destruct (existsb _ _); apply copy_loop_Self; lia.
Qed.

Lemma copyValue_Self t sO tg tO :
  sO + valueSize t <= tO \/ tO + valueSize t <= sO -> 0 <= valueSize t ->
  copyValue t Self sO tg tO = write_bytes tg tO (slice tg sO (Z.to_nat (valueSize t))).
Proof.
  intros. unfold copyValue, copy, copyValueGeneric.
  destruct (existsb _ _); [apply copy_loop_Self; lia|].
  destruct (valueSize t <? 128); [apply copy_loop_Self; lia|done].
Qed.

(** ** Hashing depends on the key bytes only *)

Lemma rd_slice b o n x :
  0 <= x < Z.of_nat n -> rd (slice b o n) x = rd b (o + x).
Proof.
  intros. unfold rd at 1. destruct (x <? 0) eqn:E; [lia|].
  rewrite slice_lookup by lia. f_equal. lia.
Qed.

Lemma Hash_loop_ext key ko key' ko' ks :
  (forall x, 0 <= x < ks -> rd key (ko + x) = rd key' (ko' + x)) ->
  ks mod 4 = 0 ->
  forall n i h1 h2, 0 <= i -> i mod 4 = 0 ->
  Hash_loop n key ko ks i h1 h2 = Hash_loop n key' ko' ks i h1 h2.
Proof.
  intros Hrd Hks. induction n as [|n IH]; intros i h1 h2 Hi Hi4; [done|].
  simpl. destruct (i <? ks) eqn:E; [|done].
  assert (i + 4 <= ks /\ (i + 4) mod 4 = 0) as [??]
    by (apply Z.ltb_lt in E; Z.div_mod_to_equations; lia).
  replace (ko + i + 0) with (ko + (i + 0)) by lia.
  replace (ko + i + 1) with (ko + (i + 1)) by lia.
  replace (ko + i + 2) with (ko + (i + 2)) by lia.
  replace (ko + i + 3) with (ko + (i + 3)) by lia.
  replace (ko' + i + 0) with (ko' + (i + 0)) by lia.
  replace (ko' + i + 1) with (ko' + (i + 1)) by lia.
  replace (ko' + i + 2) with (ko' + (i + 2)) by lia.
  replace (ko' + i + 3) with (ko' + (i + 3)) by lia.
  rewrite !Hrd by lia. apply IH; lia.
Qed.

(** The hashes of a key given by its bytes. *)
Definition hashk (t : Table) (k : list Z) : Z * Z := Hash k 0 (keySize t).

Lemma Hash_slice t key ko :
  Shape t -> Hash key ko (keySize t) = hashk t (slice key ko (Z.to_nat (keySize t))).
Proof.
  intros (?&?&?). unfold hashk, Hash. apply Hash_loop_ext; [|done|lia|done].
  intros x Hx. rewrite rd_slice by lia. f_equal; lia.
Qed.

Lemma Hash_slot t i s :
  Shape t ->
  Hash (buffer t) (keyOffset t (i * bucket t) s) (keySize t) = hashk t (K t i s).
Proof. intros. rewrite Hash_slice by done. by rewrite keyOffset_eq. Qed.

(** The first- and second-position bucket and the tag of a key. *)
Definition home (t : Table) (k : list Z) : Z := Z.land (fst (hashk t k)) (mask t).
Definition alt (t : Table) (k : list Z) : Z := Z.land (snd (hashk t k)) (mask t).
Definition tagk (t : Table) (k : list Z) : Z := tag_of (fst (hashk t k)).

Lemma home_inb t k : Shape t -> inb t (home t k).
Proof.
  intros (?&?&?&?&?&Hm&?). unfold inb, home.
  pose proof (land_mask_range (fst (hashk t k)) (mask t)). lia.
Qed.

Lemma alt_inb t k : Shape t -> inb t (alt t k).
Proof.
  intros (?&?&?&?&?&Hm&?). unfold inb, alt.
  pose proof (land_mask_range (snd (hashk t k)) (mask t)). lia.
Qed.

(** ** Counting over the slots of a shard *)

Definition b2z (b : bool) : Z := if b then 1 else 0.

Fixpoint sum_upto (n : nat) (f : Z -> Z) : Z :=
  match n with
  | O => 0
  | S n' => sum_upto n' f + f (Z.of_nat n')
  end.

(** The sum of [f i s] over the buckets [i < n] and their eight slots. *)
Definition grid (n : Z) (f : Z -> Z -> Z) : Z :=
  sum_upto (Z.to_nat n) (fun i => sum_upto 8 (fun s => f i s)).

Lemma sum_upto_ext n f g :
  (forall j, 0 <= j < Z.of_nat n -> f j = g j) -> sum_upto n f = sum_upto n g.
Proof.
  induction n as [|n IH]; intros H; [done|].
  simpl. rewrite IH, H; [done|lia|]. intros. apply H. lia.
Qed.

Lemma sum_upto_change n f g j0 :
  0 <= j0 < Z.of_nat n ->
  (forall j, 0 <= j < Z.of_nat n -> j <> j0 -> g j = f j) ->
  sum_upto n g = sum_upto n f - f j0 + g j0.
Proof.
  induction n as [|n IH]; intros Hj H; [lia|].
  simpl. destruct (decide (j0 = Z.of_nat n)) as [->|Hne].
  - rewrite (sum_upto_ext n g f); [lia|]. intros. apply H; lia.
  - rewrite IH; [|lia|intros; apply H; lia].
    rewrite (H (Z.of_nat n)); lia.
Qed.

Lemma sum_upto_nonneg n f :
  (forall j, 0 <= j < Z.of_nat n -> 0 <= f j) -> 0 <= sum_upto n f.
Proof.
  induction n as [|n IH]; intros H; [done|].
  simpl. pose proof (H (Z.of_nat n)). pose proof (IH ltac:(intros; apply H; lia)). lia.
Qed.

Lemma sum_upto_ge n f j0 :
  (forall j, 0 <= j < Z.of_nat n -> 0 <= f j) ->
  0 <= j0 < Z.of_nat n -> f j0 <= sum_upto n f.
Proof.
  induction n as [|n IH]; intros H Hj; [lia|].
  simpl. pose proof (H (Z.of_nat n)).
  pose proof (sum_upto_nonneg n f ltac:(intros; apply H; lia)).
  destruct (decide (j0 = Z.of_nat n)) as [->|Hne]; [lia|].
  pose proof (IH ltac:(intros; apply H; lia)). lia.
Qed.

Lemma grid_ext n f g :
  (forall i s, 0 <= i < n -> 0 <= s < 8 -> f i s = g i s) -> grid n f = grid n g.
Proof.
  intros H. apply sum_upto_ext. intros i Hi.
  apply sum_upto_ext. intros s Hs. apply H; lia.
Qed.

Lemma grid_change n f g i0 s0 :
  0 <= i0 < n -> 0 <= s0 < 8 ->
  (forall i s, 0 <= i < n -> 0 <= s < 8 -> ~ (i = i0 /\ s = s0) -> g i s = f i s) ->
  grid n g = grid n f - f i0 s0 + g i0 s0.
Proof.
  intros Hi Hs H. unfold grid.
  rewrite (sum_upto_change _ (fun i => sum_upto 8 (fun s => f i s)) _ i0); [|lia|].
  - rewrite (sum_upto_change 8 (fun s => f i0 s) (fun s => g i0 s) s0); [lia|lia|].
    intros. apply H; lia.
  - intros i Hi' Hne. apply sum_upto_ext. intros s Hs'. apply H; lia.
Qed.

Lemma grid_nonneg n f :
  (forall i s, 0 <= i < n -> 0 <= s < 8 -> 0 <= f i s) -> 0 <= grid n f.
Proof.
  intros H. apply sum_upto_nonneg. intros i Hi.
  apply sum_upto_nonneg. intros s Hs. apply H; lia.
Qed.

Lemma grid_ge n f i0 s0 :
  (forall i s, 0 <= i < n -> 0 <= s < 8 -> 0 <= f i s) ->
  0 <= i0 < n -> 0 <= s0 < 8 -> f i0 s0 <= grid n f.
Proof.
  intros H Hi Hs. unfold grid.
  pose proof (sum_upto_ge (Z.to_nat n) (fun i => sum_upto 8 (fun s => f i s)) i0) as H1.
  pose proof (sum_upto_ge 8 (fun s => f i0 s) s0) as H2.
  cbv beta in H1, H2.
  assert (f i0 s0 <= sum_upto 8 (fun s => f i0 s)) by (apply H2; [intros; apply H|]; lia).
  assert (sum_upto 8 (fun s => f i0 s) <= sum_upto (Z.to_nat n) (fun i => sum_upto 8 (fun s => f i s))).
  { apply H1; [|lia]. intros. apply sum_upto_nonneg. intros. apply H; lia. }
  lia.
Qed.

Lemma b2z_range b : 0 <= b2z b <= 1.
Proof. destruct b; simpl; lia. Qed.

(** ** The invariant of a shard *)

Lemma hashk_params t t' k : params t' = params t -> hashk t' k = hashk t k.
Proof. unfold params, hashk. intros [=]. congruence. Qed.

Lemma home_params t t' k : params t' = params t -> home t' k = home t k.
Proof. intros H. unfold home. rewrite (hashk_params _ _ _ H). unfold params in H. congruence. Qed.

Lemma alt_params t t' k : params t' = params t -> alt t' k = alt t k.
Proof. intros H. unfold alt. rewrite (hashk_params _ _ _ H). unfold params in H. congruence. Qed.

Lemma tagk_params t t' k : params t' = params t -> tagk t' k = tagk t k.
Proof. intros H. unfold tagk. by rewrite (hashk_params _ _ _ H). Qed.

Lemma inb_params t t' i : params t' = params t -> inb t' i <-> inb t i.
Proof. unfold params, inb. intros [=]. by replace (buckets t') with (buckets t). Qed.

(** The filter bit of a tag in the filters of bucket [b]. *)
Definition fbit (t : Table) (b tag : Z) : bool :=
  Z.testbit (F t b (filter_of tag)) (Z.land tag 7).

(** An occupied slot holds the tag of its key, sits in the first- or the
    second-position bucket of its key, and its filter bit is set in the
    first-position bucket. *)
Definition slot_ok (t : Table) (i s : Z) : Prop :=
  P t i s = true ->
  TG t i s = tagk t (K t i s) /\
  (i = home t (K t i s) \/ i = alt t (K t i s)) /\
  fbit t (home t (K t i s)) (TG t i s) = true.

(** Slot [s] of bucket [i] holds an element whose first-position bucket is
    [b], another bucket. *)
Definition away (t : Table) (b i s : Z) : bool :=
  P t i s && negb (i =? b) && (home t (K t i s) =? b).

Definition second_count (t : Table) (b : Z) : Z :=
  grid (buckets t) (fun i s => b2z (away t b i s)).

Definition occupied (t : Table) : Z :=
  grid (buckets t) (fun i s => b2z (P t i s)).

Definition Inv (t : Table) : Prop :=
  Shape t /\
  (forall i s, inb t i -> 0 <= s < 8 -> slot_ok t i s) /\
  (forall b, inb t b -> C t b = 255 \/ second_count t b <= C t b) /\
  (forall i, inb t i -> 0 <= HD t i < 8).

Definition Uniq (t : Table) : Prop :=
  forall i s i' s', inb t i -> 0 <= s < 8 -> inb t i' -> 0 <= s' < 8 ->
  P t i s = true -> P t i' s' = true -> K t i s = K t i' s' -> i = i' /\ s = s'.

(** The element [(k, v)] is stored in the shard. *)
Definition holds (t : Table) (k v : list Z) : Prop :=
  exists i s, inb t i /\ 0 <= s < 8 /\ P t i s = true /\ K t i s = k /\ V t i s = v.

(** [t'] has the slots of [t], but for slot [s0] of bucket [i0]. *)
Definition slots_but (t t' : Table) (i0 s0 : Z) : Prop :=
  forall i s, inb t i -> 0 <= s < 8 -> ~ (i = i0 /\ s = s0) ->
  P t' i s = P t i s /\
  (P t i s = true ->
   TG t' i s = TG t i s /\ K t' i s = K t i s /\ V t' i s = V t i s).

Definition same_slots (t t' : Table) : Prop :=
  forall i s, inb t i -> 0 <= s < 8 ->
  P t' i s = P t i s /\
  (P t i s = true ->
   TG t' i s = TG t i s /\ K t' i s = K t i s /\ V t' i s = V t i s).

Lemma same_slots_but t t' i0 s0 : same_slots t t' -> slots_but t t' i0 s0.
Proof. intros H i s Hi Hs _. by apply H. Qed.

Lemma away_but t t' b i0 s0 i s :
  params t' = params t -> slots_but t t' i0 s0 ->
  inb t i -> 0 <= s < 8 -> ~ (i = i0 /\ s = s0) ->
  away t' b i s = away t b i s.
Proof.
  intros Hp Hb Hi Hs Hne. unfold away.
  destruct (Hb i s Hi Hs Hne) as [HP HK]. rewrite HP.
  destruct (P t i s) eqn:E; [|done].
  destruct (HK eq_refl) as (_ & -> & _). by rewrite (home_params _ _ _ Hp).
Qed.

Lemma second_count_but t t' b i0 s0 :
  params t' = params t -> slots_but t t' i0 s0 ->
  inb t i0 -> 0 <= s0 < 8 ->
  second_count t' b =
  second_count t b - b2z (away t b i0 s0) + b2z (away t' b i0 s0).
Proof.
  intros Hp Hb Hi Hs. unfold second_count.
  replace (buckets t') with (buckets t) by (unfold params in Hp; congruence).
  apply (grid_change _ (fun i s => b2z (away t b i s))); try done.
  intros i s Hi' Hs' Hne. f_equal. by eapply away_but.
Qed.

Lemma occupied_but t t' i0 s0 :
  params t' = params t -> slots_but t t' i0 s0 ->
  inb t i0 -> 0 <= s0 < 8 ->
  occupied t' = occupied t - b2z (P t i0 s0) + b2z (P t' i0 s0).
Proof.
  intros Hp Hb Hi Hs. unfold occupied.
  replace (buckets t') with (buckets t) by (unfold params in Hp; congruence).
  apply (grid_change _ (fun i s => b2z (P t i s))); try done.
  intros i s Hi' Hs' Hne. f_equal. by apply Hb.
Qed.

Lemma second_count_away t b i s :
  inb t i -> 0 <= s < 8 -> away t b i s = true -> 1 <= second_count t b.
Proof.
  intros Hi Hs Ha. unfold second_count.
  pose proof (grid_ge (buckets t) (fun i s => b2z (away t b i s)) i s) as H.
  cbv beta in H. rewrite Ha in H. apply H; try done.
  intros. apply b2z_range.
Qed.

Lemma second_count_none t b i s :
  second_count t b <= 0 -> inb t i -> 0 <= s < 8 -> away t b i s = false.
Proof.
  intros H0 Hi Hs. destruct (away t b i s) eqn:E; [|done].
  pose proof (second_count_away t b i s Hi Hs E). lia.
Qed.

(** ** The invariant with some slots set aside

    While [set] and [vacate] run, one slot is being rewritten or holds a
    second copy of an element that was just moved.  [InvX t X] is the
    invariant for the slots outside [X]. *)

Definition none : Z -> Z -> bool := fun _ _ => false.
Definition only (i0 s0 : Z) : Z -> Z -> bool := fun i s => (i =? i0) && (s =? s0).

Definition awayX (t : Table) (X : Z -> Z -> bool) (b i s : Z) : bool :=
  negb (X i s) && away t b i s.

Definition scX (t : Table) (X : Z -> Z -> bool) (b : Z) : Z :=
  grid (buckets t) (fun i s => b2z (awayX t X b i s)).

Definition SlotsX (t : Table) (X : Z -> Z -> bool) : Prop :=
  forall i s, inb t i -> 0 <= s < 8 -> X i s = false -> slot_ok t i s.

Definition CountsX (t : Table) (X : Z -> Z -> bool) : Prop :=
  forall b, inb t b -> C t b = 255 \/ scX t X b <= C t b.

Definition Hands (t : Table) : Prop := forall i, inb t i -> 0 <= HD t i < 8.

Definition InvX (t : Table) (X : Z -> Z -> bool) : Prop :=
  Shape t /\ SlotsX t X /\ CountsX t X /\ Hands t.

Definition UniqX (t : Table) (X : Z -> Z -> bool) : Prop :=
  forall i s i' s', inb t i -> 0 <= s < 8 -> inb t i' -> 0 <= s' < 8 ->
  X i s = false -> X i' s' = false ->
  P t i s = true -> P t i' s' = true -> K t i s = K t i' s' -> i = i' /\ s = s'.

Definition occX (t : Table) (X : Z -> Z -> bool) : Z :=
  grid (buckets t) (fun i s => b2z (negb (X i s) && P t i s)).

Definition heldX (t : Table) (X : Z -> Z -> bool) (k v : list Z) : Prop :=
  exists i s, inb t i /\ 0 <= s < 8 /\ X i s = false /\
    P t i s = true /\ K t i s = k /\ V t i s = v.

Ltac splits := repeat split; try done; try (unfold inb in *; lia).

Lemma scX_none t b : scX t none b = second_count t b.
Proof. done. Qed.

Lemma Inv_InvX t : Inv t <-> InvX t none.
Proof.
  unfold Inv, InvX, SlotsX, CountsX, Hands. split.
  - intros (?&Hs&?&?). split; [done|]. split; [|by split].
    intros i s ? ? _. by apply Hs.
  - intros (?&Hs&?&?). split; [done|]. split; [|by split].
    intros i s ? ?. by apply Hs.
Qed.

Lemma Uniq_UniqX t : Uniq t <-> UniqX t none.
Proof.
  unfold Uniq, UniqX. split; intros H i s i' s' ? ? ? ?.
  - intros _ _. by apply H.
  - by apply H.
Qed.

Lemma occupied_occX t : occupied t = occX t none.
Proof. done. Qed.

Lemma holds_heldX t k v : holds t k v <-> heldX t none k v.
Proof.
  unfold holds, heldX. split.
  - intros (i&s&?&?&?&?&?). exists i, s. splits.
  - intros (i&s&?&?&_&?&?&?). exists i, s. splits.
Qed.

(** The slots outside [X] are the same in [t'] as in [t]. *)
Definition sameK (t t' : Table) (X : Z -> Z -> bool) : Prop :=
  forall i s, inb t i -> 0 <= s < 8 -> X i s = false ->
  P t' i s = P t i s /\
  (P t i s = true -> TG t' i s = TG t i s /\ K t' i s = K t i s).

Definition sameV (t t' : Table) (X : Z -> Z -> bool) : Prop :=
  forall i s, inb t i -> 0 <= s < 8 -> X i s = false ->
  P t i s = true -> V t' i s = V t i s.

(** The filters of [t'] keep the bits of those of [t], or were rebuilt, in
    a bucket whose second-position counter is zero, from the slots of the
    bucket. *)
Definition filters_le (t t' : Table) (X : Z -> Z -> bool) : Prop :=
  forall i f, inb t i -> 0 <= f < 8 ->
  (forall bit, 0 <= bit < 8 ->
     Z.testbit (F t i f) bit = true -> Z.testbit (F t' i f) bit = true) \/
  (C t i = 0 /\
   forall s, 0 <= s < 8 -> X i s = false -> P t i s = true ->
     filter_of (TG t i s) = f -> Z.testbit (F t' i f) (Z.land (TG t i s) 7) = true).

Lemma awayX_same t t' X b i s :
  params t' = params t -> sameK t t' X -> inb t i -> 0 <= s < 8 ->
  awayX t' X b i s = awayX t X b i s.
Proof.
  intros Hp Hk Hi Hs. unfold awayX, away.
  destruct (X i s) eqn:EX; [done|]. simpl.
  destruct (Hk i s Hi Hs EX) as [HP HK]. rewrite HP.
  destruct (P t i s) eqn:E; [|done].
  destruct (HK eq_refl) as (_ & ->). by rewrite (home_params _ _ _ Hp).
Qed.

Lemma scX_same t t' X b :
  params t' = params t -> sameK t t' X -> scX t' X b = scX t X b.
Proof.
  intros Hp Hk. unfold scX.
  replace (buckets t') with (buckets t) by (unfold params in Hp; congruence).
  apply grid_ext. intros. f_equal. by apply awayX_same.
Qed.

Lemma scX_zero t X b i s :
  scX t X b <= 0 -> inb t i -> 0 <= s < 8 -> awayX t X b i s = false.
Proof.
  intros H0 Hi Hs. destruct (awayX t X b i s) eqn:E; [|done].
  pose proof (grid_ge (buckets t) (fun i s => b2z (awayX t X b i s)) i s) as H.
  cbv beta in H. rewrite E in H. unfold scX in H0.
  assert (b2z true <= grid (buckets t) (fun i s => b2z (awayX t X b i s))).
  { apply H; try done. intros. apply b2z_range. }
  simpl in *. lia.
Qed.

(** A step that keeps the slots outside [X] and does not lose a needed
    filter bit keeps the slots well placed. *)
Lemma SlotsX_step t t' X :
  InvX t X -> Shape t' -> params t' = params t ->
  sameK t t' X -> filters_le t t' X ->
  SlotsX t' X.
Proof.
  intros (Hsh & Hsl & Hc & Hh) Hsh' Hp Hk Hf.
  assert (Hinb : forall i, inb t' i <-> inb t i) by (intros; by apply inb_params).
  intros i s Hi Hs HX HP. apply Hinb in Hi.
  destruct (Hk i s Hi Hs HX) as [EP EK]. rewrite EP in HP.
  destruct (EK HP) as [ET EKK].
  destruct (Hsl i s Hi Hs HX HP) as (Htag & Hpos & Hbit).
  rewrite ET, EKK, (home_params _ _ _ Hp), (alt_params _ _ _ Hp), (tagk_params _ _ _ Hp).
  split; [done|]. split; [done|].
  unfold fbit in *.
  destruct (Hf (home t (K t i s)) (filter_of (TG t i s))) as [Hm|[HC0 Hr]].
  - by apply home_inb.
  - apply filter_of_range.
  - apply Hm; [apply low3_range|done].
  - (* rebuilt: the element must reside in its first-position bucket *)
    destruct (Hc (home t (K t i s))) as [H255|Hle]; [by apply home_inb|lia|].
    assert (Ha : awayX t X (home t (K t i s)) i s = false)
      by (apply scX_zero; [lia|done|done]).
    unfold awayX, away in Ha. rewrite HX, HP in Ha. simpl in Ha.
    rewrite Z.eqb_refl, andb_true_r in Ha. apply negb_false_iff, Z.eqb_eq in Ha.
    rewrite <- Ha in *. by apply Hr.
Qed.

(** If moreover no counter is lowered, the invariant is kept. *)
Lemma InvX_step t t' X :
  InvX t X -> Shape t' -> params t' = params t ->
  sameK t t' X -> filters_le t t' X ->
  (forall b, inb t b -> C t b <= C t' b) ->
  Hands t' ->
  InvX t' X.
Proof.
  intros HI Hsh' Hp Hk Hf HC Hh'.
  pose proof (SlotsX_step t t' X HI Hsh' Hp Hk Hf) as Hsl'.
  destruct HI as (Hsh & Hsl & Hc & Hh).
  assert (Hinb : forall i, inb t' i <-> inb t i) by (intros; by apply inb_params).
  split; [done|]. split; [done|]. split; [|done].
  intros b Hb. apply Hinb in Hb.
  rewrite (scX_same t t' X b Hp Hk).
  destruct (Hc b Hb) as [H255|Hle].
  - left. pose proof (HC b Hb). pose proof (M_byte t' b 8 Hsh').
    unfold C, byte in *. lia.
  - right. pose proof (HC b Hb). lia.
Qed.

Lemma UniqX_step t t' X :
  UniqX t X -> params t' = params t -> sameK t t' X -> UniqX t' X.
Proof.
  intros Hu Hp Hk i s i' s' Hi Hs Hi' Hs' HX HX' HP HP' HKK.
  apply (inb_params _ _ _ Hp) in Hi, Hi'.
  destruct (Hk i s Hi Hs HX) as [EP EK]. destruct (Hk i' s' Hi' Hs' HX') as [EP' EK'].
  rewrite EP in HP. rewrite EP' in HP'.
  destruct (EK HP) as [_ E1]. destruct (EK' HP') as [_ E2].
  apply (Hu i s i' s'); try done. congruence.
Qed.

Lemma occX_step t t' X :
  params t' = params t -> sameK t t' X -> occX t' X = occX t X.
Proof.
  intros Hp Hk. unfold occX.
  replace (buckets t') with (buckets t) by (unfold params in Hp; congruence).
  apply grid_ext. intros i s Hi Hs. f_equal.
  destruct (X i s) eqn:EX; [done|]. simpl. by apply Hk.
Qed.

Lemma heldX_step t t' X k v :
  params t' = params t -> sameK t t' X -> sameV t t' X ->
  heldX t' X k v <-> heldX t X k v.
Proof.
  intros Hp Hk Hv. unfold heldX. split.
  - intros (i&s&Hi&Hs&HX&HP&HK&HV). apply (inb_params _ _ _ Hp) in Hi.
    destruct (Hk i s Hi Hs HX) as [EP EK]. rewrite EP in HP.
    destruct (EK HP) as [_ E1]. exists i, s. splits.
    + congruence.
    + rewrite <- (Hv i s); done.
  - intros (i&s&Hi&Hs&HX&HP&HK&HV).
    destruct (Hk i s Hi Hs HX) as [EP EK]. destruct (EK HP) as [_ E1].
    pose proof (proj2 (inb_params _ _ i Hp) Hi).
    exists i, s. splits.
    + congruence.
    + congruence.
    + rewrite (Hv i s); done.
Qed.

(** ** Frames: what a sequence of stores leaves unchanged

    [Frame t t' E X]: [t'] has the shape and the sizes of [t], every
    metadata byte outside [E] and the key and value of every slot outside
    [X] are those of [t]. *)

Definition Frame (t t' : Table) (E X : Z -> Z -> Prop) : Prop :=
  Shape t' /\ params t' = params t /\
  (forall i c, inb t i -> 0 <= c < 20 -> ~ E i c -> M t' i c = M t i c) /\
  (forall i s, inb t i -> 0 <= s < 8 -> ~ X i s ->
     K t' i s = K t i s /\ V t' i s = V t i s).

Definition nowhere : Z -> Z -> Prop := fun _ _ => False.
Definition at_ (i0 c0 : Z) : Z -> Z -> Prop := fun i c => i = i0 /\ c = c0.
Definition either (A B : Z -> Z -> Prop) : Z -> Z -> Prop := fun i c => A i c \/ B i c.

(** The filter cells of bucket [i0], and those with its counter. *)
Definition filters_of (i0 : Z) : Z -> Z -> Prop := fun i c => i = i0 /\ 0 <= c < 8.
Definition count_filters_of (i0 : Z) : Z -> Z -> Prop := fun i c => i = i0 /\ 0 <= c < 9.

Ltac cells := unfold nowhere, at_, either, filters_of, count_filters_of in *; intuition lia.

Lemma Frame_refl t : Shape t -> Frame t t nowhere nowhere.
Proof. intros. split; [done|]. split; [done|]. by split. Qed.

Lemma Frame_trans t t' t'' E X E' X' :
  Frame t t' E X -> Frame t' t'' E' X' -> Frame t t'' (either E E') (either X X').
Proof.
  intros (Hs & Hp & HM & HK) (Hs' & Hp' & HM' & HK').
  split; [done|]. split; [congruence|]. split.
  - intros i c Hi Hc HE. unfold either in HE.
    rewrite HM', HM; try done; try tauto. by apply (inb_params _ _ _ Hp).
  - intros i s Hi Hr HX. unfold either in HX.
    destruct (HK i s Hi Hr ltac:(tauto)) as [E1 E2].
    destruct (HK' i s) as [E3 E4]; try done; try tauto.
    { by apply (inb_params _ _ _ Hp). }
    split; congruence.
Qed.

Lemma Frame_weaken t t' (E X E' X' : Z -> Z -> Prop) :
  Frame t t' E X ->
  (forall i c, E i c -> E' i c) -> (forall i s, X i s -> X' i s) ->
  Frame t t' E' X'.
Proof.
  intros (Hs & Hp & HM & HK) HE HX. split; [done|]. split; [done|]. split.
  - intros. apply HM; auto.
  - intros. apply HK; auto.
Qed.

Lemma Frame_Shape t t' E X : Frame t t' E X -> Shape t'.
Proof. by intros (?&_). Qed.

Lemma Frame_params t t' E X : Frame t t' E X -> params t' = params t.
Proof. by intros (_&?&_). Qed.

Lemma Frame_inb t t' E X i : Frame t t' E X -> inb t i -> inb t' i.
Proof. intros (_&Hp&_) ?. by apply (inb_params _ _ _ Hp). Qed.

Lemma Frame_M t t' (E X : Z -> Z -> Prop) i c :
  Frame t t' E X -> inb t i -> 0 <= c < 20 -> ~ E i c -> M t' i c = M t i c.
Proof. intros (_&_&H&_). apply H. Qed.

Lemma Frame_K t t' (E X : Z -> Z -> Prop) i s :
  Frame t t' E X -> inb t i -> 0 <= s < 8 -> ~ X i s -> K t' i s = K t i s.
Proof. intros (_&_&_&H) ? ? ?. by apply H. Qed.

Lemma Frame_V t t' (E X : Z -> Z -> Prop) i s :
  Frame t t' E X -> inb t i -> 0 <= s < 8 -> ~ X i s -> V t' i s = V t i s.
Proof. intros (_&_&_&H) ? ? ?. by apply H. Qed.

Lemma params_fields t t' :
  params t' = params t ->
  keySize t' = keySize t /\ valueSize t' = valueSize t /\ bucket t' = bucket t /\
  buckets t' = buckets t /\ mask t' = mask t.
Proof. unfold params. intros [=]. done. Qed.

Lemma Frame_meta t i c v :
  Shape t -> inb t i -> 0 <= c < 20 ->
  Frame t (put t i c [v]) (at_ i c) nowhere /\
  M (put t i c [v]) i c = v mod 256.
Proof.
  intros Hs Hi Hc. split.
  - split; [by apply Shape_put|]. split; [done|]. split.
    + intros i' c' Hi' Hc' HE. rewrite M_put_meta by done.
      unfold at_ in HE. by case_decide.
    + intros i' s' Hi' Hs' _. by rewrite K_put_meta, V_put_meta.
  - rewrite M_put_meta by done. case_decide; [done|tauto].
Qed.

Lemma Frame_key t i s c l :
  Shape t -> inb t i -> 0 <= s < 8 -> c = 20 + esize t * s ->
  length l = Z.to_nat (keySize t) -> Forall byte l ->
  Frame t (put t i c l) nowhere (at_ i s) /\
  K (put t i c l) i s = l /\ V (put t i c l) i s = V t i s.
Proof.
  intros Hs Hi Hr -> Hl Hb. split; [|split].
  - split; [by apply Shape_put|]. split; [done|]. split.
    + intros i' c' Hi' Hc' _. by apply M_put_key.
    + intros i' s' Hi' Hs' HX. unfold at_ in HX.
      rewrite K_put_key, V_put_key by done. by case_decide.
  - rewrite K_put_key by done. case_decide; [done|tauto].
  - by apply V_put_key.
Qed.

Lemma Frame_value t i s c l :
  Shape t -> inb t i -> 0 <= s < 8 -> c = 20 + esize t * s + keySize t ->
  length l = Z.to_nat (valueSize t) -> Forall byte l ->
  Frame t (put t i c l) nowhere (at_ i s) /\
  K (put t i c l) i s = K t i s /\ V (put t i c l) i s = l.
Proof.
  intros Hs Hi Hr -> Hl Hb. split; [|split].
  - split; [by apply Shape_put|]. split; [done|]. split.
    + intros i' c' Hi' Hc' _. by apply M_put_value.
    + intros i' s' Hi' Hs' HX. unfold at_ in HX.
      rewrite K_put_value, V_put_value by done. by case_decide.
  - by apply K_put_value.
  - rewrite V_put_value by done. case_decide; [done|tauto].
Qed.

(** ** [assign] *)

(** The four stores of [assign], with the bytes it copies. *)
Definition ins (t : Table) (i s tag : Z) (kb vb : list Z) : Table :=
  put (put (put (put t i 9 [Z.lor (M t i 9) (Z.shiftl 1 s)])
                i (10 + s) [tag])
           i (20 + esize t * s) kb)
      i (20 + esize t * s + keySize t) vb.

Lemma ins_spec t i s tag kb vb :
  Shape t -> inb t i -> 0 <= s < 8 -> byte tag ->
  length kb = Z.to_nat (keySize t) -> Forall byte kb ->
  length vb = Z.to_nat (valueSize t) -> Forall byte vb ->
  let t' := ins t i s tag kb vb in
  Frame t t' (either (at_ i 9) (at_ i (10 + s))) (at_ i s) /\
  M t' i 9 = Z.lor (M t i 9) (Z.shiftl 1 s) /\
  TG t' i s = tag /\ K t' i s = kb /\ V t' i s = vb.
Proof.
  intros Hs Hi Hr Ht Hkl Hkb Hvl Hvb. unfold ins.
  set (t1 := put t i 9 _). set (t2 := put t1 i (10 + s) _).
  set (t3 := put t2 i (20 + esize t * s) kb).
  set (t4 := put t3 i _ vb). simpl.
  destruct (Frame_meta t i 9 (Z.lor (M t i 9) (Z.shiftl 1 s)) Hs Hi ltac:(lia)) as [F1 V1].
  fold t1 in F1, V1.
  pose proof (Frame_Shape _ _ _ _ F1) as S1.
  destruct (Frame_meta t1 i (10 + s) tag S1 Hi ltac:(lia)) as [F2 V2].
  fold t2 in F2, V2.
  pose proof (Frame_Shape _ _ _ _ F2) as S2.
  destruct (Frame_key t2 i s (20 + esize t * s) kb S2 Hi Hr eq_refl Hkl Hkb) as (F3 & K3 & V3).
  fold t3 in F3, K3, V3.
  pose proof (Frame_Shape _ _ _ _ F3) as S3.
  destruct (Frame_value t3 i s (20 + esize t * s + keySize t) vb S3 Hi Hr eq_refl Hvl Hvb)
    as (F4 & K4 & V4).
  fold t4 in F4, K4, V4.
  assert (F12 := Frame_trans _ _ _ _ _ _ _ F1 F2).
  assert (F34 := Frame_trans _ _ _ _ _ _ _ F3 F4).
  assert (F14 := Frame_trans _ _ _ _ _ _ _ F12 F34).
  split; [|split; [|split; [|split]]].
  - eapply Frame_weaken; [exact F14| |]; unfold either, nowhere, at_; tauto.
  - rewrite (Frame_M _ _ _ _ i 9 F34) by (try done; unfold either, nowhere; tauto).
    rewrite (Frame_M _ _ _ _ i 9 F2) by (try done; unfold at_; lia).
    rewrite V1. apply mod_byte. apply byte_lor_bit; [by apply M_byte|done].
  - unfold TG.
    rewrite (Frame_M _ _ _ _ i (10 + s) F34) by (try done; try lia; unfold either, nowhere; tauto).
    rewrite V2. by apply mod_byte.
  - by rewrite K4, K3.
  - done.
Qed.

Lemma assign_Ext t i tag s key ko value vo :
  assign t (i * bucket t) tag s (Ext key) ko (Ext value) vo =
  ins t i s tag (slice key ko (Z.to_nat (keySize t)))
    (slice value vo (Z.to_nat (valueSize t))).
Proof.
  unfold assign, ins. rewrite bset_put. simpl.
  rewrite copyKey_Ext, copyValue_Ext. simpl.
  unfold put, with_buffer, keyOffset, valueOffset, esize. simpl.
  repeat (f_equal; try lia).
Qed.

Lemma region_sep t i s i0 s0 :
  Shape t -> 0 <= s < 8 -> 0 <= s0 < 8 -> ~ (i0 = i /\ s0 = s) ->
  i0 * bucket t + (20 + esize t * s0) + esize t <= i * bucket t + (20 + esize t * s) \/
  i * bucket t + (20 + esize t * s) + esize t <= i0 * bucket t + (20 + esize t * s0).
Proof.
  intros Hs Hr Hr0 Hne.
  pose proof (slot_bounds t s Hs Hr). pose proof (slot_bounds t s0 Hs Hr0).
  assert (0 <= esize t) by (unfold Shape, esize in *; lia).
  destruct (decide (i0 = i)) as [->|Hi].
  - assert (s <> s0) by (intros ->; tauto).
    pose proof (slot_sep t s s0 Hs). lia.
  - pose proof (off_sep (bucket t) i0 i (20 + esize t * s0) (20 + esize t * s)
                  (esize t) (esize t)). lia.
Qed.

Lemma assign_Self t i tag s i0 s0 :
  Shape t -> inb t i -> inb t i0 -> 0 <= s < 8 -> 0 <= s0 < 8 ->
  ~ (i0 = i /\ s0 = s) ->
  assign t (i * bucket t) tag s Self (keyOffset t (i0 * bucket t) s0)
    Self (valueOffset t (i0 * bucket t) s0) =
  ins t i s tag (K t i0 s0) (V t i0 s0).
Proof.
  intros Hs Hi Hi0 Hr Hr0 Hne.
  pose proof (region_sep t i s i0 s0 Hs Hr Hr0 Hne) as Hsep.
  assert (0 <= keySize t /\ 0 <= valueSize t) as [Hk Hv] by (unfold Shape in Hs; tauto).
  unfold assign, ins. rewrite bset_put.
  set (t1 := put t i 9 _).
  replace (bset t1 (i * bucket t + 9 + 1 + s) tag) with (put t1 i (10 + s) [tag])
    by (symmetry; apply (bset_tag_put t1)).
  set (t2 := put t1 i (10 + s) _).
  assert (S1 : Shape t1) by (by apply Shape_put).
  assert (S2 : Shape t2) by (by apply Shape_put).
  assert (EK : slice (buffer t2) (keyOffset t (i0 * bucket t) s0) (Z.to_nat (keySize t))
               = K t i0 s0).
  { transitivity (K t2 i0 s0).
    - unfold K, reg. by rewrite keyOffset_eq.
    - unfold t2. rewrite K_put_meta by (done || lia).
      unfold t1. by rewrite K_put_meta by (done || lia). }
  assert (E3 : with_buffer t2 (copyKey t2 Self (keyOffset t (i0 * bucket t) s0) (buffer t2)
                 (keyOffset t2 (i * bucket t) s)) =
               put t2 i (20 + esize t * s) (K t i0 s0)).
  { rewrite copyKey_Self.
    - change (keySize t2) with (keySize t). rewrite EK.
      unfold put. do 2 f_equal. unfold keyOffset, esize. change (bucket t2) with (bucket t).
      change (keySize t2) with (keySize t). change (valueSize t2) with (valueSize t). lia.
    - unfold keyOffset. change (keySize t2) with (keySize t).
      change (valueSize t2) with (valueSize t). unfold esize in Hsep. lia.
    - done. }
  rewrite E3. set (t3 := put t2 i (20 + esize t * s) _).
  assert (Hkl : length (K t i0 s0) = Z.to_nat (keySize t)) by apply length_reg.
  assert (S3 : Shape t3) by (by apply Shape_put).
  assert (EV : slice (buffer t3) (valueOffset t (i0 * bucket t) s0) (Z.to_nat (valueSize t))
               = V t i0 s0).
  { transitivity (V t3 i0 s0).
    - unfold V, reg. by rewrite valueOffset_eq.
    - unfold t3. rewrite (V_put_key t2 i s) by done.
      unfold t2. rewrite V_put_meta by (done || lia).
      unfold t1. by rewrite V_put_meta by (done || lia). }
  rewrite copyValue_Self.
  - change (valueSize t3) with (valueSize t). rewrite EV.
    unfold put. do 2 f_equal. unfold valueOffset, esize. change (bucket t3) with (bucket t).
    change (keySize t3) with (keySize t). change (valueSize t3) with (valueSize t). lia.
  - unfold valueOffset. change (keySize t3) with (keySize t).
    change (valueSize t3) with (valueSize t). unfold esize in Hsep. lia.
  - done.
Qed.

(** ** [scan] *)

(** Slot [s] of bucket [i] is occupied by the key [kb] under the tag [tag]. *)
Definition hit (t : Table) (i tag : Z) (kb : list Z) (s : Z) : Prop :=
  TG t i s = tag /\ P t i s = true /\ K t i s = kb.

Lemma scan_test t i tag key ko s :
  Shape t -> 0 <= s < 8 ->
  (bget t (i * bucket t + 9 + 1 + s) =? tag)
  && negb (Z.land (bget t (i * bucket t + 9)) (Z.shiftl 1 s) =? 0)
  && negb (equal (buffer t) (keyOffset t (i * bucket t) s) key ko (keySize t) =? 0) = true
  <-> hit t i tag (slice key ko (Z.to_nat (keySize t))) s.
Proof.
  intros Hs Hr. rewrite bget_tag, present_test by done.
  unfold equal. rewrite equal_loop_spec, keyOffset_eq.
  change (slice (buffer t) _ _) with (K t i s).
  unfold hit. rewrite !andb_true_iff, Z.eqb_eq, negb_involutive.
  case_decide; simpl; intuition (try done; try lia).
Qed.

Lemma scan_loop_spec t i tag key ko :
  Shape t ->
  forall n slot, 0 <= slot -> slot + Z.of_nat n <= 8 ->
  let r := scan_loop n t (i * bucket t) tag key ko slot in
  slot <= r <= slot + Z.of_nat n /\
  (forall s, slot <= s < r -> ~ hit t i tag (slice key ko (Z.to_nat (keySize t))) s) /\
  (r < slot + Z.of_nat n -> hit t i tag (slice key ko (Z.to_nat (keySize t))) r).
Proof.
  intros Hs. induction n as [|n IH]; intros slot H0 H8; simpl.
  - split; [lia|]. split; intros; lia.
  - pose proof (scan_test t i tag key ko slot Hs ltac:(lia)) as Ht.
    destruct (_ && _ && _) eqn:E.
    + split; [lia|]. split; [intros; lia|]. intros _. by apply Ht.
    + destruct (IH (slot + 1) ltac:(lia) ltac:(lia)) as (Hr & Hn & Hh).
      split; [lia|]. split.
      * intros s Hsr. destruct (decide (s = slot)) as [->|].
        -- intros Hhit. apply Ht in Hhit. congruence.
        -- apply Hn. lia.
      * intros. apply Hh. lia.
Qed.

Lemma scan_spec t i tag key ko :
  Shape t ->
  let r := scan t (i * bucket t) tag key ko in
  0 <= r <= 8 /\
  (forall s, 0 <= s < r -> ~ hit t i tag (slice key ko (Z.to_nat (keySize t))) s) /\
  (r < 8 -> hit t i tag (slice key ko (Z.to_nat (keySize t))) r).
Proof. intros Hs. apply (scan_loop_spec t i tag key ko Hs 8 0); lia. Qed.

(** ** [filterReset] *)

Lemma filterReset_loop_spec t0 i f :
  0 <= f < 8 -> inb t0 i ->
  forall n t slot, 0 <= slot -> slot + Z.of_nat n <= 8 ->
  Frame t0 t (at_ i f) nowhere ->
  let t' := filterReset_loop n t (i * bucket t0) f slot in
  Frame t0 t' (at_ i f) nowhere /\
  (forall bit, Z.testbit (F t i f) bit = true -> Z.testbit (F t' i f) bit = true) /\
  (forall s, slot <= s < slot + Z.of_nat n -> P t0 i s = true ->
     filter_of (TG t0 i s) = f ->
     Z.testbit (F t' i f) (Z.land (TG t0 i s) 7) = true).
Proof.
  intros Hf Hi. induction n as [|n IH]; intros t slot H0 H8 Hfr; simpl.
  - split; [done|]. split; [done|]. intros; lia.
  - pose proof (Frame_Shape _ _ _ _ Hfr) as Hs.
    destruct (params_fields _ _ (Frame_params _ _ _ _ Hfr)) as (Eks & Evs & Eb & En & Em).
    pose proof (Frame_inb _ _ _ _ i Hfr Hi) as Hi'.
    rewrite <- Eb.
    rewrite present_test, bget_tag by (done || lia).
    assert (EP : P t i slot = P t0 i slot).
    { unfold P. rewrite (Frame_M _ _ _ _ i 9 Hfr); try done; try lia. unfold at_. lia. }
    assert (ET : TG t i slot = TG t0 i slot).
    { unfold TG. rewrite (Frame_M _ _ _ _ i (10 + slot) Hfr); try done; try lia.
      unfold at_. lia. }
    set (t1 := if negb (negb (P t i slot)) then _ else t).
    assert (H1 : Frame t0 t1 (at_ i f) nowhere /\
                 (forall bit, Z.testbit (F t i f) bit = true -> Z.testbit (F t1 i f) bit = true) /\
                 (P t0 i slot = true -> filter_of (TG t0 i slot) = f ->
                  Z.testbit (F t1 i f) (Z.land (TG t0 i slot) 7) = true)).
    { unfold t1. rewrite negb_involutive, EP, ET.
      destruct (P t0 i slot) eqn:EPP; [|split; [done|split; [done|congruence]]].
      change (Z.land (Z.shiftr (TG t0 i slot) 4) 7) with (filter_of (TG t0 i slot)).
      destruct (filter_of (TG t0 i slot) =? f) eqn:EF;
        [|apply Z.eqb_neq in EF; split; [done|split; [done|congruence]]].
      rewrite bset_put.
      destruct (Frame_meta t i f (Z.lor (bget t (i * bucket t + f))
                  (Z.shiftl 1 (Z.land (TG t0 i slot) 7))) Hs Hi' ltac:(lia)) as [F1 V1].
      set (t2 := put t i f _) in *.
      pose proof (low3_range (TG t0 i slot)).
      assert (Hb : byte (Z.lor (bget t (i * bucket t + f))
                    (Z.shiftl 1 (Z.land (TG t0 i slot) 7))))
        by (apply byte_lor_bit; [by apply (M_byte t i f)|done]).
      rewrite (mod_byte _ Hb) in V1.
      split; [|split].
      - eapply Frame_weaken; [exact (Frame_trans _ _ _ _ _ _ _ Hfr F1)| |];
          unfold either, nowhere, at_; tauto.
      - intros bit Hbit. unfold F. rewrite V1, Z.lor_spec.
        unfold F, M in Hbit. by rewrite Hbit.
      - intros _ _. unfold F. rewrite V1. rewrite testbit_set by lia.
        rewrite Z.eqb_refl. apply orb_true_r. }
    destruct H1 as (F1 & Hm1 & Hn1). rewrite Eb.
    destruct (IH t1 (slot + 1) ltac:(lia) ltac:(lia) F1) as (F2 & Hm2 & Hn2).
    split; [done|]. split.
    + intros bit Hbit. apply Hm2, Hm1, Hbit.
    + intros s Hsr HP HF. destruct (decide (s = slot)) as [->|].
      * apply Hm2, Hn1; done.
      * apply Hn2; try done. lia.
Qed.

Lemma filterReset_spec t i f :
  Shape t -> inb t i -> 0 <= f < 8 ->
  let t' := filterReset t (i * bucket t) f in
  Frame t t' (at_ i f) nowhere /\
  ((forall bit, Z.testbit (F t i f) bit = true -> Z.testbit (F t' i f) bit = true) \/
   (C t i = 0 /\
    forall s, 0 <= s < 8 -> P t i s = true -> filter_of (TG t i s) = f ->
      Z.testbit (F t' i f) (Z.land (TG t i s) 7) = true)).
Proof.
  intros Hs Hi Hf. unfold filterReset.
  assert (Hrefl : Frame t t (at_ i f) nowhere).
  { eapply Frame_weaken; [by apply Frame_refl| |]; unfold nowhere; tauto. }
  destruct (bget t (i * bucket t + 8) =? 0) eqn:EC; cbn [negb].
  2:{ split; [done|]. by left. }
  destruct (bget t (i * bucket t + f) =? 0) eqn:EF.
  { split; [done|]. by left. }
  apply Z.eqb_eq in EC. rewrite bset_put.
  destruct (Frame_meta t i f 0 Hs Hi ltac:(lia)) as [F1 V1].
  set (t1 := put t i f [0]) in *.
  pose proof (filterReset_loop_spec t1 i f Hf (Frame_inb _ _ _ _ i F1 Hi) 8 t1 0
    ltac:(lia) ltac:(lia)) as H.
  assert (Hrefl1 : Frame t1 t1 (at_ i f) nowhere).
  { eapply Frame_weaken; [apply Frame_refl; by eapply Frame_Shape| |]; unfold nowhere; tauto. }
  specialize (H Hrefl1). cbv zeta in H. change (bucket t1) with (bucket t) in H.
  destruct H as (F2 & _ & Hn).
  split.
  - eapply Frame_weaken; [exact (Frame_trans _ _ _ _ _ _ _ F1 F2)| |];
      unfold either, nowhere, at_; tauto.
  - right. split; [done|]. intros s Hr HP HF.
    assert (EP : P t1 i s = P t i s).
    { unfold P. rewrite (Frame_M _ _ _ _ i 9 F1); try done; try lia. unfold at_. lia. }
    assert (ET : TG t1 i s = TG t i s).
    { unfold TG. rewrite (Frame_M _ _ _ _ i (10 + s) F1); try done; try lia. unfold at_. lia. }
    rewrite <- ET. apply Hn; try lia; congruence.
Qed.

(** ** Consequences of a frame *)

Lemma Frame_sameKV t t' (E Xs : Z -> Z -> Prop) X :
  Frame t t' E Xs ->
  (forall i s, inb t i -> 0 <= s < 8 -> X i s = false ->
     P t' i s = P t i s /\ ~ E i (10 + s) /\ ~ Xs i s) ->
  sameK t t' X /\ sameV t t' X.
Proof.
  intros Hfr H. split.
  - intros i s Hi Hs HX. destruct (H i s Hi Hs HX) as (HP & HE & HXs).
    split; [done|]. intros _. split.
    + unfold TG. apply (Frame_M _ _ _ _ _ _ Hfr); try done. lia.
    + by apply (Frame_K _ _ _ _ _ _ Hfr).
  - intros i s Hi Hs HX _. destruct (H i s Hi Hs HX) as (HP & HE & HXs).
    by apply (Frame_V _ _ _ _ _ _ Hfr).
Qed.

Lemma Frame_P t t' (E Xs : Z -> Z -> Prop) i s :
  Frame t t' E Xs -> inb t i -> ~ E i 9 -> P t' i s = P t i s.
Proof. intros Hfr Hi HE. unfold P. by rewrite (Frame_M _ _ _ _ i 9 Hfr) by (done || lia). Qed.

Lemma Frame_F t t' (E Xs : Z -> Z -> Prop) i f :
  Frame t t' E Xs -> inb t i -> 0 <= f < 8 -> ~ E i f -> F t' i f = F t i f.
Proof. intros Hfr Hi Hf HE. unfold F. by rewrite (Frame_M _ _ _ _ i f Hfr) by (done || lia). Qed.

Lemma Frame_C t t' (E Xs : Z -> Z -> Prop) i :
  Frame t t' E Xs -> inb t i -> ~ E i 8 -> C t' i = C t i.
Proof. intros Hfr Hi HE. unfold C. by rewrite (Frame_M _ _ _ _ i 8 Hfr) by (done || lia). Qed.

Lemma Frame_HD t t' (E Xs : Z -> Z -> Prop) i :
  Frame t t' E Xs -> inb t i -> ~ E i 19 -> HD t' i = HD t i.
Proof. intros Hfr Hi HE. unfold HD. by rewrite (Frame_M _ _ _ _ i 19 Hfr) by (done || lia). Qed.

Lemma Hands_Frame t t' (E Xs : Z -> Z -> Prop) :
  Hands t -> Frame t t' E Xs -> (forall i, ~ E i 19) -> Hands t'.
Proof.
  intros Hh Hfr HE i Hi. apply (inb_params _ _ _ (Frame_params _ _ _ _ Hfr)) in Hi.
  rewrite (Frame_HD _ _ _ _ i Hfr) by (done || apply HE). by apply Hh.
Qed.

(** A frame that leaves the slots, the filters and the counters alone. *)
Lemma InvX_Frame t t' (E Xs : Z -> Z -> Prop) X :
  InvX t X -> Frame t t' E Xs ->
  (forall i s, inb t i -> 0 <= s < 8 -> X i s = false ->
     P t' i s = P t i s /\ ~ E i (10 + s) /\ ~ Xs i s) ->
  (forall i f, inb t i -> 0 <= f < 8 ->
     forall bit, 0 <= bit < 8 ->
     Z.testbit (F t i f) bit = true -> Z.testbit (F t' i f) bit = true) ->
  (forall b, inb t b -> C t b <= C t' b) ->
  Hands t' ->
  InvX t' X.
Proof.
  intros HI Hfr Hsl HF HC Hh.
  destruct (Frame_sameKV _ _ _ _ X Hfr Hsl) as [HK HV].
  apply (InvX_step t t' X); try done.
  - by eapply Frame_Shape.
  - by eapply Frame_params.
  - intros i f Hi Hf. left. by apply HF.
Qed.

(** ** Setting slots aside and taking them back *)

Lemma only_true i0 s0 i s : only i0 s0 i s = true <-> i = i0 /\ s = s0.
Proof. unfold only. rewrite andb_true_iff, !Z.eqb_eq. done. Qed.

Lemma only_false i0 s0 i s : only i0 s0 i s = false <-> ~ (i = i0 /\ s = s0).
Proof. rewrite <- only_true. by destruct (only i0 s0 i s). Qed.

Lemma grid_le n f g :
  (forall i s, 0 <= i < n -> 0 <= s < 8 -> f i s <= g i s) -> grid n f <= grid n g.
Proof.
  intros H.
  assert (Hs : forall m (a b : Z -> Z),
    (forall j, 0 <= j < Z.of_nat m -> a j <= b j) -> sum_upto m a <= sum_upto m b).
  { induction m as [|m IH]; intros a b Hab; simpl; [lia|].
    pose proof (IH a b ltac:(intros; apply Hab; lia)).
    pose proof (Hab (Z.of_nat m) ltac:(lia)). lia. }
  apply Hs. intros i Hi. apply Hs. intros s Hs'. apply H; lia.
Qed.

Lemma InvX_grow t X X' :
  InvX t X -> (forall i s, X i s = true -> X' i s = true) -> InvX t X'.
Proof.
  intros (Hs & Hsl & Hc & Hh) HX. split; [done|]. split; [|split; [|done]].
  - intros i s Hi Hr HX'. apply Hsl; try done.
    destruct (X i s) eqn:E; [|done]. apply HX in E. congruence.
  - intros b Hb. destruct (Hc b Hb) as [?|Hle]; [by left|right].
    assert (scX t X' b <= scX t X b); [|lia].
    apply grid_le. intros i s Hi Hr. unfold awayX.
    destruct (X i s) eqn:E.
    + rewrite (HX _ _ E). simpl. lia.
    + simpl. pose proof (b2z_range (away t b i s)). destruct (X' i s); simpl; lia.
Qed.

Lemma scX_shrink t X X' i0 s0 b :
  inb t i0 -> 0 <= s0 < 8 ->
  (forall i s, ~ (i = i0 /\ s = s0) -> X' i s = X i s) ->
  scX t X' b = scX t X b - b2z (awayX t X b i0 s0) + b2z (awayX t X' b i0 s0).
Proof.
  intros Hi Hs HX. unfold scX.
  apply (grid_change _ (fun i s => b2z (awayX t X b i s))); try done.
  intros i s Hi' Hs' Hne. unfold awayX. by rewrite HX.
Qed.

Lemma InvX_shrink t X X' i0 s0 :
  InvX t X -> inb t i0 -> 0 <= s0 < 8 ->
  (forall i s, ~ (i = i0 /\ s = s0) -> X' i s = X i s) ->
  slot_ok t i0 s0 ->
  (forall b, inb t b -> away t b i0 s0 = true ->
     C t b = 255 \/ scX t X b + 1 <= C t b) ->
  InvX t X'.
Proof.
  intros (Hs & Hsl & Hc & Hh) Hi Hr HX Hok Haw.
  split; [done|]. split; [|split; [|done]].
  - intros i s Hi' Hr' HX'. destruct (decide (i = i0 /\ s = s0)) as [[-> ->]|Hne]; [done|].
    apply Hsl; try done. by rewrite <- HX.
  - intros b Hb. rewrite (scX_shrink t X X' i0 s0 b Hi Hr HX).
    pose proof (b2z_range (awayX t X b i0 s0)).
    destruct (away t b i0 s0) eqn:E.
    + destruct (Haw b Hb E) as [?|?]; [by left|right].
      pose proof (b2z_range (awayX t X' b i0 s0)). lia.
    + destruct (Hc b Hb) as [?|?]; [by left|right].
      unfold awayX at 2. rewrite E, andb_false_r. simpl. lia.
Qed.

Lemma UniqX_grow t X X' :
  UniqX t X -> (forall i s, X i s = true -> X' i s = true) -> UniqX t X'.
Proof.
  intros Hu HX i s i' s' Hi Hs Hi' Hs' H1 H2. apply Hu; try done.
  - destruct (X i s) eqn:E; [|done]. apply HX in E. congruence.
  - destruct (X i' s') eqn:E; [|done]. apply HX in E. congruence.
Qed.

Lemma UniqX_shrink t X X' i0 s0 :
  UniqX t X ->
  (forall i s, ~ (i = i0 /\ s = s0) -> X' i s = X i s) ->
  (forall i s, inb t i -> 0 <= s < 8 -> ~ (i = i0 /\ s = s0) -> X i s = false ->
     P t i s = true -> K t i s <> K t i0 s0) ->
  UniqX t X'.
Proof.
  intros Hu HX Hne i s i' s' Hi Hs Hi' Hs' H1 H2 HP HP' HK.
  destruct (decide (i = i0 /\ s = s0)) as [[-> ->]|N1];
    destruct (decide (i' = i0 /\ s' = s0)) as [[-> ->]|N2]; try done.
  - exfalso. apply (Hne i' s'); try done. by rewrite <- HX.
  - exfalso. apply (Hne i s); try done. by rewrite <- HX.
  - apply Hu; try done; by rewrite <- HX.
Qed.

Lemma occX_shrink t X X' i0 s0 :
  inb t i0 -> 0 <= s0 < 8 ->
  (forall i s, ~ (i = i0 /\ s = s0) -> X' i s = X i s) ->
  occX t X' = occX t X - b2z (negb (X i0 s0) && P t i0 s0)
              + b2z (negb (X' i0 s0) && P t i0 s0).
Proof.
  intros Hi Hs HX. unfold occX.
  apply (grid_change _ (fun i s => b2z (negb (X i s) && P t i s))); try done.
  intros i s Hi' Hs' Hne. by rewrite HX.
Qed.

(** ** The second-position counter and the filter resets *)

(** The cells a step may write without touching a slot. *)
Definition meta_only (E : Z -> Z -> Prop) : Prop :=
  forall i c, E i c -> c < 9 \/ 18 <= c.

Lemma Frame_same t t' (E : Z -> Z -> Prop) X :
  Frame t t' E nowhere -> meta_only E -> sameK t t' X /\ sameV t t' X.
Proof.
  intros Hfr HE. apply (Frame_sameKV _ _ _ _ X Hfr).
  intros i s Hi Hs _. split; [|split].
  - apply (Frame_P _ _ _ _ _ _ Hfr Hi). intros H. apply HE in H. lia.
  - intros H. apply HE in H. lia.
  - unfold nowhere. tauto.
Qed.

Lemma meta_only_at i c : c < 9 \/ 18 <= c -> meta_only (at_ i c).
Proof. intros H i' c' [_ ->]. done. Qed.

Lemma meta_only_either E E' : meta_only E -> meta_only E' -> meta_only (either E E').
Proof. intros H H' i c [?|?]; eauto. Qed.

Lemma InvX_count t X b v :
  InvX t X -> inb t b -> byte v -> (v = 255 \/ scX t X b <= v) ->
  InvX (put t b 8 [v]) X.
Proof.
  intros HI Hb Hv Hle. pose proof HI as (Hsh & Hsl & Hc & Hh).
  destruct (Frame_meta t b 8 v Hsh Hb ltac:(lia)) as [Hfr HV].
  rewrite (mod_byte _ Hv) in HV. set (t' := put t b 8 [v]) in *.
  destruct (Frame_same _ _ _ X Hfr (meta_only_at b 8 ltac:(lia))) as [HK _].
  split; [by eapply Frame_Shape|]. split; [|split].
  - apply (SlotsX_step t t' X HI); try done; [by eapply Frame_Shape|].
    intros i f Hi Hf. left. intros bit _.
    rewrite (Frame_F _ _ _ _ i f Hfr) by (try done; unfold at_; lia). done.
  - intros b' Hb'. rewrite (scX_same t t' X b' eq_refl HK).
    destruct (decide (b' = b)) as [->|Hne].
    + unfold C. rewrite HV. done.
    + rewrite (Frame_C _ _ _ _ b' Hfr) by (try done; unfold at_; tauto). by apply Hc.
  - apply (Hands_Frame t t' _ _ Hh Hfr). unfold at_. intros i [_ ?]. lia.
Qed.

Lemma InvX_filterReset t X i f :
  InvX t X -> inb t i -> 0 <= f < 8 ->
  InvX (filterReset t (i * bucket t) f) X /\
  Frame t (filterReset t (i * bucket t) f) (at_ i f) nowhere.
Proof.
  intros HI Hi Hf. pose proof HI as (Hsh & Hsl & Hc & Hh).
  destruct (filterReset_spec t i f Hsh Hi Hf) as [Hfr Hbits].
  split; [|done].
  destruct (Frame_same _ _ _ X Hfr (meta_only_at i f ltac:(lia))) as [HK _].
  apply (InvX_step t _ X HI); try done.
  - by eapply Frame_Shape.
  - by eapply Frame_params.
  - intros i' f' Hi' Hf'. destruct (decide (i' = i /\ f' = f)) as [[-> ->]|Hne].
    + destruct Hbits as [Hm|[HC0 Hr]]; [left; intros; by apply Hm|right].
      split; [done|]. intros s Hs _. by apply Hr.
    + left. intros bit _.
      rewrite (Frame_F _ _ _ _ i' f' Hfr) by (try done; unfold at_; tauto). done.
  - intros b Hb. rewrite (Frame_C _ _ _ _ b Hfr) by (try done; unfold at_; lia). lia.
  - apply (Hands_Frame t _ _ _ Hh Hfr). unfold at_. intros i' [_ ?]. lia.
Qed.

Lemma InvX_filterReset_all t0 X i :
  forall n t f, 0 <= f -> f + Z.of_nat n <= 8 ->
  InvX t X -> inb t i -> Frame t0 t (filters_of i) nowhere ->
  InvX (filterReset_all n t (i * bucket t) f) X /\
  Frame t0 (filterReset_all n t (i * bucket t) f) (filters_of i) nowhere.
Proof.
  induction n as [|n IH]; intros t f Hf Hn HI Hi Hfr; simpl; [done|].
  destruct (InvX_filterReset t X i f HI Hi ltac:(lia)) as [HI' Hfr'].
  set (t1 := filterReset t (i * bucket t) f) in *.
  destruct (params_fields _ _ (Frame_params _ _ _ _ Hfr')) as (_ & _ & Eb & _).
  rewrite <- Eb. apply IH; try done; try lia.
  - by apply (Frame_inb _ _ _ _ i Hfr').
  - eapply Frame_weaken; [exact (Frame_trans _ _ _ _ _ _ _ Hfr Hfr')| |];
      unfold either, nowhere, at_, filters_of; intuition lia.
Qed.

Lemma filterIncrement_spec t i :
  Shape t -> inb t i ->
  let t' := filterIncrementSecondPosition t (i * bucket t) in
  Frame t t' (at_ i 8) nowhere /\
  C t' i = (if C t i <? 255 then C t i + 1 else C t i).
Proof.
  intros Hs Hi. unfold filterIncrementSecondPosition.
  change (bget t (i * bucket t + 8)) with (C t i).
  destruct (C t i <? 255) eqn:E.
  - rewrite bset_put. destruct (Frame_meta t i 8 (C t i + 1) Hs Hi ltac:(lia)) as [Hfr HV].
    split; [done|]. unfold C at 1. rewrite HV. apply mod_byte.
    pose proof (M_byte t i 8 Hs). unfold C, byte in *. lia.
  - split; [|done]. eapply Frame_weaken; [by apply Frame_refl| |]; unfold nowhere; tauto.
Qed.

Lemma InvX_increment t X i :
  InvX t X -> inb t i ->
  InvX (filterIncrementSecondPosition t (i * bucket t)) X.
Proof.
  intros HI Hi. pose proof HI as (Hsh & Hsl & Hc & Hh).
  destruct (filterIncrement_spec t i Hsh Hi) as [Hfr HC].
  apply (InvX_Frame t _ _ _ X HI Hfr).
  - intros i' s Hi' Hs _. split; [|split; [|cells]].
    + apply (Frame_P _ _ _ _ _ _ Hfr Hi'). cells.
    + cells.
  - intros i' f Hi' Hf bit _.
    rewrite (Frame_F _ _ _ _ i' f Hfr) by (try done; cells). done.
  - intros b Hb. destruct (decide (b = i)) as [->|Hne].
    + rewrite HC. destruct (C t i <? 255); lia.
    + rewrite (Frame_C _ _ _ _ b Hfr) by (try done; unfold at_; tauto). lia.
  - apply (Hands_Frame t _ _ _ Hh Hfr). unfold at_. intros i' [_ ?]. lia.
Qed.

Lemma InvX_decrement t X i :
  InvX t X -> inb t i ->
  (C t i = 255 \/ scX t X i + 1 <= C t i) ->
  exists t', filterDecrementSecondPosition t (i * bucket t) = Ret t' tt /\
    InvX t' X /\ Frame t t' (count_filters_of i) nowhere /\
    C t' i = (if C t i <? 255 then C t i - 1 else C t i).
Proof.
  intros HI Hi Hc. pose proof HI as (Hsh & Hsl & Hcs & Hh).
  unfold filterDecrementSecondPosition.
  change (bget t (i * bucket t + 8)) with (C t i).
  assert (0 <= scX t X i).
  { apply grid_nonneg. intros. apply b2z_range. }
  assert (Hrefl : Frame t t (count_filters_of i) nowhere).
  { eapply Frame_weaken; [by apply Frame_refl| |]; unfold nowhere; tauto. }
  destruct (C t i =? 0) eqn:E0; [lia|].
  destruct (C t i <? 255) eqn:E255; [|by exists t].
  rewrite bset_put.
  assert (Hb : byte (C t i - 1)) by (unfold byte; lia).
  pose proof (InvX_count t X i (C t i - 1) HI Hi Hb ltac:(lia)) as HI1.
  destruct (Frame_meta t i 8 (C t i - 1) Hsh Hi ltac:(lia)) as [Hfr HV].
  rewrite (mod_byte _ Hb) in HV.
  set (t1 := put t i 8 [C t i - 1]) in *.
  change (bget t1 (i * bucket t + 8)) with (M t1 i 8). rewrite HV.
  assert (Hfr1 : Frame t t1 (count_filters_of i) nowhere).
  { eapply Frame_weaken; [exact Hfr| |]; unfold at_, count_filters_of; intuition lia. }
  destruct (C t i - 1 =? 0) eqn:E1; [|by exists t1].
  assert (Hrefl1 : Frame t1 t1 (filters_of i) nowhere).
  { eapply Frame_weaken; [apply Frame_refl; by eapply Frame_Shape| |]; unfold nowhere; tauto. }
  destruct (InvX_filterReset_all t1 X i 8 t1 0 ltac:(lia) ltac:(lia) HI1 Hi Hrefl1) as [HI2 Hfr2].
  change (bucket t1) with (bucket t) in *.
  eexists. split; [done|]. split; [done|]. split.
  - eapply Frame_weaken; [exact (Frame_trans _ _ _ _ _ _ _ Hfr Hfr2)| |];
      unfold either, nowhere, at_, filters_of, count_filters_of; intuition lia.
  - rewrite (Frame_C _ _ _ _ i Hfr2) by (try done; unfold filters_of; lia).
    unfold C at 1. by rewrite HV.
Qed.

(** ** Steps that rewrite one slot *)

(** The cells of the presence bit and the tag of slot [s0] of bucket [i0],
    and any cell that belongs to no slot. *)
Definition slot_cells (i0 s0 : Z) (E : Z -> Z -> Prop) : Prop :=
  forall i c, E i c -> (i = i0 /\ (c = 9 \/ c = 10 + s0)) \/ c < 9 \/ 18 <= c.

Lemma Frame_slots_but t t' (E Xs : Z -> Z -> Prop) i0 s0 :
  Frame t t' E Xs -> inb t i0 -> 0 <= s0 < 8 ->
  slot_cells i0 s0 E ->
  (forall i s, Xs i s -> i = i0 /\ s = s0) ->
  (forall s, 0 <= s < 8 -> s <> s0 ->
     Z.testbit (M t' i0 9) s = Z.testbit (M t i0 9) s) ->
  forall i s, inb t i -> 0 <= s < 8 -> ~ (i = i0 /\ s = s0) ->
  P t' i s = P t i s /\ TG t' i s = TG t i s /\
  K t' i s = K t i s /\ V t' i s = V t i s.
Proof.
  intros Hfr Hi0 Hs0 HE HX Hbits i s Hi Hs Hne.
  split; [|split; [|split]].
  - unfold P. destruct (decide (i = i0)) as [->|Hi'].
    + apply Hbits; [done|]. intros ->. tauto.
    + rewrite (Frame_M _ _ _ _ i 9 Hfr); try done; try lia.
      intros H. apply HE in H. lia.
  - unfold TG. rewrite (Frame_M _ _ _ _ i (10 + s) Hfr); try done; try lia.
    intros H. apply HE in H. destruct H as [[-> H]|H]; [|lia].
    destruct H as [H|H]; [lia|]. apply Hne. split; [done|lia].
  - apply (Frame_K _ _ _ _ _ _ Hfr); try done. intros H. by apply HX in H.
  - apply (Frame_V _ _ _ _ _ _ Hfr); try done. intros H. by apply HX in H.
Qed.

Lemma slots_but_sameKV t t' i0 s0 :
  (forall i s, inb t i -> 0 <= s < 8 -> ~ (i = i0 /\ s = s0) ->
     P t' i s = P t i s /\ TG t' i s = TG t i s /\
     K t' i s = K t i s /\ V t' i s = V t i s) ->
  forall X, (forall i s, X i s = false -> ~ (i = i0 /\ s = s0)) ->
  sameK t t' X /\ sameV t t' X.
Proof.
  intros H X HX. split.
  - intros i s Hi Hs HXs. destruct (H i s Hi Hs (HX _ _ HXs)) as (?&?&?&?). done.
  - intros i s Hi Hs HXs _. destruct (H i s Hi Hs (HX _ _ HXs)) as (?&?&?&?). done.
Qed.

(** [place]: the stores that put a new element in slot [s] of bucket [i],
    set its filter bit in its first-position bucket [i1] and, when [i] is
    the second-position bucket, count it there. *)
Definition place (t : Table) (i s i1 tag : Z) (kb vb : list Z) : Table :=
  let t := ins t i s tag kb vb in
  let t := put t i1 (filter_of tag) [Z.lor (M t i1 (filter_of tag)) (bit_of tag)] in
  if i =? i1 then t else filterIncrementSecondPosition t (i1 * bucket t).

Definition place_cells (i s i1 f : Z) : Z -> Z -> Prop :=
  either (either (at_ i 9) (at_ i (10 + s))) (either (at_ i1 f) (at_ i1 8)).

Lemma place_frame t i s i1 tag kb vb :
  Shape t -> inb t i -> inb t i1 -> 0 <= s < 8 -> byte tag ->
  length kb = Z.to_nat (keySize t) -> Forall byte kb ->
  length vb = Z.to_nat (valueSize t) -> Forall byte vb ->
  let t' := place t i s i1 tag kb vb in
  Frame t t' (place_cells i s i1 (filter_of tag)) (at_ i s) /\
  M t' i 9 = Z.lor (M t i 9) (Z.shiftl 1 s) /\
  TG t' i s = tag /\ K t' i s = kb /\ V t' i s = vb /\
  F t' i1 (filter_of tag) = Z.lor (F t i1 (filter_of tag)) (bit_of tag) /\
  C t' i1 = (if i =? i1 then C t i1 else if C t i1 <? 255 then C t i1 + 1 else C t i1).
Proof.
  intros Hs Hi Hi1 Hr Ht Hkl Hkb Hvl Hvb. unfold place.
  pose proof (filter_of_range tag) as Hf.
  destruct (ins_spec t i s tag kb vb Hs Hi Hr Ht Hkl Hkb Hvl Hvb) as (Fa & Pa & Ta & Ka & Va).
  set (ta := ins t i s tag kb vb) in *. cbv zeta.
  pose proof (Frame_Shape _ _ _ _ Fa) as Sa.
  pose proof (Frame_inb _ _ _ _ i1 Fa Hi1) as Hi1a.
  destruct (Frame_meta ta i1 (filter_of tag)
              (Z.lor (M ta i1 (filter_of tag)) (bit_of tag)) Sa Hi1a ltac:(lia)) as [Fb Vb].
  set (tb := put ta i1 (filter_of tag) _) in *.
  pose proof (Frame_Shape _ _ _ _ Fb) as Sb.
  pose proof (Frame_inb _ _ _ _ i1 Fb Hi1a) as Hi1b.
  assert (Hbyte : byte (Z.lor (M ta i1 (filter_of tag)) (bit_of tag))).
  { apply byte_lor_bit; [by apply M_byte|apply low3_range]. }
  rewrite (mod_byte _ Hbyte) in Vb.
  assert (Efa : M ta i1 (filter_of tag) = M t i1 (filter_of tag)).
  { apply (Frame_M _ _ _ _ _ _ Fa); try done; try lia. cells. }
  assert (Eca : C tb i1 = C t i1).
  { rewrite (Frame_C _ _ _ _ i1 Fb) by (try done; cells).
    apply (Frame_C _ _ _ _ i1 Fa); [done|cells]. }
  assert (Fab := Frame_trans _ _ _ _ _ _ _ Fa Fb).
  pose proof (Frame_inb _ _ _ _ i Fab Hi) as Hib.
  assert (HM9 : M tb i 9 = Z.lor (M t i 9) (Z.shiftl 1 s)).
  { rewrite (Frame_M _ _ _ _ i 9 Fb) by (try done; cells). done. }
  assert (HTG : TG tb i s = tag).
  { unfold TG. rewrite (Frame_M _ _ _ _ i (10 + s) Fb) by (try done; cells). done. }
  assert (HK : K tb i s = kb).
  { rewrite (Frame_K _ _ _ _ i s Fb) by (try done; cells). done. }
  assert (HV : V tb i s = vb).
  { rewrite (Frame_V _ _ _ _ i s Fb) by (try done; cells). done. }
  assert (HF : F tb i1 (filter_of tag) = Z.lor (F t i1 (filter_of tag)) (bit_of tag)).
  { unfold F. by rewrite Vb, Efa. }
  destruct (i =? i1) eqn:Ei.
  - split; [|done].
    eapply Frame_weaken; [exact Fab| |]; unfold place_cells; cells.
  - destruct (filterIncrement_spec tb i1 Sb Hi1b) as [Fc Vc].
    set (tc := filterIncrementSecondPosition tb (i1 * bucket tb)) in *.
    assert (Fac := Frame_trans _ _ _ _ _ _ _ Fab Fc).
    split; [eapply Frame_weaken; [exact Fac| |]; unfold place_cells; cells|].
    split; [rewrite (Frame_M _ _ _ _ i 9 Fc) by (try done; cells); done|].
    split; [unfold TG; rewrite (Frame_M _ _ _ _ i (10 + s) Fc) by (try done; cells); done|].
    split; [rewrite (Frame_K _ _ _ _ i s Fc) by (try done; cells); done|].
    split; [rewrite (Frame_V _ _ _ _ i s Fc) by (try done; cells); done|].
    split; [rewrite (Frame_F _ _ _ _ i1 _ Fc) by (try done; cells); done|].
    by rewrite Vc, Eca.
Qed.

Lemma fbit_set t' b tag x :
  F t' b (filter_of tag) = Z.lor x (bit_of tag) -> fbit t' b tag = true.
Proof.
  intros E. unfold fbit. rewrite E. unfold bit_of.
  pose proof (low3_range tag). rewrite testbit_set by lia.
  rewrite Z.eqb_refl. apply orb_true_r.
Qed.

Lemma place_spec t i s kb vb :
  InvX t (only i s) -> UniqX t (only i s) ->
  inb t i -> 0 <= s < 8 ->
  (i = home t kb \/ i = alt t kb) ->
  length kb = Z.to_nat (keySize t) -> Forall byte kb ->
  length vb = Z.to_nat (valueSize t) -> Forall byte vb ->
  (forall v, ~ heldX t (only i s) kb v) ->
  let t' := place t i s (home t kb) (tagk t kb) kb vb in
  params t' = params t /\ Inv t' /\ Uniq t' /\
  occupied t' = occX t (only i s) + 1 /\
  (forall k v, holds t' k v <-> heldX t (only i s) k v \/ (k = kb /\ v = vb)).
Proof.
  intros HI HU Hi Hr Hpos Hkl Hkb Hvl Hvb Habs.
  pose proof HI as (Hsh & Hsl & Hc & Hh).
  set (i1 := home t kb). set (tag := tagk t kb).
  assert (Hi1 : inb t i1) by (by apply home_inb).
  assert (Ht : byte tag) by apply byte_tag_of.
  pose proof (filter_of_range tag) as Hf.
  destruct (place_frame t i s i1 tag kb vb Hsh Hi Hi1 Hr Ht Hkl Hkb Hvl Hvb)
    as (Hfr & HM9 & HTG & HK & HV & HF & HC).
  set (t' := place t i s i1 tag kb vb) in *. cbv zeta.
  pose proof (Frame_params _ _ _ _ Hfr) as Hp.
  pose proof (Frame_Shape _ _ _ _ Hfr) as Hsh'.
  assert (Hbut : forall i' s', inb t i' -> 0 <= s' < 8 -> ~ (i' = i /\ s' = s) ->
     P t' i' s' = P t i' s' /\ TG t' i' s' = TG t i' s' /\
     K t' i' s' = K t i' s' /\ V t' i' s' = V t i' s').
  { apply (Frame_slots_but t t' _ _ i s Hfr Hi Hr).
    - unfold slot_cells, place_cells. cells.
    - cells.
    - intros s' Hs' Hne. rewrite HM9, testbit_set by lia.
      destruct (s =? s') eqn:E; [lia|]. apply orb_false_r. }
  destruct (slots_but_sameKV t t' i s Hbut (only i s)) as [HsK HsV].
  { intros i' s'. apply only_false. }
  assert (HP' : P t' i s = true).
  { unfold P. rewrite HM9, testbit_set, Z.eqb_refl by lia. apply orb_true_r. }
  (* the invariant with the new slot set aside *)
  assert (HI' : InvX t' (only i s)).
  { apply (InvX_step t t' (only i s) HI); try done.
    - intros i' f' Hi' Hf'. left. intros bit Hbit Hb.
      destruct (decide (i' = i1 /\ f' = filter_of tag)) as [[-> ->]|Hne].
      + rewrite HF, Z.lor_spec, Hb. done.
      + rewrite (Frame_F _ _ _ _ i' f' Hfr); try done. unfold place_cells. cells.
    - intros b Hb. destruct (decide (b = i1)) as [->|Hne].
      + rewrite HC. destruct (i =? i1); [lia|]. destruct (C t i1 <? 255); lia.
      + rewrite (Frame_C _ _ _ _ b Hfr); [lia|done|]. unfold place_cells. cells.
    - apply (Hands_Frame t t' _ _ Hh Hfr). unfold place_cells. cells. }
  assert (Ehome : home t' kb = i1) by (by apply home_params).
  (* taking the new slot back *)
  assert (HIn : InvX t' none).
  { apply (InvX_shrink t' (only i s) none i s HI').
    - by apply (Frame_inb _ _ _ _ i Hfr).
    - done.
    - intros i' s' Hne. symmetry. by apply only_false.
    - intros _. rewrite HTG, HK, Ehome, (alt_params _ _ _ Hp), (tagk_params _ _ _ Hp).
      split; [done|]. split; [done|]. by eapply fbit_set.
    - intros b Hb Ha. unfold away in Ha. rewrite HP', HK, Ehome in Ha. simpl in Ha.
      apply andb_true_iff in Ha. destruct Ha as [Hne Heq].
      apply Z.eqb_eq in Heq. subst b. apply negb_true_iff in Hne.
      rewrite (scX_same t t' _ i1 Hp HsK), HC, Hne.
      destruct (Hc i1 Hi1) as [E255|Hle].
      + left. rewrite E255. done.
      + destruct (C t i1 <? 255) eqn:E; [right; lia|left].
        pose proof (M_byte t i1 8 Hsh). unfold C, byte in *. lia. }
  assert (HUn : UniqX t' none).
  { apply (UniqX_shrink t' (only i s) none i s).
    - by apply (UniqX_step t t' _ HU).
    - intros i' s' Hne. symmetry. by apply only_false.
    - intros i' s' Hi' Hs' Hne _ HPs. apply (inb_params _ _ _ Hp) in Hi'.
      destruct (Hbut i' s' Hi' Hs' Hne) as (EP & _ & EK & EV).
      rewrite EP in HPs. rewrite HK, EK. intros Heq.
      apply (Habs (V t i' s')). exists i', s'. splits. by apply only_false. }
  split; [done|]. split; [by apply Inv_InvX|]. split; [by apply Uniq_UniqX|]. split.
  - rewrite occupied_occX.
    rewrite (occX_shrink t' (only i s) none i s);
      [|by apply (Frame_inb _ _ _ _ i Hfr)|done|intros i' s' Hne; symmetry; by apply only_false].
    rewrite (occX_step t t' _ Hp HsK). unfold only at 2, none.
    rewrite !Z.eqb_refl, HP'. simpl. lia.
  - intros k v. rewrite holds_heldX. split.
    + intros (i' & s' & Hi' & Hs' & _ & HPs & HKs & HVs).
      apply (inb_params _ _ _ Hp) in Hi'.
      destruct (decide (i' = i /\ s' = s)) as [[-> ->]|Hne].
      * right. split; congruence.
      * left. destruct (Hbut i' s' Hi' Hs' Hne) as (EP & _ & EK & EV).
        exists i', s'. splits; try congruence. by apply only_false.
    + intros [(i' & s' & Hi' & Hs' & HX & HPs & HKs & HVs)|[-> ->]].
      * apply only_false in HX.
        destruct (Hbut i' s' Hi' Hs' HX) as (EP & _ & EK & EV).
        pose proof (Frame_inb _ _ _ _ i' Hfr Hi').
        exists i', s'. splits; congruence.
      * pose proof (Frame_inb _ _ _ _ i Hfr Hi).
        exists i, s. splits.
Qed.

(** ** Moving an element to its other bucket ([vacate])

    After the move the element is stored twice: in its old slot
    [(i, s)], which the caller is about to overwrite and which is set
    aside here, and in its new slot [(j, s1)]. *)

Lemma scX_but t t' X b i0 s0 :
  params t' = params t -> inb t i0 -> 0 <= s0 < 8 ->
  (forall i s, inb t i -> 0 <= s < 8 -> ~ (i = i0 /\ s = s0) ->
     P t' i s = P t i s /\ TG t' i s = TG t i s /\
     K t' i s = K t i s /\ V t' i s = V t i s) ->
  scX t' X b = scX t X b - b2z (awayX t X b i0 s0) + b2z (awayX t' X b i0 s0).
Proof.
  intros Hp Hi Hs Hbut. unfold scX.
  replace (buckets t') with (buckets t) by (unfold params in Hp; congruence).
  apply (grid_change _ (fun i s => b2z (awayX t X b i s))); try done.
  intros i s Hi' Hs' Hne. destruct (Hbut i s Hi' Hs' Hne) as (EP & _ & EK & _).
  unfold awayX, away. by rewrite EP, EK, (home_params _ _ _ Hp).
Qed.

Lemma moved_content t t1 i s j s1 :
  params t1 = params t -> inb t i -> 0 <= s < 8 -> inb t j -> 0 <= s1 < 8 ->
  ~ (j = i /\ s1 = s) ->
  Uniq t -> P t i s = true -> P t j s1 = false ->
  (forall i' s', inb t i' -> 0 <= s' < 8 -> ~ (i' = j /\ s' = s1) ->
     P t1 i' s' = P t i' s' /\ TG t1 i' s' = TG t i' s' /\
     K t1 i' s' = K t i' s' /\ V t1 i' s' = V t i' s') ->
  P t1 j s1 = true -> K t1 j s1 = K t i s -> V t1 j s1 = V t i s ->
  UniqX t1 (only i s) /\ occX t1 (only i s) = occupied t /\
  (forall k v, heldX t1 (only i s) k v <-> holds t k v).
Proof.
  intros Hp Hi Hs Hj Hs1 Hne HU HP0 HP1 Hbut HP1' HK1 HV1.
  assert (Hinb : forall x, inb t1 x <-> inb t x) by (intros; by apply inb_params).
  split; [|split].
  - intros a sa b sb Ha Hsa Hb Hsb HXa HXb HPa HPb HKab.
    apply Hinb in Ha, Hb. apply only_false in HXa, HXb.
    destruct (decide (a = j /\ sa = s1)) as [[-> ->]|Na];
      destruct (decide (b = j /\ sb = s1)) as [[-> ->]|Nb]; try done.
    + destruct (Hbut b sb Hb Hsb Nb) as (EP & _ & EK & _).
      exfalso. apply HXb. apply (HU b sb i s); try done; congruence.
    + destruct (Hbut a sa Ha Hsa Na) as (EP & _ & EK & _).
      exfalso. apply HXa. apply (HU a sa i s); try done; congruence.
    + destruct (Hbut a sa Ha Hsa Na) as (EPa & _ & EKa & _).
      destruct (Hbut b sb Hb Hsb Nb) as (EPb & _ & EKb & _).
      apply (HU a sa b sb); try done; congruence.
  - (* one slot more than [t], one of them set aside *)
    assert (E1 : occX t1 none = occupied t + 1).
    { change (occX t1 none) with (occupied t1).
      rewrite (occupied_but t t1 j s1 Hp); try done.
      - rewrite HP1, HP1'. simpl. lia.
      - intros i' s' Hi' Hs' Hn. destruct (Hbut i' s' Hi' Hs' Hn) as (?&?&?&?). done. }
    pose proof (occX_shrink t1 (only i s) none i s (proj2 (Hinb i) Hi) Hs) as E2.
    rewrite E2 in E1; [|intros i' s' Hn; symmetry; by apply only_false].
    destruct (Hbut i s Hi Hs ltac:(intros [? ?]; apply Hne; split; congruence)) as (EP & _).
    unfold only at 2, none in E1. rewrite !Z.eqb_refl, EP, HP0 in E1. simpl in E1. lia.
  - intros k v. rewrite holds_heldX. split.
    + intros (a & sa & Ha & Hsa & HXa & HPa & HKa & HVa).
      apply Hinb in Ha. apply only_false in HXa.
      destruct (decide (a = j /\ sa = s1)) as [[-> ->]|Na].
      * exists i, s. splits; congruence.
      * destruct (Hbut a sa Ha Hsa Na) as (EP & _ & EK & EV).
        exists a, sa. splits; congruence.
    + intros (a & sa & Ha & Hsa & _ & HPa & HKa & HVa).
      destruct (decide (a = i /\ sa = s)) as [[-> ->]|Na].
      * exists j, s1. pose proof (proj2 (Hinb j) Hj). splits; try congruence.
        apply only_false. done.
      * assert (Nj : ~ (a = j /\ sa = s1)) by (intros [-> ->]; congruence).
        destruct (Hbut a sa Ha Hsa Nj) as (EP & _ & EK & EV).
        pose proof (proj2 (Hinb a) Ha).
        exists a, sa. splits; try congruence. by apply only_false.
Qed.

Ltac fside :=
  try done; try lia; try (by eapply Frame_inb; eauto); try cells.

Definition moved (t t1 : Table) (i s : Z) : Prop :=
  params t1 = params t /\ InvX t1 (only i s) /\ UniqX t1 (only i s) /\
  occX t1 (only i s) = occupied t /\
  (forall k v, heldX t1 (only i s) k v <-> holds t k v).

(** From the first- to the second-position bucket. *)
Lemma move_A t i s s2 :
  Inv t -> Uniq t -> inb t i -> 0 <= s < 8 -> 0 <= s2 < 8 ->
  P t i s = true -> i = home t (K t i s) -> alt t (K t i s) <> i ->
  P t (alt t (K t i s)) s2 = false ->
  moved t
    (filterIncrementSecondPosition
       (ins t (alt t (K t i s)) s2 (tagk t (K t i s)) (K t i s) (V t i s))
       (i * bucket t)) i s.
Proof.
  intros HI HU Hi Hs Hs2 HP0 Hhome Hne HP1.
  apply Inv_InvX in HI. pose proof HI as (Hsh & Hsl & Hc & Hh).
  set (r := K t i s) in *. set (j := alt t r) in *. set (tag := tagk t r).
  assert (Hj : inb t j) by (by apply alt_inb).
  destruct (ins_spec t j s2 tag r (V t i s) Hsh Hj Hs2 (byte_tag_of _)
              (length_reg _ _ _ _) (reg_byte _ _ _ _ Hsh)
              (length_reg _ _ _ _) (reg_byte _ _ _ _ Hsh)) as (Fa & Pa & Ta & Ka & Va).
  set (ta := ins t j s2 tag r (V t i s)) in *.
  pose proof (Frame_Shape _ _ _ _ Fa) as Sa.
  destruct (params_fields _ _ (Frame_params _ _ _ _ Fa)) as (_ & _ & Eb & _).
  rewrite <- Eb.
  destruct (filterIncrement_spec ta i Sa (Frame_inb _ _ _ _ i Fa Hi)) as [Fb Cb].
  set (tb := filterIncrementSecondPosition ta (i * bucket ta)) in *.
  assert (Fab := Frame_trans _ _ _ _ _ _ _ Fa Fb).
  pose proof (Frame_params _ _ _ _ Fab) as Hp.
  assert (HM9 : M tb j 9 = Z.lor (M t j 9) (Z.shiftl 1 s2)).
  { rewrite (Frame_M _ _ _ _ j 9 Fb) by fside. done. }
  assert (Hbut : forall i' s', inb t i' -> 0 <= s' < 8 -> ~ (i' = j /\ s' = s2) ->
     P tb i' s' = P t i' s' /\ TG tb i' s' = TG t i' s' /\
     K tb i' s' = K t i' s' /\ V tb i' s' = V t i' s').
  { apply (Frame_slots_but t tb _ _ j s2 Fab Hj Hs2).
    - unfold slot_cells. cells.
    - cells.
    - intros s' Hs' Hn. rewrite HM9, testbit_set by lia.
      destruct (s2 =? s') eqn:E; [lia|]. apply orb_false_r. }
  assert (HP1' : P tb j s2 = true).
  { unfold P. rewrite HM9, testbit_set, Z.eqb_refl by lia. apply orb_true_r. }
  assert (HTG : TG tb j s2 = tag).
  { unfold TG. rewrite (Frame_M _ _ _ _ j (10 + s2) Fb) by fside. done. }
  assert (HK : K tb j s2 = r).
  { rewrite (Frame_K _ _ _ _ j s2 Fb) by fside. done. }
  assert (HV : V tb j s2 = V t i s).
  { rewrite (Frame_V _ _ _ _ j s2 Fb) by fside. done. }
  assert (HC : C tb i = if C t i <? 255 then C t i + 1 else C t i).
  { rewrite Cb. rewrite (Frame_C _ _ _ _ i Fa) by fside. done. }
  destruct (slots_but_sameKV t tb j s2 Hbut (only j s2)) as [HsK HsV].
  { intros i' s'. apply only_false. }
  destruct (moved_content t tb i s j s2 Hp Hi Hs Hj Hs2) as (HU' & Hocc & Hheld); try done.
  { intros [? _]. done. }
  split; [done|]. split; [|done].
  (* the invariant *)
  assert (HI1 : InvX tb (only j s2)).
  { apply (InvX_step t tb (only j s2)); try done.
    - apply (InvX_grow t none); done.
    - by eapply Frame_Shape.
    - intros i' f' Hi' Hf'. left. intros bit _.
      rewrite (Frame_F _ _ _ _ i' f' Fab) by (try done; cells). done.
    - intros b Hb. destruct (decide (b = i)) as [->|Hn].
      + rewrite HC. destruct (C t i <? 255); lia.
      + rewrite (Frame_C _ _ _ _ b Fab) by (try done; cells). lia.
    - apply (Hands_Frame t tb _ _ Hh Fab). cells. }
  destruct (Hsl i s Hi Hs eq_refl HP0) as (Htag & _ & Hbit). fold r in Htag, Hbit.
  assert (HIn : InvX tb none).
  { apply (InvX_shrink tb (only j s2) none j s2 HI1).
    - by apply (Frame_inb _ _ _ _ j Fab).
    - done.
    - intros i' s' Hn. symmetry. by apply only_false.
    - intros _. rewrite HTG, HK, (home_params _ _ _ Hp), (alt_params _ _ _ Hp),
        (tagk_params _ _ _ Hp).
      split; [done|]. split; [by right|].
      rewrite <- Hhome. unfold fbit.
      pose proof (filter_of_range tag).
      rewrite (Frame_F _ _ _ _ i _ Fab) by fside.
      unfold fbit in Hbit. rewrite Htag, <- Hhome in Hbit. done.
    - intros b Hb Ha. unfold away in Ha. rewrite HP1', HK, (home_params _ _ _ Hp) in Ha.
      rewrite <- Hhome in Ha. simpl in Ha.
      apply andb_true_iff in Ha. destruct Ha as [_ Heq].
      apply Z.eqb_eq in Heq. subst b.
      rewrite (scX_same t tb _ i Hp HsK), HC.
      assert (scX t (only j s2) i <= scX t none i).
      { apply grid_le. intros. unfold awayX. simpl.
        pose proof (b2z_range (away t i i0 s0)). destruct (only j s2 i0 s0); simpl; lia. }
      destruct (Hc i Hi) as [E255|Hle].
      + left. rewrite E255. done.
      + destruct (C t i <? 255) eqn:E; [right; lia|left].
        pose proof (M_byte t i 8 Hsh). unfold C, byte in *. lia. }
  apply (InvX_grow tb none); done.
Qed.

(** From the second- back to the first-position bucket. *)
Lemma move_B t i s s1 :
  Inv t -> Uniq t -> inb t i -> 0 <= s < 8 -> 0 <= s1 < 8 ->
  P t i s = true -> home t (K t i s) <> i ->
  P t (home t (K t i s)) s1 = false ->
  exists t1,
    filterDecrementSecondPosition
      (ins t (home t (K t i s)) s1 (tagk t (K t i s)) (K t i s) (V t i s))
      (home t (K t i s) * bucket t) = Ret t1 tt /\
    moved t t1 i s.
Proof.
  intros HI HU Hi Hs Hs1 HP0 Hne HP1.
  apply Inv_InvX in HI. pose proof HI as (Hsh & Hsl & Hc & Hh).
  set (r := K t i s) in *. set (j := home t r) in *. set (tag := tagk t r).
  assert (Hj : inb t j) by (by apply home_inb).
  destruct (ins_spec t j s1 tag r (V t i s) Hsh Hj Hs1 (byte_tag_of _)
              (length_reg _ _ _ _) (reg_byte _ _ _ _ Hsh)
              (length_reg _ _ _ _) (reg_byte _ _ _ _ Hsh)) as (Fa & Pa & Ta & Ka & Va).
  set (ta := ins t j s1 tag r (V t i s)) in *.
  pose proof (Frame_Shape _ _ _ _ Fa) as Sa.
  pose proof (Frame_params _ _ _ _ Fa) as Hpa.
  destruct (params_fields _ _ Hpa) as (_ & _ & Eb & _).
  rewrite <- Eb.
  assert (Hbuta : forall i' s', inb t i' -> 0 <= s' < 8 -> ~ (i' = j /\ s' = s1) ->
     P ta i' s' = P t i' s' /\ TG ta i' s' = TG t i' s' /\
     K ta i' s' = K t i' s' /\ V ta i' s' = V t i' s').
  { apply (Frame_slots_but t ta _ _ j s1 Fa Hj Hs1).
    - unfold slot_cells. cells.
    - cells.
    - intros s' Hs' Hn. rewrite Pa, testbit_set by lia.
      destruct (s1 =? s') eqn:E; [lia|]. apply orb_false_r. }
  assert (HPa : P ta j s1 = true).
  { unfold P. rewrite Pa, testbit_set, Z.eqb_refl by lia. apply orb_true_r. }
  destruct (Hsl i s Hi Hs eq_refl HP0) as (Htag & Hpos & Hbit). fold r in Htag, Hpos, Hbit.
  fold j in Hpos, Hbit.
  (* the invariant after the copy, with both slots set aside, then the old one only *)
  pose (X2 := fun a b => only i s a b || only j s1 a b).
  assert (HI2 : InvX ta X2).
  { destruct (slots_but_sameKV t ta j s1 Hbuta X2) as [HsK HsV].
    { intros a b HX. unfold X2 in HX. apply orb_false_iff in HX.
      apply only_false. tauto. }
    apply (InvX_step t ta X2); try done.
    - apply (InvX_grow t none); done.
    - intros i' f' Hi' Hf'. left. intros bit _.
      rewrite (Frame_F _ _ _ _ i' f' Fa) by fside. done.
    - intros b Hb. rewrite (Frame_C _ _ _ _ b Fa) by fside. lia.
    - apply (Hands_Frame t ta _ _ Hh Fa). cells. }
  assert (HI1 : InvX ta (only i s)).
  { apply (InvX_shrink ta X2 (only i s) j s1 HI2).
    - by apply (Frame_inb _ _ _ _ j Fa).
    - done.
    - intros a b Hn. unfold X2. apply only_false in Hn. rewrite Hn. by rewrite orb_false_r.
    - intros _. rewrite Ta, Ka, (home_params _ _ _ Hpa), (alt_params _ _ _ Hpa),
        (tagk_params _ _ _ Hpa).
      split; [done|]. split; [by left|]. fold j. unfold fbit.
      pose proof (filter_of_range tag).
      rewrite (Frame_F _ _ _ _ j _ Fa) by fside.
      unfold fbit in Hbit. by rewrite Htag in Hbit.
    - intros b Hb Ha. unfold away in Ha. rewrite HPa, Ka, (home_params _ _ _ Hpa) in Ha.
      fold j in Ha. simpl in Ha. apply andb_true_iff in Ha. destruct Ha as [Hn Heq].
      apply Z.eqb_eq in Heq. apply negb_true_iff, Z.eqb_neq in Hn. congruence. }
  (* the counter of the first-position bucket has room for the decrement *)
  assert (Hroom : C ta j = 255 \/ scX ta (only i s) j + 1 <= C ta j).
  { rewrite (Frame_C _ _ _ _ j Fa) by fside.
    destruct (Hc j Hj) as [?|Hle]; [by left|right].
    rewrite (scX_but t ta (only i s) j j s1 Hpa Hj Hs1 Hbuta).
    assert (E1 : awayX t (only i s) j j s1 = false).
    { unfold awayX, away. rewrite HP1. simpl. apply andb_false_r. }
    assert (E2 : awayX ta (only i s) j j s1 = false).
    { unfold awayX, away. rewrite Z.eqb_refl. simpl. rewrite andb_false_r. apply andb_false_r. }
    rewrite E1, E2. simpl.
    rewrite (scX_shrink t (only i s) none i s j Hi Hs) in Hle.
    2:{ intros a b Hn. symmetry. by apply only_false. }
    assert (E3 : awayX t (only i s) j i s = false).
    { unfold awayX, only. by rewrite !Z.eqb_refl. }
    assert (E4 : awayX t none j i s = true).
    { unfold awayX, away, none. simpl. rewrite HP0. fold r. fold j.
      rewrite Z.eqb_refl, andb_true_r. simpl. apply negb_true_iff, Z.eqb_neq. congruence. }
    rewrite E3, E4 in Hle. simpl in Hle. lia. }
  destruct (InvX_decrement ta (only i s) j HI1 (Frame_inb _ _ _ _ j Fa Hj) Hroom)
    as (t1 & Hret & HIt & Fb & _).
  exists t1. split; [done|].
  assert (Fab := Frame_trans _ _ _ _ _ _ _ Fa Fb).
  pose proof (Frame_params _ _ _ _ Fab) as Hp.
  assert (Hbut : forall i' s', inb t i' -> 0 <= s' < 8 -> ~ (i' = j /\ s' = s1) ->
     P t1 i' s' = P t i' s' /\ TG t1 i' s' = TG t i' s' /\
     K t1 i' s' = K t i' s' /\ V t1 i' s' = V t i' s').
  { apply (Frame_slots_but t t1 _ _ j s1 Fab Hj Hs1).
    - unfold slot_cells. cells.
    - cells.
    - intros s' Hs' Hn. rewrite (Frame_M _ _ _ _ j 9 Fb) by fside.
      rewrite Pa, testbit_set by lia.
      destruct (s1 =? s') eqn:E; [lia|]. apply orb_false_r. }
  destruct (moved_content t t1 i s j s1 Hp Hi Hs Hj Hs1) as (HU' & Hocc & Hheld); try done.
  - intros [? _]. done.
  - unfold P. rewrite (Frame_M _ _ _ _ j 9 Fb) by fside. done.
  - rewrite (Frame_K _ _ _ _ j s1 Fb) by fside. done.
  - rewrite (Frame_V _ _ _ _ j s1 Fb) by fside. done.
Qed.

(** ** [vacate] *)

Lemma offset_eqb t i j : Shape t -> (i * bucket t =? j * bucket t) = (i =? j).
Proof.
  intros Hs. assert (0 < bucket t) by (unfold Shape in Hs; lia).
  destruct (i =? j) eqn:E.
  - apply Z.eqb_eq in E. subst. apply Z.eqb_refl.
  - apply Z.eqb_neq in E. apply Z.eqb_neq. nia.
Qed.

Lemma hashk_home t k H1 H2 :
  hashk t k = (H1, H2) ->
  home t k = Z.land H1 (mask t) /\ alt t k = Z.land H2 (mask t) /\ tagk t k = tag_of H1.
Proof. intros E. unfold home, alt, tagk. by rewrite E. Qed.

Lemma SLOT_empty t i :
  Shape t -> rd SLOT (bget t (i * bucket t + 9)) < 8 ->
  0 <= rd SLOT (bget t (i * bucket t + 9)) < 8 /\
  P t i (rd SLOT (bget t (i * bucket t + 9))) = false.
Proof.
  intros Hs Hlt. destruct (SLOT_spec (M t i 9) (M_byte t i 9 Hs)) as (Hr & He & _).
  change (bget t (i * bucket t + 9)) with (M t i 9) in *. split; [lia|]. by apply He.
Qed.

Lemma SLOT_full t i :
  Shape t -> ~ rd SLOT (bget t (i * bucket t + 9)) < 8 -> M t i 9 = 255.
Proof.
  intros Hs Hlt. destruct (SLOT_spec (M t i 9) (M_byte t i 9 Hs)) as (Hr & _ & Hf).
  change (bget t (i * bucket t + 9)) with (M t i 9) in *. apply Hf. lia.
Qed.

Lemma full_present t i s : M t i 9 = 255 -> 0 <= s < 8 -> P t i s = true.
Proof. intros E Hs. unfold P. rewrite E. by apply full_bits. Qed.

Lemma vacate_loop_spec t i :
  Inv t -> Uniq t -> inb t i -> M t i 9 = 255 ->
  forall n slot, 0 <= slot -> slot + Z.of_nat n <= 8 ->
  match vacate_loop n t (i * bucket t) slot with
  | Throw _ _ => False
  | Ret t1 r =>
      (r = slot + Z.of_nat n /\ t1 = t) \/
      (slot <= r < slot + Z.of_nat n /\ moved t t1 i r)
  end.
Proof.
  intros HI HU Hi Hfull.
  pose proof HI as (Hsh & Hsl & Hc & Hh).
  induction n as [|n IH]; intros slot H0 H8; [left; split; [simpl; lia|done]|].
  cbn [vacate_loop]. rewrite Hash_slot by done.
  pose proof (full_present t i slot Hfull ltac:(lia)) as HP0.
  destruct (hashk t (K t i slot)) as [H1 H2] eqn:EH.
  destruct (hashk_home _ _ _ _ EH) as (Ehome & Ealt & Etag).
  change (Z.land (Z.shiftr H1 16) 255) with (tag_of H1).
  rewrite <- Ehome, <- Ealt, <- Etag. rewrite !offset_eqb by done.
  destruct (Hsl i slot Hi ltac:(lia) HP0) as (_ & Hpos & _).
  assert (Hrec : match vacate_loop n t (i * bucket t) (slot + 1) with
    | Throw _ _ => False
    | Ret t1 r =>
        (r = slot + Z.of_nat (S n) /\ t1 = t) \/
        (slot <= r < slot + Z.of_nat (S n) /\ moved t t1 i r)
    end).
  { specialize (IH (slot + 1) ltac:(lia) ltac:(lia)).
    destruct (vacate_loop n t (i * bucket t) (slot + 1)); [|done].
    destruct IH as [[? ?]|[? ?]]; [left|right]; split; try done; lia. }
  destruct (i =? home t (K t i slot)) eqn:E1.
  - apply Z.eqb_eq in E1.
    destruct (rd SLOT (bget t (alt t (K t i slot) * bucket t + 9)) <? 8) eqn:E2;
      [|exact Hrec].
    apply Z.ltb_lt in E2. destruct (SLOT_empty t _ Hsh E2) as [Hr2 HP1].
    set (s2 := rd SLOT _) in *.
    assert (Hne : alt t (K t i slot) <> i).
    { intros Heq. rewrite Heq in HP1. rewrite (full_present t i s2 Hfull Hr2) in HP1. done. }
    rewrite assign_Self;
      [|done|by apply alt_inb|done|lia|lia|intros [? ?]; congruence].
    right. split; [lia|].
    rewrite <- E1. apply move_A; try done. lia.
  - apply Z.eqb_neq in E1.
    assert (E3 : i = alt t (K t i slot)) by (destruct Hpos; [done|done]).
    rewrite <- E3, Z.eqb_refl.
    destruct (rd SLOT (bget t (home t (K t i slot) * bucket t + 9)) <? 8) eqn:E2;
      [|exact Hrec].
    apply Z.ltb_lt in E2. destruct (SLOT_empty t _ Hsh E2) as [Hr2 HP1].
    set (s1 := rd SLOT _) in *.
    rewrite assign_Self;
      [|done|by apply home_inb|done|lia|lia|intros [? ?]; congruence].
    destruct (move_B t i slot s1 HI HU Hi ltac:(lia) Hr2 HP0 ltac:(congruence) HP1)
      as (t1 & Hret & Hmoved).
    set (ta := ins _ _ _ _ _ _) in *.
    change (bucket ta) with (bucket t). rewrite Hret.
    right. split; [lia|done].
Qed.

Lemma vacate_spec t i :
  Inv t -> Uniq t -> inb t i -> M t i 9 = 255 ->
  match vacate t (i * bucket t) with
  | Throw _ _ => False
  | Ret t1 r => (r = 8 /\ t1 = t) \/ (0 <= r < 8 /\ moved t t1 i r)
  end.
Proof.
  intros HI HU Hi Hfull.
  apply (vacate_loop_spec t i HI HU Hi Hfull 8 0); lia.
Qed.

(** ** [set] *)

Lemma aside_empty t i s :
  Inv t -> Uniq t -> inb t i -> 0 <= s < 8 -> P t i s = false -> moved t t i s.
Proof.
  intros HI HU Hi Hs HP. split; [done|]. split; [|split; [|split]].
  - apply (InvX_grow t none); [by apply Inv_InvX|done].
  - apply (UniqX_grow t none); [by apply Uniq_UniqX|done].
  - rewrite occupied_occX.
    rewrite (occX_shrink t (only i s) none i s Hi Hs).
    + rewrite HP, !andb_false_r. simpl. lia.
    + intros i' s' Hne. symmetry. by apply only_false.
  - intros k v. rewrite holds_heldX. split.
    + intros (i' & s' & ? & ? & ? & ? & ? & ?). exists i', s'. splits.
    + intros (i' & s' & ? & ? & ? & HP' & ? & ?). exists i', s'. splits.
      apply only_false. intros [-> ->]. congruence.
Qed.

Lemma place_moved t tX i s kb vb :
  moved t tX i s -> inb t i -> 0 <= s < 8 ->
  (i = home t kb \/ i = alt t kb) ->
  length kb = Z.to_nat (keySize t) -> Forall byte kb ->
  length vb = Z.to_nat (valueSize t) -> Forall byte vb ->
  (forall v, ~ holds t kb v) ->
  let t' := place tX i s (home t kb) (tagk t kb) kb vb in
  params t' = params t /\ Inv t' /\ Uniq t' /\
  occupied t' = occupied t + 1 /\
  (forall k v, holds t' k v <-> holds t k v \/ (k = kb /\ v = vb)).
Proof.
  intros (Hp & HI & HU & Hocc & Hheld) Hi Hs Hpos Hkl Hkb Hvl Hvb Habs.
  destruct (params_fields _ _ Hp) as (Eks & Evs & _).
  pose proof (place_spec tX i s kb vb HI HU) as H.
  rewrite (home_params _ _ _ Hp), (alt_params _ _ _ Hp), (tagk_params _ _ _ Hp), Eks, Evs in H.
  destruct H as (Hp' & HI' & HU' & Hocc' & Hheld'); try done.
  - by apply (inb_params _ _ _ Hp).
  - intros v Hv. apply Hheld in Hv. by apply (Habs v).
  - cbv zeta. split; [congruence|]. split; [done|]. split; [done|]. split; [lia|].
    intros k v. rewrite Hheld'. by rewrite Hheld.
Qed.

Lemma place_first t i1 s tag kb vb key ko value vo :
  kb = slice key ko (Z.to_nat (keySize t)) ->
  vb = slice value vo (Z.to_nat (valueSize t)) ->
  bset (assign t (i1 * bucket t) tag s (Ext key) ko (Ext value) vo)
    (i1 * bucket t + filter_of tag)
    (Z.lor (bget (assign t (i1 * bucket t) tag s (Ext key) ko (Ext value) vo)
              (i1 * bucket t + filter_of tag)) (bit_of tag)) =
  place t i1 s i1 tag kb vb.
Proof.
  intros -> ->. rewrite assign_Ext. unfold place. by rewrite Z.eqb_refl.
Qed.

Lemma place_second t i1 i2 s tag kb vb key ko value vo :
  kb = slice key ko (Z.to_nat (keySize t)) ->
  vb = slice value vo (Z.to_nat (valueSize t)) ->
  i2 <> i1 ->
  filterIncrementSecondPosition
    (bset (assign t (i2 * bucket t) tag s (Ext key) ko (Ext value) vo)
       (i1 * bucket t + filter_of tag)
       (Z.lor (bget (assign t (i2 * bucket t) tag s (Ext key) ko (Ext value) vo)
                 (i1 * bucket t + filter_of tag)) (bit_of tag)))
    (i1 * bucket t) =
  place t i2 s i1 tag kb vb.
Proof.
  intros -> -> Hne. rewrite assign_Ext. unfold place.
  apply Z.eqb_neq in Hne. by rewrite Hne.
Qed.

Definition inserted (t t' : Table) (kb vb : list Z) : Prop :=
  params t' = params t /\ Inv t' /\ Uniq t' /\
  occupied t' = occupied t + 1 /\
  (forall k v, holds t' k v <-> holds t k v \/ (k = kb /\ v = vb)).

Lemma set_insert_spec t key ko value vo :
  Inv t -> Uniq t -> Forall byte key -> Forall byte value ->
  let kb := slice key ko (Z.to_nat (keySize t)) in
  let vb := slice value vo (Z.to_nat (valueSize t)) in
  (forall v, ~ holds t kb v) ->
  match set_insert t (tagk t kb) (home t kb * bucket t) (alt t kb * bucket t)
          (filter_of (tagk t kb)) (bit_of (tagk t kb)) key ko value vo with
  | Throw _ _ => False
  | Ret t' r => (r = -1 /\ t' = t) \/ (r = 0 /\ inserted t t' kb vb)
  end.
Proof.
  intros HI HU Hkey Hval kb vb Habs.
  pose proof HI as (Hsh & Hsl & Hc & Hh).
  set (tag := tagk t kb). set (i1 := home t kb). set (i2 := alt t kb).
  assert (Hi1 : inb t i1) by (by apply home_inb).
  assert (Hi2 : inb t i2) by (by apply alt_inb).
  assert (Hkl : length kb = Z.to_nat (keySize t)) by apply length_slice.
  assert (Hvl : length vb = Z.to_nat (valueSize t)) by apply length_slice.
  assert (Hkb : Forall byte kb) by (by apply bytes_slice).
  assert (Hvb : Forall byte vb) by (by apply bytes_slice).
  unfold set_insert. cbv zeta.
  destruct (rd SLOT (bget t (i1 * bucket t + 9)) <? 8) eqn:E3.
  { (* an empty slot in first position *)
    apply Z.ltb_lt in E3. destruct (SLOT_empty t i1 Hsh E3) as [Hr3 HP3].
    set (s3 := rd SLOT (bget t (i1 * bucket t + 9))) in *.
    rewrite (place_first t i1 s3 tag kb vb key ko value vo eq_refl eq_refl).
    right. split; [done|].
    apply (place_moved t t i1 s3 kb vb); try done; [by apply aside_empty|by left]. }
  apply Z.ltb_ge in E3.
  pose proof (SLOT_full t i1 Hsh ltac:(lia)) as Hfull1.
  destruct (rd SLOT (bget t (i2 * bucket t + 9)) <? 8) eqn:E4.
  { (* an empty slot in second position *)
    apply Z.ltb_lt in E4. destruct (SLOT_empty t i2 Hsh E4) as [Hr4 HP4].
    set (s4 := rd SLOT (bget t (i2 * bucket t + 9))) in *.
    assert (Hne : i2 <> i1).
    { intros Heq. rewrite Heq in HP4. rewrite (full_present t i1 s4 Hfull1 Hr4) in HP4. done. }
    rewrite (place_second t i1 i2 s4 tag kb vb key ko value vo eq_refl eq_refl Hne).
    right. split; [done|].
    apply (place_moved t t i2 s4 kb vb); try done; [by apply aside_empty|by right]. }
  apply Z.ltb_ge in E4.
  pose proof (SLOT_full t i2 Hsh ltac:(lia)) as Hfull2.
  (* vacate a slot in first position *)
  pose proof (vacate_spec t i1 HI HU Hi1 Hfull1) as Hv1.
  destruct (vacate t (i1 * bucket t)) as [t1 s5|] eqn:EV1; [|done].
  destruct Hv1 as [[-> ->]|[Hr5 Hm5]].
  2:{ destruct (s5 <? 8) eqn:E5; [|lia].
      pose proof Hm5 as (Hp5 & _).
      destruct (params_fields _ _ Hp5) as (Eks & Evs & Eb & _).
      rewrite <- Eb.
      rewrite (place_first t1 i1 s5 tag kb vb key ko value vo)
        by (rewrite ?Eks, ?Evs; done).
      right. split; [done|].
      apply (place_moved t t1 i1 s5 kb vb); try done. by left. }
  replace (8 <? 8) with false by done.
  (* vacate a slot in second position *)
  destruct (decide (i2 = i1)) as [Heq|Hne].
  { (* the same bucket: the same failure *)
    rewrite Heq, EV1. by left. }
  pose proof (vacate_spec t i2 HI HU Hi2 Hfull2) as Hv2.
  destruct (vacate t (i2 * bucket t)) as [t1 s6|]; [|done].
  destruct Hv2 as [[-> ->]|[Hr6 Hm6]]; [by left|].
  destruct (s6 <? 8) eqn:E6; [|lia].
  pose proof Hm6 as (Hp6 & _).
  destruct (params_fields _ _ Hp6) as (Eks & Evs & Eb & _).
  rewrite <- Eb.
  rewrite (place_second t1 i1 i2 s6 tag kb vb key ko value vo)
    by (rewrite ?Eks, ?Evs; done).
  right. split; [done|].
  apply (place_moved t t1 i2 s6 kb vb); try done. by right.
Qed.

(** ** The search for a key *)

Lemma filter_test t i tag :
  Shape t ->
  negb (Z.land (bget t (i * bucket t + Z.land (Z.shiftr tag 4) 7))
          (Z.shiftl 1 (Z.land tag 7)) =? 0) = fbit t i tag.
Proof.
  intros Hs. rewrite land_bit_eqb; [|apply (M_byte t i _ Hs)|apply low3_range].
  by rewrite negb_involutive.
Qed.

(** A key that is stored is found: its filter bit is set and a scan of its
    first- or second-position bucket hits it. *)
Lemma stored_found t i s :
  Inv t -> inb t i -> 0 <= s < 8 -> P t i s = true ->
  let kb := K t i s in
  fbit t (home t kb) (tagk t kb) = true /\
  (i = home t kb \/ i = alt t kb) /\
  hit t i (tagk t kb) kb s.
Proof.
  intros (Hsh & Hsl & _) Hi Hs HP kb.
  destruct (Hsl i s Hi Hs HP) as (Htag & Hpos & Hbit). fold kb in Htag, Hpos, Hbit.
  rewrite Htag in Hbit. split; [done|]. split; [done|]. by split.
Qed.

Lemma search_absent t kb :
  Inv t ->
  fbit t (home t kb) (tagk t kb) = false \/
  ((forall s, 0 <= s < 8 -> ~ hit t (home t kb) (tagk t kb) kb s) /\
   (forall s, 0 <= s < 8 -> ~ hit t (alt t kb) (tagk t kb) kb s)) ->
  forall v, ~ holds t kb v.
Proof.
  intros HI Hno v (i & s & Hi & Hs & HP & HK & _).
  destruct (stored_found t i s HI Hi Hs HP) as (Hbit & Hpos & Hhit).
  rewrite HK in *. destruct Hno as [Hf|[H1 H2]]; [congruence|].
  destruct Hpos as [->| ->]; [by apply (H1 s)|by apply (H2 s)].
Qed.

Lemma holds_unique t k v v' : Uniq t -> holds t k v -> holds t k v' -> v = v'.
Proof.
  intros HU (i & s & Hi & Hs & HP & HK & HV) (i' & s' & Hi' & Hs' & HP' & HK' & HV').
  destruct (HU i s i' s') as [-> ->]; try done; congruence.
Qed.

(** ** Steps that touch no slot *)

Lemma quiet_step t t' (E : Z -> Z -> Prop) :
  Inv t -> Frame t t' E nowhere -> (forall i c, E i c -> c = 18 \/ c = 19) ->
  Hands t' ->
  params t' = params t /\ Inv t' /\ (Uniq t -> Uniq t') /\
  occupied t' = occupied t /\ (forall k v, holds t' k v <-> holds t k v) /\
  sameK t t' none /\ sameV t t' none.
Proof.
  intros HI Hfr HE Hh'. pose proof (Frame_params _ _ _ _ Hfr) as Hp.
  assert (Hm : meta_only E) by (intros i c H; apply HE in H; lia).
  destruct (Frame_same _ _ _ none Hfr Hm) as [HK HV].
  split; [done|]. split; [|split; [|split; [|split]]].
  - apply Inv_InvX. apply Inv_InvX in HI. pose proof HI as (Hsh & Hsl & Hc & Hh).
    apply (InvX_step t t' none HI); try done.
    + by eapply Frame_Shape.
    + intros i f Hi Hf. left. intros bit _.
      rewrite (Frame_F _ _ _ _ i f Hfr); try done. intros H. apply HE in H. lia.
    + intros b Hb. rewrite (Frame_C _ _ _ _ b Hfr); [lia|done|].
      intros H. apply HE in H. lia.
  - intros HU. apply Uniq_UniqX. apply (UniqX_step t t' none); try done. by apply Uniq_UniqX.
  - rewrite !occupied_occX. by apply occX_step.
  - intros k v. rewrite !holds_heldX. by apply heldX_step.
  - done.
Qed.

(** ** Overwriting the value of a stored element *)

Lemma update_put t i s value vo :
  with_buffer t (copyValue t (Ext value) vo (buffer t) (valueOffset t (i * bucket t) s)) =
  put t i (20 + esize t * s + keySize t) (slice value vo (Z.to_nat (valueSize t))).
Proof. rewrite copyValue_Ext, valueOffset_eq. done. Qed.

Lemma update_spec t i s vb :
  Inv t -> inb t i -> 0 <= s < 8 -> P t i s = true ->
  length vb = Z.to_nat (valueSize t) -> Forall byte vb ->
  let t' := put t i (20 + esize t * s + keySize t) vb in
  params t' = params t /\ Inv t' /\ (Uniq t -> Uniq t') /\
  occupied t' = occupied t /\
  holds t' (K t i s) vb /\
  (forall k v, k <> K t i s -> (holds t' k v <-> holds t k v)).
Proof.
  intros HI Hi Hs HP Hvl Hvb. apply Inv_InvX in HI. pose proof HI as (Hsh & Hsl & Hc & Hh).
  destruct (Frame_value t i s _ vb Hsh Hi Hs eq_refl Hvl Hvb) as (Hfr & HK & HV).
  set (t' := put t i _ vb) in *. cbv zeta.
  pose proof (Frame_params _ _ _ _ Hfr) as Hp.
  assert (HsK : sameK t t' none).
  { intros i' s' Hi' Hs' _. split; [|intros _; split].
    - apply (Frame_P _ _ _ _ _ _ Hfr Hi'). cells.
    - unfold TG. apply (Frame_M _ _ _ _ _ _ Hfr); fside.
    - destruct (decide (i' = i /\ s' = s)) as [[-> ->]|Hne]; [done|].
      apply (Frame_K _ _ _ _ _ _ Hfr); fside. }
  assert (Hinb : forall x, inb t' x <-> inb t x) by (intros; by apply inb_params).
  split; [done|]. split; [|split; [|split; [|split]]].
  - apply Inv_InvX. apply (InvX_step t t' none HI); try done.
    + by eapply Frame_Shape.
    + intros i' f Hi' Hf. left. intros bit _.
      rewrite (Frame_F _ _ _ _ i' f Hfr) by fside. done.
    + intros b Hb. rewrite (Frame_C _ _ _ _ b Hfr) by fside. lia.
    + apply (Hands_Frame t t' _ _ Hh Hfr). cells.
  - intros HU. apply Uniq_UniqX. apply (UniqX_step t t' none); try done. by apply Uniq_UniqX.
  - rewrite !occupied_occX. by apply occX_step.
  - exists i, s. pose proof (proj2 (Hinb i) Hi). splits.
    destruct (HsK i s Hi Hs eq_refl) as [-> _]. done.
  - intros k v Hne. split.
    + intros (i' & s' & Hi' & Hs' & HP' & HK' & HV'). apply (proj1 (Hinb i')) in Hi'.
      destruct (HsK i' s' Hi' Hs' eq_refl) as [EP EK]. rewrite EP in HP'.
      destruct (EK HP') as [_ EKK].
      assert (Hn : ~ (i' = i /\ s' = s)) by (intros [-> ->]; congruence).
      assert (EV : V t' i' s' = V t i' s') by (apply (Frame_V _ _ _ _ _ _ Hfr); fside).
      exists i', s'. splits; congruence.
    + intros (i' & s' & Hi' & Hs' & HP' & HK' & HV').
      destruct (HsK i' s' Hi' Hs' eq_refl) as [EP EK]. destruct (EK HP') as [_ EKK].
      assert (Hn : ~ (i' = i /\ s' = s)) by (intros [-> ->]; congruence).
      pose proof (proj2 (Hinb i') Hi').
      assert (EV : V t' i' s' = V t i' s') by (apply (Frame_V _ _ _ _ _ _ Hfr); fside).
      exists i', s'. splits; congruence.
Qed.

Definition updated (t t' : Table) (kb vb : list Z) : Prop :=
  params t' = params t /\ Inv t' /\ (Uniq t -> Uniq t') /\
  occupied t' = occupied t /\
  (exists v0, holds t kb v0) /\ holds t' kb vb /\
  (forall k v, k <> kb -> (holds t' k v <-> holds t k v)).

Lemma update_hit t i tag kb s value vo :
  Inv t -> inb t i -> 0 <= s < 8 -> hit t i tag kb s -> Forall byte value ->
  updated t
    (with_buffer t (copyValue t (Ext value) vo (buffer t) (valueOffset t (i * bucket t) s)))
    kb (slice value vo (Z.to_nat (valueSize t))).
Proof.
  intros HI Hi Hs (Htag & HP & HK) Hval. rewrite update_put.
  destruct (update_spec t i s (slice value vo (Z.to_nat (valueSize t))) HI Hi Hs HP
              (length_slice _ _ _) (bytes_slice _ _ _ Hval))
    as (Hp & HI' & HU' & Hocc & Hh & Hother).
  rewrite HK in *. split; [done|]. split; [done|]. split; [done|]. split; [done|].
  split; [|by split]. exists (V t i s). exists i, s. splits.
Qed.

(** The outcome of the search of [get], [exist], [set] and [unset]. *)
Lemma scan_none t i tag key ko :
  Shape t -> ~ scan t (i * bucket t) tag key ko < 8 ->
  forall s, 0 <= s < 8 -> ~ hit t i tag (slice key ko (Z.to_nat (keySize t))) s.
Proof.
  intros Hs Hlt s Hr. destruct (scan_spec t i tag key ko Hs) as (Hr' & Hno & _).
  apply Hno. lia.
Qed.

Lemma scan_hit t i tag key ko :
  Shape t -> scan t (i * bucket t) tag key ko < 8 ->
  0 <= scan t (i * bucket t) tag key ko < 8 /\
  hit t i tag (slice key ko (Z.to_nat (keySize t))) (scan t (i * bucket t) tag key ko).
Proof.
  intros Hs Hlt. destruct (scan_spec t i tag key ko Hs) as (Hr' & _ & Hh).
  split; [lia|]. by apply Hh.
Qed.

Lemma Table_set_spec t h1 h2 key ko value vo :
  Inv t -> Uniq t -> Forall byte key -> Forall byte value ->
  Hash key ko (keySize t) = (h1, h2) ->
  let kb := slice key ko (Z.to_nat (keySize t)) in
  let vb := slice value vo (Z.to_nat (valueSize t)) in
  match Table_set t h1 h2 key ko value vo with
  | Throw _ _ => False
  | Ret t' r =>
      (r = -1 /\ t' = t /\ forall v, ~ holds t kb v) \/
      (r = 0 /\ inserted t t' kb vb /\ forall v, ~ holds t kb v) \/
      (r = 1 /\ updated t t' kb vb)
  end.
Proof.
  intros HI HU Hkey Hval HH kb vb.
  pose proof HI as (Hsh & _).
  rewrite Hash_slice in HH by done. fold kb in HH.
  destruct (hashk_home _ _ _ _ HH) as (Ehome & Ealt & Etag).
  unfold Table_set. cbv zeta.
  change (Z.land (Z.shiftr h1 16) 255) with (tag_of h1).
  rewrite <- Ehome, <- Ealt, <- Etag.
  rewrite filter_test by done.
  assert (Hins : (forall v, ~ holds t kb v) ->
    match set_insert t (tagk t kb) (home t kb * bucket t) (alt t kb * bucket t)
            (Z.land (Z.shiftr (tagk t kb) 4) 7) (Z.shiftl 1 (Z.land (tagk t kb) 7))
            key ko value vo with
    | Throw _ _ => False
    | Ret t' r =>
        (r = -1 /\ t' = t /\ forall v, ~ holds t kb v) \/
        (r = 0 /\ inserted t t' kb vb /\ forall v, ~ holds t kb v) \/
        (r = 1 /\ updated t t' kb vb)
    end).
  { intros Habs. pose proof (set_insert_spec t key ko value vo HI HU Hkey Hval Habs) as H.
    cbv zeta in H. fold kb vb in H.
    change (filter_of (tagk t kb)) with (Z.land (Z.shiftr (tagk t kb) 4) 7) in H.
    change (bit_of (tagk t kb)) with (Z.shiftl 1 (Z.land (tagk t kb) 7)) in H.
    destruct (set_insert _ _ _ _ _ _ _ _ _ _) as [t' r|]; [|done].
    destruct H as [[-> ->]|[-> ?]]; [left|right; left]; done. }
  destruct (fbit t (home t kb) (tagk t kb)) eqn:Efb; cbn [negb].
  2:{ apply Hins. apply search_absent; [done|by left]. }
  destruct (scan t (home t kb * bucket t) (tagk t kb) key ko <? 8) eqn:E1.
  { apply Z.ltb_lt in E1. destruct (scan_hit t _ _ key ko Hsh E1) as [Hr Hh].
    right; right. split; [done|].
    apply (update_hit t (home t kb) (tagk t kb) kb); try done. by apply home_inb. }
  destruct (scan t (alt t kb * bucket t) (tagk t kb) key ko <? 8) eqn:E2.
  { apply Z.ltb_lt in E2. destruct (scan_hit t _ _ key ko Hsh E2) as [Hr Hh].
    right; right. split; [done|].
    apply (update_hit t (alt t kb) (tagk t kb) kb); try done. by apply alt_inb. }
  apply Z.ltb_ge in E1, E2.
  apply Hins. apply search_absent; [done|right]. split.
  - apply scan_none; [done|lia].
  - apply scan_none; [done|lia].
Qed.

(** A step that writes the CLOCK bits only. *)
Lemma used_step t i v :
  Inv t -> inb t i ->
  let t' := put t i 18 [v] in
  Frame t t' (at_ i 18) nowhere /\
  params t' = params t /\ Inv t' /\ (Uniq t -> Uniq t') /\
  occupied t' = occupied t /\ (forall k v, holds t' k v <-> holds t k v).
Proof.
  intros HI Hi. pose proof HI as (Hsh & _ & _ & Hh).
  destruct (Frame_meta t i 18 v Hsh Hi ltac:(lia)) as [Hfr _].
  cbv zeta. split; [done|].
  destruct (quiet_step t _ _ HI Hfr) as (? & ? & ? & ? & ? & _); [cells| |done].
  apply (Hands_Frame t _ _ _ Hh Hfr). cells.
Qed.

(** ** [get] and [exist] *)

Lemma Table_exist_spec t h1 h2 key ko :
  Inv t -> Forall byte key -> Hash key ko (keySize t) = (h1, h2) ->
  let kb := slice key ko (Z.to_nat (keySize t)) in
  (Table_exist t h1 h2 key ko = 1 /\ exists v, holds t kb v) \/
  (Table_exist t h1 h2 key ko = 0 /\ forall v, ~ holds t kb v).
Proof.
  intros HI Hkey HH kb. pose proof HI as (Hsh & _).
  rewrite Hash_slice in HH by done. fold kb in HH.
  destruct (hashk_home _ _ _ _ HH) as (Ehome & Ealt & Etag).
  unfold Table_exist. cbv zeta.
  change (Z.land (Z.shiftr h1 16) 255) with (tag_of h1).
  rewrite <- Ehome, <- Ealt, <- Etag. rewrite filter_test by done.
  destruct (fbit t (home t kb) (tagk t kb)) eqn:Efb; cbn [negb].
  2:{ right. split; [done|]. apply search_absent; [done|by left]. }
  destruct (scan t (home t kb * bucket t) (tagk t kb) key ko <? 8) eqn:E1.
  { apply Z.ltb_lt in E1. destruct (scan_hit t _ _ key ko Hsh E1) as [Hr (_ & HP & HK)].
    set (s1 := scan t (home t kb * bucket t) (tagk t kb) key ko) in *.
    left. split; [done|]. exists (V t (home t kb) s1). exists (home t kb), s1.
    split; [by apply home_inb|]. splits. }
  destruct (scan t (alt t kb * bucket t) (tagk t kb) key ko <? 8) eqn:E2.
  { apply Z.ltb_lt in E2. destruct (scan_hit t _ _ key ko Hsh E2) as [Hr (_ & HP & HK)].
    set (s2 := scan t (alt t kb * bucket t) (tagk t kb) key ko) in *.
    left. split; [done|]. exists (V t (alt t kb) s2). exists (alt t kb), s2.
    split; [by apply alt_inb|]. splits. }
  apply Z.ltb_ge in E1, E2. right. split; [done|].
  apply search_absent; [done|right]. split; apply scan_none; (done || lia).
Qed.

Definition got (t t' : Table) : Prop :=
  params t' = params t /\ Inv t' /\ (Uniq t -> Uniq t') /\
  occupied t' = occupied t /\ (forall k v, holds t' k v <-> holds t k v).

Lemma got_refl t : Inv t -> got t t.
Proof. intros. by repeat (split; [done|]). Qed.

Lemma get_hit t i tag kb s out oo :
  Inv t -> inb t i -> 0 <= s < 8 -> hit t i tag kb s ->
  let t1 := bset t (i * bucket t + 18) (Z.lor (bget t (i * bucket t + 18)) (Z.shiftl 1 s)) in
  got t t1 /\
  exists v, holds t kb v /\
    copyValue t1 (Ext (buffer t1)) (valueOffset t1 (i * bucket t) s) out oo =
    write_bytes out oo v.
Proof.
  intros HI Hi Hs (Htag & HP & HK). cbv zeta. rewrite bset_put.
  destruct (used_step t i (Z.lor (bget t (i * bucket t + 18)) (Z.shiftl 1 s)) HI Hi)
    as (Hfr & Hgot).
  set (t1 := put t i 18 _) in *. split; [done|].
  exists (V t i s). split; [exists i, s; splits|].
  rewrite copyValue_Ext. f_equal.
  change (bucket t) with (bucket t1). rewrite valueOffset_eq.
  change (slice (buffer t1) _ _) with (V t1 i s).
  apply (Frame_V _ _ _ _ _ _ Hfr); fside.
Qed.

Lemma Table_get_spec t h1 h2 key ko out oo :
  Inv t -> Forall byte key -> Hash key ko (keySize t) = (h1, h2) ->
  let kb := slice key ko (Z.to_nat (keySize t)) in
  match Table_get t h1 h2 key ko out oo with
  | (t', out', r) =>
      got t t' /\
      ((r = 0 /\ out' = out /\ forall v, ~ holds t kb v) \/
       (r = 1 /\ exists v, holds t kb v /\ out' = write_bytes out oo v))
  end.
Proof.
  intros HI Hkey HH kb. pose proof HI as (Hsh & _).
  rewrite Hash_slice in HH by done. fold kb in HH.
  destruct (hashk_home _ _ _ _ HH) as (Ehome & Ealt & Etag).
  unfold Table_get. cbv zeta.
  change (Z.land (Z.shiftr h1 16) 255) with (tag_of h1).
  rewrite <- Ehome, <- Ealt, <- Etag. rewrite filter_test by done.
  destruct (fbit t (home t kb) (tagk t kb)) eqn:Efb; cbn [negb].
  2:{ split; [by apply got_refl|]. left. split; [done|]. split; [done|].
      apply search_absent; [done|by left]. }
  destruct (scan t (home t kb * bucket t) (tagk t kb) key ko <? 8) eqn:E1.
  { apply Z.ltb_lt in E1. destruct (scan_hit t _ _ key ko Hsh E1) as [Hr Hh].
    destruct (get_hit t _ _ kb _ out oo HI (home_inb t kb Hsh) Hr Hh) as [Hg (v & Hv & Ho)].
    split; [done|]. right. split; [done|]. by exists v. }
  destruct (scan t (alt t kb * bucket t) (tagk t kb) key ko <? 8) eqn:E2.
  { apply Z.ltb_lt in E2. destruct (scan_hit t _ _ key ko Hsh E2) as [Hr Hh].
    destruct (get_hit t _ _ kb _ out oo HI (alt_inb t kb Hsh) Hr Hh) as [Hg (v & Hv & Ho)].
    split; [done|]. right. split; [done|]. by exists v. }
  apply Z.ltb_ge in E1, E2.
  split; [by apply got_refl|]. left. split; [done|]. split; [done|].
  apply search_absent; [done|right]. split; apply scan_none; (done || lia).
Qed.

(** ** Emptying a slot ([unset], and the eviction of [cache]) *)

Lemma UniqX_shrink_empty t X X' i0 s0 :
  UniqX t X ->
  (forall i s, ~ (i = i0 /\ s = s0) -> X' i s = X i s) ->
  P t i0 s0 = false ->
  UniqX t X'.
Proof.
  intros Hu HX HP i s i' s' Hi Hs Hi' Hs' H1 H2 HPa HPb HK.
  assert (N1 : ~ (i = i0 /\ s = s0)) by (intros [-> ->]; congruence).
  assert (N2 : ~ (i' = i0 /\ s' = s0)) by (intros [-> ->]; congruence).
  apply Hu; try done; by rewrite <- HX.
Qed.

Definition emptied (t t' : Table) (i s : Z) : Prop :=
  params t' = params t /\ Inv t' /\ (Uniq t -> Uniq t') /\
  occupied t' = occupied t - b2z (P t i s) /\
  (forall b, second_count t' b = second_count t b - b2z (away t b i s)) /\
  P t' i s = false /\
  (forall i', inb t i' -> C t' i' = C t i') /\
  (forall i' s', inb t i' -> 0 <= s' < 8 -> ~ (i' = i /\ s' = s) ->
     P t' i' s' = P t i' s').

Lemma emptied_spec t t' (E Xs : Z -> Z -> Prop) i s :
  Inv t -> Frame t t' E Xs -> inb t i -> 0 <= s < 8 ->
  (forall a c, E a c -> a = i /\ (c = 9 \/ c = 10 + s)) ->
  (forall a b, Xs a b -> a = i /\ b = s) ->
  M t' i 9 = Z.land (M t i 9) (Z.lnot (Z.shiftl 1 s)) ->
  emptied t t' i s.
Proof.
  intros HI Hfr Hi Hs HE HX HM9.
  apply Inv_InvX in HI. pose proof HI as (Hsh & Hsl & Hc & Hh).
  pose proof (Frame_params _ _ _ _ Hfr) as Hp.
  assert (Hbut : forall i' s', inb t i' -> 0 <= s' < 8 -> ~ (i' = i /\ s' = s) ->
     P t' i' s' = P t i' s' /\ TG t' i' s' = TG t i' s' /\
     K t' i' s' = K t i' s' /\ V t' i' s' = V t i' s').
  { apply (Frame_slots_but t t' _ _ i s Hfr Hi Hs).
    - intros a c H. apply HE in H. left. done.
    - done.
    - intros s' Hs' Hn. rewrite HM9, testbit_clear by lia.
      destruct (s =? s') eqn:Es; [lia|]. apply andb_true_r. }
  assert (HP' : P t' i s = false).
  { unfold P. rewrite HM9, testbit_clear, Z.eqb_refl by lia. apply andb_false_r. }
  destruct (slots_but_sameKV t t' i s Hbut (only i s)) as [HsK HsV].
  { intros a b. apply only_false. }
  assert (Hsb : slots_but t t' i s).
  { intros a b Ha Hb Hn. destruct (Hbut a b Ha Hb Hn) as (?&?&?&?). done. }
  assert (HI1 : InvX t' (only i s)).
  { apply (InvX_step t t' (only i s)); try done.
    - apply (InvX_grow t none); done.
    - by eapply Frame_Shape.
    - intros a f Ha Hf. left. intros bit _.
      rewrite (Frame_F _ _ _ _ a f Hfr); try done. intros H. apply HE in H. lia.
    - intros b Hb. rewrite (Frame_C _ _ _ _ b Hfr); [lia|done|].
      intros H. apply HE in H. lia.
    - apply (Hands_Frame t t' _ _ Hh Hfr). intros a H. apply HE in H. lia. }
  split; [done|]. split; [|split; [|split; [|split; [|split; [done|split]]]]].
  - apply Inv_InvX. apply (InvX_shrink t' (only i s) none i s HI1).
    + by apply (Frame_inb _ _ _ _ i Hfr).
    + done.
    + intros a b Hn. symmetry. by apply only_false.
    + intros HPs. congruence.
    + intros b _ Ha. unfold away in Ha. rewrite HP' in Ha. done.
  - intros HU. apply Uniq_UniqX.
    apply (UniqX_shrink_empty t' (only i s) none i s); try done.
    + apply (UniqX_step t t' (only i s)); try done.
      apply (UniqX_grow t none); [by apply Uniq_UniqX|done].
    + intros a b Hn. symmetry. by apply only_false.
  - rewrite (occupied_but t t' i s Hp Hsb Hi Hs), HP'. simpl. lia.
  - intros b. rewrite (second_count_but t t' b i s Hp Hsb Hi Hs).
    assert (Ea : away t' b i s = false) by (unfold away; by rewrite HP').
    rewrite Ea. simpl. lia.
  - intros a Ha. apply (Frame_C _ _ _ _ a Hfr Ha). intros H. apply HE in H. lia.
  - intros a b Ha Hb Hn. by destruct (Hbut a b Ha Hb Hn).
Qed.

(** The stores of [unset] at a slot. *)
Definition remove (t : Table) (i s : Z) : Table :=
  put (put (put (put t i 9 [Z.land (M t i 9) (Z.lnot (Z.shiftl 1 s))])
                i (10 + s) [0])
           i (20 + esize t * s) (replicate (Z.to_nat (keySize t)) 0))
      i (20 + esize t * s + keySize t) (replicate (Z.to_nat (valueSize t)) 0).

Lemma remove_code t i s :
  ltac:(let x := eval cbv zeta in
    (let t1 := bset t (i * bucket t + 9)
       (Z.land (bget t (i * bucket t + 9)) (Z.lnot (Z.shiftl 1 s))) in
     let t2 := bset t1 (i * bucket t + 9 + 1 + s) 0 in
     let t3 := zero t2 (keyOffset t2 (i * bucket t) s) (keySize t2) in
     zero t3 (valueOffset t3 (i * bucket t) s) (valueSize t3)) in
    exact (x = remove t i s)).
Proof.
  unfold zero, remove. rewrite !zero_loop_write.
  unfold put, bset, with_buffer, keyOffset, valueOffset, esize. simpl.
  repeat (f_equal; try lia).
Qed.

Lemma bytes_zero n : Forall byte (replicate n 0).
Proof. apply Forall_replicate. unfold byte. lia. Qed.

Lemma remove_spec t i s :
  Inv t -> inb t i -> 0 <= s < 8 ->
  emptied t (remove t i s) i s /\
  Frame t (remove t i s) (either (at_ i 9) (at_ i (10 + s))) (at_ i s).
Proof.
  intros HI Hi Hs. pose proof HI as (Hsh & _). unfold remove.
  destruct (Frame_meta t i 9 (Z.land (M t i 9) (Z.lnot (Z.shiftl 1 s))) Hsh Hi ltac:(lia))
    as [F1 V1].
  set (t1 := put t i 9 _) in *.
  pose proof (Frame_Shape _ _ _ _ F1) as S1.
  destruct (Frame_meta t1 i (10 + s) 0 S1 Hi ltac:(lia)) as [F2 V2].
  set (t2 := put t1 i (10 + s) _) in *.
  pose proof (Frame_Shape _ _ _ _ F2) as S2.
  destruct (Frame_key t2 i s (20 + esize t * s) (replicate (Z.to_nat (keySize t)) 0)
              S2 Hi Hs eq_refl (length_replicate _ _) (bytes_zero _)) as (F3 & K3 & V3).
  set (t3 := put t2 i (20 + esize t * s) _) in *.
  pose proof (Frame_Shape _ _ _ _ F3) as S3.
  destruct (Frame_value t3 i s (20 + esize t * s + keySize t)
              (replicate (Z.to_nat (valueSize t)) 0)
              S3 Hi Hs eq_refl (length_replicate _ _) (bytes_zero _)) as (F4 & K4 & V4).
  set (t4 := put t3 i _ _) in *.
  assert (F12 := Frame_trans _ _ _ _ _ _ _ F1 F2).
  assert (F34 := Frame_trans _ _ _ _ _ _ _ F3 F4).
  assert (F14 := Frame_trans _ _ _ _ _ _ _ F12 F34).
  assert (Hfr : Frame t t4 (either (at_ i 9) (at_ i (10 + s))) (at_ i s)).
  { eapply Frame_weaken; [exact F14| |]; cells. }
  split; [|done].
  apply (emptied_spec t t4 _ _ i s HI Hfr Hi Hs); [cells|cells|].
  rewrite (Frame_M _ _ _ _ i 9 F34) by fside.
  rewrite (Frame_M _ _ _ _ i 9 F2) by fside.
  rewrite V1. apply mod_byte. apply byte_clear_bit; [by apply M_byte|done].
Qed.

(** A step that writes filters and counters only keeps the slots. *)
Lemma meta_step t t' (E : Z -> Z -> Prop) :
  Frame t t' E nowhere -> meta_only E ->
  (Uniq t -> Uniq t') /\ occupied t' = occupied t /\
  (forall k v, holds t' k v <-> holds t k v).
Proof.
  intros Hfr Hm. pose proof (Frame_params _ _ _ _ Hfr) as Hp.
  destruct (Frame_same _ _ _ none Hfr Hm) as [HK HV].
  split; [|split].
  - intros HU. apply Uniq_UniqX. apply (UniqX_step t t' none); try done. by apply Uniq_UniqX.
  - rewrite !occupied_occX. by apply occX_step.
  - intros k v. rewrite !holds_heldX. by apply heldX_step.
Qed.

(** ** [unset] *)

Definition unset_done (t t' : Table) : Prop :=
  params t' = params t /\ Inv t' /\ (Uniq t -> Uniq t') /\
  occupied t' = occupied t - 1.

Lemma unset_first t i s f :
  Inv t -> inb t i -> 0 <= s < 8 -> P t i s = true -> 0 <= f < 8 ->
  unset_done t (filterReset (remove t i s) (i * bucket t) f).
Proof.
  intros HI Hi Hs HP Hf.
  destruct (remove_spec t i s HI Hi Hs) as [(Hp & HI1 & HU1 & Hocc & _) Hfr].
  set (t1 := remove t i s) in *.
  change (bucket t) with (bucket t1).
  apply Inv_InvX in HI1.
  destruct (InvX_filterReset t1 none i f HI1 (Frame_inb _ _ _ _ i Hfr Hi) Hf) as [HI2 Hfr2].
  destruct (meta_step _ _ _ Hfr2 (meta_only_at i f ltac:(lia))) as (HU2 & Hocc2 & _).
  split; [|split; [|split]].
  - rewrite (Frame_params _ _ _ _ Hfr2). done.
  - by apply Inv_InvX.
  - auto.
  - rewrite Hocc2, Hocc, HP. simpl. lia.
Qed.

Lemma unset_second t i1 i s :
  Inv t -> inb t i -> 0 <= s < 8 -> P t i s = true ->
  i1 = home t (K t i s) -> i <> i1 ->
  exists t', filterDecrementSecondPosition (remove t i s) (i1 * bucket t) = Ret t' tt /\
    unset_done t t'.
Proof.
  intros HI Hi Hs HP Hhome Hne. pose proof HI as (Hsh & _ & Hc & _).
  assert (Hi1 : inb t i1) by (subst i1; by apply home_inb).
  destruct (remove_spec t i s HI Hi Hs) as [(Hp & HI1 & HU1 & Hocc & Hsc & _ & HC & _) Hfr].
  set (t1 := remove t i s) in *.
  change (bucket t) with (bucket t1).
  apply Inv_InvX in HI1.
  assert (Haway : away t i1 i s = true).
  { unfold away. rewrite HP, <- Hhome, Z.eqb_refl. simpl.
    rewrite andb_true_r. apply negb_true_iff, Z.eqb_neq. done. }
  assert (Hroom : C t1 i1 = 255 \/ scX t1 none i1 + 1 <= C t1 i1).
  { rewrite HC by done. rewrite scX_none, Hsc, Haway. simpl.
    destruct (Hc i1 Hi1) as [?|?]; [by left|right; lia]. }
  destruct (InvX_decrement t1 none i1 HI1 (Frame_inb _ _ _ _ i1 Hfr Hi1) Hroom)
    as (t2 & Hret & HI2 & Hfr2 & _).
  exists t2. split; [done|].
  assert (Hm : meta_only (count_filters_of i1)) by (intros a c [_ ?]; lia).
  destruct (meta_step _ _ _ Hfr2 Hm) as (HU2 & Hocc2 & _).
  split; [|split; [|split]].
  - rewrite (Frame_params _ _ _ _ Hfr2). done.
  - by apply Inv_InvX.
  - auto.
  - rewrite Hocc2, Hocc, HP. simpl. lia.
Qed.

Lemma Table_unset_spec t h1 h2 key ko :
  Inv t -> Forall byte key -> Hash key ko (keySize t) = (h1, h2) ->
  let kb := slice key ko (Z.to_nat (keySize t)) in
  match Table_unset t h1 h2 key ko with
  | Throw _ _ => False
  | Ret t' r =>
      (r = 0 /\ t' = t /\ forall v, ~ holds t kb v) \/
      (r = 1 /\ unset_done t t')
  end.
Proof.
  intros HI Hkey HH kb. pose proof HI as (Hsh & _).
  rewrite Hash_slice in HH by done. fold kb in HH.
  destruct (hashk_home _ _ _ _ HH) as (Ehome & Ealt & Etag).
  unfold Table_unset. cbv zeta.
  change (Z.land (Z.shiftr h1 16) 255) with (tag_of h1).
  rewrite <- Ehome, <- Ealt, <- Etag. rewrite filter_test by done.
  destruct (fbit t (home t kb) (tagk t kb)) eqn:Efb; cbn [negb].
  2:{ left. split; [done|]. split; [done|]. apply search_absent; [done|by left]. }
  destruct (scan t (home t kb * bucket t) (tagk t kb) key ko <? 8) eqn:E1.
  { apply Z.ltb_lt in E1. destruct (scan_hit t _ _ key ko Hsh E1) as [Hr (_ & HP & HK)].
    rewrite remove_code. right. split; [done|].
    apply unset_first; try done; [by apply home_inb|apply filter_of_range]. }
  destruct (scan t (alt t kb * bucket t) (tagk t kb) key ko <? 8) eqn:E2.
  { apply Z.ltb_lt in E2. destruct (scan_hit t _ _ key ko Hsh E2) as [Hr Hh].
    pose proof Hh as (_ & HP & HK).
    apply Z.ltb_ge in E1.
    assert (Hne : alt t kb <> home t kb).
    { intros Heq. rewrite Heq in Hh, Hr. revert Hh. apply scan_none; [done|lia|done]. }
    rewrite remove_code.
    destruct (unset_second t (home t kb) (alt t kb) _ HI (alt_inb t kb Hsh) Hr HP)
      as (t' & Hret & Hdone); [by rewrite HK|done|].
    rewrite Hret. right. done. }
  apply Z.ltb_ge in E1, E2. left. split; [done|]. split; [done|].
  apply search_absent; [done|right]. split; apply scan_none; (done || lia).
Qed.

(** ** [cache] *)

(** Storing an element in a slot that was set aside, without the
    hypothesis that keys are unique. *)
Lemma place_inv t i s kb vb :
  InvX t (only i s) ->
  inb t i -> 0 <= s < 8 ->
  (i = home t kb \/ i = alt t kb) ->
  length kb = Z.to_nat (keySize t) -> Forall byte kb ->
  length vb = Z.to_nat (valueSize t) -> Forall byte vb ->
  let t' := place t i s (home t kb) (tagk t kb) kb vb in
  params t' = params t /\ Inv t' /\
  occupied t' = occX t (only i s) + 1 /\
  holds t' kb vb.
Proof.
  intros HI Hi Hr Hpos Hkl Hkb Hvl Hvb.
  pose proof HI as (Hsh & Hsl & Hc & Hh).
  set (i1 := home t kb). set (tag := tagk t kb).
  assert (Hi1 : inb t i1) by (by apply home_inb).
  assert (Ht : byte tag) by apply byte_tag_of.
  pose proof (filter_of_range tag) as Hf.
  destruct (place_frame t i s i1 tag kb vb Hsh Hi Hi1 Hr Ht Hkl Hkb Hvl Hvb)
    as (Hfr & HM9 & HTG & HK & HV & HF & HC).
  set (t' := place t i s i1 tag kb vb) in *. cbv zeta.
  pose proof (Frame_params _ _ _ _ Hfr) as Hp.
  pose proof (Frame_Shape _ _ _ _ Hfr) as Hsh'.
  assert (Hbut : forall i' s', inb t i' -> 0 <= s' < 8 -> ~ (i' = i /\ s' = s) ->
     P t' i' s' = P t i' s' /\ TG t' i' s' = TG t i' s' /\
     K t' i' s' = K t i' s' /\ V t' i' s' = V t i' s').
  { apply (Frame_slots_but t t' _ _ i s Hfr Hi Hr).
    - unfold slot_cells, place_cells. cells.
    - cells.
    - intros s' Hs' Hne. rewrite HM9, testbit_set by lia.
      destruct (s =? s') eqn:E; [lia|]. apply orb_false_r. }
  destruct (slots_but_sameKV t t' i s Hbut (only i s)) as [HsK HsV].
  { intros i' s'. apply only_false. }
  assert (HP' : P t' i s = true).
  { unfold P. rewrite HM9, testbit_set, Z.eqb_refl by lia. apply orb_true_r. }
  assert (HI' : InvX t' (only i s)).
  { apply (InvX_step t t' (only i s) HI); try done.
    - intros i' f' Hi' Hf'. left. intros bit Hbit Hb.
      destruct (decide (i' = i1 /\ f' = filter_of tag)) as [[-> ->]|Hne].
      + rewrite HF, Z.lor_spec, Hb. done.
      + rewrite (Frame_F _ _ _ _ i' f' Hfr); try done. unfold place_cells. cells.
    - intros b Hb. destruct (decide (b = i1)) as [->|Hne].
      + rewrite HC. destruct (i =? i1); [lia|]. destruct (C t i1 <? 255); lia.
      + rewrite (Frame_C _ _ _ _ b Hfr); [lia|done|]. unfold place_cells. cells.
    - apply (Hands_Frame t t' _ _ Hh Hfr). unfold place_cells. cells. }
  assert (Ehome : home t' kb = i1) by (by apply home_params).
  assert (HIn : InvX t' none).
  { apply (InvX_shrink t' (only i s) none i s HI').
    - by apply (Frame_inb _ _ _ _ i Hfr).
    - done.
    - intros i' s' Hne. symmetry. by apply only_false.
    - intros _. rewrite HTG, HK, Ehome, (alt_params _ _ _ Hp), (tagk_params _ _ _ Hp).
      split; [done|]. split; [done|]. by eapply fbit_set.
    - intros b Hb Ha. unfold away in Ha. rewrite HP', HK, Ehome in Ha. simpl in Ha.
      apply andb_true_iff in Ha. destruct Ha as [Hne Heq].
      apply Z.eqb_eq in Heq. subst b. apply negb_true_iff in Hne.
      rewrite (scX_same t t' _ i1 Hp HsK), HC, Hne.
      destruct (Hc i1 Hi1) as [E255|Hle].
      + left. rewrite E255. done.
      + destruct (C t i1 <? 255) eqn:E; [right; lia|left].
        pose proof (M_byte t i1 8 Hsh). unfold C, byte in *. lia. }
  split; [done|]. split; [by apply Inv_InvX|]. split.
  - rewrite occupied_occX.
    rewrite (occX_shrink t' (only i s) none i s);
      [|by apply (Frame_inb _ _ _ _ i Hfr)|done|intros i' s' Hne; symmetry; by apply only_false].
    rewrite (occX_step t t' _ Hp HsK). unfold only at 2, none.
    rewrite !Z.eqb_refl, HP'. simpl. lia.
  - pose proof (Frame_inb _ _ _ _ i Hfr Hi). exists i, s. splits.
Qed.

(** The CLOCK sweep writes the CLOCK bits and the hand of its bucket only,
    and returns a slot of the bucket. *)
Definition hand_cells (i : Z) : Z -> Z -> Prop := either (at_ i 18) (at_ i 19).

Lemma evict_loop_spec n t i s0 t' s :
  Shape t -> Hands t -> inb t i -> 0 <= s0 < 8 ->
  evict_loop n t (i * bucket t) s0 = (t', s) ->
  Frame t t' (hand_cells i) nowhere /\ Hands t' /\ 0 <= s < 8.
Proof.
  revert t s0. induction n as [|n IH]; intros t s0 Hsh Hh Hi Hs0 E.
  { cbn [evict_loop] in E. injection E as <- <-. split; [|done].
    eapply Frame_weaken; [by apply Frame_refl|done|done]. }
  cbn [evict_loop] in E. cbv zeta in E. rewrite bget_hand, bset_hand_put in E.
  pose proof (Hh i Hi) as Hslot. unfold HD in Hslot.
  destruct (Frame_meta t i 19 (Z.land (M t i 19 + 1) 7) Hsh Hi ltac:(lia)) as [F1 V1].
  set (t1 := put t i 19 _) in *.
  pose proof (Frame_Shape _ _ _ _ F1) as Hsh1.
  pose proof (Frame_inb _ _ _ _ i F1 Hi) as Hi1.
  assert (Hh1 : Hands t1).
  { intros j Hj. apply (inb_params _ _ _ (Frame_params _ _ _ _ F1)) in Hj.
    destruct (decide (j = i)) as [->|Hne].
    - unfold HD. rewrite V1. pose proof (low3_range (M t i 19 + 1)).
      rewrite Z.mod_small; lia.
    - rewrite (Frame_HD _ _ _ _ j F1) by (done || cells). by apply Hh. }
  change (bucket t) with (bucket t1) in E.
  destruct (Z.land (bget t1 (i * bucket t1 + 18)) (Z.shiftl 1 (M t i 19)) =? 0).
  { injection E as <- <-. split; [|done].
    eapply Frame_weaken; [exact F1| |done]. unfold hand_cells. cells. }
  rewrite bset_put in E.
  destruct (Frame_meta t1 i 18
    (Z.land (bget t1 (i * bucket t1 + 18)) (Z.lnot (Z.shiftl 1 (M t i 19)))) Hsh1 Hi1 ltac:(lia))
    as [F2 _].
  set (t2 := put t1 i 18 _) in *.
  assert (Hh2 : Hands t2) by (apply (Hands_Frame t1 t2 _ _ Hh1 F2); cells).
  change (bucket t1) with (bucket t2) in E.
  destruct (IH t2 (M t i 19) (Frame_Shape _ _ _ _ F2) Hh2 (Frame_inb _ _ _ _ i F2 Hi1) Hslot E)
    as (F3 & Hh3 & Hr3).
  split; [|done].
  eapply Frame_weaken; [exact (Frame_trans _ _ _ _ _ _ _ (Frame_trans _ _ _ _ _ _ _ F1 F2) F3)| |].
  - unfold hand_cells. cells.
  - cells.
Qed.

Lemma evict_unfold t b : evict t b = evict_loop 9 t b 0.
Proof. reflexivity. Qed.

Lemma evict_spec t i t' s :
  Inv t -> inb t i -> evict t (i * bucket t) = (t', s) ->
  0 <= s < 8 /\
  params t' = params t /\ Inv t' /\ (Uniq t -> Uniq t') /\
  occupied t' = occupied t /\ (forall k v, holds t' k v <-> holds t k v).
Proof.
  intros HI Hi E. pose proof HI as (Hsh & _ & _ & Hh).
  rewrite evict_unfold in E.
  assert (H0 : 0 <= 0 < 8) by lia.
  destruct (evict_loop_spec 9 t i 0 t' s Hsh Hh Hi H0 E) as (Hfr & Hh' & Hr).
  clear E.
  split; [exact Hr|].
  assert (HE : forall a c, hand_cells i a c -> c = 18 \/ c = 19).
  { unfold hand_cells. cells. }
  destruct (quiet_step t t' _ HI Hfr HE Hh') as (H1 & H2 & H3 & H4 & H5 & _).
  split; [exact H1|]. split; [exact H2|]. split; [exact H3|]. split; [exact H4|exact H5].
Qed.

(** Making room in a slot: an element that is stored there is dropped
    and one filter of the bucket is rebuilt. *)
Definition drop (t : Table) (i s : Z) : Table :=
  let t2 := put t i 9 [Z.land (M t i 9) (Z.lnot (Z.shiftl 1 s))] in
  filterReset t2 (i * bucket t2) (Z.land (TG t2 i s) 7).

Lemma drop_spec t i s :
  Inv t -> inb t i -> 0 <= s < 8 ->
  params (drop t i s) = params t /\ Inv (drop t i s) /\
  P (drop t i s) i s = false /\
  occupied (drop t i s) = occupied t - b2z (P t i s).
Proof.
  intros HI Hi Hs. pose proof HI as (Hsh & _). unfold drop. cbv zeta.
  destruct (Frame_meta t i 9 (Z.land (M t i 9) (Z.lnot (Z.shiftl 1 s))) Hsh Hi ltac:(lia))
    as [F2 V2].
  set (t2 := put t i 9 _) in *.
  rewrite mod_byte in V2 by (apply byte_clear_bit; [by apply M_byte|done]).
  assert (Hem : emptied t t2 i s).
  { apply (emptied_spec t t2 _ _ i s HI F2 Hi Hs); [cells|cells|done]. }
  destruct Hem as (Hp2 & HI2 & _ & Hocc2 & _ & HP2 & _).
  pose proof (Frame_inb _ _ _ _ i F2 Hi) as Hi2.
  pose proof (low3_range (TG t2 i s)) as Hf.
  apply Inv_InvX in HI2.
  destruct (InvX_filterReset t2 none i _ HI2 Hi2 Hf) as [HI3 F3].
  set (t3 := filterReset t2 _ _) in *.
  destruct (meta_step _ _ _ F3 (meta_only_at i (Z.land (TG t2 i s) 7) ltac:(lia)))
    as (_ & Hocc3 & _).
  split; [rewrite (Frame_params _ _ _ _ F3); done|].
  split; [by apply Inv_InvX|]. split.
  - rewrite (Frame_P _ _ _ _ i s F3); [done|done|cells].
  - lia.
Qed.

(** Storing an element in an empty slot of its first-position bucket and
    marking it as recently used. *)
Lemma store_first t i s kb vb v :
  Inv t -> inb t i -> 0 <= s < 8 -> P t i s = false -> i = home t kb ->
  length kb = Z.to_nat (keySize t) -> Forall byte kb ->
  length vb = Z.to_nat (valueSize t) -> Forall byte vb ->
  let t' := put (place t i s i (tagk t kb) kb vb) i 18 [v] in
  params t' = params t /\ Inv t' /\ occupied t' = occupied t + 1 /\ holds t' kb vb.
Proof.
  intros HI Hi Hs HP Hhome Hkl Hkb Hvl Hvb.
  assert (HIX : InvX t (only i s)).
  { apply (InvX_grow t none); [by apply Inv_InvX|done]. }
  assert (Hocc : occX t (only i s) = occupied t).
  { rewrite occupied_occX. rewrite (occX_shrink t (only i s) none i s Hi Hs).
    - rewrite HP, !andb_false_r. simpl. lia.
    - intros i' s' Hne. symmetry. by apply only_false. }
  pose proof (place_inv t i s kb vb HIX Hi Hs (or_introl Hhome) Hkl Hkb Hvl Hvb) as H.
  rewrite <- Hhome in H. cbv zeta in H. destruct H as (Hp & HI' & Hocc' & Hh).
  set (t1 := place t i s i (tagk t kb) kb vb) in *.
  destruct (used_step t1 i v HI' (proj2 (inb_params _ _ _ Hp) Hi))
    as (_ & Hp2 & HI2 & _ & Hocc2 & Hh2).
  cbv zeta. split; [congruence|]. split; [done|]. split; [lia|]. by apply Hh2.
Qed.


Lemma drop_code t i s :
  filterReset
    (bset t (i * bucket t + 9) (Z.land (bget t (i * bucket t + 9)) (Z.lnot (Z.shiftl 1 s))))
    (i * bucket t)
    (Z.land
       (bget
          (bset t (i * bucket t + 9)
             (Z.land (bget t (i * bucket t + 9)) (Z.lnot (Z.shiftl 1 s))))
          (i * bucket t + 9 + 1 + s)) 7) =
  drop t i s.
Proof.
  unfold drop. cbv zeta. rewrite !bset_put.
  set (t2 := put t i 9 _). change (bucket t) with (bucket t2).
  by rewrite bget_tag.
Qed.

Definition cached (t t' : Table) (r : Z) (kb vb : list Z) : Prop :=
  params t' = params t /\ Inv t' /\ holds t' kb vb /\
  ((r = 0 /\ occupied t' = occupied t + 1) \/
   ((r = 1 \/ r = 2) /\ occupied t' = occupied t)).

Lemma cache_evict_spec t key ko value vo :
  Inv t -> Forall byte key -> Forall byte value ->
  let kb := slice key ko (Z.to_nat (keySize t)) in
  let vb := slice value vo (Z.to_nat (valueSize t)) in
  let r := cache_evict t (tagk t kb) (home t kb * bucket t)
             (filter_of (tagk t kb)) (bit_of (tagk t kb)) key ko value vo in
  cached t r.1 r.2 kb vb.
Proof.
  intros HI Hkey Hval kb vb. pose proof HI as (Hsh & _).
  set (tag := tagk t kb). set (i := home t kb).
  assert (Hi : inb t i) by (by apply home_inb).
  unfold cache_evict. destruct (evict t (i * bucket t)) as [t1 s] eqn:Eev.
  destruct (evict_spec t i t1 s HI Hi Eev) as (Hs & Hp1 & HI1 & _ & Hocc1 & _).
  destruct (params_fields _ _ Hp1) as (Eks & Evs & Ebk & _).
  pose proof HI1 as (Hsh1 & _).
  pose proof (proj2 (inb_params _ _ _ Hp1) Hi) as Hi1.
  rewrite <- Ebk. rewrite present_test by done. rewrite negb_involutive.
  rewrite drop_code.
  destruct (drop_spec t1 i s HI1 Hi1 Hs) as (Hpd & HId & HPd & Hoccd).
  set (t3 := if P t1 i s then drop t1 i s else t1).
  assert (H3 : params t3 = params t1 /\ Inv t3 /\ P t3 i s = false /\
               occupied t3 = occupied t1 - b2z (P t1 i s)).
  { unfold t3. destruct (P t1 i s) eqn:EP; [done|]. simpl.
    split; [done|]. split; [done|]. split; [done|]. lia. }
  clearbody t3. destruct H3 as (Hp3 & HI3 & HP3 & Hocc3).
  destruct (params_fields _ _ Hp3) as (Eks3 & Evs3 & Ebk3 & _).
  pose proof (proj2 (inb_params _ _ _ Hp3) Hi1) as Hi3.
  rewrite <- Ebk3.
  rewrite (place_first t3 i s tag kb vb key ko value vo)
    by (unfold kb, vb; congruence).
  assert (Hhome : i = home t3 kb).
  { unfold i. rewrite (home_params _ _ _ Hp3). by rewrite (home_params _ _ _ Hp1). }
  assert (Htag : tag = tagk t3 kb).
  { unfold tag. rewrite (tagk_params _ _ _ Hp3). by rewrite (tagk_params _ _ _ Hp1). }
  rewrite Htag.
  assert (Hkl : length kb = Z.to_nat (keySize t3)).
  { unfold kb. rewrite length_slice. congruence. }
  assert (Hvl : length vb = Z.to_nat (valueSize t3)).
  { unfold vb. rewrite length_slice. congruence. }
  pose proof (bytes_slice key ko (Z.to_nat (keySize t)) Hkey) as Hkb.
  pose proof (bytes_slice value vo (Z.to_nat (valueSize t)) Hval) as Hvb.
  fold kb in Hkb. fold vb in Hvb.
  set (tp := place t3 i s i (tagk t3 kb) kb vb).
  assert (Ebp : bucket tp = bucket t3).
  { destruct (place_inv t3 i s kb vb) as (Hpp & _); try done.
    - apply (InvX_grow t3 none); [by apply Inv_InvX|done].
    - by left.
    - rewrite <- Hhome in Hpp. by destruct (params_fields _ _ Hpp) as (_ & _ & ? & _). }
  rewrite <- Ebp. rewrite bset_put.
  destruct (store_first t3 i s kb vb (Z.lor (bget tp (i * bucket tp + 18)) (Z.shiftl 1 s))
              HI3 Hi3 Hs HP3 Hhome Hkl Hkb Hvl Hvb) as (Hp5 & HI5 & Hocc5 & Hh5).
  fold tp in Hp5, HI5, Hocc5, Hh5.
  cbn [fst snd]. split; [congruence|]. split; [done|]. split; [done|].
  destruct (P t1 i s); simpl in Hocc3; [right|left]; (split; [|lia]); [by right|done].
Qed.


Lemma Table_cache_spec t h1 h2 key ko value vo :
  Inv t -> Forall byte key -> Forall byte value ->
  Hash key ko (keySize t) = (h1, h2) ->
  let kb := slice key ko (Z.to_nat (keySize t)) in
  let vb := slice value vo (Z.to_nat (valueSize t)) in
  let r := Table_cache t h1 h2 key ko value vo in
  cached t r.1 r.2 kb vb.
Proof.
  intros HI Hkey Hval HH kb vb. pose proof HI as (Hsh & _).
  rewrite Hash_slice in HH by done. fold kb in HH.
  destruct (hashk_home _ _ _ _ HH) as (Ehome & Ealt & Etag).
  pose proof (cache_evict_spec t key ko value vo HI Hkey Hval) as Hev.
  cbv zeta in Hev. fold kb vb in Hev.
  unfold Table_cache. cbv zeta.
  change (Z.land (Z.shiftr h1 16) 255) with (tag_of h1).
  rewrite <- Ehome, <- Etag. rewrite filter_test by done.
  change (Z.land (Z.shiftr (tagk t kb) 4) 7) with (filter_of (tagk t kb)).
  change (Z.shiftl 1 (Z.land (tagk t kb) 7)) with (bit_of (tagk t kb)).
  destruct (fbit t (home t kb) (tagk t kb)) eqn:Efb; cbn [negb]; [|done].
  destruct (scan t (home t kb * bucket t) (tagk t kb) key ko <? 8) eqn:E1; [|done].
  apply Z.ltb_lt in E1. destruct (scan_hit t _ _ key ko Hsh E1) as [Hr Hh].
  fold kb in Hh. set (s := scan t _ _ key ko) in *. set (i := home t kb) in *.
  assert (Hi : inb t i) by (by apply home_inb).
  rewrite bset_put.
  destruct (used_step t i (Z.lor (bget t (i * bucket t + 18)) (Z.shiftl 1 s)) HI Hi)
    as (Hfr & Hp1 & HI1 & _ & Hocc1 & _).
  set (t1 := put t i 18 _) in *.
  assert (Hh1 : hit t1 i (tagk t kb) kb s).
  { destruct Hh as (Ht & HP & HK). split; [|split].
    - unfold TG in *. rewrite (Frame_M _ _ _ _ _ _ Hfr); fside.
    - rewrite (Frame_P _ _ _ _ _ _ Hfr); fside.
    - rewrite (Frame_K _ _ _ _ _ _ Hfr); fside. }
  change (bucket t) with (bucket t1).
  destruct (update_hit t1 i (tagk t kb) kb s value vo HI1
              (Frame_inb _ _ _ _ i Hfr Hi) Hr Hh1 Hval)
    as (Hp2 & HI2 & _ & Hocc2 & _ & Hh2 & _).
  cbn [fst snd]. split; [congruence|]. split; [done|]. split; [done|].
  right. split; [by left|lia].
Qed.


(** ** The empty shard *)

Lemma sum_upto_zero n f :
  (forall j, 0 <= j < Z.of_nat n -> f j = 0) -> sum_upto n f = 0.
Proof.
  induction n as [|n IH]; intros H; [done|].
  simpl. rewrite IH, H; [done|lia|]. intros. apply H. lia.
Qed.

Lemma grid_zero n f :
  (forall i s, 0 <= i < n -> 0 <= s < 8 -> f i s = 0) -> grid n f = 0.
Proof.
  intros H. apply sum_upto_zero. intros i Hi.
  apply sum_upto_zero. intros s Hs. apply H; lia.
Qed.

Lemma rd_alloc n o : 0 <= o < n -> rd (alloc n) o = 0.
Proof.
  intros H. unfold rd, alloc. destruct (o <? 0) eqn:E; [lia|].
  apply list_lookup_total_correct, lookup_replicate_2. lia.
Qed.

Lemma empty_table t :
  Shape t -> (forall i c, inb t i -> 0 <= c < 20 -> M t i c = 0) ->
  Inv t /\ Uniq t /\ occupied t = 0 /\ forall k v, ~ holds t k v.
Proof.
  intros Hsh H0.
  assert (HP : forall i s, inb t i -> P t i s = false).
  { intros i s Hi. unfold P. rewrite H0 by (done || lia). apply Z.bits_0. }
  split; [|split; [|split]].
  - split; [done|]. split; [|split].
    + intros i s Hi _ HPs. rewrite HP in HPs; done.
    + intros b Hb. right. unfold C. rewrite H0 by (done || lia).
      unfold second_count. rewrite grid_zero; [done|].
      intros i s Hi _. unfold away. by rewrite HP.
    + intros i Hi. unfold HD. rewrite H0 by (done || lia). lia.
  - intros i s i' s' Hi _ _ _ HPs. rewrite HP in HPs; done.
  - unfold occupied. apply grid_zero. intros i s Hi _. by rewrite HP.
  - intros k v (i & s & Hi & _ & HPs & _). rewrite HP in HPs; done.
Qed.

Lemma Shape_new ks vs bk n :
  0 <= ks -> ks mod 4 = 0 -> 0 <= vs -> 20 + 8 * (ks + vs) <= bk -> 1 <= n ->
  Shape (mkTable ks vs bk n (n - 1) (alloc (bk * n))).
Proof.
  intros. unfold Shape. cbn [keySize valueSize bucket buckets mask buffer].
  split; [done|]. split; [done|]. split; [done|]. split; [done|]. split; [done|].
  split; [done|]. split.
  - unfold alloc. rewrite length_replicate. rewrite Z2Nat.id; [done|nia].
  - unfold alloc. apply Forall_replicate. unfold byte. lia.
Qed.

Lemma new_table_spec ks vs bk n :
  0 <= ks -> ks mod 4 = 0 -> 0 <= vs -> 20 + 8 * (ks + vs) <= bk -> 1 <= n ->
  let t := mkTable ks vs bk n (n - 1) (alloc (bk * n)) in
  Inv t /\ Uniq t /\ occupied t = 0 /\ forall k v, ~ holds t k v.
Proof.
  intros. apply empty_table; [by apply Shape_new|].
  intros i c Hi Hc. unfold M, bget, inb in *. subst t.
  cbn [buffer bucket buckets] in *. apply rd_alloc. nia.
Qed.

(** ** [resize] *)

(** The slots of the old buffer that the loops of [resize] have passed
    when they are at bucket [idx], slot [slot]. *)
Definition before (idx slot i s : Z) : bool :=
  (i <? idx) || ((i =? idx) && (s <? slot)).

(** The new shard holds the elements of the slots passed so far. *)
Definition rebuilt (t0 t : Table) (idx slot : Z) : Prop :=
  Inv t /\ Uniq t /\
  occupied t = grid (buckets t0) (fun i s => b2z (P t0 i s && before idx slot i s)) /\
  forall k v, holds t k v <->
    exists i s, inb t0 i /\ 0 <= s < 8 /\ before idx slot i s = true /\
      P t0 i s = true /\ K t0 i s = k /\ V t0 i s = v.

Definition same_layout (t0 t : Table) : Prop :=
  keySize t = keySize t0 /\ valueSize t = valueSize t0 /\ bucket t = bucket t0.

Lemma before_next idx slot i s :
  before idx (slot + 1) i s = before idx slot i s || ((i =? idx) && (s =? slot)).
Proof.
  unfold before.
  destruct (i <? idx) eqn:E1, (i =? idx) eqn:E2, (s <? slot + 1) eqn:E3,
    (s <? slot) eqn:E4, (s =? slot) eqn:E5; simpl; try done; lia.
Qed.

Lemma before_wrap idx i s : 0 <= s < 8 -> before idx 8 i s = before (idx + 1) 0 i s.
Proof.
  intros. unfold before.
  destruct (i <? idx) eqn:E1, (i =? idx) eqn:E2, (s <? 8) eqn:E3,
    (i <? idx + 1) eqn:E4, (i =? idx + 1) eqn:E5, (s <? 0) eqn:E6; simpl; try done; lia.
Qed.

Lemma rebuilt_skip t0 t idx slot :
  inb t0 idx -> 0 <= slot < 8 -> P t0 idx slot = false ->
  rebuilt t0 t idx slot -> rebuilt t0 t idx (slot + 1).
Proof.
  intros Hi Hs HP (HI & HU & Hocc & Hh). split; [done|]. split; [done|]. split.
  - rewrite Hocc. apply grid_ext. intros i s _ _. rewrite before_next.
    destruct (decide (i = idx /\ s = slot)) as [[-> ->]|Hne].
    + by rewrite HP.
    + assert ((i =? idx) && (s =? slot) = false) as ->; [|by rewrite orb_false_r].
      apply andb_false_iff. destruct (decide (i = idx)) as [->|?]; [right|left]; lia.
  - intros k v. rewrite Hh. split.
    + intros (i & s & ? & ? & Hb & ?). exists i, s. rewrite before_next, Hb. done.
    + intros (i & s & ? & ? & Hb & HPs & ?). exists i, s. rewrite before_next in Hb.
      apply orb_true_iff in Hb. destruct Hb as [Hb|Hb]; [done|].
      apply andb_true_iff in Hb. destruct Hb as [?%Z.eqb_eq ?%Z.eqb_eq]. subst.
      congruence.
Qed.

Lemma rebuilt_fresh t0 t idx slot :
  Uniq t0 -> inb t0 idx -> 0 <= slot < 8 -> P t0 idx slot = true ->
  rebuilt t0 t idx slot -> forall v, ~ holds t (K t0 idx slot) v.
Proof.
  intros HU0 Hi Hs HP (_ & _ & _ & Hh) v Hv. apply Hh in Hv.
  destruct Hv as (i & s & Hi' & Hs' & Hb & HPs & HK & _).
  destruct (HU0 i s idx slot Hi' Hs' Hi Hs HPs HP HK) as [-> ->].
  unfold before in Hb. rewrite Z.ltb_irrefl, Z.eqb_refl in Hb.
  simpl in Hb. lia.
Qed.

Lemma rebuilt_add t0 t t' idx slot :
  inb t0 idx -> 0 <= slot < 8 -> P t0 idx slot = true ->
  rebuilt t0 t idx slot ->
  inserted t t' (K t0 idx slot) (V t0 idx slot) ->
  rebuilt t0 t' idx (slot + 1).
Proof.
  intros Hi Hs HP (HI & HU & Hocc & Hh) (Hp & HI' & HU' & Hocc' & Hh').
  split; [done|]. split; [done|]. split.
  - rewrite Hocc', Hocc.
    rewrite (grid_change (buckets t0)
               (fun i s => b2z (P t0 i s && before idx slot i s))
               (fun i s => b2z (P t0 i s && before idx (slot + 1) i s)) idx slot);
      [| done | done |].
    + cbv beta. rewrite before_next. unfold before.
      rewrite HP, !Z.ltb_irrefl, !Z.eqb_refl. simpl. lia.
    + intros i s _ _ Hne. rewrite before_next.
      assert ((i =? idx) && (s =? slot) = false) as ->; [|by rewrite orb_false_r].
      apply andb_false_iff. destruct (decide (i = idx)) as [->|?]; [right|left]; lia.
  - intros k v. rewrite Hh', Hh. split.
    + intros [(i & s & ? & ? & Hb & ?)|[-> ->]].
      * exists i, s. rewrite before_next, Hb. done.
      * exists idx, slot. rewrite before_next, !Z.eqb_refl, orb_true_r. done.
    + intros (i & s & ? & ? & Hb & HPs & HK & HV). rewrite before_next in Hb.
      apply orb_true_iff in Hb. destruct Hb as [Hb|Hb].
      * left. exists i, s. done.
      * apply andb_true_iff in Hb. destruct Hb as [?%Z.eqb_eq ?%Z.eqb_eq]. subst.
        by right.
Qed.


Lemma same_layout_params t0 t t' :
  same_layout t0 t -> params t' = params t -> same_layout t0 t'.
Proof.
  intros (?&?&?) Hp. destruct (params_fields _ _ Hp) as (?&?&?&_).
  unfold same_layout. split; [congruence|]. split; congruence.
Qed.

(** The unfolding of the loops of [resize], at the front and at the end. *)
Lemma resize_slots_S k tm old bkt slot :
  resize_slots (S k) tm old bkt slot =
  if negb (Z.land (rd old (bkt + 9)) (Z.shiftl 1 slot) =? 0) then
    let '(H1, H2) := Hash old (keyOffset tm bkt slot) (keySize tm) in
    match Table_set tm H1 H2 old (keyOffset tm bkt slot) old (valueOffset tm bkt slot) with
    | Throw t e => Throw t e
    | Ret t r => if r =? -1 then Ret t false else resize_slots k t old bkt (slot + 1)
    end
  else resize_slots k tm old bkt (slot + 1).
Proof. done. Qed.

Lemma resize_slots_snoc k : forall tm old bkt slot,
  resize_slots (S k) tm old bkt slot =
  match resize_slots k tm old bkt slot with
  | Ret t' true => resize_slots 1 t' old bkt (slot + Z.of_nat k)
  | r => r
  end.
Proof.
  induction k as [|k IH]; intros tm old bkt slot.
  { change (resize_slots 0 tm old bkt slot) with (@Ret Table bool tm true).
    cbv iota. by rewrite Z.add_0_r. }
  rewrite (resize_slots_S (S k)), (resize_slots_S k tm old bkt slot).
  replace (slot + Z.of_nat (S k)) with (slot + 1 + Z.of_nat k) by lia.
  destruct (negb _); [|apply IH].
  destruct (Hash _ _ _) as [H1 H2].
  destruct (Table_set _ _ _ _ _ _ _) as [t' r|t' e]; [|done].
  destruct (r =? -1); [done|apply IH].
Qed.

Lemma resize_loop_S k tm old idx :
  resize_loop (S k) tm old idx =
  match resize_slots 8 tm old (idx * bucket tm) 0 with
  | Throw t e => Throw t e
  | Ret t false => Ret t false
  | Ret t true => resize_loop k t old (idx + 1)
  end.
Proof. done. Qed.

Lemma resize_loop_snoc k : forall tm old idx,
  resize_loop (S k) tm old idx =
  match resize_loop k tm old idx with
  | Ret t' true => resize_loop 1 t' old (idx + Z.of_nat k)
  | r => r
  end.
Proof.
  induction k as [|k IH]; intros tm old idx.
  { change (resize_loop 0 tm old idx) with (@Ret Table bool tm true).
    cbv iota. by rewrite Z.add_0_r. }
  rewrite (resize_loop_S (S k)), (resize_loop_S k tm old idx).
  replace (idx + Z.of_nat (S k)) with (idx + 1 + Z.of_nat k) by lia.
  destruct (resize_slots 8 tm old (idx * bucket tm) 0) as [t' [|]|t' e]; [apply IH|done|done].
Qed.

Lemma resize_loop_1 tm old idx :
  resize_loop 1 tm old idx = resize_slots 8 tm old (idx * bucket tm) 0.
Proof.
  rewrite resize_loop_S.
  by destruct (resize_slots 8 tm old (idx * bucket tm) 0) as [t' [|]|t' e].
Qed.

(** The shard of the rebuild after a part of the slots of a bucket, and
    after a part of the buckets. *)
Lemma resize_slots_upto n t0 t idx slot :
  Inv t0 -> Uniq t0 -> same_layout t0 t -> inb t0 idx ->
  0 <= slot -> slot + Z.of_nat n <= 8 -> rebuilt t0 t idx slot ->
  match resize_slots n t (buffer t0) (idx * bucket t0) slot with
  | Throw _ _ => False
  | Ret t' true => params t' = params t /\ rebuilt t0 t' idx (slot + Z.of_nat n)
  | Ret t' false => same_layout t0 t'
  end.
Proof.
  intros HI0 HU0. pose proof HI0 as (Hsh0 & _).
  assert (Hb0 : Forall byte (buffer t0)) by (by destruct Hsh0 as (?&?&?&?&?&?&?&?)).
  revert t slot. induction n as [|n IH]; intros t slot Hlay Hi Hs0 Hsn Hre.
  { cbn [resize_slots]. split; [done|]. by replace (slot + Z.of_nat 0) with slot by lia. }
  rewrite resize_slots_S. pose proof Hlay as (Eks & Evs & Ebk).
  assert (Hs : 0 <= slot < 8) by lia.
  replace (slot + Z.of_nat (S n)) with (slot + 1 + Z.of_nat n) by lia.
  change (rd (buffer t0) (idx * bucket t0 + 9)) with (bget t0 (idx * bucket t0 + 9)).
  rewrite present_test by done. rewrite negb_involutive.
  destruct (P t0 idx slot) eqn:HP.
  2:{ apply IH; [done|done|lia|lia|]. by apply rebuilt_skip. }
  assert (EkO : keyOffset t (idx * bucket t0) slot = keyOffset t0 (idx * bucket t0) slot).
  { unfold keyOffset. by rewrite Eks, Evs. }
  assert (EvO : valueOffset t (idx * bucket t0) slot = valueOffset t0 (idx * bucket t0) slot).
  { unfold valueOffset. by rewrite Eks, Evs. }
  rewrite EkO, EvO.
  destruct (Hash (buffer t0) (keyOffset t0 (idx * bucket t0) slot) (keySize t))
    as [H1 H2] eqn:EH.
  pose proof Hre as (HI & HU & _).
  pose proof (Table_set_spec t H1 H2 (buffer t0) _ (buffer t0)
                (valueOffset t0 (idx * bucket t0) slot) HI HU Hb0 Hb0 EH) as Hset.
  cbv zeta in Hset. rewrite Eks, Evs, keyOffset_eq, valueOffset_eq in Hset.
  change (slice (buffer t0) (idx * bucket t0 + (20 + esize t0 * slot))
            (Z.to_nat (keySize t0))) with (K t0 idx slot) in Hset.
  change (slice (buffer t0) (idx * bucket t0 + (20 + esize t0 * slot + keySize t0))
            (Z.to_nat (valueSize t0))) with (V t0 idx slot) in Hset.
  rewrite keyOffset_eq, valueOffset_eq.
  destruct (Table_set t H1 H2 _ _ _ _) as [t' r|]; [|done].
  destruct Hset as [(-> & -> & _)|[(-> & Hins & _)|(-> & Hupd)]].
  - done.
  - change (0 =? -1) with false. cbv iota.
    pose proof Hins as (Hp & _).
    pose proof (same_layout_params t0 t t' Hlay Hp) as Hlay'.
    pose proof (rebuilt_add t0 t t' idx slot Hi Hs HP Hre Hins) as Hre'.
    pose proof (IH t' (slot + 1) Hlay' Hi ltac:(lia) ltac:(lia) Hre') as H.
    destruct (resize_slots n t' (buffer t0) (idx * bucket t0) (slot + 1)) as [t'' [|]|];
      [|done|done].
    destruct H as [Hp'' Hre'']. split; [congruence|done].
  - exfalso. destruct Hupd as (_ & _ & _ & _ & [v0 Hv0] & _).
    by apply (rebuilt_fresh t0 t idx slot HU0 Hi Hs HP Hre v0).
Qed.

Lemma resize_slots_spec n t0 t idx slot :
  Inv t0 -> Uniq t0 -> same_layout t0 t -> inb t0 idx ->
  0 <= slot -> slot + Z.of_nat n = 8 -> rebuilt t0 t idx slot ->
  match resize_slots n t (buffer t0) (idx * bucket t0) slot with
  | Throw _ _ => False
  | Ret t' true => params t' = params t /\ rebuilt t0 t' idx 8
  | Ret t' false => same_layout t0 t'
  end.
Proof.
  intros HI0 HU0 Hlay Hi Hs0 Hsn Hre.
  pose proof (resize_slots_upto n t0 t idx slot HI0 HU0 Hlay Hi Hs0 ltac:(lia) Hre) as H.
  by rewrite Hsn in H.
Qed.

Lemma rebuilt_wrap t0 t idx : rebuilt t0 t idx 8 -> rebuilt t0 t (idx + 1) 0.
Proof.
  intros (HI & HU & Hocc & Hh). split; [done|]. split; [done|]. split.
  - rewrite Hocc. apply grid_ext. intros i s _ Hs. by rewrite before_wrap.
  - intros k v. rewrite Hh. split.
    + intros (i & s & ? & Hs & Hb & ?). exists i, s. rewrite <- before_wrap by done. done.
    + intros (i & s & ? & Hs & Hb & ?). exists i, s. rewrite before_wrap by done. done.
Qed.

Lemma resize_loop_upto n t0 t index :
  Inv t0 -> Uniq t0 -> same_layout t0 t ->
  0 <= index -> index + Z.of_nat n <= buckets t0 -> rebuilt t0 t index 0 ->
  match resize_loop n t (buffer t0) index with
  | Throw _ _ => False
  | Ret t' true => params t' = params t /\ rebuilt t0 t' (index + Z.of_nat n) 0
  | Ret t' false => same_layout t0 t'
  end.
Proof.
  intros HI0 HU0. revert t index.
  induction n as [|n IH]; intros t index Hlay Hi Hn Hre.
  { cbn [resize_loop]. split; [done|]. by replace (index + Z.of_nat 0) with index by lia. }
  rewrite resize_loop_S. pose proof Hlay as (_ & _ & Ebk). rewrite Ebk.
  replace (index + Z.of_nat (S n)) with (index + 1 + Z.of_nat n) by lia.
  assert (Hin : inb t0 index) by (unfold inb; lia).
  pose proof (resize_slots_upto 8 t0 t index 0 HI0 HU0 Hlay Hin ltac:(lia) ltac:(lia) Hre)
    as H.
  destruct (resize_slots 8 t (buffer t0) (index * bucket t0) 0) as [t' [|]|];
    [|done|done].
  destruct H as [Hp Hre']. change (0 + Z.of_nat 8) with 8 in Hre'.
  pose proof (IH t' (index + 1) (same_layout_params t0 t t' Hlay Hp) ltac:(lia) ltac:(lia)
                (rebuilt_wrap _ _ _ Hre')) as H.
  destruct (resize_loop n t' (buffer t0) (index + 1)) as [t'' [|]|]; [|done|done].
  destruct H as [Hp'' Hre'']. split; [congruence|done].
Qed.

Lemma resize_loop_spec n t0 t index :
  Inv t0 -> Uniq t0 -> same_layout t0 t ->
  0 <= index -> index + Z.of_nat n = buckets t0 -> rebuilt t0 t index 0 ->
  match resize_loop n t (buffer t0) index with
  | Throw _ _ => False
  | Ret t' true => params t' = params t /\ rebuilt t0 t' (buckets t0) 0
  | Ret t' false => same_layout t0 t'
  end.
Proof.
  intros HI0 HU0 Hlay Hi Hn Hre.
  pose proof (resize_loop_upto n t0 t index HI0 HU0 Hlay Hi ltac:(lia) Hre) as H.
  by rewrite Hn in H.
Qed.

(** The shard after a [resize] that succeeded. *)
Definition resized (t t' : Table) (n : Z) : Prop :=
  same_layout t t' /\ buckets t' = n /\ mask t' = n - 1 /\
  Inv t' /\ Uniq t' /\ occupied t' = occupied t /\
  forall k v, holds t' k v <-> holds t k v.

(** The checks that [resize] makes before it changes the shard. *)
Definition resize_refused (t : Table) (n : Z) (e : string) : Prop :=
  Assert_GE "resizeBuckets" n (buckets t * 2) = Some e \/
  Assert_P2 "resizeBuckets" n = Some e \/
  e = ERROR_MAXIMUM_CAPACITY_EXCEEDED.

Lemma resize_spec t n :
  Inv t -> Uniq t ->
  match resize t n with
  | Throw t' e => t' = t /\ resize_refused t n e
  | Ret t' r => (r = 0 /\ t' = t) \/ (r = 1 /\ resized t t' n)
  end.
Proof.
  intros HI HU. pose proof HI as (Hsh & _).
  pose proof Hsh as (Hks & Hk4 & Hvs & Hbk & Hn & Hm & Hlen & Hby).
  unfold resize, resize_refused.
  destruct (Assert_GE "resizeBuckets" n (buckets t * 2)) as [e|] eqn:EGE.
  { split; [done|by left]. }
  destruct (Assert_P2 "resizeBuckets" n) as [e|] eqn:EP2.
  { split; [done|]. right. by left. }
  destruct ((n >? BUCKETS_MAX) || (bucket t * n >? BUFFER_MAX)).
  { split; [done|]. right. by right. }
  assert (Hn2 : buckets t * 2 <= n).
  { unfold Assert_GE in EGE. destruct (n <? buckets t * 2) eqn:E; [done|lia]. }
  cbv zeta. set (tn := mkTable _ _ _ n (n - 1) _).
  destruct (new_table_spec (keySize t) (valueSize t) (bucket t) n) as (HIn & HUn & Hon & Hhn);
    try done; try lia.
  fold tn in HIn, HUn, Hon, Hhn.
  assert (Hlay : same_layout t tn) by done.
  assert (Hre : rebuilt t tn 0 0).
  { split; [done|]. split; [done|]. split.
    - rewrite Hon. symmetry. apply grid_zero. intros i s Hi Hs.
      unfold before. destruct (i <? 0) eqn:E1; [lia|].
      destruct (s <? 0) eqn:E2; [lia|].
      rewrite andb_false_r. simpl. by rewrite andb_false_r.
    - intros k v. split; [intros H; by apply Hhn in H|].
      intros (i & s & Hi & Hs & Hb & _). unfold before, inb in *.
      destruct (i <? 0) eqn:E1; [lia|]. destruct (s <? 0) eqn:E2; [lia|].
      by rewrite andb_false_r in Hb. }
  pose proof (resize_loop_spec (Z.to_nat (buckets t)) t tn 0 HI HU Hlay ltac:(lia)
                ltac:(lia) Hre) as H.
  destruct (resize_loop (Z.to_nat (buckets t)) tn (buffer t) 0) as [t' [|]|]; [| |done].
  - right. split; [done|]. destruct H as [Hp (HI' & HU' & Hocc' & Hh')].
    destruct (params_fields _ _ Hp) as (E1 & E2 & E3 & E4 & E5).
    split; [split; [done|split; done]|]. split; [done|]. split; [done|].
    split; [done|]. split; [done|]. split.
    + rewrite Hocc'. apply grid_ext. intros i s Hi _. unfold before.
      destruct (i <? buckets t) eqn:E; [|lia]. simpl. by rewrite andb_true_r.
    + intros k v. rewrite Hh'. split.
      * intros (i & s & ? & ? & _ & ?). exists i, s. done.
      * intros (i & s & Hi & ? & ?). exists i, s. split; [done|]. split; [done|].
        split; [|done]. unfold before, inb in *. destruct (i <? buckets t) eqn:E; [done|lia].
  - left. split; [done|]. destruct H as (E1 & E2 & E3). rewrite E1, E2, E3, <- Hm.
    by destruct t.
Qed.

(** ** The rebuild of [resize], set by set *)

(** The new, empty shard that [resize] allocates. *)
Definition resize_fresh (t : Table) (n : Z) : Table :=
  mkTable (keySize t) (valueSize t) (bucket t) n (n - 1) (alloc (bucket t * n)).

(** The rebuild when its loops arrive at slot [s] of bucket [i] of the old
    buffer: the loops of [resize] over the buckets before [i] and over the
    slots of bucket [i] before [s]. *)
Definition rebuild_upto (t : Table) (n i s : Z) : Res Table bool :=
  match resize_loop (Z.to_nat i) (resize_fresh t n) (buffer t) 0 with
  | Ret tm true => resize_slots (Z.to_nat s) tm (buffer t) (i * bucket tm) 0
  | r => r
  end.

(** The internal [set] that the rebuild makes for slot [s] of bucket [i],
    on the shard as the rebuild has it then; [None] when the rebuild does
    not get there. *)
Definition rebuild_set (t : Table) (n i s : Z) : option (Res Table Z) :=
  match rebuild_upto t n i s with
  | Ret tm true =>
      let keyOff := keyOffset tm (i * bucket tm) s in
      let valueOff := valueOffset tm (i * bucket tm) s in
      let '(H1, H2) := Hash (buffer t) keyOff (keySize tm) in
      Some (Table_set tm H1 H2 (buffer t) keyOff (buffer t) valueOff)
  | _ => None
  end.

(** An internal [set] of the rebuild, for an occupied slot of the old
    buffer, returns -1. *)
Definition rebuild_fails (t : Table) (n : Z) : Prop :=
  exists i s tm, inb t i /\ 0 <= s < 8 /\ P t i s = true /\
    rebuild_set t n i s = Some (Ret tm (-1)).


Lemma resize_fresh_rebuilt t n :
  Inv t -> 1 <= n ->
  same_layout t (resize_fresh t n) /\ rebuilt t (resize_fresh t n) 0 0.
Proof.
  intros HI Hn1. pose proof HI as (Hsh & _).
  pose proof Hsh as (Hks & Hk4 & Hvs & Hbk & Hn & Hm & Hlen & Hby).
  destruct (new_table_spec (keySize t) (valueSize t) (bucket t) n) as (HIn & HUn & Hon & Hhn);
    try done; try lia.
  fold (resize_fresh t n) in HIn, HUn, Hon, Hhn.
  split; [done|]. split; [done|]. split; [done|]. split.
  - rewrite Hon. symmetry. apply grid_zero. intros i s Hi Hs.
    unfold before. destruct (i <? 0) eqn:E1; [lia|].
    destruct (s <? 0) eqn:E2; [lia|].
    rewrite andb_false_r. simpl. by rewrite andb_false_r.
  - intros k v. split; [intros H; by apply Hhn in H|].
    intros (i & s & Hi & Hs & Hb & _). unfold before, inb in *.
    destruct (i <? 0) eqn:E1; [lia|]. destruct (s <? 0) eqn:E2; [lia|].
    by rewrite andb_false_r in Hb.
Qed.

(** The shard when the rebuild arrives at a slot holds the elements of
    the slots before it. *)
Lemma rebuild_upto_spec t n i s :
  Inv t -> Uniq t -> 1 <= n -> inb t i -> 0 <= s <= 8 ->
  match rebuild_upto t n i s with
  | Throw _ _ => False
  | Ret tm true => same_layout t tm /\ rebuilt t tm i s
  | Ret tm false => True
  end.
Proof.
  intros HI HU Hn Hi Hs. destruct (resize_fresh_rebuilt t n HI Hn) as [Hlay Hre].
  unfold rebuild_upto.
  pose proof (resize_loop_upto (Z.to_nat i) t (resize_fresh t n) 0 HI HU Hlay ltac:(lia)
                ltac:(unfold inb in Hi; lia) Hre) as H.
  destruct (resize_loop (Z.to_nat i) (resize_fresh t n) (buffer t) 0) as [tm [|]|]; [|done|done].
  destruct H as [Hp Hre']. replace (0 + Z.of_nat (Z.to_nat i)) with i in Hre'
    by (unfold inb in Hi; lia).
  pose proof (same_layout_params t _ tm Hlay Hp) as Hlay'.
  pose proof Hlay' as (_ & _ & Ebk). rewrite Ebk.
  pose proof (resize_slots_upto (Z.to_nat s) t tm i 0 HI HU Hlay' Hi ltac:(lia) ltac:(lia) Hre')
    as H.
  destruct (resize_slots (Z.to_nat s) tm (buffer t) (i * bucket t) 0) as [tm' [|]|];
    [|done|done].
  destruct H as [Hp' Hre'']. replace (0 + Z.of_nat (Z.to_nat s)) with s in Hre'' by lia.
  split; [by apply (same_layout_params t tm tm')|done].
Qed.

(** One turn of the inner loop, at the slot where the rebuild is. *)
Lemma rebuild_step t n i s tm :
  Inv t -> Uniq t -> 1 <= n -> inb t i -> 0 <= s < 8 ->
  rebuild_upto t n i s = Ret tm true ->
  (P t i s = false ->
   resize_slots 1 tm (buffer t) (i * bucket tm) s = Ret tm true) /\
  (P t i s = true ->
   exists tm',
     (rebuild_set t n i s = Some (Ret tm' (-1)) /\
      resize_slots 1 tm (buffer t) (i * bucket tm) s = Ret tm' false) \/
     (rebuild_set t n i s = Some (Ret tm' 0) /\
      resize_slots 1 tm (buffer t) (i * bucket tm) s = Ret tm' true)).
Proof.
  intros HI HU Hn Hi Hs Hup.
  pose proof (rebuild_upto_spec t n i s HI HU Hn Hi ltac:(lia)) as Hsp.
  rewrite Hup in Hsp. destruct Hsp as [Hlay Hre].
  pose proof HI as (Hsh & _).
  assert (Hb0 : Forall byte (buffer t)) by (by destruct Hsh as (?&?&?&?&?&?&?&?)).
  pose proof Hlay as (Eks & Evs & Ebk).
  unfold rebuild_set. rewrite Hup. cbv zeta. rewrite resize_slots_S. rewrite Ebk.
  change (rd (buffer t) (i * bucket t + 9)) with (bget t (i * bucket t + 9)).
  rewrite present_test by done. rewrite negb_involutive.
  change (resize_slots 0) with (fun (t : Table) (_ : list Z) (_ _ : Z) => @Ret Table bool t true).
  cbv beta.
  split; [by intros ->|]. intros HP. rewrite HP.
  assert (EkO : keyOffset tm (i * bucket t) s = keyOffset t (i * bucket t) s).
  { unfold keyOffset. by rewrite Eks, Evs. }
  assert (EvO : valueOffset tm (i * bucket t) s = valueOffset t (i * bucket t) s).
  { unfold valueOffset. by rewrite Eks, Evs. }
  rewrite EkO, EvO.
  destruct (Hash (buffer t) (keyOffset t (i * bucket t) s) (keySize tm))
    as [H1 H2] eqn:EH.
  pose proof Hre as (HIm & HUm & _).
  pose proof (Table_set_spec tm H1 H2 (buffer t) _ (buffer t)
                (valueOffset t (i * bucket t) s) HIm HUm Hb0 Hb0 EH) as Hset.
  cbv zeta in Hset. rewrite Eks, Evs, keyOffset_eq, valueOffset_eq in Hset.
  change (slice (buffer t) (i * bucket t + (20 + esize t * s))
            (Z.to_nat (keySize t))) with (K t i s) in Hset.
  change (slice (buffer t) (i * bucket t + (20 + esize t * s + keySize t))
            (Z.to_nat (valueSize t))) with (V t i s) in Hset.
  rewrite keyOffset_eq, valueOffset_eq.
  destruct (Table_set tm H1 H2 _ _ _ _) as [tm' r|]; [|done].
  exists tm'. destruct Hset as [(-> & -> & _)|[(-> & Hins & _)|(-> & Hupd)]].
  - by left.
  - by right.
  - exfalso. destruct Hupd as (_ & _ & _ & _ & [v0 Hv0] & _).
    by apply (rebuilt_fresh t tm i s HU Hi Hs HP Hre v0).
Qed.

(** The slots of one bucket: the inner loop returns [true] when every
    internal [set] returned 0, and [false] at the first that returns -1. *)
Lemma rebuild_bucket t n i ti :
  Inv t -> Uniq t -> 1 <= n -> inb t i ->
  resize_loop (Z.to_nat i) (resize_fresh t n) (buffer t) 0 = Ret ti true ->
  forall j, (j <= 8)%nat ->
  match resize_slots j ti (buffer t) (i * bucket ti) 0 with
  | Throw _ _ => False
  | Ret _ true =>
      forall s, 0 <= s < Z.of_nat j -> P t i s = true ->
        exists tm, rebuild_set t n i s = Some (Ret tm 0)
  | Ret _ false =>
      exists s tm, 0 <= s < Z.of_nat j /\ P t i s = true /\
        rebuild_set t n i s = Some (Ret tm (-1))
  end.
Proof.
  intros HI HU Hn Hi Hloop j. induction j as [|j IH]; intros Hj.
  { cbn [resize_slots]. intros s Hs. lia. }
  rewrite resize_slots_snoc. specialize (IH ltac:(lia)).
  destruct (resize_slots j ti (buffer t) (i * bucket ti) 0) as [tj [|]|] eqn:Ej; [| |done].
  2:{ destruct IH as (s & tm & Hs & HP & Hset). exists s, tm. split; [lia|done]. }
  assert (Hup : rebuild_upto t n i (Z.of_nat j) = Ret tj true).
  { unfold rebuild_upto. by rewrite Hloop, Nat2Z.id. }
  assert (Ebk : bucket tj = bucket ti).
  { pose proof (rebuild_upto_spec t n i (Z.of_nat j) HI HU Hn Hi ltac:(lia)) as H1.
    rewrite Hup in H1. destruct H1 as [(_ & _ & E1) _].
    pose proof (rebuild_upto_spec t n i 0 HI HU Hn Hi ltac:(lia)) as H0.
    unfold rebuild_upto in H0. rewrite Hloop in H0. cbn [Z.to_nat resize_slots] in H0.
    destruct H0 as [(_ & _ & E0) _]. congruence. }
  destruct (rebuild_step t n i (Z.of_nat j) tj HI HU Hn Hi ltac:(lia) Hup) as [Hskip Hset].
  rewrite Z.add_0_l, <- Ebk.
  destruct (P t i (Z.of_nat j)) eqn:HP.
  - destruct (Hset eq_refl) as [tm' [[Hs Hr]|[Hs Hr]]]; rewrite Hr.
    + exists (Z.of_nat j), tm'. split; [lia|done].
    + intros s Hs' HPs. destruct (decide (s = Z.of_nat j)) as [->|Hne]; [by exists tm'|].
      apply IH; [lia|done].
  - rewrite (Hskip eq_refl). intros s Hs' HPs.
    destruct (decide (s = Z.of_nat j)) as [->|Hne]; [congruence|].
    apply IH; [lia|done].
Qed.

(** The buckets: the outer loop returns [true] when every internal [set]
    returned 0, and [false] at the first that returns -1. *)
Lemma rebuild_buckets t n :
  Inv t -> Uniq t -> 1 <= n ->
  forall k, Z.of_nat k <= buckets t ->
  match resize_loop k (resize_fresh t n) (buffer t) 0 with
  | Throw _ _ => False
  | Ret _ true =>
      forall i s, 0 <= i < Z.of_nat k -> 0 <= s < 8 -> P t i s = true ->
        exists tm, rebuild_set t n i s = Some (Ret tm 0)
  | Ret _ false =>
      exists i s tm, 0 <= i < Z.of_nat k /\ 0 <= s < 8 /\ P t i s = true /\
        rebuild_set t n i s = Some (Ret tm (-1))
  end.
Proof.
  intros HI HU Hn k. induction k as [|k IH]; intros Hk.
  { cbn [resize_loop]. intros i s Hi. lia. }
  rewrite resize_loop_snoc. specialize (IH ltac:(lia)).
  destruct (resize_loop k (resize_fresh t n) (buffer t) 0) as [tk [|]|] eqn:Ek; [| |done].
  2:{ destruct IH as (i & s & tm & Hi & H). exists i, s, tm. split; [lia|done]. }
  rewrite resize_loop_1, Z.add_0_l.
  assert (Hin : inb t (Z.of_nat k)) by (unfold inb; lia).
  assert (Hloop : resize_loop (Z.to_nat (Z.of_nat k)) (resize_fresh t n) (buffer t) 0 =
                  Ret tk true) by (by rewrite Nat2Z.id).
  pose proof (rebuild_bucket t n (Z.of_nat k) tk HI HU Hn Hin Hloop 8%nat ltac:(lia)) as H.
  destruct (resize_slots 8 tk (buffer t) (Z.of_nat k * bucket tk) 0) as [t8 [|]|]; [| |done].
  - intros i s Hi Hs HP. destruct (decide (i = Z.of_nat k)) as [->|Hne].
    + apply H; [lia|done].
    + apply IH; [lia|done|done].
  - destruct H as (s & tm & Hs & HP & Hset). exists (Z.of_nat k), s, tm.
    split; [lia|]. split; [lia|done].
Qed.

(** The checks of [resize] pass. *)
Definition resize_accepts (t : Table) (n : Z) : Prop :=
  Assert_GE "resizeBuckets" n (buckets t * 2) = None /\
  Assert_P2 "resizeBuckets" n = None /\
  n <= BUCKETS_MAX /\ bucket t * n <= BUFFER_MAX.


(** ** The coordinator *)

(** The elements stored in all the shards. *)
Definition total (ts : list Table) : Z := foldr (fun t acc => occupied t + acc) 0 ts.

Definition shard_ok (ks vs bk m : Z) (t : Table) : Prop :=
  keySize t = ks /\ valueSize t = vs /\ bucket t = bk /\ Inv t /\ (m <> 2 -> Uniq t).

(** The invariant of the coordinator: its shards are well formed, keys
    are stored once unless the container is a cache, and [length] counts
    the occupied slots. *)
Definition HInv (h : HashTable) : Prop :=
  0 <= ht_mask h /\
  Z.of_nat (length (tables h)) = ht_mask h + 1 /\
  Forall (shard_ok (ht_keySize h) (ht_valueSize h) (ht_bucket h) (mode h)) (tables h) /\
  ht_length h = total (tables h) /\
  (mode h = 0 \/ mode h = 1 \/ mode h = 2).

Definition same_config (h h' : HashTable) : Prop :=
  ht_keySize h' = ht_keySize h /\ ht_valueSize h' = ht_valueSize h /\
  ht_bucket h' = ht_bucket h /\ ht_mask h' = ht_mask h.

Lemma same_config_refl h : same_config h h.
Proof. done. Qed.

Lemma same_config_trans h h' h'' :
  same_config h h' -> same_config h' h'' -> same_config h h''.
Proof. intros (?&?&?&?) (?&?&?&?). unfold same_config. split; [|split; [|split]]; congruence. Qed.

Lemma total_insert ts : forall (i : nat) t,
  (i < length ts)%nat ->
  total (<[i := t]> ts) = total ts - occupied (ts !!! i) + occupied t.
Proof.
  induction ts as [|x ts IH]; intros i t Hi; simpl in Hi; [lia|].
  destruct i as [|i]; simpl.
  - lia.
  - rewrite IH by lia. change ((x :: ts) !!! S i) with (ts !!! i). lia.
Qed.

Lemma shard_index_range h H1 H2 :
  0 <= ht_mask h -> 0 <= shard_index h H1 H2 <= ht_mask h.
Proof. intros. by apply land_mask_range. Qed.

Lemma HInv_shard h idx :
  HInv h -> 0 <= idx <= ht_mask h ->
  shard_ok (ht_keySize h) (ht_valueSize h) (ht_bucket h) (mode h) (shard h idx).
Proof.
  intros (Hm & Hlen & Hall & _) Hidx. unfold shard.
  apply (Forall_lookup_1 _ _ (Z.to_nat idx) _ Hall).
  apply list_lookup_lookup_total_lt. lia.
Qed.

Lemma shard_with_table h idx t :
  HInv h -> 0 <= idx <= ht_mask h -> shard (with_table h idx t) idx = t.
Proof.
  intros (Hm & Hlen & _) Hidx. unfold shard, with_table. cbn [tables].
  apply list_lookup_total_insert_eq. lia.
Qed.

Lemma HInv_update h h' idx t' :
  HInv h -> 0 <= idx <= ht_mask h ->
  same_config h h' -> mode h' = mode h ->
  tables h' = <[Z.to_nat idx := t']> (tables h) ->
  shard_ok (ht_keySize h) (ht_valueSize h) (ht_bucket h) (mode h) t' ->
  ht_length h' = ht_length h - occupied (shard h idx) + occupied t' ->
  HInv h'.
Proof.
  intros (Hm & Hlen & Hall & Hcount & Hmode) Hidx (Eks & Evs & Ebk & Emk) Emode Et Hok El.
  unfold HInv. rewrite Eks, Evs, Ebk, Emk, Emode, Et, El.
  split; [done|]. split; [by rewrite length_insert|].
  split; [by apply Forall_insert|]. split; [|done].
  rewrite total_insert by lia. unfold shard. lia.
Qed.

Lemma HInv_mode h m :
  HInv h -> (mode h <> 2 /\ m = 1) \/ m = 2 -> HInv (with_mode h m).
Proof.
  intros (Hm & Hlen & Hall & Hcount & Hmode) Hcase.
  unfold HInv, with_mode. cbn [ht_mask tables ht_keySize ht_valueSize ht_bucket mode ht_length].
  split; [done|]. split; [done|]. split; [|split; [done|]].
  - eapply Forall_impl; [exact Hall|]. intros t (?&?&?&?&HU).
    split; [done|]. split; [done|]. split; [done|]. split; [done|].
    intros Hne. apply HU. destruct Hcase as [[? ->]| ->]; done.
  - destruct Hcase as [[_ ->]| ->]; [right; by left|right; by right].
Qed.

Lemma HInv_capacity h c : HInv h -> HInv (with_capacity h c).
Proof. done. Qed.

(** *** [set] *)

(** What a caller of [set] sees. *)
Definition set_result (h : HashTable) (idx : Z) (kb vb : list Z)
    (res : Res HashTable Z) : Prop :=
  match res with
  | Throw h' e =>
      HInv h' /\ same_config h h' /\ mode h' = 1 /\ ht_length h' = ht_length h /\
      (e = ERROR_SET \/ exists t n, resize_refused t n e)
  | Ret h' r =>
      HInv h' /\ same_config h h' /\ mode h' = 1 /\ (r = 0 \/ r = 1) /\
      ht_length h' = ht_length h + (if r =? 0 then 1 else 0) /\
      holds (shard h' idx) kb vb
  end.

Lemma HInv_stored h idx t t' kb vb r :
  HInv h -> mode h = 1 -> 0 <= idx <= ht_mask h ->
  t = shard h idx ->
  (r = 0 /\ inserted t t' kb vb) \/ (r = 1 /\ updated t t' kb vb) ->
  set_result h idx kb vb
    (if r =? 1 then Ret (with_table h idx t') 1
     else if r =? 0
          then Ret (with_length (with_table h idx t')
                      (ht_length (with_table h idx t') + 1)) 0
          else Throw h ERROR_SET).
Proof.
  intros HI Hmode Hidx -> Hcase.
  destruct (HInv_shard h idx HI Hidx) as (Eks & Evs & Ebk & HIt & HUt).
  destruct Hcase as [[-> (Hp & HI' & HU' & Hocc & Hh)]|[-> (Hp & HI' & HU' & Hocc & _ & Hh & _)]];
    cbn [Z.eqb Pos.eqb]; cbv iota.
  - destruct (params_fields _ _ Hp) as (E1 & E2 & E3 & _).
    split; [|split; [done|split; [done|split; [by left|split; [done|]]]]].
    + apply (HInv_update h _ idx t'); try done.
      * split; [congruence|]. split; [congruence|]. split; [congruence|]. by split.
      * cbn [ht_length with_length with_table]. lia.
    + unfold shard. cbn [tables with_length with_table].
      rewrite list_lookup_total_insert_eq; [apply Hh; by right|].
      destruct HI as (?&?&_). lia.
  - destruct (params_fields _ _ Hp) as (E1 & E2 & E3 & _).
    split; [|split; [done|split; [done|split; [by right|split; [|]]]]].
    + apply (HInv_update h _ idx t'); try done.
      * split; [congruence|]. split; [congruence|]. split; [congruence|]. split; [done|].
        intros Hne. apply HU'. by apply HUt.
      * cbn [ht_length with_table]. lia.
    + cbn [ht_length with_table Z.eqb]. lia.
    + by rewrite shard_with_table.
Qed.


Lemma set_result_mono h h' idx kb vb res :
  same_config h h' -> ht_length h' = ht_length h ->
  set_result h' idx kb vb res -> set_result h idx kb vb res.
Proof.
  intros Hc Hl. destruct res as [h'' r|h'' e]; cbn [set_result].
  - intros (?&Hc'&?&?&?&?). split; [done|]. split; [by eapply same_config_trans|].
    split; [done|]. split; [done|]. split; [congruence|done].
  - intros (?&Hc'&?&?&?). split; [done|]. split; [by eapply same_config_trans|].
    split; [done|]. split; [congruence|done].
Qed.

Lemma HInv_same_table h idx :
  HInv h -> 0 <= idx <= ht_mask h -> with_table h idx (shard h idx) = h.
Proof.
  intros (Hm & Hlen & _) Hidx. unfold with_table, shard.
  rewrite list_insert_id; [by destruct h|].
  apply list_lookup_lookup_total_lt. lia.
Qed.

Lemma HInv_resized h idx t n :
  HInv h -> mode h = 1 -> 0 <= idx <= ht_mask h ->
  resized (shard h idx) t n ->
  HInv (with_table h idx t) /\ same_config h (with_table h idx t) /\
  mode (with_table h idx t) = 1 /\ ht_length (with_table h idx t) = ht_length h /\
  shard (with_table h idx t) idx = t.
Proof.
  intros HI Hmode Hidx ((E1 & E2 & E3) & _ & _ & HIt & HUt & Hocc & _).
  destruct (HInv_shard h idx HI Hidx) as (Eks & Evs & Ebk & _).
  split; [|split; [done|split; [done|split; [done|by apply shard_with_table]]]].
  apply (HInv_update h _ idx t); try done.
  - split; [congruence|]. split; [congruence|]. split; [congruence|]. by split.
  - cbn [ht_length with_table]. lia.
Qed.

Lemma set_retry_spec n : forall h idx h1 h2 key ko value vo rz,
  HInv h -> mode h = 1 -> 0 <= idx <= ht_mask h ->
  Forall byte key -> Forall byte value ->
  Hash key ko (ht_keySize h) = (h1, h2) ->
  set_result h idx (slice key ko (Z.to_nat (ht_keySize h)))
    (slice value vo (Z.to_nat (ht_valueSize h)))
    (set_retry n h idx h1 h2 key ko value vo rz).
Proof.
  induction n as [|n IH]; intros h idx h1 h2 key ko value vo rz HI Hmode Hidx Hkey Hval HH.
  { cbn [set_retry set_result]. split; [done|]. split; [done|]. split; [done|].
    split; [done|by left]. }
  cbn [set_retry]. cbv zeta.
  destruct (HInv_shard h idx HI Hidx) as (Eks & Evs & Ebk & HIt & HUt).
  specialize (HUt ltac:(lia)).
  set (t := shard h idx) in *.
  pose proof (resize_spec t (Z.shiftl (buckets t) rz) HIt HUt) as Hrs.
  destruct (resize t (Z.shiftl (buckets t) rz)) as [t1 r1|t1 e].
  2:{ destruct Hrs as [-> Href]. unfold t. rewrite HInv_same_table by done.
      cbn [set_result]. split; [done|]. split; [done|]. split; [done|]. split; [done|].
      right. by exists (shard h idx), (Z.shiftl (buckets (shard h idx)) rz). }
  destruct Hrs as [[-> ->]|[-> Hres]].
  - cbn [Z.eqb negb]. cbv iota. unfold t. rewrite HInv_same_table by done.
    by apply IH.
  - cbn [Z.eqb Pos.eqb negb]. cbv iota.
    destruct (HInv_resized h idx t1 _ HI Hmode Hidx Hres) as (HI1 & Hc1 & Hm1 & Hl1 & Hs1).
    pose proof Hres as ((E1 & E2 & E3) & _ & _ & HIt1 & HUt1 & _).
    set (hc := with_capacity (with_capacity (with_table h idx t1) _) _).
    assert (HIc : HInv hc) by done.
    assert (Hcc : same_config h hc) by done.
    assert (Hsc : shard hc idx = t1) by done.
    assert (Hidxc : 0 <= idx <= ht_mask hc) by done.
    assert (Hmc : mode hc = 1) by done.
    assert (HH1 : Hash key ko (keySize t1) = (h1, h2)) by (rewrite E1, Eks; done).
    pose proof (Table_set_spec t1 h1 h2 key ko value vo HIt1 HUt1 Hkey Hval HH1) as Hset.
    cbv zeta in Hset. rewrite E1, E2, Eks, Evs in Hset.
    destruct (Table_set t1 h1 h2 key ko value vo) as [t2 r2|]; [|done].
    destruct Hset as [(-> & -> & _)|[(-> & Hins & _)|(-> & Hupd)]].
    + cbn [Z.eqb]. cbv iota.
      replace (with_table hc idx t1) with hc
        by (symmetry; rewrite <- Hsc; by apply HInv_same_table).
      apply (set_result_mono h hc); [done|done|].
      exact (IH hc idx h1 h2 key ko value vo (rz + 1) HIc Hmc Hidxc Hkey Hval HH).
    + apply (set_result_mono h hc); [done|done|].
      pose proof (HInv_stored hc idx t1 t2 _ _ 0 HIc Hmc Hidxc
                    (eq_sym Hsc) (or_introl (conj eq_refl Hins))) as H.
      cbn [Z.eqb] in H. cbv iota in H. exact H.
    + apply (set_result_mono h hc); [done|done|].
      pose proof (HInv_stored hc idx t1 t2 _ _ 1 HIc Hmc Hidxc
                    (eq_sym Hsc) (or_intror (conj eq_refl Hupd))) as H.
      cbn [Z.eqb Pos.eqb] in H. cbv iota in H. exact H.
Qed.


Lemma slice_nil b o : slice b o 0 = [].
Proof. done. Qed.

(** The value buffer that the coordinator passes down: [VALUE] when
    values are empty. *)
Lemma value_choice vs (value : list Z) vo :
  Forall byte value ->
  let vv := if vs =? 0 then (VALUE, 0) else (value, vo) in
  Forall byte vv.1 /\ slice vv.1 vv.2 (Z.to_nat vs) = slice value vo (Z.to_nat vs).
Proof.
  intros Hv. cbv zeta. destruct (vs =? 0) eqn:E; [|done].
  apply Z.eqb_eq in E. subst vs. cbn [fst snd]. split; [|done].
  unfold VALUE, alloc. simpl. constructor.
Qed.

Lemma HashTable_set_spec h key ko value vo :
  HInv h -> mode h <> 2 -> Forall byte key -> Forall byte value ->
  set_result h
    (shard_index h (Hash key ko (ht_keySize h)).1 (Hash key ko (ht_keySize h)).2)
    (slice key ko (Z.to_nat (ht_keySize h)))
    (slice value vo (Z.to_nat (ht_valueSize h)))
    (HashTable_set h key ko value vo).
Proof.
  intros HI Hmode Hkey Hval. unfold HashTable_set.
  destruct (mode h =? 2) eqn:Em; [lia|]. cbv zeta.
  pose proof (HInv_mode h 1 HI (or_introl (conj Hmode eq_refl))) as HIm.
  set (hm := with_mode h 1) in *.
  change (ht_valueSize hm) with (ht_valueSize h).
  change (ht_keySize hm) with (ht_keySize h).
  pose proof (value_choice (ht_valueSize h) value vo Hval) as Hvv. cbv zeta in Hvv.
  destruct (if ht_valueSize h =? 0 then (VALUE, 0) else (value, vo)) as [value' vo'].
  cbn [fst snd] in Hvv. destruct Hvv as [Hval' <-].
  destruct (Hash key ko (ht_keySize h)) as [h1 h2] eqn:HH. cbn [fst snd].
  change (shard_index hm h1 h2) with (shard_index h h1 h2).
  set (idx := shard_index h h1 h2).
  assert (Hidx : 0 <= idx <= ht_mask h).
  { apply shard_index_range. by destruct HI. }
  assert (Hmm : mode hm = 1) by done.
  assert (Hcfg : same_config h hm) by done.
  apply (set_result_mono h hm); [done|done|].
  destruct (HInv_shard hm idx HIm Hidx) as (Eks & Evs & Ebk & HIt & HUt).
  specialize (HUt ltac:(lia)).
  assert (HH1 : Hash key ko (keySize (shard hm idx)) = (h1, h2)) by (by rewrite Eks).
  pose proof (Table_set_spec (shard hm idx) h1 h2 key ko value' vo' HIt HUt Hkey Hval' HH1)
    as Hset.
  cbv zeta in Hset. rewrite Eks, Evs in Hset.
  destruct (Table_set (shard hm idx) h1 h2 key ko value' vo') as [t2 r2|]; [|done].
  destruct Hset as [(-> & -> & _)|[(-> & Hins & _)|(-> & Hupd)]].
  - cbn [Z.eqb]. cbv iota. rewrite HInv_same_table by done.
    exact (set_retry_spec 2 hm idx h1 h2 key ko value' vo' 1 HIm Hmm Hidx Hkey Hval' HH).
  - pose proof (HInv_stored hm idx _ t2 _ _ 0 HIm Hmm Hidx eq_refl
                  (or_introl (conj eq_refl Hins))) as H.
    cbn [Z.eqb] in H. cbv iota in H. exact H.
  - pose proof (HInv_stored hm idx _ t2 _ _ 1 HIm Hmm Hidx eq_refl
                  (or_intror (conj eq_refl Hupd))) as H.
    cbn [Z.eqb Pos.eqb] in H. cbv iota in H. exact H.
Qed.

Lemma HashTable_set_locked h key ko value vo :
  mode h = 2 -> HashTable_set h key ko value vo = Throw h ERROR_MODE.
Proof. intros E. unfold HashTable_set. by rewrite E. Qed.

(** *** [get], [exist] and [unset] *)

Lemma HInv_quiet h idx t' d :
  HInv h -> 0 <= idx <= ht_mask h ->
  params t' = params (shard h idx) -> Inv t' ->
  (Uniq (shard h idx) -> Uniq t') ->
  occupied t' = occupied (shard h idx) + d ->
  HInv (with_length (with_table h idx t') (ht_length h + d)).
Proof.
  intros HI Hidx Hp HI' HU' Hocc.
  destruct (HInv_shard h idx HI Hidx) as (Eks & Evs & Ebk & HIt & HUt).
  destruct (params_fields _ _ Hp) as (E1 & E2 & E3 & _).
  apply (HInv_update h _ idx t'); try done.
  - split; [congruence|]. split; [congruence|]. split; [congruence|]. split; [done|].
    intros Hne. by apply HU', HUt.
  - cbn [ht_length with_length]. lia.
Qed.

Lemma with_length_same h : with_length h (ht_length h + 0) = h.
Proof. unfold with_length. rewrite Z.add_0_r. by destruct h. Qed.

Lemma HashTable_get_spec h key ko out oo :
  HInv h -> Forall byte key ->
  let idx := shard_index h (Hash key ko (ht_keySize h)).1 (Hash key ko (ht_keySize h)).2 in
  let kb := slice key ko (Z.to_nat (ht_keySize h)) in
  match HashTable_get h key ko out oo with
  | (h', out', r) =>
      HInv h' /\ same_config h h' /\ mode h' = mode h /\ ht_length h' = ht_length h /\
      ((r = 0 /\ out' = out /\ forall v, ~ holds (shard h idx) kb v) \/
       (r = 1 /\ exists v, holds (shard h idx) kb v /\
          out' = if ht_valueSize h =? 0 then out else write_bytes out oo v))
  end.
Proof.
  intros HI Hkey. cbv zeta. unfold HashTable_get.
  destruct (Hash key ko (ht_keySize h)) as [h1 h2] eqn:HH. cbn [fst snd].
  set (idx := shard_index h h1 h2).
  assert (Hidx : 0 <= idx <= ht_mask h).
  { apply shard_index_range. by destruct HI. }
  destruct (HInv_shard h idx HI Hidx) as (Eks & Evs & Ebk & HIt & HUt).
  assert (HH1 : Hash key ko (keySize (shard h idx)) = (h1, h2)) by (by rewrite Eks).
  assert (Hstep : forall t', got (shard h idx) t' -> HInv (with_table h idx t')).
  { intros t' (Hp & HI' & HU' & Hocc & _).
    rewrite <- (with_length_same (with_table h idx t')).
    apply (HInv_quiet h idx t' 0); try done. lia. }
  destruct (ht_valueSize h =? 0) eqn:Ev.
  - pose proof (Table_get_spec (shard h idx) h1 h2 key ko VALUE 0 HIt Hkey HH1) as Hg.
    cbv zeta in Hg. rewrite Eks in Hg.
    destruct (Table_get (shard h idx) h1 h2 key ko VALUE 0) as [[t' out'] r].
    destruct Hg as [Hgot Hcase].
    split; [by apply Hstep|]. split; [done|]. split; [done|]. split; [done|].
    destruct Hcase as [(-> & _ & Habs)|(-> & v & Hv & _)]; [left|right]; try done.
    split; [done|]. by exists v.
  - pose proof (Table_get_spec (shard h idx) h1 h2 key ko out oo HIt Hkey HH1) as Hg.
    cbv zeta in Hg. rewrite Eks in Hg.
    destruct (Table_get (shard h idx) h1 h2 key ko out oo) as [[t' out'] r].
    destruct Hg as [Hgot Hcase].
    split; [by apply Hstep|]. split; [done|]. split; [done|]. split; [done|].
    destruct Hcase as [(-> & -> & Habs)|(-> & v & Hv & ->)]; [left|right]; try done.
    split; [done|]. by exists v.
Qed.

Lemma HashTable_unset_spec h key ko :
  HInv h -> Forall byte key ->
  match HashTable_unset h key ko with
  | Throw _ _ => False
  | Ret h' r =>
      HInv h' /\ same_config h h' /\ mode h' = mode h /\ (r = 0 \/ r = 1) /\
      ht_length h' = ht_length h - r
  end.
Proof.
  intros HI Hkey. unfold HashTable_unset.
  destruct (Hash key ko (ht_keySize h)) as [h1 h2] eqn:HH.
  set (idx := shard_index h h1 h2).
  assert (Hidx : 0 <= idx <= ht_mask h).
  { apply shard_index_range. by destruct HI. }
  destruct (HInv_shard h idx HI Hidx) as (Eks & Evs & Ebk & HIt & HUt).
  assert (HH1 : Hash key ko (keySize (shard h idx)) = (h1, h2)) by (by rewrite Eks).
  pose proof (Table_unset_spec (shard h idx) h1 h2 key ko HIt Hkey HH1) as Hu.
  cbv zeta in Hu.
  destruct (Table_unset (shard h idx) h1 h2 key ko) as [t' r|]; [|done].
  destruct Hu as [(-> & -> & _)|(-> & Hp & HI' & HU' & Hocc)].
  - cbn [Z.eqb]. cbv iota. rewrite HInv_same_table by done.
    split; [done|]. split; [done|]. split; [done|]. split; [by left|lia].
  - cbn [Z.eqb Pos.eqb]. cbv iota. split.
    + change (ht_length (with_table h idx t') - 1) with (ht_length h + -1).
      apply (HInv_quiet h idx t' (-1)); try done; lia.
    + split; [done|]. split; [done|]. split; [by right|done].
Qed.

(** *** [cache] *)

Lemma HashTable_cache_locked h key ko value vo :
  mode h = 1 -> HashTable_cache h key ko value vo = Throw h ERROR_MODE.
Proof. intros E. unfold HashTable_cache. by rewrite E. Qed.

Lemma HashTable_cache_spec h key ko value vo :
  HInv h -> mode h <> 1 -> Forall byte key -> Forall byte value ->
  match HashTable_cache h key ko value vo with
  | Throw _ _ => False
  | Ret h' r =>
      HInv h' /\ same_config h h' /\ mode h' = 2 /\ (r = 0 \/ r = 1 \/ r = 2) /\
      ht_length h' = ht_length h + (if r =? 0 then 1 else 0)
  end.
Proof.
  intros HI Hmode Hkey Hval. unfold HashTable_cache.
  destruct (mode h =? 1) eqn:Em; [lia|]. cbv zeta.
  pose proof (HInv_mode h 2 HI (or_intror eq_refl)) as HIm.
  set (hm := with_mode h 2) in *.
  change (ht_valueSize hm) with (ht_valueSize h).
  change (ht_keySize hm) with (ht_keySize h).
  pose proof (value_choice (ht_valueSize h) value vo Hval) as Hvv. cbv zeta in Hvv.
  destruct (if ht_valueSize h =? 0 then (VALUE, 0) else (value, vo)) as [value' vo'].
  cbn [fst snd] in Hvv. destruct Hvv as [Hval' _].
  destruct (Hash key ko (ht_keySize h)) as [h1 h2] eqn:HH.
  change (shard_index hm h1 h2) with (shard_index h h1 h2).
  set (idx := shard_index h h1 h2).
  assert (Hidx : 0 <= idx <= ht_mask hm).
  { apply (shard_index_range h). by destruct HI. }
  destruct (HInv_shard hm idx HIm Hidx) as (Eks & Evs & Ebk & HIt & _).
  assert (HH1 : Hash key ko (keySize (shard hm idx)) = (h1, h2)) by (by rewrite Eks).
  pose proof (Table_cache_spec (shard hm idx) h1 h2 key ko value' vo' HIt Hkey Hval' HH1)
    as Hc.
  cbv zeta in Hc.
  destruct (Table_cache (shard hm idx) h1 h2 key ko value' vo') as [t' r].
  cbn [fst snd] in Hc. destruct Hc as (Hp & HI' & _ & Hcase).
  assert (HUm : Uniq (shard hm idx) -> mode hm <> 2 -> Uniq t') by done.
  destruct (params_fields _ _ Hp) as (E1 & E2 & E3 & _).
  assert (Hupd : forall d, occupied t' = occupied (shard hm idx) + d ->
            HInv (with_length (with_table hm idx t') (ht_length hm + d))).
  { intros d Hd. apply (HInv_update hm _ idx t'); try done.
    - split; [congruence|]. split; [congruence|]. split; [congruence|]. by split.
    - cbn [ht_length with_length]. lia. }
  destruct Hcase as [(-> & Hocc)|(Hr & Hocc)].
  - cbn [Z.eqb]. cbv iota. split; [exact (Hupd 1 Hocc)|].
    split; [done|]. split; [done|]. split; [by left|done].
  - assert (E0 : (r =? 0) = false) by (destruct Hr as [-> | ->]; done).
    rewrite E0. split.
    + rewrite <- (with_length_same (with_table hm idx t')).
      apply (Hupd 0). lia.
    + split; [done|]. split; [done|]. split; [tauto|]. cbn [ht_length with_table]. 
      change (ht_length hm) with (ht_length h). lia.
Qed.


(** ** The error branch of [vacate] *)

Lemma decrement_error t b t' e :
  filterDecrementSecondPosition t b = Throw t' e -> e = ERROR_COUNT.
Proof.
  unfold filterDecrementSecondPosition.
  destruct (bget t (b + 8) =? 0); [by intros [= _ <-]|].
  destruct (bget t (b + 8) <? 255); [|discriminate].
  cbv zeta. destruct (bget _ (b + 8) =? 0); discriminate.
Qed.

Lemma vacate_loop_branch t i :
  Inv t -> inb t i -> M t i 9 = 255 ->
  forall n slot, 0 <= slot -> slot + Z.of_nat n <= 8 ->
  forall t', vacate_loop n t (i * bucket t) slot <> Throw t' ERROR_VACATE.
Proof.
  intros HI Hi Hfull. pose proof HI as (Hsh & Hsl & Hc & Hh).
  induction n as [|n IH]; intros slot H0 H8 t'; [discriminate|].
  cbn [vacate_loop]. rewrite Hash_slot by done.
  pose proof (full_present t i slot Hfull ltac:(lia)) as HP0.
  destruct (hashk t (K t i slot)) as [H1 H2] eqn:EH.
  destruct (hashk_home _ _ _ _ EH) as (Ehome & Ealt & Etag).
  change (Z.land (Z.shiftr H1 16) 255) with (tag_of H1).
  rewrite <- Ehome, <- Ealt, <- Etag. rewrite !offset_eqb by done.
  destruct (Hsl i slot Hi ltac:(lia) HP0) as (_ & Hpos & _).
  destruct (i =? home t (K t i slot)) eqn:E1.
  - destruct (rd SLOT (bget t (alt t (K t i slot) * bucket t + 9)) <? 8);
      [discriminate|apply IH; lia].
  - apply Z.eqb_neq in E1.
    assert (E3 : i = alt t (K t i slot)) by (destruct Hpos; [done|done]).
    rewrite <- E3, Z.eqb_refl.
    destruct (rd SLOT (bget t (home t (K t i slot) * bucket t + 9)) <? 8);
      [|apply IH; lia].
    destruct (filterDecrementSecondPosition _ _) as [t2 []|t2 e] eqn:ED; [discriminate|].
    apply decrement_error in ED. subst e. intros [= _ H].
Qed.

Lemma vacate_branch t i t' :
  Inv t -> inb t i -> M t i 9 = 255 ->
  vacate t (i * bucket t) <> Throw t' ERROR_VACATE.
Proof. intros HI Hi Hfull. apply (vacate_loop_branch t i HI Hi Hfull 8 0); lia. Qed.

Lemma full_rehash t i s :
  Inv t -> inb t i -> M t i 9 = 255 -> 0 <= s < 8 ->
  i = home t (K t i s) \/ i = alt t (K t i s).
Proof.
  intros (_ & Hsl & _) Hi Hfull Hs.
  by destruct (Hsl i s Hi Hs (full_present t i s Hfull Hs)) as (_ & ? & _).
Qed.

(** ** A new element stored in its second-position bucket *)

Lemma set_second t h1 h2 key ko value vo :
  Inv t -> Forall byte key -> Forall byte value ->
  Hash key ko (keySize t) = (h1, h2) ->
  let kb := slice key ko (Z.to_nat (keySize t)) in
  let vb := slice value vo (Z.to_nat (valueSize t)) in
  let i1 := home t kb in
  let i2 := alt t kb in
  let s2 := rd SLOT (M t i2 9) in
  (forall v, ~ holds t kb v) -> M t i1 9 = 255 -> s2 < 8 ->
  i2 <> i1 /\ 0 <= s2 < 8 /\ P t i2 s2 = false /\
  Table_set t h1 h2 key ko value vo = Ret (place t i2 s2 i1 (tagk t kb) kb vb) 0.
Proof.
  intros HI Hkey Hval HH kb vb i1 i2 s2 Habs Hfull Hfree.
  pose proof HI as (Hsh & _).
  rewrite Hash_slice in HH by done. fold kb in HH.
  destruct (hashk_home _ _ _ _ HH) as (Ehome & Ealt & Etag).
  destruct (SLOT_empty t i2 Hsh Hfree) as [Hr2 HP2]. fold s2 in Hr2, HP2.
  change (rd SLOT (bget t (i2 * bucket t + 9))) with s2 in HP2.
  assert (Hne : i2 <> i1).
  { intros Heq. rewrite Heq in HP2. by rewrite (full_present t i1 s2 Hfull Hr2) in HP2. }
  split; [done|]. split; [done|]. split; [done|].
  assert (Hins : set_insert t (tagk t kb) (i1 * bucket t) (i2 * bucket t)
                   (filter_of (tagk t kb)) (bit_of (tagk t kb)) key ko value vo =
                 Ret (place t i2 s2 i1 (tagk t kb) kb vb) 0).
  { unfold set_insert. cbv zeta.
    change (bget t (i1 * bucket t + 9)) with (M t i1 9). rewrite Hfull.
    change (rd SLOT 255 <? 8) with false. cbv iota.
    change (rd SLOT (bget t (i2 * bucket t + 9))) with s2.
    destruct (s2 <? 8) eqn:E; [|lia].
    by rewrite (place_second t i1 i2 s2 (tagk t kb) kb vb key ko value vo). }
  unfold Table_set. cbv zeta.
  change (Z.land (Z.shiftr h1 16) 255) with (tag_of h1).
  rewrite <- Ehome, <- Ealt, <- Etag. rewrite filter_test by done.
  change (Z.land (Z.shiftr (tagk t kb) 4) 7) with (filter_of (tagk t kb)).
  change (Z.shiftl 1 (Z.land (tagk t kb) 7)) with (bit_of (tagk t kb)).
  destruct (fbit t (home t kb) (tagk t kb)); cbn [negb]; [|exact Hins].
  destruct (scan t (home t kb * bucket t) (tagk t kb) key ko <? 8) eqn:E1.
  { exfalso. apply Z.ltb_lt in E1. destruct (scan_hit t _ _ key ko Hsh E1) as [Hr (_ & HP & HK)].
    apply (Habs (V t (home t kb) (scan t (home t kb * bucket t) (tagk t kb) key ko))).
    eexists _, _. split; [by apply home_inb|]. split; [exact Hr|]. by split. }
  destruct (scan t (alt t kb * bucket t) (tagk t kb) key ko <? 8) eqn:E2.
  { exfalso. apply Z.ltb_lt in E2. destruct (scan_hit t _ _ key ko Hsh E2) as [Hr (_ & HP & HK)].
    apply (Habs (V t (alt t kb) (scan t (alt t kb * bucket t) (tagk t kb) key ko))).
    eexists _, _. split; [by apply alt_inb|]. split; [exact Hr|]. by split. }
  exact Hins.
Qed.

(** ** An element removed from its second-position bucket *)

Lemma decrement_cases t i :
  Shape t -> inb t i -> C t i <> 0 ->
  filterDecrementSecondPosition t (i * bucket t) =
  Ret (if C t i <? 255
       then if C t i =? 1
            then filterReset_all 8 (put t i 8 [0]) (i * bucket t) 0
            else put t i 8 [C t i - 1]
       else t) tt.
Proof.
  intros Hsh Hi Hne. unfold filterDecrementSecondPosition.
  change (bget t (i * bucket t + 8)) with (C t i).
  destruct (C t i =? 0) eqn:E0; [lia|].
  destruct (C t i <? 255) eqn:E255; [|done]. cbv zeta. rewrite bset_put.
  destruct (Frame_meta t i 8 (C t i - 1) Hsh Hi ltac:(lia)) as [_ Hv].
  set (t1 := put t i 8 [C t i - 1]) in *.
  change (bget t1 (i * bucket t + 8)) with (M t1 i 8). rewrite Hv.
  pose proof (M_byte t i 8 Hsh) as Hb. unfold byte in Hb. fold (C t i) in Hb.
  rewrite Z.mod_small by lia.
  destruct (C t i =? 1) eqn:E1.
  - apply Z.eqb_eq in E1. destruct (C t i - 1 =? 0) eqn:E; [|lia].
    unfold t1. by rewrite E1.
  - destruct (C t i - 1 =? 0) eqn:E; [lia|done].
Qed.

Lemma unset_second_exact t h1 h2 key ko :
  Inv t -> Forall byte key -> Hash key ko (keySize t) = (h1, h2) ->
  let kb := slice key ko (Z.to_nat (keySize t)) in
  let i1 := home t kb in
  let i2 := alt t kb in
  let s2 := scan t (i2 * bucket t) (tagk t kb) key ko in
  ~ scan t (i1 * bucket t) (tagk t kb) key ko < 8 -> s2 < 8 ->
  let tr := remove t i2 s2 in
  i2 <> i1 /\ 0 <= s2 < 8 /\ C tr i1 = C t i1 /\ C t i1 <> 0 /\
  Table_unset t h1 h2 key ko =
  Ret (if C t i1 <? 255
       then if C t i1 =? 1
            then filterReset_all 8 (put tr i1 8 [0]) (i1 * bucket t) 0
            else put tr i1 8 [C t i1 - 1]
       else tr) 1.
Proof.
  intros HI Hkey HH kb i1 i2 s2 Hno1 Hhit2 tr. pose proof HI as (Hsh & _ & Hc & _).
  rewrite Hash_slice in HH by done. fold kb in HH.
  destruct (hashk_home _ _ _ _ HH) as (Ehome & Ealt & Etag).
  destruct (scan_hit t i2 _ key ko Hsh Hhit2) as [Hr Hh]. fold kb s2 in Hr, Hh.
  pose proof Hh as (Htag & HP & HK).
  assert (Hi1 : inb t i1) by (by apply home_inb).
  assert (Hi2 : inb t i2) by (by apply alt_inb).
  assert (Hne : i2 <> i1).
  { intros Heq. unfold s2 in Hh, Hr. rewrite Heq in Hh, Hr. revert Hh.
    apply scan_none; [done|done|done]. }
  destruct (stored_found t i2 s2 HI Hi2 Hr HP) as (Hbit & _). rewrite HK in Hbit.
  destruct (remove_spec t i2 s2 HI Hi2 Hr) as [(Hp & HIr & _ & _ & _ & _ & HC & _) Hfr].
  fold tr in Hp, HIr, HC, Hfr.
  assert (Haway : away t i1 i2 s2 = true).
  { unfold away. rewrite HP, HK. fold i1. rewrite Z.eqb_refl. simpl.
    rewrite andb_true_r. apply negb_true_iff, Z.eqb_neq. done. }
  pose proof (second_count_away t i1 i2 s2 Hi2 Hr Haway) as Hsc.
  assert (HC0 : C t i1 <> 0) by (destruct (Hc i1 Hi1); lia).
  split; [done|]. split; [done|]. split; [by apply HC|]. split; [done|].
  unfold Table_unset. cbv zeta.
  change (Z.land (Z.shiftr h1 16) 255) with (tag_of h1).
  rewrite <- Ehome, <- Ealt, <- Etag. rewrite filter_test by done.
  rewrite Hbit. cbn [negb]. fold i1 i2.
  destruct (scan t (i1 * bucket t) (tagk t kb) key ko <? 8) eqn:E1; [lia|].
  fold s2. destruct (s2 <? 8) eqn:E2; [|lia].
  rewrite remove_code. fold tr.
  change (bucket t) with (bucket tr).
  rewrite decrement_cases; [|by destruct HIr|by apply (inb_params _ _ _ Hp)|by rewrite HC].
  by rewrite HC.
Qed.


(** ** Containers reached through the public operations *)

(** The configurations that the constructor accepts, as far as the
    verification needs them. *)
Definition valid_config (ks vs nb nk : Z) : Prop :=
  0 <= ks /\ ks mod 4 = 0 /\ 0 <= vs /\ 1 <= nb /\ 1 <= nk.

Lemma HashTable_bucket_fits ks vs :
  0 <= ks -> 0 <= vs -> 20 + 8 * (ks + vs) <= HashTable_bucket ks vs.
Proof. intros. unfold HashTable_bucket. Z.div_mod_to_equations. lia. Qed.

Lemma total_replicate n t : occupied t = 0 -> total (replicate n t) = 0.
Proof. intros E. induction n as [|n IH]; [done|]. simpl. lia. Qed.

Lemma HInv_new ks vs nb nk :
  valid_config ks vs nb nk -> HInv (new_HashTable ks vs nb nk).
Proof.
  intros (Hks & Hk4 & Hvs & Hnb & Hnk).
  pose proof (HashTable_bucket_fits ks vs Hks Hvs) as Hbk.
  destruct (new_table_spec ks vs (HashTable_bucket ks vs) nk Hks Hk4 Hvs Hbk Hnk)
    as (HI & HU & Hocc & _).
  unfold HInv, new_HashTable. cbv zeta.
  cbn [ht_mask tables ht_keySize ht_valueSize ht_bucket mode ht_length].
  split; [lia|]. split; [rewrite length_replicate; lia|].
  split; [|split; [|by left]].
  - apply Forall_replicate. unfold shard_ok, new_Table.
    cbn [keySize valueSize bucket]. by repeat (split; [done|]).
  - symmetry. by apply total_replicate.
Qed.

(** A call of a public method, with its arguments. *)
Inductive Op : Type :=
  | OpSet (key : list Z) (keyOff : Z) (value : list Z) (valueOff : Z)
  | OpCache (key : list Z) (keyOff : Z) (value : list Z) (valueOff : Z)
  | OpGet (key : list Z) (keyOff : Z) (value : list Z) (valueOff : Z)
  | OpExist (key : list Z) (keyOff : Z)
  | OpUnset (key : list Z) (keyOff : Z).

(** The container after a call; a call that throws leaves it as it was
    when the exception was raised. *)
Definition apply_op (h : HashTable) (op : Op) : HashTable :=
  match op with
  | OpSet k ko v vo => state_of (HashTable_set h k ko v vo)
  | OpCache k ko v vo => state_of (HashTable_cache h k ko v vo)
  | OpGet k ko v vo => (HashTable_get h k ko v vo).1.1
  | OpExist k ko => h
  | OpUnset k ko => state_of (HashTable_unset h k ko)
  end.

Definition run (h : HashTable) (ops : list Op) : HashTable := fold_left apply_op ops h.

(** A buffer of bytes that covers [n] bytes from offset [o]. *)
Definition buf_ok (b : list Z) (o n : Z) : Prop :=
  Forall byte b /\ 0 <= o /\ o + n <= Z.of_nat (length b).

Definition op_ok (ks vs : Z) (op : Op) : Prop :=
  match op with
  | OpSet k ko v vo | OpCache k ko v vo | OpGet k ko v vo =>
      buf_ok k ko ks /\ buf_ok v vo vs
  | OpExist k ko | OpUnset k ko => buf_ok k ko ks
  end.

Lemma apply_op_HInv h op :
  HInv h -> op_ok (ht_keySize h) (ht_valueSize h) op ->
  HInv (apply_op h op) /\ same_config h (apply_op h op).
Proof.
  intros HI Hok. destruct op as [k ko v vo|k ko v vo|k ko v vo|k ko|k ko]; cbn [apply_op].
  - destruct Hok as [(Hk & _) (Hv & _)].
    destruct (decide (mode h = 2)) as [E|E].
    + by rewrite HashTable_set_locked.
    + pose proof (HashTable_set_spec h k ko v vo HI E Hk Hv) as H.
      destruct (HashTable_set h k ko v vo); cbn [set_result state_of] in *;
        by destruct H as (? & ? & _).
  - destruct Hok as [(Hk & _) (Hv & _)].
    destruct (decide (mode h = 1)) as [E|E].
    + by rewrite HashTable_cache_locked.
    + pose proof (HashTable_cache_spec h k ko v vo HI E Hk Hv) as H.
      destruct (HashTable_cache h k ko v vo); [|done]. cbn [state_of].
      by destruct H as (? & ? & _).
  - destruct Hok as [(Hk & _) _].
    pose proof (HashTable_get_spec h k ko v vo HI Hk) as H. cbv zeta in H.
    destruct (HashTable_get h k ko v vo) as [[h' out'] r]. cbn [fst].
    by destruct H as (? & ? & _).
  - done.
  - destruct Hok as (Hk & _).
    pose proof (HashTable_unset_spec h k ko HI Hk) as H.
    destruct (HashTable_unset h k ko); [|done]. cbn [state_of].
    by destruct H as (? & ? & _).
Qed.

Lemma run_HInv ops : forall h,
  HInv h -> Forall (op_ok (ht_keySize h) (ht_valueSize h)) ops ->
  HInv (run h ops) /\ same_config h (run h ops).
Proof.
  induction ops as [|op ops IH]; intros h HI Hok; [done|].
  apply Forall_cons in Hok. destruct Hok as [Hop Hops]. cbn [run fold_left].
  destruct (apply_op_HInv h op HI Hop) as [HI' Hc'].
  pose proof Hc' as (E1 & E2 & _).
  destruct (IH (apply_op h op) HI') as [HI'' Hc'']; [by rewrite E1, E2|].
  split; [done|]. by eapply same_config_trans.
Qed.

Lemma reachable_HInv ks vs nb nk ops :
  valid_config ks vs nb nk -> Forall (op_ok ks vs) ops ->
  HInv (run (new_HashTable ks vs nb nk) ops) /\
  ht_keySize (run (new_HashTable ks vs nb nk) ops) = ks /\
  ht_valueSize (run (new_HashTable ks vs nb nk) ops) = vs.
Proof.
  intros Hcfg Hops.
  destruct (run_HInv ops (new_HashTable ks vs nb nk) (HInv_new _ _ _ _ Hcfg) Hops)
    as [HI (E1 & E2 & _)].
  done.
Qed.

Lemma reachable_shard h t : HInv h -> t ∈ tables h -> Inv t /\ (mode h <> 2 -> Uniq t).
Proof.
  intros (_ & _ & Hall & _) Hin.
  by destruct (proj1 (Forall_forall _ _) Hall t Hin) as (_ & _ & _ & ? & ?).
Qed.

(** ** Checking the invariant of a given shard *)

Fixpoint all_upto (n : nat) (f : Z -> bool) : bool :=
  match n with
  | O => true
  | S n' => all_upto n' f && f (Z.of_nat n')
  end.

Definition all_slots (t : Table) (f : Z -> Z -> bool) : bool :=
  all_upto (Z.to_nat (buckets t)) (fun i => all_upto 8 (f i)).

Fixpoint bytes_eqb (a b : list Z) : bool :=
  match a, b with
  | [], [] => true
  | x :: a', y :: b' => (x =? y) && bytes_eqb a' b'
  | _, _ => false
  end.

Definition Shape_b (t : Table) : bool :=
  (0 <=? keySize t) && (keySize t mod 4 =? 0) && (0 <=? valueSize t) &&
  (20 + 8 * (keySize t + valueSize t) <=? bucket t) &&
  (1 <=? buckets t) && (mask t =? buckets t - 1) &&
  (Z.of_nat (length (buffer t)) =? bucket t * buckets t) &&
  forallb (fun z => (0 <=? z) && (z <? 256)) (buffer t).

Definition slot_ok_b (t : Table) (i s : Z) : bool :=
  negb (P t i s) ||
  ((TG t i s =? tagk t (K t i s)) &&
   ((i =? home t (K t i s)) || (i =? alt t (K t i s))) &&
   fbit t (home t (K t i s)) (TG t i s)).

Definition Inv_b (t : Table) : bool :=
  Shape_b t && all_slots t (slot_ok_b t) &&
  all_upto (Z.to_nat (buckets t))
    (fun b => (C t b =? 255) || (second_count t b <=? C t b)) &&
  all_upto (Z.to_nat (buckets t)) (fun i => (0 <=? HD t i) && (HD t i <? 8)).

Definition Uniq_b (t : Table) : bool :=
  all_slots t (fun i s => all_slots t (fun i' s' =>
    negb (P t i s && P t i' s' && bytes_eqb (K t i s) (K t i' s')) ||
    ((i =? i') && (s =? s')))).

Lemma all_upto_spec n f :
  all_upto n f = true -> forall j, 0 <= j < Z.of_nat n -> f j = true.
Proof.
  induction n as [|n IH]; intros H j Hj; [lia|].
  cbn [all_upto] in H. apply andb_true_iff in H. destruct H as [H1 H2].
  destruct (decide (j = Z.of_nat n)) as [->|Hne]; [done|].
  apply IH; [done|lia].
Qed.

Lemma all_slots_spec t f :
  all_slots t f = true -> forall i s, inb t i -> 0 <= s < 8 -> f i s = true.
Proof.
  intros H i s Hi Hs. unfold all_slots in H.
  pose proof (all_upto_spec _ _ H i ltac:(unfold inb in Hi; lia)) as H'.
  cbv beta in H'. apply (all_upto_spec 8 _ H' s). lia.
Qed.

Lemma bytes_eqb_refl a : bytes_eqb a a = true.
Proof. induction a as [|x a IH]; [done|]. simpl. by rewrite Z.eqb_refl. Qed.

Lemma Shape_b_sound t : Shape_b t = true -> Shape t.
Proof.
  unfold Shape_b, Shape. rewrite !andb_true_iff.
  intros (((((((H1 & H2) & H3) & H4) & H5) & H6) & H7) & H8).
  split; [lia|]. split; [lia|]. split; [lia|]. split; [lia|]. split; [lia|].
  split; [lia|]. split; [lia|].
  apply Forall_forall. intros z Hz.
  rewrite forallb_forall in H8. apply list_elem_of_In in Hz. apply H8 in Hz.
  unfold byte. lia.
Qed.

Lemma Inv_b_sound t : Inv_b t = true -> Inv t.
Proof.
  unfold Inv_b. rewrite !andb_true_iff. intros (((H1 & H2) & H3) & H4).
  split; [by apply Shape_b_sound|]. split; [|split].
  - intros i s Hi Hs HP. pose proof (all_slots_spec _ _ H2 i s Hi Hs) as H.
    unfold slot_ok_b in H. rewrite HP in H. cbn [negb orb] in H.
    rewrite !andb_true_iff, orb_true_iff, !Z.eqb_eq in H.
    by destruct H as [[? ?] ?].
  - intros b Hb. pose proof (all_upto_spec _ _ H3 b ltac:(unfold inb in Hb; lia)) as H.
    cbv beta in H. apply orb_true_iff in H. destruct H as [H|H]; [left|right]; lia.
  - intros i Hi. pose proof (all_upto_spec _ _ H4 i ltac:(unfold inb in Hi; lia)) as H.
    cbv beta in H. lia.
Qed.

Lemma Uniq_b_sound t : Uniq_b t = true -> Uniq t.
Proof.
  intros H i s i' s' Hi Hs Hi' Hs' HP HP' HK.
  pose proof (all_slots_spec _ _ H i s Hi Hs) as H1. cbv beta in H1.
  pose proof (all_slots_spec _ _ H1 i' s' Hi' Hs') as H2. cbv beta in H2.
  rewrite HP, HP', HK, bytes_eqb_refl in H2. cbn [andb negb orb] in H2.
  apply andb_true_iff in H2. lia.
Qed.


(** ** Error messages *)

Lemma refused_message t n e :
  resize_refused t n e -> e <> ERROR_VACATE /\ e <> ERROR_SET /\ e <> ERROR_MODE.
Proof.
  intros [H|[H| ->]].
  - unfold Assert_GE in H. destruct (n <? buckets t * 2); [|discriminate].
    injection H as <-. by vm_compute.
  - unfold Assert_P2 in H. destruct (n <=? 0); [injection H as <-; by vm_compute|].
    destruct (negb _); [|discriminate]. injection H as <-. by vm_compute.
  - by vm_compute.
Qed.

(** ** The mode of the container *)

Lemma mode_set_retry n : forall h idx h1 h2 key ko value vo rz,
  mode (state_of (set_retry n h idx h1 h2 key ko value vo rz)) = mode h.
Proof.
  induction n as [|n IH]; intros h idx h1 h2 key ko value vo rz; [done|].
  cbn [set_retry]. cbv zeta.
  destruct (resize _ _) as [t r|t e]; [|done].
  destruct (negb (r =? 0)); [|by rewrite IH].
  destruct (Table_set t h1 h2 key ko value vo) as [t2 r2|t2 e]; [|done].
  destruct (r2 =? 1); [done|]. destruct (r2 =? 0); [done|]. by rewrite IH.
Qed.

Lemma mode_set h key ko value vo :
  mode h <> 2 -> mode (state_of (HashTable_set h key ko value vo)) = 1.
Proof.
  intros Hm. unfold HashTable_set. destruct (mode h =? 2) eqn:E; [lia|]. cbv zeta.
  destruct (if ht_valueSize (with_mode h 1) =? 0 then (VALUE, 0) else (value, vo))
    as [value' vo'].
  destruct (Hash key ko (ht_keySize (with_mode h 1))) as [h1 h2].
  destruct (Table_set _ h1 h2 key ko value' vo') as [t2 r2|t2 e]; [|done].
  destruct (r2 =? 1); [done|]. destruct (r2 =? 0); [done|]. by rewrite mode_set_retry.
Qed.

Lemma mode_cache h key ko value vo :
  mode h <> 1 -> mode (state_of (HashTable_cache h key ko value vo)) = 2.
Proof.
  intros Hm. unfold HashTable_cache. destruct (mode h =? 1) eqn:E; [lia|]. cbv zeta.
  destruct (if ht_valueSize (with_mode h 2) =? 0 then (VALUE, 0) else (value, vo))
    as [value' vo'].
  destruct (Hash key ko (ht_keySize (with_mode h 2))) as [h1 h2].
  destruct (Table_cache _ h1 h2 key ko value' vo') as [t r].
  by destruct (r =? 0).
Qed.

Lemma mode_get h key ko value vo : mode (HashTable_get h key ko value vo).1.1 = mode h.
Proof.
  unfold HashTable_get. destruct (Hash key ko (ht_keySize h)) as [h1 h2].
  destruct (ht_valueSize h =? 0).
  - by destruct (Table_get _ h1 h2 key ko VALUE 0) as [[t out] r].
  - by destruct (Table_get _ h1 h2 key ko value vo) as [[t out] r].
Qed.

Lemma mode_unset h key ko : mode (state_of (HashTable_unset h key ko)) = mode h.
Proof.
  unfold HashTable_unset. destruct (Hash key ko (ht_keySize h)) as [h1 h2].
  destruct (Table_unset _ h1 h2 key ko) as [t r|t e]; [|done]. by destruct (r =? 1).
Qed.

(** ** The retry of [set], as the specification words it

    One attempt: [resize] the shard to [n] buckets and, when that
    succeeded, run [set] again; [k] is what follows an attempt that did
    not store the element. *)
Definition attempt (h : HashTable) (idx h1 h2 : Z) (key : list Z) (keyOff : Z)
    (value : list Z) (valueOff : Z) (n : Z) (k : HashTable -> Res HashTable Z)
    : Res HashTable Z :=
  let table := shard h idx in
  match resize table n with
  | Throw t e => Throw (with_table h idx t) e
  | Ret t r =>
      let h := with_table h idx t in
      if negb (r =? 0) then
        let h := with_capacity h (capacity h - buckets table * 8) in
        let h := with_capacity h (capacity h + buckets t * 8) in
        match Table_set t h1 h2 key keyOff value valueOff with
        | Throw t e => Throw (with_table h idx t) e
        | Ret t result =>
            let h := with_table h idx t in
            if result =? 1 then Ret h 1
            else if result =? 0 then Ret (with_length h (ht_length h + 1)) 0
            else k h
        end
      else k h
  end.

(** The retry with both requests computed from the bucket count [B] at the
    time of the failed [set]: [B << 1], then [B << 2]. *)
Definition set_retry_claimed (h : HashTable) (idx h1 h2 : Z) (key : list Z) (keyOff : Z)
    (value : list Z) (valueOff : Z) (B : Z) : Res HashTable Z :=
  attempt h idx h1 h2 key keyOff value valueOff (Z.shiftl B 1) (fun h =>
    attempt h idx h1 h2 key keyOff value valueOff (Z.shiftl B 2) (fun h =>
      Throw h ERROR_SET)).

Definition HashTable_set_claimed (h : HashTable) (key : list Z) (keyOff : Z)
    (value : list Z) (valueOff : Z) : Res HashTable Z :=
  if mode h =? 2 then Throw h ERROR_MODE
  else
    let h := with_mode h 1 in
    let '(value, valueOff) :=
      if ht_valueSize h =? 0 then (VALUE, 0) else (value, valueOff) in
    let '(h1, h2) := Hash key keyOff (ht_keySize h) in
    let idx := shard_index h h1 h2 in
    match Table_set (shard h idx) h1 h2 key keyOff value valueOff with
    | Throw t e => Throw (with_table h idx t) e
    | Ret t result =>
        let h := with_table h idx t in
        if result =? 1 then Ret h 1
        else if result =? 0 then Ret (with_length h (ht_length h + 1)) 0
        else set_retry_claimed h idx h1 h2 key keyOff value valueOff
               (buckets (shard h idx))
    end.

(** The retry that the code runs: the second request is computed from the
    bucket count that the first attempt left. *)
Lemma set_retry_attempts h idx h1 h2 key ko value vo :
  set_retry 2 h idx h1 h2 key ko value vo 1 =
  attempt h idx h1 h2 key ko value vo (Z.shiftl (buckets (shard h idx)) 1) (fun h' =>
    attempt h' idx h1 h2 key ko value vo (Z.shiftl (buckets (shard h' idx)) 2) (fun h'' =>
      Throw h'' ERROR_SET)).
Proof. reflexivity. Qed.

Lemma attempt_requests h idx h1 h2 key ko value vo n k k' :
  HInv h -> mode h = 1 -> 0 <= idx <= ht_mask h ->
  Forall byte key -> Forall byte value ->
  Hash key ko (ht_keySize h) = (h1, h2) ->
  (forall h', buckets (shard h' idx) = buckets (shard h idx) \/
              buckets (shard h' idx) = n -> k h' = k' h') ->
  attempt h idx h1 h2 key ko value vo n k = attempt h idx h1 h2 key ko value vo n k'.
Proof.
  intros HI Hmode Hidx Hkey Hval HH Hk. unfold attempt. cbv zeta.
  destruct (HInv_shard h idx HI Hidx) as (Eks & Evs & Ebk & HIt & HUt).
  specialize (HUt ltac:(lia)).
  pose proof (resize_spec (shard h idx) n HIt HUt) as Hrs.
  destruct (resize (shard h idx) n) as [t1 r1|t1 e]; [|done].
  destruct Hrs as [[-> ->]|[-> Hres]].
  - cbn [Z.eqb negb]. cbv iota. apply Hk. left.
    by rewrite shard_with_table.
  - cbn [Z.eqb Pos.eqb negb]. cbv iota.
    pose proof Hres as ((E1 & E2 & E3) & En & _ & HIt1 & HUt1 & _).
    assert (HH1 : Hash key ko (keySize t1) = (h1, h2)) by (rewrite E1, Eks; done).
    pose proof (Table_set_spec t1 h1 h2 key ko value vo HIt1 HUt1 Hkey Hval HH1) as Hset.
    cbv zeta in Hset.
    destruct (Table_set t1 h1 h2 key ko value vo) as [t2 r2|]; [|done].
    destruct Hset as [(-> & -> & _)|[(-> & _)|(-> & _)]]; [|done|done].
    cbn [Z.eqb]. cbv iota. apply Hk. right.
    destruct (HInv_resized h idx t1 _ HI Hmode Hidx Hres) as (HI1 & _).
    rewrite shard_with_table; [done|exact HI1|done].
Qed.


Lemma filterReset_all_frame i : forall n t f,
  Shape t -> inb t i -> 0 <= f -> f + Z.of_nat n <= 8 ->
  Frame t (filterReset_all n t (i * bucket t) f) (filters_of i) nowhere.
Proof.
  induction n as [|n IH]; intros t f Hsh Hi Hf Hn; cbn [filterReset_all].
  { eapply Frame_weaken; [by apply Frame_refl|done|done]. }
  destruct (filterReset_spec t i f Hsh Hi ltac:(lia)) as [F1 _]. cbv zeta in F1.
  set (t1 := filterReset t (i * bucket t) f) in *.
  pose proof (IH t1 (f + 1) (Frame_Shape _ _ _ _ F1) (Frame_inb _ _ _ _ i F1 Hi)
                ltac:(lia) ltac:(lia)) as F2.
  destruct (params_fields _ _ (Frame_params _ _ _ _ F1)) as (_ & _ & Eb & _).
  rewrite Eb in F2.
  eapply Frame_weaken; [exact (Frame_trans _ _ _ _ _ _ _ F1 F2)| |]; cells.
Qed.

(** * The claims *)

(** C1: in a container reached through the public operations, when
    [set(key, value)] returns, a [get] of the same key that follows it
    returns 1 and the [valueSize] bytes of the output buffer from the
    given offset are those of the value. *)
Theorem C1_set_then_get ks vs nb nk ops key ko value vo out oo h1 r :
  valid_config ks vs nb nk -> Forall (op_ok ks vs) ops ->
  buf_ok key ko ks -> buf_ok value vo vs -> buf_ok out oo vs ->
  HashTable_set (run (new_HashTable ks vs nb nk) ops) key ko value vo = Ret h1 r ->
  exists h2 out',
    HashTable_get h1 key ko out oo = (h2, out', 1) /\
    slice out' oo (Z.to_nat vs) = slice value vo (Z.to_nat vs).
Proof.
  intros Hcfg Hops (Hkb & _) (Hvb & _) (Hob & Ho0 & Hol) Hset.
  destruct (reachable_HInv ks vs nb nk ops Hcfg Hops) as (HI & Eks & Evs).
  set (h := run (new_HashTable ks vs nb nk) ops) in *.
  assert (Hmode : mode h <> 2).
  { intros E. rewrite HashTable_set_locked in Hset by done. discriminate. }
  pose proof (HashTable_set_spec h key ko value vo HI Hmode Hkb Hvb) as Hs.
  rewrite Hset in Hs. cbn [set_result] in Hs.
  destruct Hs as (HI1 & (E1 & E2 & E3 & E4) & Hm1 & _ & _ & Hh).
  pose proof (HashTable_get_spec h1 key ko out oo HI1 Hkb) as Hg. cbv zeta in Hg.
  unfold shard_index in Hg, Hh. rewrite E1, E2, E4 in Hg.
  set (idx := Z.land _ (ht_mask h)) in *.
  assert (Hidx : 0 <= idx <= ht_mask h1).
  { rewrite E4. apply land_mask_range. by destruct HI. }
  destruct (HInv_shard h1 idx HI1 Hidx) as (_ & _ & _ & _ & HU).
  specialize (HU ltac:(lia)).
  destruct (HashTable_get h1 key ko out oo) as [[h2 out'] rg].
  destruct Hg as (_ & _ & _ & _ & [(-> & _ & Habs)|(-> & v & Hv & ->)]).
  { exfalso. by eapply Habs, Hh. }
  exists h2, (if ht_valueSize h =? 0 then out else write_bytes out oo v).
  split; [done|].
  rewrite (holds_unique _ _ _ _ HU Hv Hh). rewrite Evs.
  destruct (vs =? 0) eqn:E0.
  - apply Z.eqb_eq in E0. by rewrite E0.
  - set (vb := slice value vo (Z.to_nat vs)).
    assert (Hlen : length vb = Z.to_nat vs) by apply length_slice.
    destruct Hcfg as (_ & _ & Hvs0 & _).
    rewrite <- Hlen. apply slice_write_bytes_in; [done|lia|by apply bytes_slice].
Qed.

(** C2: after every sequence of public operations on a valid container
    the [length] of the coordinator is the number of occupied slots
    (presence bits set) of all its shards. *)
Theorem C2_length_counts_occupied ks vs nb nk ops :
  valid_config ks vs nb nk -> Forall (op_ok ks vs) ops ->
  ht_length (run (new_HashTable ks vs nb nk) ops) =
  total (tables (run (new_HashTable ks vs nb nk) ops)).
Proof.
  intros Hcfg Hops.
  by destruct (reachable_HInv ks vs nb nk ops Hcfg Hops) as ((_ & _ & _ & ? & _) & _).
Qed.

(** C3, as the code has it: when [set] stores a new element (a key that
    [exist] does not find) in the first empty slot of its second-position
    bucket b2 (b1 being full), it writes
    the element there, sets its filter bit in the filter of b1, returns 0,
    and increments the second-position counter (byte 8) of b1, the
    first-position bucket, up to 255; the counter of b2 is not written.
    The buffers of the key and of the value cover the bytes that are read. *)
Theorem C3_second_position_counter t h1 h2 key ko value vo :
  Inv t -> buf_ok key ko (keySize t) -> buf_ok value vo (valueSize t) ->
  Hash key ko (keySize t) = (h1, h2) ->
  let kb := slice key ko (Z.to_nat (keySize t)) in
  let vb := slice value vo (Z.to_nat (valueSize t)) in
  let tag := Z.land (Z.shiftr h1 16) 255 in
  let i1 := Z.land h1 (mask t) in
  let i2 := Z.land h2 (mask t) in
  let s2 := rd SLOT (M t i2 9) in
  Table_exist t h1 h2 key ko = 0 -> M t i1 9 = 255 -> s2 < 8 ->
  exists t',
    Table_set t h1 h2 key ko value vo = Ret t' 0 /\
    P t i2 s2 = false /\ P t' i2 s2 = true /\
    TG t' i2 s2 = tag /\ K t' i2 s2 = kb /\ V t' i2 s2 = vb /\
    Z.testbit (F t' i1 (Z.land (Z.shiftr tag 4) 7)) (Z.land tag 7) = true /\
    C t' i1 = (if C t i1 <? 255 then C t i1 + 1 else 255) /\
    C t' i2 = C t i2.
Proof.
  intros HI [Hkey _] [Hval _] HH kb vb tag i1 i2 s2 Hnew Hfull Hfree.
  pose proof HI as (Hsh & _).
  assert (Habs : forall v, ~ holds t kb v).
  { destruct (Table_exist_spec t h1 h2 key ko HI Hkey HH) as [[E _]|[_ H]]; [lia|done]. }
  pose proof HH as HH'. rewrite Hash_slice in HH' by done. fold kb in HH'.
  destruct (hashk_home _ _ _ _ HH') as (Ehome & Ealt & Etag).
  change (Z.land (Z.shiftr h1 16) 255) with (tag_of h1) in tag.
  assert (E1 : i1 = home t kb) by done. assert (E2 : i2 = alt t kb) by done.
  assert (E3 : tag = tagk t kb) by done.
  clearbody i1 i2 tag. subst i1 i2 tag.
  destruct (set_second t h1 h2 key ko value vo HI Hkey Hval HH Habs Hfull Hfree)
    as (Hne & Hr2 & HP2 & Hset).
  change (alt t kb <> home t kb) in Hne. change (0 <= s2 < 8) in Hr2.
  change (P t (alt t kb) s2 = false) in HP2.
  change (Table_set t h1 h2 key ko value vo =
          Ret (place t (alt t kb) s2 (home t kb) (tagk t kb) kb vb) 0) in Hset.
  destruct (place_frame t (alt t kb) s2 (home t kb) (tagk t kb) kb vb Hsh)
    as (Hfr & HM9 & HTG & HK & HV & HF & HC);
    [by apply alt_inb|by apply home_inb|done|apply byte_tag_of|apply length_slice|
     by apply bytes_slice|apply length_slice|by apply bytes_slice|].
  set (t' := place t (alt t kb) s2 (home t kb) (tagk t kb) kb vb) in *.
  exists t'. split; [done|]. split; [done|]. split.
  { unfold P. rewrite HM9, testbit_set, Z.eqb_refl by lia. apply orb_true_r. }
  split; [done|]. split; [done|]. split; [done|]. split.
  { apply (fbit_set t' (home t kb) (tagk t kb) _ HF). }
  split.
  - rewrite HC. destruct (alt t kb =? home t kb) eqn:E; [lia|].
    destruct (C t (home t kb) <? 255) eqn:E5; [done|].
    pose proof (M_byte t (home t kb) 8 Hsh) as Hb. unfold byte in Hb.
    fold (C t (home t kb)) in Hb. lia.
  - apply (Frame_C _ _ _ _ _ Hfr); [by apply alt_inb|].
    unfold place_cells. cells.
Qed.

(** C4, as the code has it: an [unset] that removes an element found in
    its second-position bucket b2 returns 1 and decrements the counter of
    b1 unless it is saturated at 255.  While the counter stays above 0
    the eight filter bytes of b1 are unchanged; when it reaches 0, all
    eight filters of b1 are reset. *)
Theorem C4_second_position_unset t h1 h2 key ko :
  Inv t -> Forall byte key -> Hash key ko (keySize t) = (h1, h2) ->
  let tag := Z.land (Z.shiftr h1 16) 255 in
  let i1 := Z.land h1 (mask t) in
  let i2 := Z.land h2 (mask t) in
  let s2 := scan t (i2 * bucket t) tag key ko in
  ~ scan t (i1 * bucket t) tag key ko < 8 -> s2 < 8 ->
  exists t',
    Table_unset t h1 h2 key ko = Ret t' 1 /\
    P t' i2 s2 = false /\
    C t' i1 = (if C t i1 <? 255 then C t i1 - 1 else 255) /\
    (C t' i1 <> 0 -> forall f, 0 <= f < 8 -> F t' i1 f = F t i1 f) /\
    (C t' i1 = 0 ->
       t' = filterReset_all 8 (put (remove t i2 s2) i1 8 [0]) (i1 * bucket t) 0).
Proof.
  intros HI Hkey HH tag i1 i2 s2 Hno Hhit. pose proof HI as (Hsh & _).
  pose proof HH as HH'. rewrite Hash_slice in HH' by done.
  set (kb := slice key ko (Z.to_nat (keySize t))) in *.
  destruct (hashk_home _ _ _ _ HH') as (Ehome & Ealt & Etag).
  change (Z.land (Z.shiftr h1 16) 255) with (tag_of h1) in tag.
  assert (E1 : i1 = home t kb) by done. assert (E2 : i2 = alt t kb) by done.
  assert (E3 : tag = tagk t kb) by done.
  subst s2. clearbody i1 i2 tag. subst i1 i2 tag.
  destruct (unset_second_exact t h1 h2 key ko HI Hkey HH Hno Hhit)
    as (Hne & Hr2 & HCr & HC0 & Hun).
  set (i1 := home t kb) in *. set (i2 := alt t kb) in *.
  set (s2 := scan t (i2 * bucket t) (tagk t kb) key ko) in *.
  change (i2 <> i1) in Hne. change (0 <= s2 < 8) in Hr2.
  change (C (remove t i2 s2) i1 = C t i1) in HCr. change (C t i1 <> 0) in HC0.
  change (Table_unset t h1 h2 key ko =
          Ret (if C t i1 <? 255
               then if C t i1 =? 1
                    then filterReset_all 8 (put (remove t i2 s2) i1 8 [0]) (i1 * bucket t) 0
                    else put (remove t i2 s2) i1 8 [C t i1 - 1]
               else remove t i2 s2) 1) in Hun.
  assert (Hi1 : inb t i1) by (by apply home_inb).
  assert (Hi2 : inb t i2) by (by apply alt_inb).
  destruct (remove_spec t i2 s2 HI Hi2 Hr2) as [(Hp & HIr & _ & _ & _ & HPr & _) Hfr].
  set (tr := remove t i2 s2) in *.
  pose proof HIr as (Shr & _).
  pose proof (Frame_inb _ _ _ _ i1 Hfr Hi1) as Hi1r.
  pose proof (Frame_inb _ _ _ _ i2 Hfr Hi2) as Hi2r.
  pose proof (M_byte t i1 8 Hsh) as Hb. unfold byte in Hb. fold (C t i1) in Hb.
  assert (HFr : forall f, 0 <= f < 8 -> F tr i1 f = F t i1 f).
  { intros f Hf. apply (Frame_F _ _ _ _ _ _ Hfr); [done|done|cells]. }
  eexists. split; [exact Hun|].
  destruct (C t i1 <? 255) eqn:E255.
  2:{ split; [done|]. split; [lia|]. split; [intros _; exact HFr|]. lia. }
  destruct (C t i1 =? 1) eqn:E1.
  - apply Z.eqb_eq in E1.
    destruct (Frame_meta tr i1 8 0 Shr Hi1r ltac:(lia)) as [Fa Va].
    set (ta := put tr i1 8 [0]) in *.
    rewrite Z.mod_small in Va by lia.
    pose proof (filterReset_all_frame i1 8 ta 0 (Frame_Shape _ _ _ _ Fa)
                  (Frame_inb _ _ _ _ i1 Fa Hi1r) ltac:(lia) ltac:(lia)) as Fb.
    change (bucket ta) with (bucket t) in Fb.
    set (tb := filterReset_all 8 ta (i1 * bucket t) 0) in *.
    assert (HCb : C tb i1 = 0).
    { rewrite (Frame_C _ _ _ _ _ Fb); [done|by apply (Frame_inb _ _ _ _ i1 Fa)|cells]. }
    split; [|split; [rewrite HCb; lia|split; [by rewrite HCb|done]]].
    rewrite (Frame_P _ _ _ _ _ _ Fb); [|by apply (Frame_inb _ _ _ _ i2 Fa)|cells].
    rewrite (Frame_P _ _ _ _ _ _ Fa); [done|done|cells].
  - apply Z.eqb_neq in E1.
    destruct (Frame_meta tr i1 8 (C t i1 - 1) Shr Hi1r ltac:(lia)) as [Fa Va].
    set (ta := put tr i1 8 [C t i1 - 1]) in *.
    rewrite Z.mod_small in Va by lia.
    split; [|split; [exact Va|split; [|unfold C; lia]]].
    + rewrite (Frame_P _ _ _ _ _ _ Fa); [done|done|cells].
    + intros _ f Hf. rewrite (Frame_F _ _ _ _ _ _ Fa); [by apply HFr|done|done|cells].
Qed.


(** C6, as the code has it: when the shard-level [set] of a coordinator
    [set] returns -1, with [B] the bucket count of the shard at that time,
    the coordinator asks the shard for [resize(B << 1)] and runs [set]
    again when that succeeded.  The second request is computed from the
    bucket count the shard has by then: [B << 2] when the first [resize]
    failed, [B << 3] when it succeeded and [set] returned -1 again.  An
    exception of [resize] propagates; when neither attempt stored the
    element the set-exhausted error is thrown. *)
Theorem C6_retry_requests ks vs nb nk ops key ko value vo t :
  valid_config ks vs nb nk -> Forall (op_ok ks vs) ops ->
  buf_ok key ko ks -> buf_ok value vo vs ->
  let h := run (new_HashTable ks vs nb nk) ops in
  let hm := with_mode h 1 in
  let vv := if vs =? 0 then (VALUE, 0) else (value, vo) in
  let hh := Hash key ko ks in
  let idx := shard_index h hh.1 hh.2 in
  let B := buckets (shard h idx) in
  mode h <> 2 ->
  Table_set (shard h idx) hh.1 hh.2 key ko vv.1 vv.2 = Ret t (-1) ->
  HashTable_set h key ko value vo =
  attempt hm idx hh.1 hh.2 key ko vv.1 vv.2 (Z.shiftl B 1) (fun h' =>
    attempt h' idx hh.1 hh.2 key ko vv.1 vv.2
      (if buckets (shard h' idx) =? B then Z.shiftl B 2 else Z.shiftl B 3)
      (fun h'' => Throw h'' ERROR_SET)).
Proof.
  intros Hcfg Hops (Hkb & _) (Hvb & _) h hm vv hh idx B Hmode Hfail.
  destruct (reachable_HInv ks vs nb nk ops Hcfg Hops) as (HI & Eks & Evs).
  fold h in HI, Eks, Evs.
  pose proof (HInv_mode h 1 HI (or_introl (conj Hmode eq_refl))) as HIm. fold hm in HIm.
  pose proof (value_choice vs value vo Hvb) as Hvv. cbv zeta in Hvv. fold vv in Hvv.
  destruct Hvv as [Hvb' _].
  assert (Hidx : 0 <= idx <= ht_mask h).
  { apply shard_index_range. by destruct HI. }
  destruct (HInv_shard hm idx HIm Hidx) as (Ek & Ev & Ebk & HIt & HUt).
  specialize (HUt ltac:(done)).
  assert (HH : Hash key ko (ht_keySize hm) = (hh.1, hh.2)).
  { change (ht_keySize hm) with (ht_keySize h). rewrite Eks. unfold hh.
    by destruct (Hash key ko ks). }
  assert (HH1 : Hash key ko (keySize (shard hm idx)) = (hh.1, hh.2)) by (by rewrite Ek).
  pose proof (Table_set_spec (shard hm idx) hh.1 hh.2 key ko vv.1 vv.2 HIt HUt Hkb Hvb' HH1)
    as Hset.
  cbv zeta in Hset. change (shard hm idx) with (shard h idx) in Hset.
  rewrite Hfail in Hset.
  destruct Hset as [(_ & -> & _)|[(? & _)|(? & _)]]; [|lia|lia].
  assert (HB : 1 <= B) by (by destruct HIt as ((_&_&_&_&?&_) & _)).
  transitivity (set_retry 2 hm idx hh.1 hh.2 key ko vv.1 vv.2 1).
  { unfold HashTable_set. destruct (mode h =? 2) eqn:Em; [lia|]. cbv zeta.
    fold hm. change (ht_valueSize hm) with (ht_valueSize h).
    change (ht_keySize hm) with (ht_keySize h). rewrite Eks, Evs. fold vv.
    destruct vv as [value' vo']. fold hh. destruct hh as [x1 x2]. cbn [fst snd] in *.
    change (shard_index hm x1 x2) with idx.
    change (shard hm idx) with (shard h idx). rewrite Hfail.
    cbn [Z.eqb]. cbv iota. change (shard h idx) with (shard hm idx).
    by rewrite HInv_same_table. }
  rewrite set_retry_attempts.
  apply attempt_requests; try done.
  intros h' Hh'. f_equal. change (buckets (shard hm idx)) with B in *.
  destruct Hh' as [-> | ->].
  - by rewrite Z.eqb_refl.
  - assert (E : (Z.shiftl B 1 =? B) = false).
    { apply Z.eqb_neq. rewrite Z.shiftl_mul_pow2 by lia. lia. }
    rewrite E. by rewrite Z.shiftl_shiftl by lia.
Qed.

(** C7: after every sequence of public operations, for every occupied
    slot of every shard, the filter of the first-position bucket of the
    slot's key that the stored tag selects (index [(tag >> 4) & 7], the
    high nibble reduced to the eight filters) has the bit [tag & 7] set;
    so the filter test of a lookup passes for every stored key. *)
Theorem C7_filter_bit_of_occupied_slot ks vs nb nk ops t i s :
  valid_config ks vs nb nk -> Forall (op_ok ks vs) ops ->
  t ∈ tables (run (new_HashTable ks vs nb nk) ops) ->
  inb t i -> 0 <= s < 8 -> P t i s = true ->
  let b1 := home t (K t i s) in
  let tag := TG t i s in
  Z.testbit (F t b1 (Z.land (Z.shiftr tag 4) 7)) (Z.land tag 7) = true /\
  tag = tagk t (K t i s) /\
  negb (Z.land (bget t (b1 * bucket t + Z.land (Z.shiftr tag 4) 7))
          (Z.shiftl 1 (Z.land tag 7)) =? 0) = true.
Proof.
  intros Hcfg Hops Hin Hi Hs HP b1 tag.
  destruct (reachable_HInv ks vs nb nk ops Hcfg Hops) as (HI & _).
  destruct (reachable_shard _ t HI Hin) as [HIt _].
  pose proof HIt as (Hsh & Hsl & _).
  destruct (Hsl i s Hi Hs HP) as (Htag & _ & Hbit).
  split; [exact Hbit|]. split; [exact Htag|].
  rewrite filter_test by done. exact Hbit.
Qed.

(** C8: [resize] is atomic on failure.  On a shard that satisfies the
    invariant, with keys stored once, and for a request that passes the
    checks of [resize]: if an internal [set] of the rebuild returns -1,
    [resize] returns 0 and the shard (buffer, bucket count, mask) is as it
    was before the call; if none does, the rebuild completes and [resize]
    returns 1, the shard has the requested bucket count and holds exactly
    the elements held before, every occupied slot of the old buffer
    reinserted by a [set] that returned 0.  One of the two happens.  And
    [resize] throws only when a check fails, before it changes anything. *)
Theorem C8_resize_atomic t n :
  Inv t -> Uniq t ->
  (forall t' e, resize t n = Throw t' e -> t' = t /\ ~ resize_accepts t n) /\
  (resize_accepts t n ->
   (rebuild_fails t n ->
    exists t', resize t n = Ret t' 0 /\ t' = t /\
      buffer t' = buffer t /\ buckets t' = buckets t /\ mask t' = mask t) /\
   (~ rebuild_fails t n ->
    exists t', resize t n = Ret t' 1 /\
      buckets t' = n /\ mask t' = n - 1 /\ Inv t' /\ occupied t' = occupied t /\
      (forall k v, holds t' k v <-> holds t k v) /\
      forall i s, inb t i -> 0 <= s < 8 -> P t i s = true ->
        exists tm, rebuild_set t n i s = Some (Ret tm 0)) /\
   (rebuild_fails t n \/ ~ rebuild_fails t n)).
Proof.
  intros HI HU. pose proof (resize_spec t n HI HU) as Hspec.
  pose proof HI as (Hsh & _).
  pose proof Hsh as (Hks & Hk4 & Hvs & Hbk & Hnb & Hm & Hlen & Hby).
  split.
  { intros t' e Ht. rewrite Ht in Hspec. destruct Hspec as [-> _]. split; [done|].
    intros (EGE & EP2 & Hmax & Hbuf). revert Ht. unfold resize. rewrite EGE, EP2.
    assert (E : (n >? BUCKETS_MAX) || (bucket t * n >? BUFFER_MAX) = false).
    { apply orb_false_iff. split; rewrite Z.gtb_ltb; apply Z.ltb_ge; done. }
    rewrite E. cbv zeta.
    assert (Hn : 1 <= n).
    { unfold Assert_GE in EGE. destruct (n <? buckets t * 2) eqn:E2; [done|lia]. }
    pose proof (rebuild_buckets t n HI HU Hn (Z.to_nat (buckets t)) ltac:(lia)) as H.
    change (mkTable (keySize t) (valueSize t) (bucket t) n (n - 1) (alloc (bucket t * n)))
      with (resize_fresh t n).
    by destruct (resize_loop (Z.to_nat (buckets t)) (resize_fresh t n) (buffer t) 0)
      as [tf [|]|]. }
  intros (EGE & EP2 & Hmax & Hbuf).
  assert (Hn : 1 <= n).
  { unfold Assert_GE in EGE. destruct (n <? buckets t * 2) eqn:E2; [done|lia]. }
  pose proof (rebuild_buckets t n HI HU Hn (Z.to_nat (buckets t)) ltac:(lia)) as H.
  revert Hspec. unfold resize. rewrite EGE, EP2.
  assert (E : (n >? BUCKETS_MAX) || (bucket t * n >? BUFFER_MAX) = false).
  { apply orb_false_iff. split; rewrite Z.gtb_ltb; apply Z.ltb_ge; done. }
  rewrite E. cbv zeta.
  change (mkTable (keySize t) (valueSize t) (bucket t) n (n - 1) (alloc (bucket t * n)))
    with (resize_fresh t n).
  destruct (resize_loop (Z.to_nat (buckets t)) (resize_fresh t n) (buffer t) 0)
    as [tf [|]|]; [| |done].
  - (* the rebuild completes *)
    intros [[? _]|[_ (_ & Hb & Hmk & HI' & _ & Hocc & Hh)]]; [done|].
    assert (Hall : forall i s, inb t i -> 0 <= s < 8 -> P t i s = true ->
              exists tm, rebuild_set t n i s = Some (Ret tm 0)).
    { intros i s Hi Hs HP. apply H; [unfold inb in Hi; lia|done|done]. }
    assert (Hno : ~ rebuild_fails t n).
    { intros (i & s & tm & Hi & Hs & HP & Hset).
      destruct (Hall i s Hi Hs HP) as [tm' Hset']. congruence. }
    split; [done|]. split; [|by right].
    intros _. exists tf. by repeat (split; [done|]).
  - (* an internal set returns -1 *)
    intros [[_ Et]|[? _]]; [|done].
    assert (Hf : rebuild_fails t n).
    { destruct H as (i & s & tm & Hi & Hs & HP & Hset). exists i, s, tm.
      split; [unfold inb; lia|done]. }
    split; [|split; [done|by left]].
    intros _. eexists. split; [done|]. by rewrite Et.
Qed.

(** C9: a [set] on a container that is not a cache leaves the mode at 1
    and a [cache] on one that is not a table leaves it at 2; [cache] on
    a mode-1 container and [set] on a mode-2 container throw the
    mode-conflict error and leave the container as it was; [get] and
    [unset] keep the mode ([exist] returns a number and writes nothing). *)
Theorem C9_mode_locking h key ko value vo :
  (mode h <> 2 -> mode (state_of (HashTable_set h key ko value vo)) = 1) /\
  (mode h <> 1 -> mode (state_of (HashTable_cache h key ko value vo)) = 2) /\
  (mode h = 1 -> HashTable_cache h key ko value vo = Throw h ERROR_MODE) /\
  (mode h = 2 -> HashTable_set h key ko value vo = Throw h ERROR_MODE) /\
  mode (HashTable_get h key ko value vo).1.1 = mode h /\
  mode (state_of (HashTable_unset h key ko)) = mode h.
Proof.
  split; [apply mode_set|]. split; [apply mode_cache|].
  split; [apply HashTable_cache_locked|]. split; [apply HashTable_set_locked|].
  split; [apply mode_get|apply mode_unset].
Qed.

(** C10: in every shard of a container reached through the public
    operations, every slot of a full bucket holds a key whose first- or
    second-position bucket is that bucket, so [vacate] on it does not
    reach its error branch; and no [set] of the coordinator throws that
    error. *)
Theorem C10_vacate_error_unreachable ks vs nb nk ops t i :
  valid_config ks vs nb nk -> Forall (op_ok ks vs) ops ->
  t ∈ tables (run (new_HashTable ks vs nb nk) ops) ->
  inb t i -> M t i 9 = 255 ->
  (forall s, 0 <= s < 8 -> i = home t (K t i s) \/ i = alt t (K t i s)) /\
  (forall t', vacate t (i * bucket t) <> Throw t' ERROR_VACATE) /\
  (forall key ko value vo h' e,
     buf_ok key ko ks -> buf_ok value vo vs ->
     HashTable_set (run (new_HashTable ks vs nb nk) ops) key ko value vo = Throw h' e ->
     e <> ERROR_VACATE).
Proof.
  intros Hcfg Hops Hin Hi Hfull.
  destruct (reachable_HInv ks vs nb nk ops Hcfg Hops) as (HI & _).
  destruct (reachable_shard _ t HI Hin) as [HIt _].
  split; [intros s Hs; by apply full_rehash|].
  split; [intros t'; by apply vacate_branch|].
  intros key ko value vo h' e (Hkb & _) (Hvb & _) Hset.
  destruct (decide (mode (run (new_HashTable ks vs nb nk) ops) = 2)) as [E|E].
  - rewrite HashTable_set_locked in Hset by done. injection Hset as _ <-. by vm_compute.
  - pose proof (HashTable_set_spec _ key ko value vo HI E Hkb Hvb) as H.
    rewrite Hset in H. cbn [set_result] in H.
    destruct H as (_ & _ & _ & _ & [-> |(t0 & n0 & Href)]); [by vm_compute|].
    by destruct (refused_message _ _ _ Href).
Qed.

(* ================================================================= *)
(** * The stored elements through the operations *)

(** ** [unset]: the element that leaves the shard *)

Lemma remove_content t i s :
  Inv t -> inb t i -> 0 <= s < 8 ->
  forall k v, holds (remove t i s) k v <-> heldX t (only i s) k v.
Proof.
  intros HI Hi Hs k v.
  destruct (remove_spec t i s HI Hi Hs) as [(Hp & _ & _ & _ & _ & HP' & _ & HPs) Hfr].
  set (t' := remove t i s) in *. split.
  - intros (i' & s' & Hi' & Hs' & HP & HK & HV).
    apply (inb_params _ _ _ Hp) in Hi'.
    assert (Hne : ~ (i' = i /\ s' = s)) by (intros [-> ->]; congruence).
    exists i', s'. split; [done|]. split; [done|].
    split; [by apply only_false|]. split; [by rewrite <- HPs|].
    rewrite <- (Frame_K _ _ _ _ _ _ Hfr), <- (Frame_V _ _ _ _ _ _ Hfr); done.
  - intros (i' & s' & Hi' & Hs' & HX & HP & HK & HV).
    assert (Hne : ~ (i' = i /\ s' = s)).
    { intros [-> ->]. unfold only in HX. rewrite !Z.eqb_refl in HX. done. }
    exists i', s'. split; [by apply (inb_params _ _ _ Hp)|]. split; [done|].
    split; [by rewrite HPs|].
    rewrite (Frame_K _ _ _ _ _ _ Hfr), (Frame_V _ _ _ _ _ _ Hfr); done.
Qed.

(** With keys stored once, the slots but the one of [kb] hold the
    elements of the other keys. *)
Lemma heldX_only t i s kb k v :
  Uniq t -> inb t i -> 0 <= s < 8 -> P t i s = true -> K t i s = kb ->
  heldX t (only i s) k v <-> holds t k v /\ k <> kb.
Proof.
  intros HU Hi Hs HP HK. split.
  - intros (i' & s' & Hi' & Hs' & HX & HP' & HK' & HV'). split.
    + exists i', s'. by repeat (split; [done|]).
    + intros ->. destruct (HU i s i' s') as [-> ->]; try done; [congruence|].
      unfold only in HX. rewrite !Z.eqb_refl in HX. done.
  - intros [(i' & s' & Hi' & Hs' & HP' & HK' & HV') Hne].
    exists i', s'. split; [done|]. split; [done|]. split; [|done].
    apply only_false. intros [-> ->]. congruence.
Qed.

(** What [unset] did when it returns 1: it emptied a slot that held the
    key, in the first- or the second-position bucket of the key; the
    counters are those of before when it was the first. *)
Definition removed (t t' : Table) (kb : list Z) : Prop :=
  exists i s, inb t i /\ 0 <= s < 8 /\ P t i s = true /\ K t i s = kb /\
    (forall k v, holds t' k v <-> heldX t (only i s) k v) /\
    (i = home t kb \/ (i = alt t kb /\ alt t kb <> home t kb)) /\
    (i = home t kb -> forall b, inb t b -> C t' b = C t b).

Lemma Table_unset_effect t h1 h2 key ko :
  Inv t -> Forall byte key -> Hash key ko (keySize t) = (h1, h2) ->
  let kb := slice key ko (Z.to_nat (keySize t)) in
  match Table_unset t h1 h2 key ko with
  | Throw _ _ => False
  | Ret t' r =>
      (r = 0 /\ t' = t /\ forall v, ~ holds t kb v) \/
      (r = 1 /\ unset_done t t' /\ removed t t' kb)
  end.
Proof.
  intros HI Hkey HH kb. pose proof HI as (Hsh & _).
  rewrite Hash_slice in HH by done. fold kb in HH.
  destruct (hashk_home _ _ _ _ HH) as (Ehome & Ealt & Etag).
  unfold Table_unset. cbv zeta.
  change (Z.land (Z.shiftr h1 16) 255) with (tag_of h1).
  rewrite <- Ehome, <- Ealt, <- Etag. rewrite filter_test by done.
  destruct (fbit t (home t kb) (tagk t kb)) eqn:Efb; cbn [negb].
  2:{ left. split; [done|]. split; [done|]. apply search_absent; [done|by left]. }
  destruct (scan t (home t kb * bucket t) (tagk t kb) key ko <? 8) eqn:E1.
  { apply Z.ltb_lt in E1. destruct (scan_hit t _ _ key ko Hsh E1) as [Hr (_ & HP & HK)].
    fold kb in HK. set (s := scan t _ _ key ko) in *. set (i := home t kb) in *.
    assert (Hi : inb t i) by (by apply home_inb).
    rewrite remove_code.
    change (Z.land (Z.shiftr (tagk t kb) 4) 7) with (filter_of (tagk t kb)).
    right. split; [done|].
    split; [apply unset_first; try done; apply filter_of_range|].
    destruct (remove_spec t i s HI Hi Hr) as [(_ & HI1 & _) Hfr].
    pose proof (remove_content t i s HI Hi Hr) as Hcont.
    set (t1 := remove t i s) in *.
    change (bucket t) with (bucket t1).
    apply Inv_InvX in HI1.
    destruct (InvX_filterReset t1 none i (filter_of (tagk t kb)) HI1
                (Frame_inb _ _ _ _ i Hfr Hi) (filter_of_range _)) as [_ Hfr2].
    assert (Hm : meta_only (at_ i (filter_of (tagk t kb)))).
    { apply meta_only_at. pose proof (filter_of_range (tagk t kb)). lia. }
    destruct (meta_step _ _ _ Hfr2 Hm) as (_ & _ & Hh2).
    exists i, s. split; [done|]. split; [done|]. split; [done|]. split; [done|].
    split; [|split; [by left|]].
    - intros k v. by rewrite Hh2.
    - intros _ b Hb.
      rewrite (Frame_C _ _ _ _ b Hfr2).
      + apply (Frame_C _ _ _ _ b Hfr Hb). cells.
      + by apply (Frame_inb _ _ _ _ b Hfr).
      + pose proof (filter_of_range (tagk t kb)). cells. }
  destruct (scan t (alt t kb * bucket t) (tagk t kb) key ko <? 8) eqn:E2.
  { apply Z.ltb_lt in E2. destruct (scan_hit t _ _ key ko Hsh E2) as [Hr Hh].
    pose proof Hh as (_ & HP & HK). fold kb in HK.
    apply Z.ltb_ge in E1.
    assert (Hne : alt t kb <> home t kb).
    { intros Heq. rewrite Heq in Hh, Hr. revert Hh. apply scan_none; [done|lia|done]. }
    set (s := scan t (alt t kb * bucket t) _ key ko) in *. set (i := alt t kb) in *.
    assert (Hi : inb t i) by (by apply alt_inb).
    rewrite remove_code.
    destruct (unset_second t (home t kb) i s HI Hi Hr HP)
      as (t' & Hret & Hdone); [by rewrite HK|done|].
    rewrite Hret. right. split; [done|]. split; [done|].
    destruct (remove_spec t i s HI Hi Hr)
      as [(_ & HI1 & _ & _ & Hsc & _ & HC & _) Hfr].
    pose proof (remove_content t i s HI Hi Hr) as Hcont.
    set (t1 := remove t i s) in *.
    change (bucket t) with (bucket t1) in Hret.
    apply Inv_InvX in HI1. pose proof HI as (_ & _ & Hc & _).
    assert (Hi1 : inb t (home t kb)) by (by apply home_inb).
    assert (Haway : away t (home t kb) i s = true).
    { unfold away. rewrite HP, HK, Z.eqb_refl. simpl.
      rewrite andb_true_r. apply negb_true_iff, Z.eqb_neq. done. }
    assert (Hroom : C t1 (home t kb) = 255 \/ scX t1 none (home t kb) + 1 <= C t1 (home t kb)).
    { rewrite HC by done. rewrite scX_none, Hsc, Haway. simpl.
      destruct (Hc _ Hi1) as [?|?]; [by left|right; lia]. }
    destruct (InvX_decrement t1 none (home t kb) HI1 (Frame_inb _ _ _ _ _ Hfr Hi1) Hroom)
      as (t2 & Hret2 & _ & Hfr2 & _).
    rewrite Hret in Hret2. injection Hret2 as <-.
    assert (Hm : meta_only (count_filters_of (home t kb))) by (intros a c [_ ?]; lia).
    destruct (meta_step _ _ _ Hfr2 Hm) as (_ & _ & Hh2).
    exists i, s. split; [done|]. split; [done|]. split; [done|]. split; [done|].
    split; [|split; [by right|]].
    - intros k v. by rewrite Hh2.
    - intros E. done. }
  apply Z.ltb_ge in E1, E2. left. split; [done|]. split; [done|].
  apply search_absent; [done|right]. split; apply scan_none; (done || lia).
Qed.

(** ** [get]: the bytes of the shard that it writes *)

(** [get] writes one byte of the shard at most: the recently-used bits
    (byte 18) of the bucket where it found the key. *)
Lemma Table_get_frame t h1 h2 key ko out oo :
  Shape t ->
  exists i, inb t i /\ Frame t (Table_get t h1 h2 key ko out oo).1.1 (at_ i 18) nowhere.
Proof.
  intros Hsh. pose proof Hsh as (_ & _ & _ & _ & Hn & Hm & _).
  assert (H1 : inb t (Z.land h1 (mask t))).
  { pose proof (land_mask_range h1 (mask t)). unfold inb. lia. }
  assert (H2 : inb t (Z.land h2 (mask t))).
  { pose proof (land_mask_range h2 (mask t)). unfold inb. lia. }
  assert (Hrefl : Frame t t (at_ (Z.land h1 (mask t)) 18) nowhere).
  { eapply Frame_weaken; [by apply Frame_refl| |]; unfold nowhere; tauto. }
  unfold Table_get. cbv zeta.
  destruct (negb _); [|by exists (Z.land h1 (mask t))].
  destruct (_ <? 8).
  { exists (Z.land h1 (mask t)). split; [done|]. cbn [fst]. rewrite bset_put.
    by apply Frame_meta. }
  destruct (_ <? 8); [|by exists (Z.land h1 (mask t))].
  exists (Z.land h2 (mask t)). split; [done|]. cbn [fst]. rewrite bset_put.
  by apply Frame_meta.
Qed.

(** ** Shards without second-position elements *)

(** Every second-position counter is zero: the state of the shards of a
    cache, where [cache] stores in the first-position bucket only. *)
Definition Quiet (t : Table) : Prop := forall b, inb t b -> C t b = 0.

Lemma Quiet_Frame t t' (E Xs : Z -> Z -> Prop) :
  Quiet t -> Frame t t' E Xs -> (forall b, ~ E b 8) -> Quiet t'.
Proof.
  intros HQ Hfr HE b Hb. apply (inb_params _ _ _ (Frame_params _ _ _ _ Hfr)) in Hb.
  rewrite (Frame_C _ _ _ _ b Hfr) by (done || apply HE). by apply HQ.
Qed.

(** In such a shard every element is in its first-position bucket. *)
Lemma quiet_home t i s :
  Inv t -> Quiet t -> inb t i -> 0 <= s < 8 -> P t i s = true ->
  i = home t (K t i s).
Proof.
  intros HI HQ Hi Hs HP. pose proof HI as (Hsh & Hsl & Hc & _).
  destruct (decide (i = home t (K t i s))) as [|Hne]; [done|exfalso].
  pose proof (home_inb t (K t i s) Hsh) as Hh.
  assert (Ha : away t (home t (K t i s)) i s = true).
  { unfold away. rewrite HP, Z.eqb_refl. simpl. rewrite andb_true_r.
    by apply negb_true_iff, Z.eqb_neq. }
  pose proof (second_count_away t _ i s Hi Hs Ha).
  pose proof (HQ _ Hh). destruct (Hc _ Hh); lia.
Qed.

(** So a key that a scan of its first-position bucket does not find is
    not stored. *)
Lemma quiet_absent t kb :
  Inv t -> Quiet t ->
  (forall s, 0 <= s < 8 -> ~ hit t (home t kb) (tagk t kb) kb s) ->
  forall v, ~ holds t kb v.
Proof.
  intros HI HQ Hno v (i & s & Hi & Hs & HP & HK & _).
  destruct (stored_found t i s HI Hi Hs HP) as (_ & _ & Hhit).
  pose proof (quiet_home t i s HI HQ Hi Hs HP) as Hhome.
  rewrite HK in *. subst i. by apply (Hno s).
Qed.

(** ** [cache]: the element that is evicted *)

Lemma emptied_content t t' (E Xs : Z -> Z -> Prop) i s :
  emptied t t' i s -> Frame t t' E Xs ->
  (forall a b, Xs a b -> a = i /\ b = s) ->
  forall k v, holds t' k v <-> heldX t (only i s) k v.
Proof.
  intros (Hp & _ & _ & _ & _ & HP' & _ & HPs) Hfr HX k v. split.
  - intros (i' & s' & Hi' & Hs' & HP & HK & HV).
    apply (inb_params _ _ _ Hp) in Hi'.
    assert (Hne : ~ (i' = i /\ s' = s)) by (intros [-> ->]; congruence).
    assert (Hn : ~ Xs i' s') by (intros H; by apply HX in H).
    exists i', s'. split; [done|]. split; [done|].
    split; [by apply only_false|]. split; [by rewrite <- HPs|].
    rewrite <- (Frame_K _ _ _ _ _ _ Hfr), <- (Frame_V _ _ _ _ _ _ Hfr); done.
  - intros (i' & s' & Hi' & Hs' & HXs & HP & HK & HV).
    assert (Hne : ~ (i' = i /\ s' = s)) by (by apply only_false).
    assert (Hn : ~ Xs i' s') by (intros H; by apply HX in H).
    exists i', s'. split; [by apply (inb_params _ _ _ Hp)|]. split; [done|].
    split; [by rewrite HPs|].
    rewrite (Frame_K _ _ _ _ _ _ Hfr), (Frame_V _ _ _ _ _ _ Hfr); done.
Qed.

Lemma drop_content t i s :
  Inv t -> inb t i -> 0 <= s < 8 ->
  (Uniq t -> Uniq (drop t i s)) /\
  (forall b, inb t b -> C (drop t i s) b = C t b) /\
  (forall k v, holds (drop t i s) k v <-> heldX t (only i s) k v).
Proof.
  intros HI Hi Hs. pose proof HI as (Hsh & _). unfold drop. cbv zeta.
  destruct (Frame_meta t i 9 (Z.land (M t i 9) (Z.lnot (Z.shiftl 1 s))) Hsh Hi ltac:(lia))
    as [F2 V2].
  set (t2 := put t i 9 _) in *.
  rewrite mod_byte in V2 by (apply byte_clear_bit; [by apply M_byte|done]).
  assert (Hem : emptied t t2 i s).
  { apply (emptied_spec t t2 _ _ i s HI F2 Hi Hs); [cells|cells|done]. }
  pose proof (emptied_content t t2 _ _ i s Hem F2 ltac:(cells)) as Hcont.
  destruct Hem as (Hp2 & HI2 & HU2 & _).
  pose proof (Frame_inb _ _ _ _ i F2 Hi) as Hi2.
  pose proof (low3_range (TG t2 i s)) as Hf.
  apply Inv_InvX in HI2.
  destruct (InvX_filterReset t2 none i _ HI2 Hi2 Hf) as [_ F3].
  set (t3 := filterReset t2 _ _) in *.
  destruct (meta_step _ _ _ F3 (meta_only_at i (Z.land (TG t2 i s) 7) ltac:(lia)))
    as (HU3 & _ & Hh3).
  split; [auto|]. split.
  - intros b Hb. rewrite (Frame_C _ _ _ _ b F3); [|by apply (Frame_inb _ _ _ _ b F2)|cells].
    apply (Frame_C _ _ _ _ b F2 Hb). cells.
  - intros k v. by rewrite Hh3.
Qed.

(** What [cache] did to the elements of a shard without second-position
    elements: the key holds the new value; the other elements are those
    of before, but for the one evicted when it returns 2, which was in the
    first-position bucket of the key. *)
Definition cache_done (t t' : Table) (r : Z) (kb vb : list Z) : Prop :=
  Uniq t' /\ Quiet t' /\
  (forall v, holds t' kb v <-> v = vb) /\
  ((r = 1 /\ (exists v, holds t kb v) /\
    forall k v, k <> kb -> (holds t' k v <-> holds t k v)) \/
   (r = 0 /\ (forall v, ~ holds t kb v) /\
    forall k v, k <> kb -> (holds t' k v <-> holds t k v)) \/
   (r = 2 /\ (forall v, ~ holds t kb v) /\
    exists ke ve, ke <> kb /\ holds t ke ve /\ home t ke = home t kb /\
      forall k v, k <> kb -> (holds t' k v <-> holds t k v /\ k <> ke))).

Lemma cache_evict_effect t key ko value vo :
  Inv t -> Uniq t -> Quiet t -> Forall byte key -> Forall byte value ->
  let kb := slice key ko (Z.to_nat (keySize t)) in
  let vb := slice value vo (Z.to_nat (valueSize t)) in
  (forall v, ~ holds t kb v) ->
  let r := cache_evict t (tagk t kb) (home t kb * bucket t)
             (filter_of (tagk t kb)) (bit_of (tagk t kb)) key ko value vo in
  cache_done t r.1 r.2 kb vb.
Proof.
  intros HI HU HQ Hkey Hval kb vb Habs. pose proof HI as (Hsh & _ & _ & Hh).
  set (tag := tagk t kb). set (i := home t kb).
  assert (Hi : inb t i) by (by apply home_inb).
  unfold cache_evict. destruct (evict t (i * bucket t)) as [t1 s] eqn:Eev.
  destruct (evict_spec t i t1 s HI Hi Eev) as (Hs & Hp1 & HI1 & HU1 & _ & Hh1).
  specialize (HU1 HU).
  assert (HQ1 : Quiet t1).
  { rewrite evict_unfold in Eev.
    destruct (evict_loop_spec 9 t i 0 t1 s Hsh Hh Hi ltac:(lia) Eev) as (Hfr & _).
    apply (Quiet_Frame t t1 _ _ HQ Hfr). unfold hand_cells. cells. }
  destruct (params_fields _ _ Hp1) as (Eks & Evs & Ebk & _).
  pose proof HI1 as (Hsh1 & _).
  pose proof (proj2 (inb_params _ _ _ Hp1) Hi) as Hi1.
  rewrite <- Ebk. rewrite present_test by done. rewrite negb_involutive.
  rewrite drop_code.
  destruct (drop_spec t1 i s HI1 Hi1 Hs) as (Hpd & HId & HPd & _).
  destruct (drop_content t1 i s HI1 Hi1 Hs) as (HUd & HCd & Hhd).
  set (t3 := if P t1 i s then drop t1 i s else t1).
  assert (H3 : params t3 = params t1 /\ Inv t3 /\ Uniq t3 /\ Quiet t3 /\
               P t3 i s = false /\
               forall k v, holds t3 k v <-> heldX t1 (only i s) k v).
  { unfold t3. destruct (P t1 i s) eqn:EP.
    - split; [done|]. split; [done|]. split; [auto|]. split; [|done].
      intros b Hb. apply (inb_params _ _ _ Hpd) in Hb. rewrite HCd by done. by apply HQ1.
    - split; [done|]. split; [done|]. split; [done|]. split; [done|]. split; [done|].
      destruct (aside_empty t1 i s HI1 HU1 Hi1 Hs EP) as (_ & _ & _ & _ & Hheld).
      intros k v. by rewrite Hheld. }
  clearbody t3. destruct H3 as (Hp3 & HI3 & HU3 & HQ3 & HP3 & Hh3).
  destruct (params_fields _ _ Hp3) as (Eks3 & Evs3 & Ebk3 & _).
  pose proof (proj2 (inb_params _ _ _ Hp3) Hi1) as Hi3.
  pose proof HI3 as (Hsh3 & _).
  rewrite <- Ebk3.
  rewrite (place_first t3 i s tag kb vb key ko value vo)
    by (unfold kb, vb; congruence).
  assert (Hhome : i = home t3 kb).
  { unfold i. rewrite (home_params _ _ _ Hp3). by rewrite (home_params _ _ _ Hp1). }
  assert (Htag : tag = tagk t3 kb).
  { unfold tag. rewrite (tagk_params _ _ _ Hp3). by rewrite (tagk_params _ _ _ Hp1). }
  assert (Hkl : length kb = Z.to_nat (keySize t3)).
  { unfold kb. rewrite length_slice. congruence. }
  assert (Hvl : length vb = Z.to_nat (valueSize t3)).
  { unfold vb. rewrite length_slice. congruence. }
  pose proof (bytes_slice key ko (Z.to_nat (keySize t)) Hkey) as Hkb.
  pose proof (bytes_slice value vo (Z.to_nat (valueSize t)) Hval) as Hvb.
  fold kb in Hkb. fold vb in Hvb.
  assert (Hheld1 : forall k v, heldX t1 (only i s) k v -> holds t k v).
  { intros k v (i' & s' & ? & ? & _ & ? & ? & ?). apply Hh1. by exists i', s'. }
  assert (Habs3 : forall v, ~ holds t3 kb v).
  { intros v Hv. apply Hh3, Hheld1 in Hv. by apply (Habs v). }
  pose proof (place_moved t3 t3 i s kb vb (aside_empty t3 i s HI3 HU3 Hi3 Hs HP3)
                Hi3 Hs (or_introl Hhome) Hkl Hkb Hvl Hvb Habs3) as Hpl.
  cbv zeta in Hpl. rewrite <- Hhome, <- Htag in Hpl.
  destruct (place_frame t3 i s i tag kb vb Hsh3 Hi3 Hi3 Hs (byte_tag_of _)
              Hkl Hkb Hvl Hvb) as (Hfrp & _ & _ & _ & _ & _ & HCp).
  set (tp := place t3 i s i tag kb vb) in *.
  destruct Hpl as (Hpp & HIp & HUp & _ & Hhp).
  assert (HQp : Quiet tp).
  { intros b Hb. apply (inb_params _ _ _ Hpp) in Hb.
    destruct (decide (b = i)) as [->|Hne].
    - rewrite HCp, Z.eqb_refl. by apply HQ3.
    - rewrite (Frame_C _ _ _ _ b Hfrp Hb); [by apply HQ3|]. unfold place_cells. cells. }
  assert (Ebp : bucket tp = bucket t3).
  { by destruct (params_fields _ _ Hpp) as (_ & _ & ? & _). }
  rewrite <- Ebp. rewrite bset_put.
  pose proof (proj2 (inb_params _ _ _ Hpp) Hi3) as Hip.
  destruct (used_step tp i (Z.lor (bget tp (i * bucket tp + 18)) (Z.shiftl 1 s)) HIp Hip)
    as (Hfr5 & _ & _ & HU5 & _ & Hh5).
  set (t5 := put tp i 18 _) in *. cbn [fst snd].
  assert (Hall : forall k v, holds t5 k v <-> heldX t1 (only i s) k v \/ (k = kb /\ v = vb)).
  { intros k v. by rewrite Hh5, Hhp, Hh3. }
  split; [auto|]. split; [apply (Quiet_Frame tp t5 _ _ HQp Hfr5); cells|]. split.
  { intros v. rewrite Hall. split; [|by right].
    intros [Hv|[_ ?]]; [|done]. by apply Hheld1, Habs in Hv. }
  destruct (P t1 i s) eqn:EP; right; [right|left]; (split; [done|]); (split; [done|]).
  - exists (K t1 i s), (V t1 i s).
    assert (Hke : holds t (K t1 i s) (V t1 i s)).
    { apply Hh1. exists i, s. by repeat (split; [done|]). }
    assert (Hne : K t1 i s <> kb) by (intros E; rewrite E in Hke; by apply Habs in Hke).
    split; [done|]. split; [done|]. split.
    + rewrite <- (home_params _ _ _ Hp1). symmetry. by apply quiet_home.
    + intros k v Hk. rewrite Hall, (heldX_only t1 i s (K t1 i s)) by done.
      rewrite Hh1. tauto.
  - intros k v Hk. rewrite Hall.
    destruct (aside_empty t1 i s HI1 HU1 Hi1 Hs EP) as (_ & _ & _ & _ & Hheld).
    rewrite Hheld, Hh1. tauto.
Qed.

Lemma Table_cache_effect t h1 h2 key ko value vo :
  Inv t -> Uniq t -> Quiet t -> Forall byte key -> Forall byte value ->
  Hash key ko (keySize t) = (h1, h2) ->
  let kb := slice key ko (Z.to_nat (keySize t)) in
  let vb := slice value vo (Z.to_nat (valueSize t)) in
  let r := Table_cache t h1 h2 key ko value vo in
  cache_done t r.1 r.2 kb vb.
Proof.
  intros HI HU HQ Hkey Hval HH kb vb. pose proof HI as (Hsh & _).
  rewrite Hash_slice in HH by done. fold kb in HH.
  destruct (hashk_home _ _ _ _ HH) as (Ehome & Ealt & Etag).
  pose proof (cache_evict_effect t key ko value vo HI HU HQ Hkey Hval) as Hev.
  cbv zeta in Hev. fold kb vb in Hev.
  unfold Table_cache. cbv zeta.
  change (Z.land (Z.shiftr h1 16) 255) with (tag_of h1).
  rewrite <- Ehome, <- Etag. rewrite filter_test by done.
  change (Z.land (Z.shiftr (tagk t kb) 4) 7) with (filter_of (tagk t kb)).
  change (Z.shiftl 1 (Z.land (tagk t kb) 7)) with (bit_of (tagk t kb)).
  destruct (fbit t (home t kb) (tagk t kb)) eqn:Efb; cbn [negb].
  2:{ apply Hev. apply search_absent; [done|by left]. }
  destruct (scan t (home t kb * bucket t) (tagk t kb) key ko <? 8) eqn:E1.
  2:{ apply Hev. apply Z.ltb_ge in E1. apply quiet_absent; [done|done|].
      apply scan_none; [done|lia]. }
  apply Z.ltb_lt in E1. destruct (scan_hit t _ _ key ko Hsh E1) as [Hr Hh].
  fold kb in Hh. set (s := scan t _ _ key ko) in *. set (i := home t kb) in *.
  assert (Hi : inb t i) by (by apply home_inb).
  rewrite bset_put.
  destruct (used_step t i (Z.lor (bget t (i * bucket t + 18)) (Z.shiftl 1 s)) HI Hi)
    as (Hfr & Hp1 & HI1 & HU1 & _ & Hh1').
  set (t1 := put t i 18 _) in *.
  assert (Hh1 : hit t1 i (tagk t kb) kb s).
  { destruct Hh as (Ht & HP & HK). split; [|split].
    - unfold TG in *. rewrite (Frame_M _ _ _ _ _ _ Hfr); fside.
    - rewrite (Frame_P _ _ _ _ _ _ Hfr); fside.
    - rewrite (Frame_K _ _ _ _ _ _ Hfr); fside. }
  change (bucket t) with (bucket t1).
  pose proof (Frame_inb _ _ _ _ i Hfr Hi) as Hi1.
  destruct (update_hit t1 i (tagk t kb) kb s value vo HI1 Hi1 Hr Hh1 Hval)
    as (Hp2 & HI2 & HU2 & _ & (v0 & Hv0) & Hh2 & Hoth).
  assert (HQ2 : Quiet (with_buffer t1
     (copyValue t1 (Ext value) vo (buffer t1) (valueOffset t1 (i * bucket t1) s)))).
  { rewrite update_put.
    destruct (Frame_value t1 i s _ (slice value vo (Z.to_nat (valueSize t1)))
                (Frame_Shape _ _ _ _ Hfr) Hi1 Hr eq_refl (length_slice _ _ _)
                (bytes_slice _ _ _ Hval)) as (Hfv & _).
    apply (Quiet_Frame t1 _ _ _ (Quiet_Frame t t1 _ _ HQ Hfr ltac:(cells)) Hfv). cells. }
  cbn [fst snd]. split; [auto|]. split; [done|]. split.
  { intros v. split; [|by intros ->].
    intros Hv. apply (holds_unique _ kb v vb (HU2 (HU1 HU)) Hv Hh2). }
  left. split; [done|]. split; [exists v0; by apply Hh1'|].
  intros k v Hk. by rewrite Hoth, Hh1'.
Qed.

(* ================================================================= *)
(** * The coordinator and the stored elements *)

(** The buckets of all the shards. *)
Definition all_buckets (ts : list Table) : Z := foldr (fun t acc => buckets t + acc) 0 ts.

(** The shard that the coordinator picks for a key. *)
Definition route (h : HashTable) (key : list Z) (ko : Z) : Z :=
  shard_index h (Hash key ko (ht_keySize h)).1 (Hash key ko (ht_keySize h)).2.

(** Every element is in the shard that the coordinator picks for its key. *)
Definition Routed (h : HashTable) : Prop :=
  forall j k v, 0 <= j <= ht_mask h -> holds (shard h j) k v -> route h k 0 = j.

(** What holds of a container beyond [HInv]: keys are stored once in
    every mode, no shard of a container that is not a table has a
    second-position element, [capacity] counts eight slots a bucket, and
    the elements are in the shards of their keys. *)
Definition Sound (h : HashTable) : Prop :=
  HInv h /\
  Forall Uniq (tables h) /\
  (mode h <> 1 -> Forall Quiet (tables h)) /\
  capacity h = 8 * all_buckets (tables h) /\
  Routed h.

Lemma all_buckets_insert ts : forall (i : nat) t,
  (i < length ts)%nat ->
  all_buckets (<[i := t]> ts) = all_buckets ts - buckets (ts !!! i) + buckets t.
Proof.
  induction ts as [|x ts IH]; intros i t Hi; simpl in Hi; [lia|].
  destruct i as [|i]; simpl.
  - lia.
  - rewrite IH by lia. change ((x :: ts) !!! S i) with (ts !!! i). lia.
Qed.

Lemma all_buckets_replicate n t : all_buckets (replicate n t) = Z.of_nat n * buckets t.
Proof.
  induction n as [|n IH]; [done|].
  change (all_buckets (replicate (S n) t)) with (buckets t + all_buckets (replicate n t)).
  lia.
Qed.

Lemma Sound_HInv h : Sound h -> HInv h.
Proof. by intros (? & _). Qed.

Lemma Sound_shard h idx :
  Sound h -> 0 <= idx <= ht_mask h ->
  keySize (shard h idx) = ht_keySize h /\ valueSize (shard h idx) = ht_valueSize h /\
  Inv (shard h idx) /\ Uniq (shard h idx) /\ (mode h <> 1 -> Quiet (shard h idx)).
Proof.
  intros (HI & HU & HQ & _ & _) Hidx.
  destruct (HInv_shard h idx HI Hidx) as (Eks & Evs & _ & HIt & _).
  assert (Hl : tables h !! Z.to_nat idx = Some (shard h idx)).
  { apply list_lookup_lookup_total_lt. destruct HI as (_ & ? & _). lia. }
  split; [done|]. split; [done|]. split; [done|]. split.
  - by apply (Forall_lookup_1 _ _ _ _ HU Hl).
  - intros Hm. by apply (Forall_lookup_1 _ _ _ _ (HQ Hm) Hl).
Qed.

Lemma shard_other (h h' : HashTable) idx t' j :
  tables h' = <[Z.to_nat idx := t']> (tables h) ->
  0 <= idx -> 0 <= j -> j <> idx -> shard h' j = shard h j.
Proof.
  intros Et H0 Hj Hne. unfold shard. rewrite Et.
  apply list_lookup_total_insert_ne. lia.
Qed.

Lemma shard_same (h h' : HashTable) idx t' :
  HInv h -> 0 <= idx <= ht_mask h ->
  tables h' = <[Z.to_nat idx := t']> (tables h) -> shard h' idx = t'.
Proof.
  intros (_ & Hlen & _) Hidx Et. unfold shard. rewrite Et.
  apply list_lookup_total_insert_eq. lia.
Qed.

Lemma route_config h h' key ko : same_config h h' -> route h' key ko = route h key ko.
Proof. intros (E1 & _ & _ & E4). unfold route, shard_index. by rewrite E1, E4. Qed.

(** A step of the coordinator that replaces the shard at [idx]. *)
Lemma Sound_step h h' idx t' :
  Sound h -> HInv h' -> same_config h h' -> 0 <= idx <= ht_mask h ->
  tables h' = <[Z.to_nat idx := t']> (tables h) ->
  Uniq t' -> (mode h' <> 1 -> mode h <> 1 /\ Quiet t') ->
  capacity h' = capacity h + 8 * (buckets t' - buckets (shard h idx)) ->
  (forall k v, holds t' k v -> holds (shard h idx) k v \/ route h k 0 = idx) ->
  Sound h'.
Proof.
  intros (HI & HU & HQ & Hcap & HR) HI' Hc Hidx Et HU' HQ' Hcap' Hin.
  pose proof HI as (_ & Hlen & _).
  split; [done|]. rewrite Et. split; [by apply Forall_insert|]. split; [|split].
  - intros Hm. destruct (HQ' Hm) as [Hm0 ?]. apply Forall_insert; auto.
  - rewrite all_buckets_insert by lia. unfold shard in Hcap'. lia.
  - intros j k v Hj Hh. rewrite (route_config h h' k 0 Hc).
    destruct Hc as (_ & _ & _ & Em). rewrite Em in Hj.
    destruct (decide (j = idx)) as [->|Hne].
    + rewrite (shard_same h h' idx t') in Hh by done.
      destruct (Hin k v Hh) as [?|?]; [by apply (HR idx k v)|done].
    + rewrite (shard_other h h' idx t') in Hh by (done || lia). by apply (HR j k v).
Qed.

(** In a table keys are stored once and nothing is asked of the
    counters. *)
Lemma Sound_table h :
  HInv h -> mode h = 1 -> capacity h = 8 * all_buckets (tables h) -> Routed h -> Sound h.
Proof.
  intros HI Hm Hcap HR. split; [done|]. split; [|split; [lia|done]].
  destruct HI as (_ & _ & Hall & _). eapply Forall_impl; [exact Hall|].
  intros t (_ & _ & _ & _ & HU). apply HU. lia.
Qed.

Lemma Quiet_new ks vs bk n :
  20 <= bk -> Quiet (new_Table ks vs bk n).
Proof.
  intros Hbk b Hb. unfold C, M, bget, inb, new_Table in *.
  cbn [buffer bucket buckets] in *. apply rd_alloc. nia.
Qed.

Lemma Sound_new ks vs nb nk :
  valid_config ks vs nb nk -> Sound (new_HashTable ks vs nb nk).
Proof.
  intros Hcfg. pose proof (HInv_new ks vs nb nk Hcfg) as HI.
  destruct Hcfg as (Hks & Hk4 & Hvs & Hnb & Hnk).
  pose proof (HashTable_bucket_fits ks vs Hks Hvs) as Hbk.
  destruct (new_table_spec ks vs (HashTable_bucket ks vs) nk Hks Hk4 Hvs Hbk Hnk)
    as (_ & HU & _).
  destruct (new_table_spec ks vs (HashTable_bucket ks vs) nk Hks Hk4 Hvs Hbk Hnk)
    as (_ & _ & _ & Hno).
  split; [done|]. split; [by apply Forall_replicate|]. split; [|split].
  - intros _. apply Forall_replicate. apply Quiet_new. lia.
  - unfold new_HashTable. cbv zeta. cbn [tables capacity].
    rewrite all_buckets_replicate. unfold new_Table. cbn [buckets]. lia.
  - intros j k v Hj Hh. exfalso. revert Hh. unfold shard, new_HashTable in *.
    cbv zeta in *. cbn [tables ht_mask] in *.
    rewrite lookup_total_replicate_2 by lia. apply Hno.
Qed.

(** ** Look-ups and the elements of the shard of the key *)

Lemma route_range h key ko : HInv h -> 0 <= route h key ko <= ht_mask h.
Proof. intros (? & _). by apply shard_index_range. Qed.

Lemma exist_stored h key ko :
  HInv h -> Forall byte key ->
  let kb := slice key ko (Z.to_nat (ht_keySize h)) in
  (HashTable_exist h key ko = 1 /\ exists v, holds (shard h (route h key ko)) kb v) \/
  (HashTable_exist h key ko = 0 /\ forall v, ~ holds (shard h (route h key ko)) kb v).
Proof.
  intros HI Hkey. cbv zeta. unfold HashTable_exist, route.
  destruct (Hash key ko (ht_keySize h)) as [h1 h2] eqn:HH. cbn [fst snd].
  set (idx := shard_index h h1 h2).
  assert (Hidx : 0 <= idx <= ht_mask h).
  { apply shard_index_range. by destruct HI. }
  destruct (HInv_shard h idx HI Hidx) as (Eks & _ & _ & HIt & _).
  assert (HH1 : Hash key ko (keySize (shard h idx)) = (h1, h2)) by (by rewrite Eks).
  pose proof (Table_exist_spec (shard h idx) h1 h2 key ko HIt Hkey HH1) as H.
  cbv zeta in H. by rewrite Eks in H.
Qed.

(** What [get] answers, with keys stored once. *)
Lemma get_stored h key ko out oo :
  Sound h -> Forall byte key ->
  let kb := slice key ko (Z.to_nat (ht_keySize h)) in
  let g := HashTable_get h key ko out oo in
  (g.2 = 0 /\ g.1.2 = out /\ forall v, ~ holds (shard h (route h key ko)) kb v) \/
  (g.2 = 1 /\ exists v, holds (shard h (route h key ko)) kb v /\
     (forall v', holds (shard h (route h key ko)) kb v' -> v' = v) /\
     g.1.2 = if ht_valueSize h =? 0 then out else write_bytes out oo v).
Proof.
  intros HS Hkey. cbv zeta.
  pose proof (HashTable_get_spec h key ko out oo (Sound_HInv _ HS) Hkey) as H.
  cbv zeta in H. fold (route h key ko) in H.
  destruct (Sound_shard h _ HS (route_range h key ko (Sound_HInv _ HS)))
    as (_ & _ & _ & HU & _).
  destruct (HashTable_get h key ko out oo) as [[h' out'] r]. cbn [fst snd].
  destruct H as (_ & _ & _ & _ & [(-> & -> & Habs)|(-> & v & Hv & ->)]); [by left|right].
  split; [done|]. exists v. split; [done|]. split; [|done].
  intros v' Hv'. by apply (holds_unique _ _ _ _ HU Hv' Hv).
Qed.

(** Two containers answer the look-ups of a key alike. *)
Definition same_answers (h h' : HashTable) (key : list Z) (ko : Z) : Prop :=
  HashTable_exist h' key ko = HashTable_exist h key ko /\
  forall out oo,
    (HashTable_get h' key ko out oo).2 = (HashTable_get h key ko out oo).2 /\
    (HashTable_get h' key ko out oo).1.2 = (HashTable_get h key ko out oo).1.2.

Lemma answers_stored h h' key ko :
  Sound h -> Sound h' -> same_config h h' -> Forall byte key ->
  (forall v, holds (shard h' (route h key ko)) (slice key ko (Z.to_nat (ht_keySize h))) v <->
             holds (shard h (route h key ko)) (slice key ko (Z.to_nat (ht_keySize h))) v) ->
  same_answers h h' key ko.
Proof.
  intros HS HS' Hc Hkey Hh.
  pose proof Hc as (Eks & Evs & _).
  pose proof (route_config h h' key ko Hc) as Er.
  split.
  - destruct (exist_stored h key ko (Sound_HInv _ HS) Hkey) as [[-> [v Hv]]|[-> Habs]];
    destruct (exist_stored h' key ko (Sound_HInv _ HS') Hkey) as [[-> [v' Hv']]|[-> Habs']];
      try done; rewrite Er, Eks in *; exfalso.
    + apply Hh in Hv. by apply Habs' in Hv.
    + apply Hh in Hv'. by apply Habs in Hv'.
  - intros out oo.
    destruct (get_stored h key ko out oo HS Hkey) as [(-> & -> & Habs)|(-> & v & Hv & Hu & ->)];
    destruct (get_stored h' key ko out oo HS' Hkey)
      as [(-> & -> & Habs')|(-> & v' & Hv' & Hu' & ->)];
      try done; rewrite Er, Eks, ?Evs in *.
    + exfalso. apply Hh in Hv'. by apply Habs in Hv'.
    + exfalso. apply Hh in Hv. by apply Habs' in Hv.
    + split; [done|]. apply Hh in Hv'. by rewrite (Hu v' Hv').
Qed.

(** A step at the shard [idx] keeps the elements whose keys satisfy [Q]. *)
Definition keeps (h h' : HashTable) (idx : Z) (Q : list Z -> Prop) : Prop :=
  (forall j, 0 <= j <= ht_mask h -> j <> idx -> shard h' j = shard h j) /\
  (forall k v, Q k -> (holds (shard h' idx) k v <-> holds (shard h idx) k v)).

Lemma keeps_refl h idx Q : keeps h h idx Q.
Proof. by split. Qed.

Lemma keeps_trans h h' h'' idx Q :
  ht_mask h' = ht_mask h -> keeps h h' idx Q -> keeps h' h'' idx Q -> keeps h h'' idx Q.
Proof.
  intros Em [H1 H2] [H3 H4]. split.
  - intros j Hj Hne. rewrite H3 by (done || lia). by apply H1.
  - intros k v HQ. rewrite H4 by done. by apply H2.
Qed.

Lemma keeps_weaken h h' idx (Q Q' : list Z -> Prop) :
  (forall k, Q' k -> Q k) -> keeps h h' idx Q -> keeps h h' idx Q'.
Proof. intros HQ [H1 H2]. split; [done|]. intros k v Hk. apply H2. by apply HQ. Qed.

Lemma keeps_step h h' idx t' (Q : list Z -> Prop) :
  HInv h -> 0 <= idx <= ht_mask h ->
  tables h' = <[Z.to_nat idx := t']> (tables h) ->
  (forall k v, Q k -> (holds t' k v <-> holds (shard h idx) k v)) ->
  keeps h h' idx Q.
Proof.
  intros HI Hidx Et Hh. split.
  - intros j Hj Hne. apply (shard_other h h' idx t'); (done || lia).
  - intros k v HQ. rewrite (shard_same h h' idx t') by done. by apply Hh.
Qed.

(** The look-ups of a key that the step keeps are answered as before. *)
Lemma answers_keep h h' idx (Q : list Z -> Prop) key ko :
  Sound h -> Sound h' -> same_config h h' -> keeps h h' idx Q ->
  Forall byte key ->
  (route h key ko = idx -> Q (slice key ko (Z.to_nat (ht_keySize h)))) ->
  same_answers h h' key ko.
Proof.
  intros HS HS' Hc [H1 H2] Hkey HQ. apply answers_stored; try done.
  intros v. destruct (decide (route h key ko = idx)) as [E|E].
  - rewrite E. apply H2. by apply HQ.
  - rewrite H1; [done| |done]. apply route_range. by apply Sound_HInv.
Qed.

Lemma route_slice h key ko :
  HInv h -> route h (slice key ko (Z.to_nat (ht_keySize h))) 0 = route h key ko.
Proof.
  intros HI. assert (H0 : 0 <= 0 <= ht_mask h) by (destruct HI; lia).
  destruct (HInv_shard h 0 HI H0) as (Eks & _ & _ & (Hsh & _) & _).
  unfold route. rewrite <- Eks. rewrite (Hash_slice _ key ko Hsh). done.
Qed.

(** ** [get] and the stored elements *)

Lemma get_step h idx h1 h2 key ko out oo :
  Sound h -> 0 <= idx <= ht_mask h -> Forall byte key ->
  Hash key ko (ht_keySize h) = (h1, h2) ->
  let h' := with_table h idx (Table_get (shard h idx) h1 h2 key ko out oo).1.1 in
  Sound h' /\ keeps h h' idx (fun _ => True).
Proof.
  intros HS Hidx Hkey HH. pose proof (Sound_HInv _ HS) as HI.
  destruct (Sound_shard h idx HS Hidx) as (Eks & _ & HIt & HUt & HQt).
  assert (HH1 : Hash key ko (keySize (shard h idx)) = (h1, h2)) by (by rewrite Eks).
  pose proof (Table_get_spec (shard h idx) h1 h2 key ko out oo HIt Hkey HH1) as Hg.
  cbv zeta in Hg.
  destruct (Table_get_frame (shard h idx) h1 h2 key ko out oo (proj1 HIt)) as (i & Hi & Hfr).
  destruct (Table_get (shard h idx) h1 h2 key ko out oo) as [[t' out'] r].
  cbn [fst] in *. destruct Hg as [(Hp & HI' & HU' & Hocc & Hh) _].
  assert (HIh : HInv (with_table h idx t')).
  { rewrite <- (with_length_same (with_table h idx t')).
    apply (HInv_quiet h idx t' 0); try done. lia. }
  split.
  - apply (Sound_step h _ idx t'); try done.
    + auto.
    + intros Hm. split; [done|]. apply (Quiet_Frame _ _ _ _ (HQt Hm) Hfr). cells.
    + unfold params in Hp. cbn [capacity with_table]. injection Hp as _ _ _ -> _. lia.
    + intros k v Hv. left. by apply Hh.
  - by apply (keeps_step h _ idx t').
Qed.

Lemma HashTable_get_effect h key ko out oo :
  Sound h -> Forall byte key ->
  let h' := (HashTable_get h key ko out oo).1.1 in
  Sound h' /\ same_config h h' /\ keeps h h' (route h key ko) (fun _ => True).
Proof.
  intros HS Hkey. cbv zeta. pose proof (Sound_HInv _ HS) as HI.
  pose proof (HashTable_get_spec h key ko out oo HI Hkey) as Hsp. cbv zeta in Hsp.
  assert (Hc : same_config h (HashTable_get h key ko out oo).1.1).
  { destruct (HashTable_get h key ko out oo) as [[h' out'] r]. by destruct Hsp as (_ & ? & _). }
  split; [|split; [done|]]; clear Hsp Hc.
  - unfold HashTable_get.
    destruct (Hash key ko (ht_keySize h)) as [h1 h2] eqn:HH.
    assert (Hidx : 0 <= shard_index h h1 h2 <= ht_mask h).
    { apply shard_index_range. by destruct HI. }
    destruct (ht_valueSize h =? 0).
    + pose proof (get_step h _ h1 h2 key ko VALUE 0 HS Hidx Hkey HH) as [H _].
      by destruct (Table_get _ h1 h2 key ko VALUE 0) as [[t' out'] r].
    + pose proof (get_step h _ h1 h2 key ko out oo HS Hidx Hkey HH) as [H _].
      by destruct (Table_get _ h1 h2 key ko out oo) as [[t' out'] r].
  - unfold HashTable_get, route.
    destruct (Hash key ko (ht_keySize h)) as [h1 h2] eqn:HH. cbn [fst snd].
    assert (Hidx : 0 <= shard_index h h1 h2 <= ht_mask h).
    { apply shard_index_range. by destruct HI. }
    destruct (ht_valueSize h =? 0).
    + pose proof (get_step h _ h1 h2 key ko VALUE 0 HS Hidx Hkey HH) as [_ H].
      by destruct (Table_get _ h1 h2 key ko VALUE 0) as [[t' out'] r].
    + pose proof (get_step h _ h1 h2 key ko out oo HS Hidx Hkey HH) as [_ H].
      by destruct (Table_get _ h1 h2 key ko out oo) as [[t' out'] r].
Qed.

(** ** [unset] and the stored elements *)

Lemma HashTable_unset_effect h key ko :
  Sound h -> Forall byte key ->
  let kb := slice key ko (Z.to_nat (ht_keySize h)) in
  let idx := route h key ko in
  match HashTable_unset h key ko with
  | Throw _ _ => False
  | Ret h' r =>
      Sound h' /\ same_config h h' /\ r = HashTable_exist h key ko /\
      ht_length h' = ht_length h - r /\
      keeps h h' idx (fun k => k <> kb) /\
      (forall v, ~ holds (shard h' idx) kb v) /\
      (r = 0 -> h' = h)
  end.
Proof.
  intros HS Hkey. cbv zeta. pose proof (Sound_HInv _ HS) as HI.
  pose proof (HashTable_unset_spec h key ko HI Hkey) as Hsp.
  pose proof (exist_stored h key ko HI Hkey) as Hex. cbv zeta in Hex.
  revert Hsp Hex. unfold HashTable_unset, route.
  destruct (Hash key ko (ht_keySize h)) as [h1 h2] eqn:HH. cbn [fst snd].
  set (idx := shard_index h h1 h2).
  assert (Hidx : 0 <= idx <= ht_mask h).
  { apply shard_index_range. by destruct HI. }
  destruct (Sound_shard h idx HS Hidx) as (Eks & _ & HIt & HUt & HQt).
  assert (HH1 : Hash key ko (keySize (shard h idx)) = (h1, h2)) by (by rewrite Eks).
  pose proof (Table_unset_effect (shard h idx) h1 h2 key ko HIt Hkey HH1) as Hu.
  cbv zeta in Hu. rewrite Eks in Hu.
  set (kb := slice key ko (Z.to_nat (ht_keySize h))) in *.
  destruct (Table_unset (shard h idx) h1 h2 key ko) as [t' r|]; [|done].
  intros (HI' & Hc & _ & _ & Hlen) Hex. split; [|split; [done|]].
  - destruct Hu as [(-> & -> & _)|(-> & (Hp & _ & HU' & _) & Hrem)].
    + cbn [Z.eqb]. cbv iota. by rewrite HInv_same_table.
    + cbn [Z.eqb Pos.eqb] in *. cbv iota in *.
      destruct Hrem as (i & s & Hi & Hs & HP & HK & Hh & Hpos & HC).
      apply (Sound_step h _ idx t'); try done.
      * auto.
      * intros Hm. split; [done|]. specialize (HQt Hm).
        pose proof (quiet_home _ i s HIt HQt Hi Hs HP) as Hhome. rewrite HK in Hhome.
        intros b Hb. apply (inb_params _ _ _ Hp) in Hb. rewrite HC by done. by apply HQt.
      * unfold params in Hp. cbn [capacity with_table with_length].
        injection Hp as _ _ _ -> _. lia.
      * intros k v Hv. left. apply Hh in Hv.
        destruct Hv as (i' & s' & ? & ? & _ & ? & ? & ?). by exists i', s'.
  - destruct Hu as [(-> & -> & Habs)|(-> & (Hp & _) & Hrem)].
    + cbn [Z.eqb]. cbv iota. rewrite HInv_same_table by done.
      split; [|split; [done|split; [apply keeps_refl|done]]].
      destruct Hex as [[_ [v Hv]]|[-> _]]; [by apply Habs in Hv|done].
    + cbn [Z.eqb Pos.eqb] in *. cbv iota in *.
      destruct Hrem as (i & s & Hi & Hs & HP & HK & Hh & _).
      assert (Hkb : holds (shard h idx) kb (V (shard h idx) i s)).
      { exists i, s. by repeat (split; [done|]). }
      split; [|split; [done|split; [|split; [|done]]]].
      * destruct Hex as [[-> _]|[_ Habs]]; [done|by apply Habs in Hkb].
      * apply (keeps_step h _ idx t'); try done.
        intros k v Hk. rewrite Hh, (heldX_only _ i s kb) by done. tauto.
      * intros v. rewrite (shard_same h _ idx t') by done.
        rewrite Hh, (heldX_only _ i s kb) by done. tauto.
Qed.

(** ** [cache] and the stored elements *)

Lemma Sound_cache_mode h : Sound h -> mode h <> 1 -> Sound (with_mode h 2).
Proof.
  intros (HI & HU & HQ & Hcap & HR) Hm.
  split; [apply HInv_mode; [done|by right]|]. split; [done|]. split; [auto|]. by split.
Qed.

Lemma HashTable_cache_effect h key ko value vo :
  Sound h -> mode h <> 1 -> Forall byte key -> Forall byte value ->
  let kb := slice key ko (Z.to_nat (ht_keySize h)) in
  let vb := slice value vo (Z.to_nat (ht_valueSize h)) in
  let idx := route h key ko in
  match HashTable_cache h key ko value vo with
  | Throw _ _ => False
  | Ret h' r =>
      Sound h' /\ same_config h h' /\
      ht_length h' = ht_length h + (if r =? 0 then 1 else 0) /\
      (forall v, holds (shard h' idx) kb v <-> v = vb) /\
      ((r = 1 /\ HashTable_exist h key ko = 1 /\ keeps h h' idx (fun k => k <> kb)) \/
       (r = 0 /\ HashTable_exist h key ko = 0 /\ keeps h h' idx (fun k => k <> kb)) \/
       (r = 2 /\ HashTable_exist h key ko = 0 /\
        exists ke ve, ke <> kb /\ holds (shard h idx) ke ve /\
          (forall v, ~ holds (shard h' idx) ke v) /\
          keeps h h' idx (fun k => k <> kb /\ k <> ke)))
  end.
Proof.
  intros HS Hmode Hkey Hval. cbv zeta. pose proof (Sound_HInv _ HS) as HI.
  pose proof (HashTable_cache_spec h key ko value vo HI Hmode Hkey Hval) as Hsp.
  pose proof (exist_stored h key ko HI Hkey) as Hex. cbv zeta in Hex.
  pose proof (route_slice h key ko HI) as Hrs.
  revert Hsp Hex Hrs. unfold HashTable_cache, route.
  destruct (mode h =? 1) eqn:Em; [lia|]. cbv zeta.
  pose proof (Sound_cache_mode h HS Hmode) as HSm.
  pose proof (Sound_HInv _ HSm) as HIm.
  set (hm := with_mode h 2) in *.
  change (ht_valueSize hm) with (ht_valueSize h).
  change (ht_keySize hm) with (ht_keySize h).
  pose proof (value_choice (ht_valueSize h) value vo Hval) as Hvv. cbv zeta in Hvv.
  destruct (if ht_valueSize h =? 0 then (VALUE, 0) else (value, vo)) as [value' vo'].
  cbn [fst snd] in Hvv. destruct Hvv as [Hval' Evb].
  destruct (Hash key ko (ht_keySize h)) as [h1 h2] eqn:HH. cbn [fst snd].
  change (shard_index hm h1 h2) with (shard_index h h1 h2).
  set (idx := shard_index h h1 h2).
  assert (Hidx : 0 <= idx <= ht_mask hm).
  { apply (shard_index_range h). by destruct HI. }
  destruct (Sound_shard hm idx HSm Hidx) as (Eks & Evs & HIt & HUt & HQt).
  specialize (HQt ltac:(done)).
  change (ht_keySize hm) with (ht_keySize h) in Eks.
  change (ht_valueSize hm) with (ht_valueSize h) in Evs.
  assert (HH1 : Hash key ko (keySize (shard hm idx)) = (h1, h2)) by (by rewrite Eks).
  pose proof (Table_cache_spec (shard hm idx) h1 h2 key ko value' vo' HIt Hkey Hval' HH1)
    as Hc.
  pose proof (Table_cache_effect (shard hm idx) h1 h2 key ko value' vo'
                HIt HUt HQt Hkey Hval' HH1) as He.
  cbv zeta in Hc, He. rewrite Eks, Evs, Evb in He.
  set (kb := slice key ko (Z.to_nat (ht_keySize h))) in *.
  set (vb := slice value vo (Z.to_nat (ht_valueSize h))) in *.
  destruct (Table_cache (shard hm idx) h1 h2 key ko value' vo') as [t' r].
  cbn [fst snd] in Hc, He. destruct Hc as (Hp & _).
  destruct He as (HU' & HQ' & Hkbv & Hcase).
  intros (HI' & Hcfg & _ & _ & Hlen) Hex Hrs.
  set (h' := if r =? 0 then _ else _) in *.
  assert (Et : tables h' = <[Z.to_nat idx := t']> (tables hm)).
  { unfold h'. by destruct (r =? 0). }
  assert (Ecap : capacity h' = capacity hm).
  { unfold h'. by destruct (r =? 0). }
  assert (Hsame : shard h' idx = t') by (by apply (shard_same hm h' idx t')).
  assert (Hfwd : forall k v, holds t' k v -> holds (shard hm idx) k v \/ route hm k 0 = idx).
  { intros k v Hv. destruct (decide (k = kb)) as [->|Hne]; [by right|left].
    destruct Hcase as [(_ & _ & Hk)|[(_ & _ & Hk)|(_ & _ & ke & ve & _ & _ & _ & Hk)]];
      apply (Hk k v Hne) in Hv; tauto. }
  split; [|split; [done|split; [done|split]]].
  - apply (Sound_step hm h' idx t'); try done.
    unfold params in Hp. injection Hp as _ _ _ -> _. lia.
  - intros v. by rewrite Hsame.
  - destruct Hcase as [(-> & [v0 Hv0] & Hk)|[(-> & Habs & Hk)|
      (-> & Habs & ke & ve & Hne & Hke & _ & Hk)]].
    + left. split; [done|]. split.
      * destruct Hex as [[-> _]|[_ Hno]]; [done|by apply Hno in Hv0].
      * by apply (keeps_step hm h' idx t').
    + right. left. split; [done|]. split.
      * destruct Hex as [[_ [v Hv]]|[-> _]]; [by apply Habs in Hv|done].
      * by apply (keeps_step hm h' idx t').
    + right. right. split; [done|]. split.
      * destruct Hex as [[_ [v Hv]]|[-> _]]; [by apply Habs in Hv|done].
      * exists ke, ve. split; [done|]. split; [done|]. split.
        -- intros v Hv. rewrite Hsame in Hv. apply Hk in Hv; [|done]. by destruct Hv.
        -- apply (keeps_step hm h' idx t'); try done.
           intros k v [Hkb Hkk]. rewrite Hk by done. tauto.
Qed.

(** ** [set] and the stored elements *)

(** What [capacity] counts beyond eight slots a bucket. *)
Definition slack (h : HashTable) : Z := capacity h - 8 * all_buckets (tables h).

Lemma Routed_keeps h h' idx kb :
  Routed h -> same_config h h' -> 0 <= idx <= ht_mask h ->
  keeps h h' idx (fun k => k <> kb) -> route h kb 0 = idx -> Routed h'.
Proof.
  intros HR Hc Hidx [H1 H2] Hkb j k v Hj Hh.
  rewrite (route_config h h' k 0 Hc). destruct Hc as (_ & _ & _ & Em). rewrite Em in Hj.
  destruct (decide (j = idx)) as [->|Hne].
  - destruct (decide (k = kb)) as [->|Hk]; [done|].
    apply H2 in Hh; [|done]. by apply (HR idx k v).
  - rewrite H1 in Hh by done. by apply (HR j k v).
Qed.

Lemma set_retry_effect n : forall h idx h1 h2 key ko value vo rz,
  HInv h -> mode h = 1 -> 0 <= idx <= ht_mask h -> 0 <= rz ->
  Forall byte key -> Forall byte value ->
  Hash key ko (ht_keySize h) = (h1, h2) ->
  let kb := slice key ko (Z.to_nat (ht_keySize h)) in
  let vb := slice value vo (Z.to_nat (ht_valueSize h)) in
  (forall v, ~ holds (shard h idx) kb v) ->
  let res := set_retry n h idx h1 h2 key ko value vo rz in
  slack (state_of res) = slack h /\ capacity h <= capacity (state_of res) /\
  keeps h (state_of res) idx (fun k => k <> kb) /\
  match res with
  | Ret h' r => r = 0 /\ forall v, holds (shard h' idx) kb v <-> v = vb
  | Throw h' _ => forall v, ~ holds (shard h' idx) kb v
  end.
Proof.
  induction n as [|n IH];
    intros h idx h1 h2 key ko value vo rz HI Hmode Hidx Hrz Hkey Hval HH kb vb Habs.
  { cbn [set_retry state_of]. split; [done|]. split; [done|]. split; [apply keeps_refl|done]. }
  cbn [set_retry]. cbv zeta.
  destruct (HInv_shard h idx HI Hidx) as (Eks & Evs & Ebk & HIt & HUt).
  specialize (HUt ltac:(lia)).
  set (t := shard h idx) in *.
  pose proof (resize_spec t (Z.shiftl (buckets t) rz) HIt HUt) as Hrs.
  destruct (resize t (Z.shiftl (buckets t) rz)) as [t1 r1|t1 e].
  2:{ destruct Hrs as [-> Href]. unfold t. rewrite HInv_same_table by done.
      cbn [state_of]. split; [done|]. split; [done|]. split; [apply keeps_refl|done]. }
  destruct Hrs as [[-> ->]|[-> Hres]].
  - cbn [Z.eqb negb]. cbv iota. unfold t. rewrite HInv_same_table by done.
    apply IH; (done || lia).
  - cbn [Z.eqb Pos.eqb negb]. cbv iota.
    destruct (HInv_resized h idx t1 _ HI Hmode Hidx Hres) as (HI1 & Hc1 & Hm1 & Hl1 & Hs1).
    pose proof Hres as ((E1 & E2 & E3) & En & _ & HIt1 & HUt1 & _ & Hh1).
    pose proof HI as (_ & Hlen & _).
    set (hc := with_capacity (with_capacity (with_table h idx t1) _) _).
    assert (HIc : HInv hc) by done.
    assert (Hcc : same_config h hc) by done.
    assert (Hsc : shard hc idx = t1) by done.
    assert (Hidxc : 0 <= idx <= ht_mask hc) by done.
    assert (Hmc : mode hc = 1) by done.
    assert (Hslc : slack hc = slack h).
    { unfold slack, hc. cbn [capacity with_capacity with_table tables].
      rewrite all_buckets_insert by lia. fold (shard h idx). fold t. lia. }
    assert (Hcapc : capacity h <= capacity hc).
    { unfold hc. cbn [capacity with_capacity with_table]. fold t. rewrite En.
      rewrite Z.shiftl_mul_pow2 by done.
      pose proof (Z.pow_pos_nonneg 2 rz ltac:(lia) Hrz).
      destruct HIt as ((_ & _ & _ & _ & ? & _) & _). nia. }
    assert (Hkc : keeps h hc idx (fun k => k <> kb)).
    { by apply (keeps_step h hc idx t1). }
    assert (Habsc : forall v, ~ holds t1 kb v).
    { intros v. rewrite Hh1. apply Habs. }
    assert (HH1 : Hash key ko (keySize t1) = (h1, h2)) by (rewrite E1, Eks; done).
    pose proof (Table_set_spec t1 h1 h2 key ko value vo HIt1 HUt1 Hkey Hval HH1) as Hset.
    cbv zeta in Hset. rewrite E1, E2, Eks, Evs in Hset. fold kb vb in Hset.
    destruct (Table_set t1 h1 h2 key ko value vo) as [t2 r2|]; [|done].
    destruct Hset as [(-> & -> & _)|[(-> & Hins & _)|(-> & Hupd)]].
    + cbn [Z.eqb]. cbv iota.
      replace (with_table hc idx t1) with hc
        by (symmetry; rewrite <- Hsc; by apply HInv_same_table).
      assert (Habs' : forall v, ~ holds (shard hc idx) kb v) by (by rewrite Hsc).
      destruct (IH hc idx h1 h2 key ko value vo (rz + 1) HIc Hmc Hidxc ltac:(lia)
                  Hkey Hval HH Habs') as (Hsl & Hcap & Hk & Hm).
      split; [congruence|]. split; [lia|]. split; [|done].
      by apply (keeps_trans h hc _ idx).
    + cbn [Z.eqb]. cbv iota. cbn [state_of].
      destruct Hins as (Hp & _ & _ & _ & Hh2).
      set (h3 := with_length _ _).
      assert (Et : tables h3 = <[Z.to_nat idx := t2]> (tables hc)) by done.
      split; [|split; [done|split; [|split; [done|]]]].
      * rewrite <- Hslc. unfold slack. rewrite Et.
        rewrite all_buckets_insert
          by (unfold hc; cbn [tables with_capacity with_table]; rewrite length_insert; lia).
        fold (shard hc idx). rewrite Hsc.
        unfold params in Hp. injection Hp as _ _ _ -> _.
        change (capacity h3) with (capacity hc). lia.
      * apply (keeps_trans h hc _ idx); [done|done|].
        apply (keeps_step hc h3 idx t2); try done.
        intros k v Hk. rewrite Hsc, Hh2. tauto.
      * intros v. rewrite (shard_same hc h3 idx t2) by done. rewrite Hh2.
        split; [|by right]. intros [Hv|[_ ?]]; [by apply Habsc in Hv|done].
    + destruct Hupd as (_ & _ & _ & _ & [v0 Hv0] & _). by apply Habsc in Hv0.
Qed.

Lemma HashTable_set_effect h key ko value vo :
  Sound h -> mode h <> 2 -> Forall byte key -> Forall byte value ->
  let kb := slice key ko (Z.to_nat (ht_keySize h)) in
  let vb := slice value vo (Z.to_nat (ht_valueSize h)) in
  let idx := route h key ko in
  let res := HashTable_set h key ko value vo in
  Sound (state_of res) /\ same_config h (state_of res) /\
  capacity h <= capacity (state_of res) /\
  keeps h (state_of res) idx (fun k => k <> kb) /\
  match res with
  | Ret h' r =>
      r = HashTable_exist h key ko /\
      ht_length h' = ht_length h + 1 - r /\
      forall v, holds (shard h' idx) kb v <-> v = vb
  | Throw h' _ =>
      HashTable_exist h key ko = 0 /\ ht_length h' = ht_length h /\
      forall v, ~ holds (shard h' idx) kb v
  end.
Proof.
  intros HS Hmode Hkey Hval. cbv zeta. pose proof (Sound_HInv _ HS) as HI.
  pose proof (HashTable_set_spec h key ko value vo HI Hmode Hkey Hval) as Hsp.
  pose proof (exist_stored h key ko HI Hkey) as Hex. cbv zeta in Hex.
  pose proof (route_slice h key ko HI) as Hrs.
  assert (Hmain : let res := HashTable_set h key ko value vo in
    slack (state_of res) = slack h /\ capacity h <= capacity (state_of res) /\
    keeps h (state_of res) (route h key ko)
      (fun k => k <> slice key ko (Z.to_nat (ht_keySize h))) /\
    match res with
    | Ret h' r => r = HashTable_exist h key ko /\
        forall v, holds (shard h' (route h key ko))
                    (slice key ko (Z.to_nat (ht_keySize h))) v <->
                  v = slice value vo (Z.to_nat (ht_valueSize h))
    | Throw h' _ => HashTable_exist h key ko = 0 /\
        forall v, ~ holds (shard h' (route h key ko))
                      (slice key ko (Z.to_nat (ht_keySize h))) v
    end).
  { clear Hsp. revert Hex. unfold HashTable_set, route.
    destruct (mode h =? 2) eqn:Em; [lia|]. cbv zeta.
    pose proof (HInv_mode h 1 HI (or_introl (conj Hmode eq_refl))) as HIm.
    set (hm := with_mode h 1) in *.
    change (ht_valueSize hm) with (ht_valueSize h).
    change (ht_keySize hm) with (ht_keySize h).
    pose proof (value_choice (ht_valueSize h) value vo Hval) as Hvv. cbv zeta in Hvv.
    destruct (if ht_valueSize h =? 0 then (VALUE, 0) else (value, vo)) as [value' vo'].
    cbn [fst snd] in Hvv. destruct Hvv as [Hval' Evb].
    destruct (Hash key ko (ht_keySize h)) as [h1 h2] eqn:HH. cbn [fst snd].
    change (shard_index hm h1 h2) with (shard_index h h1 h2).
    set (idx := shard_index h h1 h2).
    assert (Hidx : 0 <= idx <= ht_mask h).
    { apply shard_index_range. by destruct HI. }
    assert (Hmm : mode hm = 1) by done.
    destruct (HInv_shard hm idx HIm Hidx) as (Eks & Evs & Ebk & HIt & HUt).
    specialize (HUt ltac:(lia)).
    change (ht_keySize hm) with (ht_keySize h) in Eks.
    change (ht_valueSize hm) with (ht_valueSize h) in Evs.
    assert (HH1 : Hash key ko (keySize (shard hm idx)) = (h1, h2)) by (by rewrite Eks).
    pose proof (Table_set_spec (shard hm idx) h1 h2 key ko value' vo' HIt HUt Hkey Hval' HH1)
      as Hset.
    cbv zeta in Hset. rewrite Eks, Evs, Evb in Hset.
    set (kb := slice key ko (Z.to_nat (ht_keySize h))) in *.
    set (vb := slice value vo (Z.to_nat (ht_valueSize h))) in *.
    intros Hex.
    assert (Hk0 : keeps h hm idx (fun k => k <> kb)) by (by split).
    destruct (Table_set (shard hm idx) h1 h2 key ko value' vo') as [t2 r2|]; [|done].
    destruct Hset as [(-> & -> & Habs)|[(-> & Hins & Habs)|(-> & Hupd)]].
    - cbn [Z.eqb]. cbv iota. rewrite HInv_same_table by done.
      pose proof (set_retry_effect 2 hm idx h1 h2 key ko value' vo' 1 HIm Hmm Hidx
                    ltac:(lia) Hkey Hval' HH Habs) as He.
      cbv zeta in He.
      change (ht_keySize hm) with (ht_keySize h) in He.
      change (ht_valueSize hm) with (ht_valueSize h) in He.
      rewrite Evb in He. fold kb vb in He.
      destruct He as (Hsl & Hcap & Hk & Hm). split; [done|]. split; [done|]. split; [done|].
      assert (E0 : HashTable_exist h key ko = 0).
      { destruct Hex as [[_ [v Hv]]|[-> _]]; [by apply Habs in Hv|done]. }
      destruct (set_retry 2 hm idx h1 h2 key ko value' vo' 1) as [h' r|h' e].
      + destruct Hm as [-> Hm]. by rewrite E0.
      + done.
    - cbn [Z.eqb]. cbv iota. cbn [state_of].
      destruct Hins as (Hp & _ & _ & _ & Hh2).
      set (h3 := with_length _ _).
      assert (Et : tables h3 = <[Z.to_nat idx := t2]> (tables hm)) by done.
      pose proof HI as (_ & Hlen & _).
      split; [|split; [done|split; [|split]]].
      + unfold slack. rewrite Et. rewrite all_buckets_insert by (cbn [tables hm with_mode]; lia).
        fold (shard hm idx).
        unfold params in Hp. injection Hp as _ _ _ -> _.
        change (capacity h3) with (capacity h). change (tables hm) with (tables h). lia.
      + apply (keeps_step hm h3 idx t2); try done.
        intros k v Hk. rewrite Hh2. tauto.
      + destruct Hex as [[_ [v Hv]]|[-> _]]; [by apply Habs in Hv|done].
      + intros v. rewrite (shard_same hm h3 idx t2) by done. rewrite Hh2.
        split; [|by right]. intros [Hv|[_ ?]]; [by apply Habs in Hv|done].
    - cbn [Z.eqb Pos.eqb]. cbv iota. cbn [state_of].
      destruct Hupd as (Hp & _ & HU2 & _ & [v0 Hv0] & Hvb & Hoth).
      set (h3 := with_table hm idx t2).
      assert (Et : tables h3 = <[Z.to_nat idx := t2]> (tables hm)) by done.
      pose proof HI as (_ & Hlen & _).
      split; [|split; [done|split; [|split]]].
      + unfold slack. rewrite Et. rewrite all_buckets_insert by (cbn [tables hm with_mode]; lia).
        fold (shard hm idx).
        unfold params in Hp. injection Hp as _ _ _ -> _.
        change (capacity h3) with (capacity h). change (tables hm) with (tables h). lia.
      + by apply (keeps_step hm h3 idx t2).
      + destruct Hex as [[-> _]|[_ Hno]]; [done|by apply Hno in Hv0].
      + intros v. rewrite (shard_same hm h3 idx t2) by done.
        split; [|by intros ->]. intros Hv. apply (holds_unique _ kb v vb (HU2 HUt) Hv Hvb). }
  cbv zeta in Hmain. destruct Hmain as (Hsl & Hcap' & Hk & Hm).
  destruct HS as (_ & _ & _ & Hcap & HR).
  assert (Hall : HInv (state_of (HashTable_set h key ko value vo)) /\
                 same_config h (state_of (HashTable_set h key ko value vo)) /\
                 mode (state_of (HashTable_set h key ko value vo)) = 1).
  { destruct (HashTable_set h key ko value vo); cbn [set_result state_of] in *;
      by destruct Hsp as (? & ? & ? & _). }
  destruct Hall as (HI' & Hc & Hm1).
  split; [|split; [done|split; [done|split; [done|]]]].
  - apply Sound_table; try done.
    + unfold slack in Hsl. lia.
    + apply (Routed_keeps h _ (route h key ko) _ HR Hc (route_range _ _ _ HI) Hk Hrs).
  - destruct (HashTable_set h key ko value vo) as [h' r|h' e]; cbn [set_result] in Hsp.
    + destruct Hm as [Hr Hv]. split; [done|]. split; [|done].
      destruct Hsp as (_ & _ & _ & Hr01 & Hl & _).
      destruct Hr01 as [-> | ->]; cbn [Z.eqb Pos.eqb] in Hl; lia.
    + destruct Hm as [He Hv]. split; [done|]. split; [|done]. by destruct Hsp as (_ & _ & _ & ? & _).
Qed.

(** ** Containers reached through the public operations are sound *)

Lemma apply_op_Sound h op :
  Sound h -> op_ok (ht_keySize h) (ht_valueSize h) op -> Sound (apply_op h op).
Proof.
  intros HS Hok. destruct op as [k ko v vo|k ko v vo|k ko v vo|k ko|k ko]; cbn [apply_op].
  - destruct Hok as [(Hk & _) (Hv & _)].
    destruct (decide (mode h = 2)) as [E|E].
    + by rewrite HashTable_set_locked.
    + by destruct (HashTable_set_effect h k ko v vo HS E Hk Hv) as (? & _).
  - destruct Hok as [(Hk & _) (Hv & _)].
    destruct (decide (mode h = 1)) as [E|E].
    + by rewrite HashTable_cache_locked.
    + pose proof (HashTable_cache_effect h k ko v vo HS E Hk Hv) as H. cbv zeta in H.
      destruct (HashTable_cache h k ko v vo); [|done]. by destruct H as (? & _).
  - destruct Hok as [(Hk & _) _].
    by destruct (HashTable_get_effect h k ko v vo HS Hk) as (? & _).
  - done.
  - destruct Hok as (Hk & _).
    pose proof (HashTable_unset_effect h k ko HS Hk) as H. cbv zeta in H.
    destruct (HashTable_unset h k ko); [|done]. by destruct H as (? & _).
Qed.

Lemma run_Sound ops : forall h,
  Sound h -> Forall (op_ok (ht_keySize h) (ht_valueSize h)) ops -> Sound (run h ops).
Proof.
  induction ops as [|op ops IH]; intros h HS Hok; [done|].
  apply Forall_cons in Hok. destruct Hok as [Hop Hops]. cbn [run fold_left].
  destruct (apply_op_HInv h op (Sound_HInv _ HS) Hop) as [_ (E1 & E2 & _)].
  apply IH; [by apply apply_op_Sound|by rewrite E1, E2].
Qed.

Lemma reachable_Sound ks vs nb nk ops :
  valid_config ks vs nb nk -> Forall (op_ok ks vs) ops ->
  Sound (run (new_HashTable ks vs nb nk) ops).
Proof. intros Hcfg Hops. apply run_Sound; [by apply Sound_new|done]. Qed.

(* ================================================================= *)
(** * Further properties of the public operations

    The container of each statement is one reached from the constructor
    through any sequence of public calls. *)

Lemma same_answers_refl h key ko : same_answers h h key ko.
Proof. by split. Qed.

Lemma holds_shape t k v :
  Shape t -> holds t k v ->
  length k = Z.to_nat (keySize t) /\ Forall byte k /\
  length v = Z.to_nat (valueSize t) /\ Forall byte v.
Proof.
  intros Hsh (i & s & _ & _ & _ & <- & <-). unfold K, V.
  rewrite !length_reg. split; [done|]. split; [by apply reg_byte|].
  split; [done|by apply reg_byte].
Qed.

Lemma slice_all l : slice l 0 (length l) = l.
Proof.
  apply list_eq_same_length with (n := length l); [done|apply length_slice|].
  intros i x y Hi Hx Hy. apply list_lookup_total_correct in Hx, Hy.
  rewrite slice_lookup in Hx by done. unfold rd in Hx.
  destruct (0 + Z.of_nat i <? 0) eqn:E; [lia|].
  replace (Z.to_nat (0 + Z.of_nat i)) with i in Hx by lia. congruence.
Qed.

(** X1: in a reachable container [get] returns what [exist] returns for the
    same key, 0 or 1, and a [get] that misses leaves the caller's buffer
    as it was. *)
Theorem get_agrees_with_exist ks vs nb nk ops key ko out oo :
  valid_config ks vs nb nk -> Forall (op_ok ks vs) ops -> buf_ok key ko ks ->
  let h := run (new_HashTable ks vs nb nk) ops in
  (HashTable_exist h key ko = 0 \/ HashTable_exist h key ko = 1) /\
  (HashTable_get h key ko out oo).2 = HashTable_exist h key ko /\
  (HashTable_exist h key ko = 0 -> (HashTable_get h key ko out oo).1.2 = out).
Proof.
  intros Hcfg Hops (Hkey & _) h.
  pose proof (reachable_Sound ks vs nb nk ops Hcfg Hops) as HS. fold h in HS.
  destruct (exist_stored h key ko (Sound_HInv _ HS) Hkey) as [[-> [v Hv]]|[-> Habs]];
  destruct (get_stored h key ko out oo HS Hkey) as [(-> & -> & Hno)|(-> & v' & Hv' & _ & ->)].
  - by apply Hno in Hv.
  - split; [by right|]. split; [done|]. intros [=].
  - split; [by left|]. done.
  - by apply Habs in Hv'.
Qed.

(** X2: [get] keeps the length of the caller's buffer and writes no byte of
    it outside the [valueSize] bytes at the given offset. *)
Theorem get_writes_value_only ks vs nb nk ops key ko out oo j :
  valid_config ks vs nb nk -> Forall (op_ok ks vs) ops -> buf_ok key ko ks ->
  j < oo \/ oo + vs <= j ->
  let out' := (HashTable_get (run (new_HashTable ks vs nb nk) ops) key ko out oo).1.2 in
  length out' = length out /\ rd out' j = rd out j.
Proof.
  intros Hcfg Hops (Hkey & _) Hj.
  pose proof (reachable_Sound ks vs nb nk ops Hcfg Hops) as HS.
  destruct (reachable_HInv ks vs nb nk ops Hcfg Hops) as (HI & Eks & Evs).
  set (h := run (new_HashTable ks vs nb nk) ops) in *. cbv zeta.
  destruct (get_stored h key ko out oo HS Hkey) as [(_ & -> & _)|(_ & v & Hv & _ & ->)];
    [done|].
  destruct (ht_valueSize h =? 0); [done|].
  destruct (Sound_shard h _ HS (route_range h key ko HI)) as (_ & Ev & (Hsh & _) & _).
  destruct (holds_shape _ _ _ Hsh Hv) as (_ & _ & Hl & _).
  rewrite length_write_bytes. split; [done|].
  apply rd_write_bytes_out. rewrite Hl, Ev, Evs. destruct Hcfg as (_ & _ & ? & _). lia.
Qed.

(** X3: [get] changes the answer to no look-up: after a [get] of any key,
    [exist] and [get] return for every key what they returned before, and
    [length] is the same. *)
Theorem get_keeps_answers ks vs nb nk ops key ko out oo key' ko' :
  valid_config ks vs nb nk -> Forall (op_ok ks vs) ops ->
  buf_ok key ko ks -> buf_ok key' ko' ks ->
  let h := run (new_HashTable ks vs nb nk) ops in
  let h' := (HashTable_get h key ko out oo).1.1 in
  same_answers h h' key' ko' /\ ht_length h' = ht_length h.
Proof.
  intros Hcfg Hops (Hkey & _) (Hkey' & _) h.
  pose proof (reachable_Sound ks vs nb nk ops Hcfg Hops) as HS. fold h in HS.
  destruct (HashTable_get_effect h key ko out oo HS Hkey) as (HS' & Hc & Hk).
  pose proof (HashTable_get_spec h key ko out oo (Sound_HInv _ HS) Hkey) as Hsp.
  cbv zeta in *. split.
  - by apply (answers_keep h _ _ _ key' ko' HS HS' Hc Hk Hkey').
  - destruct (HashTable_get h key ko out oo) as [[h' out'] r]. by destruct Hsp as (_ & _ & _ & ? & _).
Qed.

(** X4: a [set] that returns tells whether the key was stored: it returns
    what [exist] returned before the call, 1 for a key that was stored
    (its value is replaced and [length] stays) and 0 for a new key
    ([length] grows by one); afterwards [exist] finds the key. *)
Theorem set_returns_presence ks vs nb nk ops key ko value vo h' r :
  valid_config ks vs nb nk -> Forall (op_ok ks vs) ops ->
  buf_ok key ko ks -> buf_ok value vo vs ->
  HashTable_set (run (new_HashTable ks vs nb nk) ops) key ko value vo = Ret h' r ->
  r = HashTable_exist (run (new_HashTable ks vs nb nk) ops) key ko /\
  ht_length h' = ht_length (run (new_HashTable ks vs nb nk) ops) + 1 - r /\
  HashTable_exist h' key ko = 1.
Proof.
  intros Hcfg Hops (Hkey & _) (Hval & _) Hset.
  pose proof (reachable_Sound ks vs nb nk ops Hcfg Hops) as HS.
  set (h := run (new_HashTable ks vs nb nk) ops) in *.
  assert (Hmode : mode h <> 2).
  { intros E. rewrite HashTable_set_locked in Hset by done. discriminate. }
  pose proof (HashTable_set_effect h key ko value vo HS Hmode Hkey Hval) as He.
  cbv zeta in He. rewrite Hset in He. cbn [state_of] in He.
  destruct He as (HS' & Hc & _ & _ & Hr & Hl & Hv). split; [done|]. split; [done|].
  destruct (exist_stored h' key ko (Sound_HInv _ HS') Hkey) as [[-> _]|[_ Habs]]; [done|].
  exfalso. rewrite (route_config h h' key ko Hc) in Habs.
  destruct Hc as (Ek & _). rewrite Ek in Habs.
  apply (Habs (slice value vo (Z.to_nat (ht_valueSize h)))). by apply Hv.
Qed.

(** X5: [set] changes the answers for no other key: whether it returns or
    throws, [exist] and [get] return for every key with other bytes what
    they returned before the call. *)
Theorem set_keeps_other_keys ks vs nb nk ops key ko value vo key' ko' :
  valid_config ks vs nb nk -> Forall (op_ok ks vs) ops ->
  buf_ok key ko ks -> buf_ok value vo vs -> buf_ok key' ko' ks ->
  slice key' ko' (Z.to_nat ks) <> slice key ko (Z.to_nat ks) ->
  let h := run (new_HashTable ks vs nb nk) ops in
  same_answers h (state_of (HashTable_set h key ko value vo)) key' ko'.
Proof.
  intros Hcfg Hops (Hkey & _) (Hval & _) (Hkey' & _) Hne h.
  pose proof (reachable_Sound ks vs nb nk ops Hcfg Hops) as HS.
  destruct (reachable_HInv ks vs nb nk ops Hcfg Hops) as (_ & Eks & _).
  fold h in HS, Eks.
  destruct (decide (mode h = 2)) as [E|E].
  { rewrite HashTable_set_locked by done. apply same_answers_refl. }
  pose proof (HashTable_set_effect h key ko value vo HS E Hkey Hval) as He.
  cbv zeta in He. destruct He as (HS' & Hc & _ & Hk & _).
  apply (answers_keep h _ _ _ key' ko' HS HS' Hc Hk Hkey'). intros _. by rewrite Eks.
Qed.

(** X6: a [set] that throws has changed the answer to no look-up and not
    the [length]; and unless it is the mode error, the key was not
    stored: [set] never fails on a key that it only has to update. *)
Theorem failed_set_changes_nothing ks vs nb nk ops key ko value vo h' e key' ko' :
  valid_config ks vs nb nk -> Forall (op_ok ks vs) ops ->
  buf_ok key ko ks -> buf_ok value vo vs -> buf_ok key' ko' ks ->
  HashTable_set (run (new_HashTable ks vs nb nk) ops) key ko value vo = Throw h' e ->
  ht_length h' = ht_length (run (new_HashTable ks vs nb nk) ops) /\
  same_answers (run (new_HashTable ks vs nb nk) ops) h' key' ko' /\
  (e <> ERROR_MODE -> HashTable_exist (run (new_HashTable ks vs nb nk) ops) key ko = 0).
Proof.
  intros Hcfg Hops (Hkey & _) (Hval & _) (Hkey' & _) Hset.
  pose proof (reachable_Sound ks vs nb nk ops Hcfg Hops) as HS.
  destruct (reachable_HInv ks vs nb nk ops Hcfg Hops) as (HI & Eks & _).
  set (h := run (new_HashTable ks vs nb nk) ops) in *.
  destruct (decide (mode h = 2)) as [E|E].
  { rewrite HashTable_set_locked in Hset by done. injection Hset as <- <-.
    split; [done|]. split; [apply same_answers_refl|done]. }
  pose proof (HashTable_set_effect h key ko value vo HS E Hkey Hval) as He.
  cbv zeta in He. rewrite Hset in He. cbn [state_of] in He.
  destruct He as (HS' & Hc & _ & Hk & Hex & Hl & Habs'). rewrite Eks in Habs'.
  split; [done|]. split; [|done].
  destruct (decide (slice key' ko' (Z.to_nat ks) = slice key ko (Z.to_nat ks))) as [Es|Hne].
  - apply answers_stored; try done.
    assert (Er : route h key' ko' = route h key ko).
    { rewrite <- (route_slice h key' ko' HI), <- (route_slice h key ko HI).
      by rewrite Eks, Es. }
    rewrite Er, Eks, Es. intros v. split; intros Hv; exfalso.
    + by apply Habs' in Hv.
    + destruct (exist_stored h key ko HI Hkey) as [[? _]|[_ Habs]]; [congruence|].
      rewrite Eks in Habs. by apply Habs in Hv.
  - apply (answers_keep h _ _ _ key' ko' HS HS' Hc Hk Hkey'). intros _. by rewrite Eks.
Qed.

(** X7: [unset] never throws.  It returns what [exist] returned before the
    call, takes that much from [length], and afterwards [exist] does not
    find the key, in a table and in a cache alike; an [unset] of a key
    that is not stored leaves the whole container as it was. *)
Theorem unset_removes_key ks vs nb nk ops key ko :
  valid_config ks vs nb nk -> Forall (op_ok ks vs) ops -> buf_ok key ko ks ->
  let h := run (new_HashTable ks vs nb nk) ops in
  exists h',
    HashTable_unset h key ko = Ret h' (HashTable_exist h key ko) /\
    ht_length h' = ht_length h - HashTable_exist h key ko /\
    HashTable_exist h' key ko = 0 /\
    (HashTable_exist h key ko = 0 -> h' = h).
Proof.
  intros Hcfg Hops (Hkey & _) h.
  pose proof (reachable_Sound ks vs nb nk ops Hcfg Hops) as HS. fold h in HS.
  pose proof (HashTable_unset_effect h key ko HS Hkey) as He. cbv zeta in He.
  destruct (HashTable_unset h key ko) as [h' r|]; [|done].
  destruct He as (HS' & Hc & -> & Hl & _ & Habs & Hsame).
  exists h'. split; [done|]. split; [done|]. split; [|done].
  destruct (exist_stored h' key ko (Sound_HInv _ HS') Hkey) as [[_ [v Hv]]|[-> _]]; [|done].
  exfalso. rewrite (route_config h h' key ko Hc) in Hv.
  destruct Hc as (Ek & _). rewrite Ek in Hv. by apply Habs in Hv.
Qed.

(** X8: [unset] changes the answers for no other key. *)
Theorem unset_keeps_other_keys ks vs nb nk ops key ko key' ko' :
  valid_config ks vs nb nk -> Forall (op_ok ks vs) ops ->
  buf_ok key ko ks -> buf_ok key' ko' ks ->
  slice key' ko' (Z.to_nat ks) <> slice key ko (Z.to_nat ks) ->
  let h := run (new_HashTable ks vs nb nk) ops in
  same_answers h (state_of (HashTable_unset h key ko)) key' ko'.
Proof.
  intros Hcfg Hops (Hkey & _) (Hkey' & _) Hne h.
  pose proof (reachable_Sound ks vs nb nk ops Hcfg Hops) as HS.
  destruct (reachable_HInv ks vs nb nk ops Hcfg Hops) as (_ & Eks & _).
  fold h in HS, Eks.
  pose proof (HashTable_unset_effect h key ko HS Hkey) as He. cbv zeta in He.
  destruct (HashTable_unset h key ko) as [h' r|]; [|done].
  destruct He as (HS' & Hc & _ & _ & Hk & _ & _). cbn [state_of].
  apply (answers_keep h _ _ _ key' ko' HS HS' Hc Hk Hkey'). intros _. by rewrite Eks.
Qed.

(** X9: on a container that is not a table [cache] never throws.  It
    returns 1 exactly when the key was stored, else 0 or 2, and [length]
    grows by one exactly when it returns 0; a [get] of the key that
    follows returns 1 and writes the cached value. *)
Theorem cache_then_get ks vs nb nk ops key ko value vo out oo :
  valid_config ks vs nb nk -> Forall (op_ok ks vs) ops ->
  buf_ok key ko ks -> buf_ok value vo vs -> buf_ok out oo vs ->
  mode (run (new_HashTable ks vs nb nk) ops) <> 1 ->
  exists h' r,
    HashTable_cache (run (new_HashTable ks vs nb nk) ops) key ko value vo = Ret h' r /\
    (r = 0 \/ r = 1 \/ r = 2) /\
    (r = 1 <-> HashTable_exist (run (new_HashTable ks vs nb nk) ops) key ko = 1) /\
    ht_length h' =
      ht_length (run (new_HashTable ks vs nb nk) ops) + (if r =? 0 then 1 else 0) /\
    (HashTable_get h' key ko out oo).2 = 1 /\
    slice (HashTable_get h' key ko out oo).1.2 oo (Z.to_nat vs) =
      slice value vo (Z.to_nat vs).
Proof.
  intros Hcfg Hops (Hkey & _) (Hval & _) (Hout & Ho0 & Hol) Hmode.
  pose proof (reachable_Sound ks vs nb nk ops Hcfg Hops) as HS.
  destruct (reachable_HInv ks vs nb nk ops Hcfg Hops) as (HI & Eks & Evs).
  set (h := run (new_HashTable ks vs nb nk) ops) in *.
  pose proof (HashTable_cache_effect h key ko value vo HS Hmode Hkey Hval) as He.
  cbv zeta in He.
  destruct (HashTable_cache h key ko value vo) as [h' r|]; [|done].
  destruct He as (HS' & Hc & Hl & Hv & Hcase).
  exists h', r. split; [done|]. split; [|split; [|split; [done|]]].
  - destruct Hcase as [(-> & _)|[(-> & _)|(-> & _)]]; tauto.
  - destruct Hcase as [(-> & -> & _)|[(-> & -> & _)|(-> & -> & _)]]; split; done.
  - pose proof Hc as (Ek & Ev & _).
    destruct (get_stored h' key ko out oo HS' Hkey) as [(_ & _ & Habs)|(-> & v & Hv' & _ & ->)].
    + exfalso. rewrite (route_config h h' key ko Hc), Ek in Habs.
      apply (Habs (slice value vo (Z.to_nat (ht_valueSize h)))). by apply Hv.
    + split; [done|].
      rewrite (route_config h h' key ko Hc), Ek in Hv'. apply Hv in Hv'. subst v.
      rewrite Ev, Evs. destruct (vs =? 0) eqn:E0.
      * apply Z.eqb_eq in E0. by rewrite E0.
      * set (vb := slice value vo (Z.to_nat vs)).
        assert (Hlen : length vb = Z.to_nat vs) by apply length_slice.
        destruct Hcfg as (_ & _ & Hvs0 & _).
        rewrite <- Hlen. apply slice_write_bytes_in; [done|lia|by apply bytes_slice].
Qed.

(** X10: [cache] loses at most one element, and only when it returns 2.
    When it returns 0 or 1, [exist] and [get] return for every other key
    what they returned before.  When it returns 2, one other key that was
    stored is no longer found, and the answers for all the keys but these
    two are as before. *)
Theorem cache_evicts_one ks vs nb nk ops key ko value vo h' r :
  valid_config ks vs nb nk -> Forall (op_ok ks vs) ops ->
  buf_ok key ko ks -> buf_ok value vo vs ->
  HashTable_cache (run (new_HashTable ks vs nb nk) ops) key ko value vo = Ret h' r ->
  let h := run (new_HashTable ks vs nb nk) ops in
  let others (ke : list Z) :=
    forall key' ko', buf_ok key' ko' ks ->
      slice key' ko' (Z.to_nat ks) <> slice key ko (Z.to_nat ks) ->
      slice key' ko' (Z.to_nat ks) <> ke ->
      same_answers h h' key' ko' in
  (r <> 2 -> others (slice key ko (Z.to_nat ks))) /\
  (r = 2 ->
   exists ke, length ke = Z.to_nat ks /\ Forall byte ke /\
     ke <> slice key ko (Z.to_nat ks) /\
     HashTable_exist h ke 0 = 1 /\ HashTable_exist h' ke 0 = 0 /\ others ke).
Proof.
  intros Hcfg Hops (Hkey & _) (Hval & _) Hca.
  pose proof (reachable_Sound ks vs nb nk ops Hcfg Hops) as HS.
  destruct (reachable_HInv ks vs nb nk ops Hcfg Hops) as (HI & Eks & Evs).
  set (h := run (new_HashTable ks vs nb nk) ops) in *. cbv zeta.
  assert (Hmode : mode h <> 1).
  { intros E. rewrite HashTable_cache_locked in Hca by done. discriminate. }
  pose proof (HashTable_cache_effect h key ko value vo HS Hmode Hkey Hval) as He.
  cbv zeta in He. rewrite Hca in He. rewrite Eks in He.
  destruct He as (HS' & Hc & _ & _ & Hcase).
  pose proof (Sound_HInv _ HS') as HI'.
  assert (Hkeep : forall key' ko', buf_ok key' ko' ks ->
            slice key' ko' (Z.to_nat ks) <> slice key ko (Z.to_nat ks) ->
            keeps h h' (route h key ko) (fun k => k <> slice key ko (Z.to_nat ks)) ->
            same_answers h h' key' ko').
  { intros key' ko' (Hkey' & _) Hne Hk.
    apply (answers_keep h _ _ _ key' ko' HS HS' Hc Hk Hkey'). intros _. by rewrite Eks. }
  split.
  - intros Hr key' ko' Hb Hne _.
    destruct Hcase as [(_ & _ & Hk)|[(_ & _ & Hk)|(-> & _)]]; [by apply Hkeep..|done].
  - intros ->. destruct Hcase as [([=] & _)|[([=] & _)|(_ & _ & ke & ve & Hne & Hke & Hno & Hk)]].
    destruct (Sound_shard h _ HS (route_range h key ko HI)) as (Ek & _ & (Hsh & _) & _).
    destruct (holds_shape _ _ _ Hsh Hke) as (Hlen & Hbytes & _).
    rewrite Ek, Eks in Hlen.
    assert (Hsl : slice ke 0 (Z.to_nat ks) = ke) by (rewrite <- Hlen; apply slice_all).
    assert (Hrt : route h ke 0 = route h key ko).
    { destruct HS as (_ & _ & _ & _ & HR).
      apply (HR _ ke ve); [by apply route_range|done]. }
    exists ke. split; [done|]. split; [done|]. split; [done|]. split; [|split].
    + destruct (exist_stored h ke 0 HI Hbytes) as [[-> _]|[_ Habs]]; [done|].
      exfalso. rewrite Hrt, Eks, Hsl in Habs. by apply Habs in Hke.
    + destruct (exist_stored h' ke 0 HI' Hbytes) as [[_ [v Hv]]|[-> _]]; [|done].
      exfalso. rewrite (route_config h h' ke 0 Hc), Hrt in Hv.
      destruct Hc as (Ek' & _). rewrite Ek', Eks, Hsl in Hv. by apply Hno in Hv.
    + intros key' ko' (Hkey' & _) Hn1 Hn2.
      apply (answers_keep h _ _ _ key' ko' HS HS' Hc Hk Hkey'). intros _. by rewrite Eks.
Qed.

(** ** Sizes *)

Lemma sum_upto_le n f c :
  (forall j, 0 <= j < Z.of_nat n -> f j <= c) -> sum_upto n f <= c * Z.of_nat n.
Proof.
  induction n as [|n IH]; intros H; [simpl; lia|].
  cbn [sum_upto]. pose proof (H (Z.of_nat n) ltac:(lia)).
  pose proof (IH ltac:(intros; apply H; lia)). lia.
Qed.

Lemma occupied_range t : Shape t -> 0 <= occupied t <= 8 * buckets t.
Proof.
  intros (_ & _ & _ & _ & Hn & _). unfold occupied. split.
  - apply grid_nonneg. intros. apply b2z_range.
  - unfold grid.
    pose proof (sum_upto_le (Z.to_nat (buckets t))
      (fun i => sum_upto 8 (fun s => b2z (P t i s))) 8) as H.
    rewrite Z2Nat.id in H by lia. apply H.
    intros i _. pose proof (sum_upto_le 8 (fun s => b2z (P t i s)) 1) as H1.
    change (1 * Z.of_nat 8) with 8 in H1. apply H1. intros. apply b2z_range.
Qed.

(** The bytes of the buffers of all the shards. *)
Definition all_bytes (ts : list Table) : Z :=
  foldr (fun t acc => Z.of_nat (length (buffer t)) + acc) 0 ts.

(** The getter [size]: [capacity / 8 * bucket], a number of bytes.  The
    division is modelled where it is exact, for a [capacity] that is a
    multiple of 8: [None] stands for the other values. *)
Definition HashTable_size (h : HashTable) : option (Res HashTable Z) :=
  if capacity h mod 8 =? 0 then
    let size := capacity h / 8 * ht_bucket h in
    match Assert_GE "size" size 0 with
    | Some e => Some (Throw h e)
    | None => Some (Ret h size)
    end
  else None.

Lemma sizes_sum ks vs bk m ts :
  Forall (shard_ok ks vs bk m) ts ->
  0 <= total ts <= 8 * all_buckets ts /\ 0 <= all_buckets ts /\
  all_bytes ts = all_buckets ts * bk.
Proof.
  induction ts as [|t ts IH]; intros H; [done|].
  apply Forall_cons in H. destruct H as [(_ & _ & Eb & (Hsh & _) & _) H].
  destruct (IH H) as (? & ? & ?). pose proof (occupied_range t Hsh).
  destruct Hsh as (_ & _ & _ & _ & ? & _ & Hl & _).
  change (total (t :: ts)) with (occupied t + total ts).
  change (all_buckets (t :: ts)) with (buckets t + all_buckets ts).
  change (all_bytes (t :: ts)) with (Z.of_nat (length (buffer t)) + all_bytes ts).
  subst bk. nia.
Qed.

(** X11: [capacity] is eight slots for every bucket of every shard, also
    after the resizes of [set]; [length] never exceeds it; and the getter
    [size] returns, without throwing, the bytes of the buffers of all the
    shards. *)
Theorem capacity_counts_slots ks vs nb nk ops :
  valid_config ks vs nb nk -> Forall (op_ok ks vs) ops ->
  let h := run (new_HashTable ks vs nb nk) ops in
  capacity h = 8 * all_buckets (tables h) /\
  0 <= ht_length h <= capacity h /\
  HashTable_size h = Some (Ret h (all_bytes (tables h))).
Proof.
  intros Hcfg Hops h.
  pose proof (reachable_Sound ks vs nb nk ops Hcfg Hops) as HS. fold h in HS.
  destruct HS as ((_ & _ & Hall & Hlen & _) & _ & _ & Hcap & _).
  destruct (sizes_sum _ _ _ _ _ Hall) as (Ht & Hb & Hby).
  split; [done|]. split; [lia|].
  assert (Hbk : 0 <= ht_bucket h).
  { destruct (tables h) as [|t ts] eqn:E.
    - destruct (reachable_HInv ks vs nb nk ops Hcfg Hops) as ((Hm & Hl & _) & _).
      fold h in Hm, Hl. rewrite E in Hl. simpl in Hl. lia.
    - apply Forall_cons in Hall. destruct Hall as [(_ & _ & Eb & (Hsh & _) & _) _].
      unfold Shape in Hsh. lia. }
  unfold HashTable_size. rewrite Hcap.
  replace (8 * all_buckets (tables h) mod 8) with 0
    by (symmetry; rewrite Z.mul_comm; apply Z_mod_mult).
  cbn [Z.eqb]. cbv zeta.
  replace (8 * all_buckets (tables h) / 8) with (all_buckets (tables h))
    by (symmetry; rewrite Z.mul_comm; apply Z.div_mul; lia).
  unfold Assert_GE. destruct (_ <? 0) eqn:E; [apply Z.ltb_lt in E; nia|].
  by rewrite Hby.
Qed.

Lemma new_holds_none ks vs nb nk j k v :
  valid_config ks vs nb nk -> 0 <= j <= ht_mask (new_HashTable ks vs nb nk) ->
  ~ holds (shard (new_HashTable ks vs nb nk) j) k v.
Proof.
  intros (Hks & Hk4 & Hvs & Hnb & Hnk) Hj.
  pose proof (HashTable_bucket_fits ks vs Hks Hvs) as Hbk.
  destruct (new_table_spec ks vs (HashTable_bucket ks vs) nk Hks Hk4 Hvs Hbk Hnk)
    as (_ & _ & _ & Hnone).
  unfold shard, new_HashTable in *. cbv zeta in *.
  cbn [tables ht_mask] in *. rewrite lookup_total_replicate_2 by lia. apply Hnone.
Qed.

(** X12: a new container stores nothing: [exist] and [get] return 0 for
    every key and [get] writes nothing. *)
Theorem new_container_is_empty ks vs nb nk key ko out oo :
  valid_config ks vs nb nk -> buf_ok key ko ks ->
  HashTable_exist (new_HashTable ks vs nb nk) key ko = 0 /\
  (HashTable_get (new_HashTable ks vs nb nk) key ko out oo).2 = 0 /\
  (HashTable_get (new_HashTable ks vs nb nk) key ko out oo).1.2 = out.
Proof.
  intros Hcfg (Hkey & _).
  pose proof (Sound_new ks vs nb nk Hcfg) as HS.
  pose proof (Sound_HInv _ HS) as HI.
  set (h := new_HashTable ks vs nb nk) in *.
  assert (Hno : forall v, ~ holds (shard h (route h key ko))
                            (slice key ko (Z.to_nat (ht_keySize h))) v).
  { intros v. apply new_holds_none; [done|by apply route_range]. }
  destruct (exist_stored h key ko HI Hkey) as [[_ [v Hv]]|[-> _]]; [by apply Hno in Hv|].
  split; [done|].
  destruct (get_stored h key ko out oo HS Hkey) as [(-> & -> & _)|(_ & v & Hv & _)];
    [done|by apply Hno in Hv].
Qed.

(** X13: no key is stored twice: in a reachable container, table or cache,
    two occupied slots that hold the same key are the same slot of the
    same bucket of the same shard. *)
Theorem keys_stored_once ks vs nb nk ops j i s j' i' s' :
  valid_config ks vs nb nk -> Forall (op_ok ks vs) ops ->
  let h := run (new_HashTable ks vs nb nk) ops in
  0 <= j <= ht_mask h -> inb (shard h j) i -> 0 <= s < 8 ->
  0 <= j' <= ht_mask h -> inb (shard h j') i' -> 0 <= s' < 8 ->
  P (shard h j) i s = true -> P (shard h j') i' s' = true ->
  K (shard h j) i s = K (shard h j') i' s' ->
  j = j' /\ i = i' /\ s = s'.
Proof.
  intros Hcfg Hops h Hj Hi Hs Hj' Hi' Hs' HP HP' HK.
  pose proof (reachable_Sound ks vs nb nk ops Hcfg Hops) as HS. fold h in HS.
  pose proof HS as (_ & _ & _ & _ & HR).
  assert (Ej : j = j').
  { rewrite <- (HR j (K (shard h j) i s) (V (shard h j) i s) Hj).
    - rewrite HK. apply (HR j' _ (V (shard h j') i' s') Hj'). by exists i', s'.
    - by exists i, s. }
  subst j'. split; [done|].
  destruct (Sound_shard h j HS Hj) as (_ & _ & _ & HU & _).
  by apply (HU i s i' s').
Qed.

(** X14: a container that is not a table has no second-position element:
    every occupied slot is in the first-position bucket of its key, and
    every second-position counter is 0.  ([cache] relies on it when it
    scans the first-position bucket only.) *)
Theorem cache_keeps_first_position ks vs nb nk ops t i s :
  valid_config ks vs nb nk -> Forall (op_ok ks vs) ops ->
  mode (run (new_HashTable ks vs nb nk) ops) <> 1 ->
  t ∈ tables (run (new_HashTable ks vs nb nk) ops) ->
  inb t i -> 0 <= s < 8 ->
  C t i = 0 /\ (P t i s = true -> i = home t (K t i s)).
Proof.
  intros Hcfg Hops Hmode Hin Hi Hs.
  pose proof (reachable_Sound ks vs nb nk ops Hcfg Hops) as (HI & _ & HQ & _).
  specialize (HQ Hmode).
  pose proof (proj1 (Forall_forall _ _) HQ t Hin) as HQt.
  destruct (reachable_shard _ t HI Hin) as [HIt _].
  split; [by apply HQt|]. intros HP. by apply quiet_home.
Qed.

Lemma capacity_get h key ko out oo :
  capacity (HashTable_get h key ko out oo).1.1 = capacity h.
Proof.
  unfold HashTable_get. destruct (Hash key ko (ht_keySize h)) as [h1 h2].
  destruct (ht_valueSize h =? 0).
  - by destruct (Table_get _ h1 h2 key ko VALUE 0) as [[t' out'] r].
  - by destruct (Table_get _ h1 h2 key ko out oo) as [[t' out'] r].
Qed.

Lemma capacity_unset h key ko :
  capacity (state_of (HashTable_unset h key ko)) = capacity h.
Proof.
  unfold HashTable_unset. destruct (Hash key ko (ht_keySize h)) as [h1 h2].
  destruct (Table_unset _ h1 h2 key ko) as [t' r|t' e]; [|done].
  cbn [state_of]. by destruct (r =? 1).
Qed.

Lemma capacity_cache h key ko value vo :
  capacity (state_of (HashTable_cache h key ko value vo)) = capacity h.
Proof.
  unfold HashTable_cache. destruct (mode h =? 1); [done|]. cbv zeta.
  destruct (if ht_valueSize (with_mode h 2) =? 0 then (VALUE, 0) else (value, vo))
    as [value' vo'].
  destruct (Hash key ko (ht_keySize (with_mode h 2))) as [h1 h2].
  destruct (Table_cache _ h1 h2 key ko value' vo') as [t' r].
  cbn [state_of]. by destruct (r =? 0).
Qed.

(** X15: the container never shrinks: no call lowers [capacity], and only
    [set] changes it; [cache], [get], [exist] and [unset] leave it as it
    was. *)
Theorem capacity_never_shrinks ks vs nb nk ops op :
  valid_config ks vs nb nk -> Forall (op_ok ks vs) ops -> op_ok ks vs op ->
  let h := run (new_HashTable ks vs nb nk) ops in
  capacity h <= capacity (apply_op h op) /\
  (capacity h < capacity (apply_op h op) ->
   exists key ko value vo, op = OpSet key ko value vo).
Proof.
  intros Hcfg Hops Hop h.
  pose proof (reachable_Sound ks vs nb nk ops Hcfg Hops) as HS. fold h in HS.
  destruct op as [k ko v vo|k ko v vo|k ko v vo|k ko|k ko]; cbn [apply_op].
  - split; [|intros _; by exists k, ko, v, vo].
    destruct Hop as [(Hk & _) (Hv & _)].
    destruct (decide (mode h = 2)) as [E|E].
    + by rewrite HashTable_set_locked.
    + by destruct (HashTable_set_effect h k ko v vo HS E Hk Hv) as (_ & _ & ? & _).
  - rewrite capacity_cache. split; lia.
  - rewrite capacity_get. split; lia.
  - split; lia.
  - rewrite capacity_unset. split; lia.
Qed.

(** X16: a shard [get] returns 0 or 1.  One that returns 0 leaves the
    shard as it was.  One that returns 1 found the key in an occupied slot
    and sets the recently-used bit of that slot (byte 18 of its bucket)
    and nothing else: the other bits of that byte, every other metadata
    byte of every bucket, and all keys and values are as before. *)
Theorem get_marks_recently_used t h1 h2 key ko out oo :
  Inv t -> buf_ok key ko (keySize t) -> Hash key ko (keySize t) = (h1, h2) ->
  let t' := (Table_get t h1 h2 key ko out oo).1.1 in
  let r := (Table_get t h1 h2 key ko out oo).2 in
  (r = 0 \/ r = 1) /\
  (r = 0 -> t' = t) /\
  (r = 1 ->
   exists i s, inb t i /\ 0 <= s < 8 /\ P t i s = true /\
     K t i s = slice key ko (Z.to_nat (keySize t)) /\
     M t' i 18 = Z.lor (M t i 18) (Z.shiftl 1 s) /\
     Z.testbit (M t' i 18) s = true /\
     forall j c, inb t j -> 0 <= c < 20 -> ~ (j = i /\ c = 18) -> M t' j c = M t j c) /\
  (forall i s, inb t i -> 0 <= s < 8 ->
     P t' i s = P t i s /\ K t' i s = K t i s /\ V t' i s = V t i s).
Proof.
  intros HI [Hkey _] HH. cbv zeta. pose proof HI as (Hsh & _).
  assert (HKV : forall i s, inb t i -> 0 <= s < 8 ->
     P (Table_get t h1 h2 key ko out oo).1.1 i s = P t i s /\
     K (Table_get t h1 h2 key ko out oo).1.1 i s = K t i s /\
     V (Table_get t h1 h2 key ko out oo).1.1 i s = V t i s).
  { destruct (Table_get_frame t h1 h2 key ko out oo Hsh) as (i0 & Hi0 & Hfr).
    intros i s Hi Hs. split; [|split].
    - apply (Frame_P _ _ _ _ _ _ Hfr); fside.
    - apply (Frame_K _ _ _ _ _ _ Hfr); fside.
    - apply (Frame_V _ _ _ _ _ _ Hfr); fside. }
  rewrite Hash_slice in HH by done.
  set (kb := slice key ko (Z.to_nat (keySize t))) in *.
  destruct (hashk_home _ _ _ _ HH) as (Ehome & Ealt & Etag).
  revert HKV. unfold Table_get. cbv zeta.
  change (Z.land (Z.shiftr h1 16) 255) with (tag_of h1).
  rewrite <- Ehome, <- Ealt, <- Etag. rewrite filter_test by done.
  assert (Hhit : forall i, inb t i ->
    let s := scan t (i * bucket t) (tagk t kb) key ko in
    s < 8 ->
    let t1 := bset t (i * bucket t + 18) (Z.lor (bget t (i * bucket t + 18)) (Z.shiftl 1 s)) in
    exists i s, inb t i /\ 0 <= s < 8 /\ P t i s = true /\ K t i s = kb /\
      M t1 i 18 = Z.lor (M t i 18) (Z.shiftl 1 s) /\
      Z.testbit (M t1 i 18) s = true /\
      forall j c, inb t j -> 0 <= c < 20 -> ~ (j = i /\ c = 18) -> M t1 j c = M t j c).
  { intros i Hi s Hlt. cbv zeta. destruct (scan_hit t i _ key ko Hsh Hlt) as [Hr (_ & HP & HK)].
    fold s kb in Hr, HP, HK. rewrite bset_put.
    destruct (Frame_meta t i 18 (Z.lor (bget t (i * bucket t + 18)) (Z.shiftl 1 s)) Hsh Hi
                ltac:(lia)) as [Hfr HV].
    set (t1 := put t i 18 _) in *.
    rewrite mod_byte in HV by (apply byte_lor_bit; [by apply (M_byte t i 18)|done]).
    exists i, s. split; [done|]. split; [done|]. split; [done|]. split; [done|].
    split; [done|]. split.
    - rewrite HV, testbit_set by lia. rewrite Z.eqb_refl. apply orb_true_r.
    - intros j c Hj Hc Hne. apply (Frame_M _ _ _ _ _ _ Hfr); try done; cells. }
  destruct (fbit t (home t kb) (tagk t kb)); cbn [negb].
  2:{ intros HKV. cbn [fst snd]. split; [by left|]. split; [done|]. split; [discriminate|done]. }
  destruct (scan t (home t kb * bucket t) (tagk t kb) key ko <? 8) eqn:E1.
  { intros HKV. apply Z.ltb_lt in E1. cbn [fst snd]. split; [by right|].
    split; [discriminate|]. split; [|done]. intros _.
    by apply (Hhit (home t kb) (home_inb t kb Hsh)). }
  destruct (scan t (alt t kb * bucket t) (tagk t kb) key ko <? 8) eqn:E2.
  2:{ intros HKV. cbn [fst snd]. split; [by left|]. split; [done|]. split; [discriminate|done]. }
  intros HKV. apply Z.ltb_lt in E2. cbn [fst snd]. split; [by right|].
  split; [discriminate|]. split; [|done]. intros _.
  by apply (Hhit (alt t kb) (alt_inb t kb Hsh)).
Qed.

(* ================================================================= *)
(** * Further properties of the shard's helpers *)

(** X17: the slot lookup table gives, for every byte [p] of presence
    bits, the index of the lowest bit of [p] that is clear, the first
    empty slot: the bit at that index is clear and every bit below it is
    set; the entry is 8 exactly for 255, a full bucket. *)
Theorem SLOT_first_clear_bit p :
  0 <= p < 256 ->
  0 <= rd SLOT p <= 8 /\
  (rd SLOT p = 8 <-> p = 255) /\
  (rd SLOT p < 8 -> Z.testbit p (rd SLOT p) = false) /\
  (forall j, 0 <= j < rd SLOT p -> Z.testbit p j = true).
Proof.
  intros Hp.
  pose (Q := fun p =>
     (0 <=? rd SLOT p) && (rd SLOT p <=? 8) &&
     Bool.eqb (rd SLOT p =? 8) (p =? 255) &&
     ((8 <=? rd SLOT p) || negb (Z.testbit p (rd SLOT p))) &&
     forallb (fun j => (rd SLOT p <=? j) || Z.testbit p j) (seqZ 0 8)).
  assert (HQ : Q p = true) by (apply byte_forallb; [by vm_compute|done]).
  unfold Q in HQ. rewrite !andb_true_iff in HQ.
  destruct HQ as [[[[H1 H2] H3] H4] H5]. apply Bool.eqb_prop in H3.
  assert (H8 : rd SLOT p <= 8) by lia.
  split; [lia|]. split; [|split].
  - rewrite <- !Z.eqb_eq. by rewrite H3.
  - intros Hlt. apply orb_true_iff in H4. destruct H4 as [H4|H4]; [lia|].
    by apply negb_true_iff in H4.
  - intros j Hj.
    pose proof (slot_forallb _ H5 j ltac:(lia)) as H6. cbv beta in H6.
    apply orb_true_iff in H6. destruct H6 as [H6|H6]; [lia|done].
Qed.

(** X18: the two hashes depend on the [keySize] bytes of the key only, not
    on the buffer that holds them nor on their offset; [keySize] is a
    multiple of 4, as the constructor requires, and the two buffers cover
    the bytes of the key. *)
Theorem Hash_reads_key_bytes key ko key' ko' ks :
  0 <= ks -> ks mod 4 = 0 ->
  buf_ok key ko ks -> buf_ok key' ko' ks ->
  slice key ko (Z.to_nat ks) = slice key' ko' (Z.to_nat ks) ->
  Hash key ko ks = Hash key' ko' ks.
Proof.
  intros Hks H4 _ _ Hsl. unfold Hash. apply Hash_loop_ext; [|done|lia|done].
  intros x Hx.
  pose proof (slice_inv key key' ko ko' (Z.to_nat ks) (Z.to_nat x) Hsl ltac:(lia)) as H.
  by rewrite Z2Nat.id in H by lia.
Qed.

(** X19: on buffers that cover the bytes compared, [equal] returns 1
    when the [size] bytes of the two buffers from the two offsets are the
    same, and 0 otherwise. *)
Theorem equal_compares_bytes a aOffset b bOffset size :
  0 <= size -> buf_ok a aOffset size -> buf_ok b bOffset size ->
  (slice a aOffset (Z.to_nat size) = slice b bOffset (Z.to_nat size) ->
   equal a aOffset b bOffset size = 1) /\
  (slice a aOffset (Z.to_nat size) <> slice b bOffset (Z.to_nat size) ->
   equal a aOffset b bOffset size = 0).
Proof.
  intros _ _ _. unfold equal. rewrite equal_loop_spec.
  split; intros H; case_decide; done.
Qed.

(** X20: for a key whose buffer covers its [keySize] bytes, [scan]
    returns the first slot of the bucket that is occupied and holds the
    tag and the key, and 8 when the bucket has no such slot. *)
Theorem scan_first_match t i tag key ko s :
  Shape t -> inb t i -> buf_ok key ko (keySize t) -> 0 <= s < 8 ->
  let r := scan t (i * bucket t) tag key ko in
  let found s :=
    TG t i s = tag /\ P t i s = true /\
    K t i s = slice key ko (Z.to_nat (keySize t)) in
  0 <= r <= 8 /\ (r < 8 -> found r) /\ (found s -> r <= s).
Proof.
  intros Hsh _ _ Hs. cbv zeta.
  destruct (scan_spec t i tag key ko Hsh) as (Hr & Hno & Hhit).
  split; [done|]. split; [exact Hhit|].
  intros Hf. destruct (decide (scan t (i * bucket t) tag key ko <= s)) as [|Hgt]; [done|].
  exfalso. apply (Hno s); [lia|done].
Qed.

(** X21: [Assert.P2] accepts the powers of two and nothing else, for the
    values below 2^31 (all the bucket counts that [resize] can accept are
    below). *)
Theorem Assert_P2_accepts_powers key value :
  value < 2 ^ 31 ->
  Assert_P2 key value = None <-> exists k, 0 <= k /\ value = 2 ^ k.
Proof.
  intros Hlt. unfold Assert_P2.
  change (2 ^ 31) with 2147483648 in Hlt. change (2 ^ 32) with 4294967296.
  destruct (value <=? 0) eqn:E0.
  { apply Z.leb_le in E0. split; [discriminate|]. intros (k & Hk & ->).
    pose proof (Z.pow_pos_nonneg 2 k ltac:(lia) Hk). lia. }
  apply Z.leb_gt in E0. rewrite !Z.mod_small by lia. split.
  - destruct (Z.land value (value - 1) =? 0) eqn:E; [|discriminate]. intros _.
    apply Z.eqb_eq in E. exists (Z.log2 value).
    pose proof (Z.log2_nonneg value). split; [done|].
    destruct (Z.log2_spec value E0) as [Hlo Hhi].
    destruct (decide (value = 2 ^ Z.log2 value)) as [|Hne]; [done|exfalso].
    assert (Hl : Z.log2 (value - 1) = Z.log2 value).
    { apply Z.log2_unique; [done|]. lia. }
    pose proof (Z.bit_log2 value E0) as B1.
    pose proof (Z.bit_log2 (value - 1) ltac:(pose proof (Z.pow_pos_nonneg 2 (Z.log2 value)); lia))
      as B2.
    rewrite Hl in B2.
    assert (B : Z.testbit (Z.land value (value - 1)) (Z.log2 value) = true)
      by (by rewrite Z.land_spec, B1, B2).
    rewrite E in B. by rewrite Z.bits_0 in B.
  - intros (k & Hk & ->).
    replace (2 ^ k - 1) with (Z.ones k) by (rewrite Z.ones_equiv; lia).
    rewrite Z.land_ones by done. rewrite Z_mod_same_full. done.
Qed.

(** X22: [HashTable.bucket] returns a size exactly for a key size from 4
    to 64 that is a multiple of 4 and a value size from 0 to 1048576, and
    throws for all other sizes.  The size that it returns is the least
    multiple of 64 that holds the 20 bytes of metadata and the eight slots
    of a key and a value. *)
Theorem bucket_is_aligned keySize valueSize :
  ((exists b, HashTable_bucket_checked keySize valueSize = inr b) <->
   KEY_MIN <= keySize <= KEY_MAX /\ keySize mod 4 = 0 /\
   VALUE_MIN <= valueSize <= VALUE_MAX) /\
  (forall b, HashTable_bucket_checked keySize valueSize = inr b ->
     b = HashTable_bucket keySize valueSize /\
     b mod 64 = 0 /\ 20 + (keySize + valueSize) * 8 <= b /\
     forall m, m mod 64 = 0 -> 20 + (keySize + valueSize) * 8 <= m -> b <= m).
Proof.
  assert (Hcases : forall b, HashTable_bucket_checked keySize valueSize = inr b ->
            (KEY_MIN <= keySize <= KEY_MAX /\ keySize mod 4 = 0 /\
             VALUE_MIN <= valueSize <= VALUE_MAX) /\
            b = HashTable_bucket keySize valueSize).
  { intros b. unfold HashTable_bucket_checked, Assert_GE, Assert_LE.
    destruct (keySize <? KEY_MIN) eqn:E1; [discriminate|].
    destruct (keySize >? KEY_MAX) eqn:E2; [discriminate|].
    destruct (Z.rem keySize 4 =? 0) eqn:E3; [|discriminate]. cbn [negb].
    destruct (valueSize <? VALUE_MIN) eqn:E4; [discriminate|].
    destruct (valueSize >? VALUE_MAX) eqn:E5; [discriminate|].
    cbv zeta. destruct (HashTable_bucket keySize valueSize <? 0); [discriminate|].
    intros [= <-]. unfold KEY_MIN, KEY_MAX, VALUE_MIN, VALUE_MAX in *.
    apply Z.eqb_eq in E3. rewrite Z.rem_mod_nonneg in E3 by lia.
    split; [|done]. lia. }
  split; [split|].
  - intros [b Hb]. by destruct (Hcases b Hb).
  - intros (Hk & H4 & Hv). exists (HashTable_bucket keySize valueSize).
    unfold HashTable_bucket_checked, Assert_GE, Assert_LE.
    unfold KEY_MIN, KEY_MAX, VALUE_MIN, VALUE_MAX in *.
    destruct (keySize <? 4) eqn:E1; [lia|].
    destruct (keySize >? 64) eqn:E2; [lia|].
    rewrite Z.rem_mod_nonneg by lia. rewrite H4. cbn [Z.eqb negb].
    destruct (valueSize <? 0) eqn:E4; [lia|].
    destruct (valueSize >? 1048576) eqn:E5; [lia|].
    cbv zeta. destruct (HashTable_bucket keySize valueSize <? 0) eqn:E6; [|done].
    unfold HashTable_bucket in E6. apply Z.ltb_lt in E6.
    Z.div_mod_to_equations. lia.
  - intros b Hb. destruct (Hcases b Hb) as [_ ->]. unfold HashTable_bucket.
    split; [done|]. split; [apply Z_mod_mult|]. split.
    + Z.div_mod_to_equations. lia.
    + intros m Hm Hle. Z.div_mod_to_equations. lia.
Qed.

(** ** The CLOCK sweep of [evict] *)

(** The sweep on the recently-used bits [u] and the hand [h] of a bucket:
    the bits and the hand that it leaves, and the slot that it returns. *)
Fixpoint clock (tick : nat) (u h slot : Z) : Z * Z * Z :=
  match tick with
  | O => (u, h, slot)
  | S tick' =>
      if Z.land u (Z.shiftl 1 h) =? 0 then (u, Z.land (h + 1) 7, h)
      else clock tick' (Z.land u (Z.lnot (Z.shiftl 1 h))) (Z.land (h + 1) 7) h
  end.

Lemma evict_loop_clock n : forall t i s0 t' s,
  Shape t -> Hands t -> inb t i ->
  evict_loop n t (i * bucket t) s0 = (t', s) ->
  (M t' i 18, M t' i 19, s) = clock n (M t i 18) (M t i 19) s0.
Proof.
  induction n as [|n IH]; intros t i s0 t' s Hsh Hh Hi E.
  { cbn [evict_loop] in E. by injection E as <- <-. }
  cbn [evict_loop] in E. cbv zeta in E. rewrite bget_hand, bset_hand_put in E.
  pose proof (Hh i Hi) as Hslot. unfold HD in Hslot.
  destruct (Frame_meta t i 19 (Z.land (M t i 19 + 1) 7) Hsh Hi ltac:(lia)) as [F1 V1].
  set (t1 := put t i 19 _) in *.
  rewrite Z.mod_small in V1 by (pose proof (low3_range (M t i 19 + 1)); lia).
  pose proof (Frame_Shape _ _ _ _ F1) as Hsh1.
  pose proof (Frame_inb _ _ _ _ i F1 Hi) as Hi1.
  assert (E18 : M t1 i 18 = M t i 18) by (apply (Frame_M _ _ _ _ _ _ F1); fside).
  assert (Hh1 : Hands t1).
  { intros j Hj. apply (inb_params _ _ _ (Frame_params _ _ _ _ F1)) in Hj.
    destruct (decide (j = i)) as [->|Hne].
    - unfold HD. rewrite V1. pose proof (low3_range (M t i 19 + 1)). lia.
    - rewrite (Frame_HD _ _ _ _ j F1) by (done || cells). by apply Hh. }
  change (bucket t) with (bucket t1) in E.
  change (bget t1 (i * bucket t1 + 18)) with (M t1 i 18) in E.
  cbn [clock]. rewrite E18 in E.
  destruct (Z.land (M t i 18) (Z.shiftl 1 (M t i 19)) =? 0).
  { injection E as <- <-. by rewrite E18, V1. }
  rewrite bset_put in E.
  destruct (Frame_meta t1 i 18
    (Z.land (M t i 18) (Z.lnot (Z.shiftl 1 (M t i 19)))) Hsh1 Hi1 ltac:(lia))
    as [F2 V2].
  set (t2 := put t1 i 18 _) in *.
  rewrite mod_byte in V2 by (apply byte_clear_bit; [by apply M_byte|done]).
  assert (E19 : M t2 i 19 = M t1 i 19) by (apply (Frame_M _ _ _ _ _ _ F2); fside).
  assert (Hh2 : Hands t2) by (apply (Hands_Frame t1 t2 _ _ Hh1 F2); cells).
  change (bucket t1) with (bucket t2) in E.
  rewrite (IH t2 i (M t i 19) t' s (Frame_Shape _ _ _ _ F2) Hh2
             (Frame_inb _ _ _ _ i F2 Hi1) E).
  by rewrite V2, E19, V1.
Qed.

(** X23: [evict] gives every slot a second chance.  From the hand [h] of
    the bucket it passes over [d] slots, at most 8, that were recently
    used and takes their recently-used bits; it returns the next slot,
    the first from the hand that was not recently used (after a full
    turn, the slot of the hand itself); the hand is left after the slot
    returned, and the other recently-used bits are as they were. *)
Theorem evict_second_chance t i t' s x :
  Inv t -> inb t i -> 0 <= x < 8 ->
  evict t (i * bucket t) = (t', s) ->
  exists d, 0 <= d <= 8 /\ s = (HD t i + d) mod 8 /\
    (forall j, 0 <= j < d -> Z.testbit (M t i 18) ((HD t i + j) mod 8) = true) /\
    (d < 8 -> Z.testbit (M t i 18) s = false) /\
    HD t' i = (s + 1) mod 8 /\
    Z.testbit (M t' i 18) x =
      Z.testbit (M t i 18) x && negb ((x - HD t i) mod 8 <? d).
Proof.
  intros HI Hi Hx E. pose proof HI as (Hsh & _ & _ & Hh).
  rewrite evict_unfold in E.
  pose proof (evict_loop_clock 9 t i 0 t' s Hsh Hh Hi E) as Hc.
  pose proof (M_byte t i 18 Hsh) as Hu. pose proof (Hh i Hi) as Hhd.
  unfold HD in *. clear E.
  pose (ok := fun u h =>
    let '(u', h', s) := clock 9 u h 0 in
    existsb (fun d =>
      (s =? (h + d) mod 8) &&
      forallb (fun j => (d <=? j) || Z.testbit u ((h + j) mod 8)) (seqZ 0 8) &&
      ((8 <=? d) || negb (Z.testbit u s)) &&
      (h' =? (s + 1) mod 8) &&
      forallb (fun x => Bool.eqb (Z.testbit u' x)
                          (Z.testbit u x && negb ((x - h) mod 8 <? d))) (seqZ 0 8))
      (seqZ 0 9)).
  assert (Hok : ok (M t i 18) (M t i 19) = true).
  { pose proof (byte_forallb (fun u => forallb (ok u) (seqZ 0 8)) ltac:(by vm_compute)
                  (M t i 18) Hu) as H.
    cbv beta in H. by apply (slot_forallb _ H). }
  unfold ok in Hok. rewrite <- Hc in Hok.
  apply existsb_exists in Hok. destruct Hok as (d & Hd & Hok).
  apply list_elem_of_In, elem_of_seqZ in Hd.
  rewrite !andb_true_iff in Hok. destruct Hok as [[[[H1 H2] H3] H4] H5].
  exists d. split; [lia|]. split; [by apply Z.eqb_eq|]. split; [|split; [|split]].
  - intros j Hj. pose proof (slot_forallb _ H2 j ltac:(lia)) as H. cbv beta in H.
    apply orb_true_iff in H. destruct H as [H|H]; [lia|done].
  - intros Hlt. apply orb_true_iff in H3. destruct H3 as [H|H]; [lia|].
    by apply negb_true_iff.
  - by apply Z.eqb_eq.
  - pose proof (slot_forallb _ H5 x Hx) as H. cbv beta in H. by apply Bool.eqb_prop.
Qed.

(** ** The filter that [filterReset] rebuilds *)

Lemma filterReset_loop_only t0 i f :
  0 <= f < 8 -> inb t0 i ->
  forall n t slot, 0 <= slot -> slot + Z.of_nat n <= 8 ->
  Frame t0 t (at_ i f) nowhere ->
  forall x, 0 <= x ->
  Z.testbit (F (filterReset_loop n t (i * bucket t0) f slot) i f) x = true ->
  Z.testbit (F t i f) x = true \/
  exists s, slot <= s < slot + Z.of_nat n /\ P t0 i s = true /\
    filter_of (TG t0 i s) = f /\ Z.land (TG t0 i s) 7 = x.
Proof.
  intros Hf Hi. induction n as [|n IH]; intros t slot H0 H8 Hfr x Hx; simpl.
  - by left.
  - pose proof (Frame_Shape _ _ _ _ Hfr) as Hs.
    destruct (params_fields _ _ (Frame_params _ _ _ _ Hfr)) as (Eks & Evs & Eb & En & Em).
    pose proof (Frame_inb _ _ _ _ i Hfr Hi) as Hi'.
    rewrite <- Eb.
    rewrite present_test, bget_tag by (done || lia).
    assert (EP : P t i slot = P t0 i slot).
    { unfold P. rewrite (Frame_M _ _ _ _ i 9 Hfr); try done; try lia. unfold at_. lia. }
    assert (ET : TG t i slot = TG t0 i slot).
    { unfold TG. rewrite (Frame_M _ _ _ _ i (10 + slot) Hfr); try done; try lia.
      unfold at_. lia. }
    set (t1 := if negb (negb (P t i slot)) then _ else t).
    assert (H1 : Frame t0 t1 (at_ i f) nowhere /\
                 (Z.testbit (F t1 i f) x = true ->
                  Z.testbit (F t i f) x = true \/
                  (P t0 i slot = true /\ filter_of (TG t0 i slot) = f /\
                   Z.land (TG t0 i slot) 7 = x))).
    { unfold t1. rewrite negb_involutive, EP, ET.
      destruct (P t0 i slot) eqn:EPP; [|split; [done|by left]].
      change (Z.land (Z.shiftr (TG t0 i slot) 4) 7) with (filter_of (TG t0 i slot)).
      destruct (filter_of (TG t0 i slot) =? f) eqn:EF; [|split; [done|by left]].
      apply Z.eqb_eq in EF.
      rewrite bset_put.
      destruct (Frame_meta t i f (Z.lor (bget t (i * bucket t + f))
                  (Z.shiftl 1 (Z.land (TG t0 i slot) 7))) Hs Hi' ltac:(lia)) as [F1 V1].
      set (t2 := put t i f _) in *.
      pose proof (low3_range (TG t0 i slot)).
      assert (Hb : byte (Z.lor (bget t (i * bucket t + f))
                    (Z.shiftl 1 (Z.land (TG t0 i slot) 7))))
        by (apply byte_lor_bit; [by apply (M_byte t i f)|done]).
      rewrite (mod_byte _ Hb) in V1.
      split.
      - eapply Frame_weaken; [exact (Frame_trans _ _ _ _ _ _ _ Hfr F1)| |];
          unfold either, nowhere, at_; tauto.
      - unfold F at 1. rewrite V1. rewrite testbit_set by lia.
        intros Hbit. apply orb_true_iff in Hbit. destruct Hbit as [Hbit|Hbit]; [by left|].
        right. apply Z.eqb_eq in Hbit. done. }
    destruct H1 as (F1 & Hn1). rewrite Eb.
    intros Hbit.
    destruct (IH t1 (slot + 1) ltac:(lia) ltac:(lia) F1 x Hx Hbit) as [Hb|(s & Hs' & ?)].
    + destruct (Hn1 Hb) as [?|(? & ? & ?)]; [by left|right].
      exists slot. split; [lia|done].
    + right. exists s. split; [lia|done].
Qed.

(** X24: [filterReset] touches a filter only when the second-position
    counter of the bucket is 0.  Then a filter that was not empty is
    rebuilt from the occupied slots of the bucket: afterwards a bit of it
    is set exactly when an occupied slot of the bucket has a tag of that
    filter and that bit. *)
Theorem filterReset_rebuilds t i f x :
  Shape t -> inb t i -> 0 <= f < 8 -> 0 <= x < 8 ->
  (C t i <> 0 \/ F t i f = 0 -> filterReset t (i * bucket t) f = t) /\
  (C t i = 0 -> F t i f <> 0 ->
   Z.testbit (F (filterReset t (i * bucket t) f) i f) x = true <->
   exists s, 0 <= s < 8 /\ P t i s = true /\
     filter_of (TG t i s) = f /\ Z.land (TG t i s) 7 = x).
Proof.
  intros Hs Hi Hf Hx. unfold filterReset.
  change (bget t (i * bucket t + 8)) with (C t i).
  change (bget t (i * bucket t + f)) with (F t i f).
  split.
  - intros [HC|HF].
    + apply Z.eqb_neq in HC. by rewrite HC.
    + destruct (negb (C t i =? 0)); [done|]. by rewrite HF.
  - intros HC HF. rewrite HC. cbn [Z.eqb negb].
    apply Z.eqb_neq in HF. rewrite HF. rewrite bset_put.
    destruct (Frame_meta t i f 0 Hs Hi ltac:(lia)) as [F1 V1].
    set (t1 := put t i f [0]) in *.
    assert (Hi1 : inb t1 i) by (by apply (Frame_inb _ _ _ _ i F1)).
    assert (Hrefl1 : Frame t1 t1 (at_ i f) nowhere).
    { eapply Frame_weaken; [apply Frame_refl; by eapply Frame_Shape| |];
        unfold nowhere; tauto. }
    assert (EP : forall s, 0 <= s < 8 -> P t1 i s = P t i s).
    { intros s Hr. unfold P. rewrite (Frame_M _ _ _ _ i 9 F1); try done; try lia.
      unfold at_. lia. }
    assert (ET : forall s, 0 <= s < 8 -> TG t1 i s = TG t i s).
    { intros s Hr. unfold TG. rewrite (Frame_M _ _ _ _ i (10 + s) F1); try done; try lia.
      unfold at_. lia. }
    change (bucket t) with (bucket t1). split.
    + intros Hbit.
      destruct (filterReset_loop_only t1 i f Hf Hi1 8 t1 0 ltac:(lia) ltac:(lia)
                  Hrefl1 x ltac:(lia) Hbit) as [H0|(s & Hr & HP & HFi & HL)].
      * unfold F in H0. rewrite V1 in H0. by rewrite Z.bits_0 in H0.
      * exists s. rewrite <- EP, <- ET by lia. split; [lia|done].
    + intros (s & Hr & HP & HFi & <-).
      destruct (filterReset_loop_spec t1 i f Hf Hi1 8 t1 0 ltac:(lia) ltac:(lia) Hrefl1)
        as (_ & _ & Hn).
      rewrite <- ET by done. apply Hn; [lia|by rewrite EP|by rewrite ET].
Qed.

(** ** When [set] asks for a resize *)

Lemma vacate_loop_stuck t i :
  Inv t -> inb t i -> M t i 9 = 255 ->
  forall n slot, 0 <= slot -> slot + Z.of_nat n <= 8 ->
  forall t1, vacate_loop n t (i * bucket t) slot = Ret t1 (slot + Z.of_nat n) ->
  forall s, slot <= s < slot + Z.of_nat n ->
    M t (home t (K t i s)) 9 = 255 /\ M t (alt t (K t i s)) 9 = 255.
Proof.
  intros HI Hi Hfull. pose proof HI as (Hsh & Hsl & _).
  induction n as [|n IH]; intros slot H0 H8 t1 E s Hs; [lia|].
  cbn [vacate_loop] in E. rewrite Hash_slot in E by done.
  pose proof (full_present t i slot Hfull ltac:(lia)) as HP0.
  destruct (hashk t (K t i slot)) as [H1 H2] eqn:EH.
  destruct (hashk_home _ _ _ _ EH) as (Ehome & Ealt & Etag).
  change (Z.land (Z.shiftr H1 16) 255) with (tag_of H1) in E.
  rewrite <- Ehome, <- Ealt, <- Etag in E. rewrite !offset_eqb in E by done.
  assert (Hrec : forall t2, vacate_loop n t (i * bucket t) (slot + 1) =
                            Ret t2 (slot + Z.of_nat (S n)) ->
            M t (home t (K t i slot)) 9 = 255 -> M t (alt t (K t i slot)) 9 = 255 ->
            M t (home t (K t i s)) 9 = 255 /\ M t (alt t (K t i s)) 9 = 255).
  { intros t2 E2 Hh Ha. destruct (decide (s = slot)) as [->|Hne]; [done|].
    apply (IH (slot + 1) ltac:(lia) ltac:(lia) t2); [|lia].
    rewrite E2. f_equal. lia. }
  destruct (i =? home t (K t i slot)) eqn:E1.
  - apply Z.eqb_eq in E1.
    destruct (rd SLOT (bget t (alt t (K t i slot) * bucket t + 9)) <? 8) eqn:E2.
    { injection E as _ E. lia. }
    apply Z.ltb_ge in E2. apply (Hrec t1 E); [by rewrite <- E1|].
    apply SLOT_full; [done|lia].
  - apply Z.eqb_neq in E1.
    destruct (i =? alt t (K t i slot)) eqn:E3; [|discriminate].
    apply Z.eqb_eq in E3.
    destruct (rd SLOT (bget t (home t (K t i slot) * bucket t + 9)) <? 8) eqn:E2.
    { destruct (filterDecrementSecondPosition _ _); [|discriminate].
      injection E as _ E. lia. }
    apply Z.ltb_ge in E2. apply (Hrec t1 E); [|by rewrite <- E3].
    apply SLOT_full; [done|lia].
Qed.

(** X25: [set] asks for a resize (returns -1) only when it is stuck.  The
    shard is then as it was; the first- and the second-position bucket of
    the key are full; and so are both buckets of every element that they
    hold, so that none of them could move. *)
Theorem set_asks_resize_when_stuck t h1 h2 key ko value vo t' i s :
  Inv t -> Uniq t -> Forall byte key -> Forall byte value ->
  Hash key ko (keySize t) = (h1, h2) ->
  Table_set t h1 h2 key ko value vo = Ret t' (-1) ->
  i = Z.land h1 (mask t) \/ i = Z.land h2 (mask t) -> 0 <= s < 8 ->
  t' = t /\ M t i 9 = 255 /\
  M t (home t (K t i s)) 9 = 255 /\ M t (alt t (K t i s)) 9 = 255.
Proof.
  intros HI HU Hkey Hval HH Hset Hi Hs. pose proof HI as (Hsh & _).
  pose proof (Table_set_spec t h1 h2 key ko value vo HI HU Hkey Hval HH) as Hsp.
  cbv zeta in Hsp. rewrite Hset in Hsp.
  destruct Hsp as [(_ & -> & _)|[([=] & _)|([=] & _)]]. split; [done|].
  revert Hset. unfold Table_set. cbv zeta.
  set (tag := Z.land (Z.shiftr h1 16) 255).
  set (i1 := Z.land h1 (mask t)). set (i2 := Z.land h2 (mask t)).
  fold i1 i2 in Hi.
  assert (Hi1 : inb t i1).
  { pose proof Hsh as (_ & _ & _ & _ & ? & ? & _).
    pose proof (land_mask_range h1 (mask t)). unfold inb, i1. lia. }
  assert (Hi2 : inb t i2).
  { pose proof Hsh as (_ & _ & _ & _ & ? & ? & _).
    pose proof (land_mask_range h2 (mask t)). unfold inb, i2. lia. }
  assert (Hins : set_insert t tag (i1 * bucket t) (i2 * bucket t)
                   (Z.land (Z.shiftr tag 4) 7) (Z.shiftl 1 (Z.land tag 7))
                   key ko value vo = Ret t (-1) ->
                 M t i 9 = 255 /\
                 M t (home t (K t i s)) 9 = 255 /\ M t (alt t (K t i s)) 9 = 255).
  { unfold set_insert. cbv zeta.
    destruct (rd SLOT (bget t (i1 * bucket t + 9)) <? 8) eqn:E3; [discriminate|].
    apply Z.ltb_ge in E3.
    pose proof (SLOT_full t i1 Hsh ltac:(lia)) as Hfull1.
    destruct (rd SLOT (bget t (i2 * bucket t + 9)) <? 8) eqn:E4; [discriminate|].
    apply Z.ltb_ge in E4.
    pose proof (SLOT_full t i2 Hsh ltac:(lia)) as Hfull2.
    pose proof (vacate_spec t i1 HI HU Hi1 Hfull1) as Hv1.
    destruct (vacate t (i1 * bucket t)) as [t1 s5|] eqn:EV1; [|done].
    destruct Hv1 as [[-> ->]|[Hr5 _]].
    2:{ destruct (s5 <? 8) eqn:E5; [discriminate|lia]. }
    replace (8 <? 8) with false by done.
    pose proof (vacate_spec t i2 HI HU Hi2 Hfull2) as Hv2.
    destruct (vacate t (i2 * bucket t)) as [t2 s6|] eqn:EV2; [|done].
    destruct Hv2 as [[-> ->]|[Hr6 _]].
    2:{ destruct (s6 <? 8) eqn:E6; [discriminate|lia]. }
    intros _.
    destruct Hi as [-> | ->]; (split; [done|]).
    - apply (vacate_loop_stuck t i1 HI Hi1 Hfull1 8 0 ltac:(lia) ltac:(lia) t EV1). lia.
    - apply (vacate_loop_stuck t i2 HI Hi2 Hfull2 8 0 ltac:(lia) ltac:(lia) t EV2). lia. }
  destruct (negb _); [|exact Hins].
  destruct (_ <? 8); [discriminate|]. destruct (_ <? 8); [discriminate|exact Hins].
Qed.

(* ================================================================= *)
(** * A table as a finite map *)

(** The content of a table, as its callers see it: a value for each key
    that is stored. *)
Definition Content : Type := list Z -> option (list Z).

Definition content_set (m : Content) (k v : list Z) : Content :=
  fun k' => if decide (k' = k) then Some v else m k'.

Definition content_unset (m : Content) (k : list Z) : Content :=
  fun k' => if decide (k' = k) then None else m k'.

(** What a call does to the content: a [set] that returns binds the key
    to the value, one that throws binds nothing, [unset] removes the key,
    [get] and [exist] change nothing.  ([cache] is not a call on a
    table.) *)
Definition model_op (h : HashTable) (m : Content) (op : Op) : Content :=
  match op with
  | OpSet k ko v vo =>
      match HashTable_set h k ko v vo with
      | Ret _ _ =>
          content_set m (slice k ko (Z.to_nat (ht_keySize h)))
            (slice v vo (Z.to_nat (ht_valueSize h)))
      | Throw _ _ => m
      end
  | OpUnset k ko => content_unset m (slice k ko (Z.to_nat (ht_keySize h)))
  | _ => m
  end.

Fixpoint model (h : HashTable) (m : Content) (ops : list Op) : Content :=
  match ops with
  | [] => m
  | op :: ops' => model (apply_op h op) (model_op h m op) ops'
  end.

Definition table_op (op : Op) : Prop :=
  match op with OpCache _ _ _ _ => False | _ => True end.

(** The content [m] is what the container [h] stores. *)
Definition Abs (h : HashTable) (m : Content) : Prop :=
  forall k v, holds (shard h (route h k 0)) k v <-> m k = Some v.

Lemma keeps_at h h' idx (Q : list Z -> Prop) k v :
  HInv h -> same_config h h' -> keeps h h' idx Q -> Q k ->
  holds (shard h' (route h' k 0)) k v <-> holds (shard h (route h k 0)) k v.
Proof.
  intros HI Hc [H1 H2] HQ. rewrite (route_config h h' k 0 Hc).
  destruct (decide (route h k 0 = idx)) as [E|E].
  - rewrite E. by apply H2.
  - rewrite H1; [done|by apply route_range|done].
Qed.

Lemma model_op_Abs h m op :
  Sound h -> op_ok (ht_keySize h) (ht_valueSize h) op -> table_op op ->
  Abs h m -> Abs (apply_op h op) (model_op h m op).
Proof.
  intros HS Hok Htab HA. pose proof (Sound_HInv _ HS) as HI.
  destruct op as [k ko v vo|k ko v vo|k ko v vo|k ko|k ko]; cbn [apply_op model_op].
  - destruct Hok as [(Hk & _) (Hv & _)].
    destruct (decide (mode h = 2)) as [E|E].
    { by rewrite HashTable_set_locked. }
    pose proof (HashTable_set_effect h k ko v vo HS E Hk Hv) as He. cbv zeta in He.
    pose proof (exist_stored h k ko HI Hk) as Hex. cbv zeta in Hex.
    pose proof (route_slice h k ko HI) as Hrs.
    set (kb := slice k ko (Z.to_nat (ht_keySize h))) in *.
    set (vb := slice v vo (Z.to_nat (ht_valueSize h))) in *.
    destruct (HashTable_set h k ko v vo) as [h' r|h' e]; cbn [state_of] in *.
    + destruct He as (_ & Hc & _ & Hkp & _ & _ & Hkb).
      intros k' v'. unfold content_set. case_decide as Ek.
      * subst k'. rewrite (route_config h h' kb 0 Hc), Hrs, Hkb.
        split; [by intros ->|by intros [= ->]].
      * rewrite (keeps_at h h' _ _ k' v' HI Hc Hkp Ek). apply HA.
    + destruct He as (_ & Hc & _ & Hkp & He0 & _ & Hno).
      intros k' v'. destruct (decide (k' = kb)) as [->|Ek].
      * rewrite <- (HA kb v'). rewrite (route_config h h' kb 0 Hc), Hrs.
        destruct Hex as [[? _]|[_ Habs]]; [congruence|].
        split; intros H; exfalso; [by apply Hno in H|by apply Habs in H].
      * rewrite (keeps_at h h' _ _ k' v' HI Hc Hkp Ek). apply HA.
  - done.
  - destruct Hok as [(Hk & _) _].
    destruct (HashTable_get_effect h k ko v vo HS Hk) as (_ & Hc & Hkp).
    intros k' v'. rewrite (keeps_at h _ _ _ k' v' HI Hc Hkp I). apply HA.
  - done.
  - destruct Hok as (Hk & _).
    pose proof (HashTable_unset_effect h k ko HS Hk) as He. cbv zeta in He.
    pose proof (route_slice h k ko HI) as Hrs.
    set (kb := slice k ko (Z.to_nat (ht_keySize h))) in *.
    destruct (HashTable_unset h k ko) as [h' r|]; [|done]. cbn [state_of].
    destruct He as (_ & Hc & _ & _ & Hkp & Hno & _).
    intros k' v'. unfold content_unset. case_decide as Ek.
    + subst k'. rewrite (route_config h h' kb 0 Hc), Hrs.
      split; [intros H; by apply Hno in H|done].
    + rewrite (keeps_at h h' _ _ k' v' HI Hc Hkp Ek). apply HA.
Qed.

Lemma model_Abs ops : forall h m,
  Sound h -> Forall (op_ok (ht_keySize h) (ht_valueSize h)) ops -> Forall table_op ops ->
  Abs h m -> Abs (run h ops) (model h m ops).
Proof.
  induction ops as [|op ops IH]; intros h m HS Hok Htab HA; [done|].
  apply Forall_cons in Hok. destruct Hok as [Hop Hops].
  apply Forall_cons in Htab. destruct Htab as [Ht Hts].
  cbn [run fold_left model].
  destruct (apply_op_HInv h op (Sound_HInv _ HS) Hop) as [_ (E1 & E2 & _)].
  apply IH; [by apply apply_op_Sound|by rewrite E1, E2|done|by apply model_op_Abs].
Qed.

(** X26: a table is a finite map.  After any sequence of [set], [get],
    [exist] and [unset] calls on a new container, [exist] and [get] answer
    for every key as the map does where each [set] that returned bound
    its key to its value and each [unset] removed its key: a key is found
    exactly when the map binds it, and [get] writes the value of the map. *)
Theorem table_is_a_finite_map ks vs nb nk ops key ko out oo :
  valid_config ks vs nb nk -> Forall (op_ok ks vs) ops -> Forall table_op ops ->
  buf_ok key ko ks ->
  let h := run (new_HashTable ks vs nb nk) ops in
  match model (new_HashTable ks vs nb nk) (fun _ => None) ops (slice key ko (Z.to_nat ks)) with
  | Some v =>
      HashTable_exist h key ko = 1 /\ (HashTable_get h key ko out oo).2 = 1 /\
      (HashTable_get h key ko out oo).1.2 = (if vs =? 0 then out else write_bytes out oo v)
  | None =>
      HashTable_exist h key ko = 0 /\ (HashTable_get h key ko out oo).2 = 0 /\
      (HashTable_get h key ko out oo).1.2 = out
  end.
Proof.
  intros Hcfg Hops Htab (Hkey & _) h.
  pose proof (reachable_Sound ks vs nb nk ops Hcfg Hops) as HS.
  destruct (reachable_HInv ks vs nb nk ops Hcfg Hops) as (HI & Eks & Evs).
  fold h in HS, HI, Eks, Evs.
  assert (HA : Abs h (model (new_HashTable ks vs nb nk) (fun _ => None) ops)).
  { apply model_Abs; try done; [by apply Sound_new|].
    intros k v. split; [|done]. intros Hv. exfalso. revert Hv.
    apply new_holds_none; [done|]. apply route_range. by apply HInv_new. }
  set (m := model _ _ ops) in *.
  pose proof (route_slice h key ko HI) as Hrs. rewrite Eks in Hrs.
  pose proof (exist_stored h key ko HI Hkey) as Hex.
  pose proof (get_stored h key ko out oo HS Hkey) as Hg.
  cbv zeta in Hex, Hg. rewrite Eks in Hex, Hg. rewrite ?Evs in Hg.
  set (kb := slice key ko (Z.to_nat ks)) in *.
  destruct (m kb) as [v|] eqn:Em.
  - apply HA in Em. rewrite Hrs in Em.
    destruct Hex as [[-> _]|[_ Habs]]; [|by apply Habs in Em]. split; [done|].
    destruct Hg as [(_ & _ & Habs)|(-> & v' & Hv' & Hu & ->)]; [by apply Habs in Em|].
    split; [done|]. by rewrite (Hu v Em).
  - assert (Hno : forall v, ~ holds (shard h (route h key ko)) kb v).
    { intros v Hv. rewrite <- Hrs in Hv. apply HA in Hv. congruence. }
    destruct Hex as [[_ [v Hv]]|[-> _]]; [by apply Hno in Hv|]. split; [done|].
    destruct Hg as [(-> & -> & _)|(_ & v' & Hv' & _)]; [done|by apply Hno in Hv'].
Qed.

End Hashing.

(* ================================================================= *)
(** * Concrete runs

    A hash table whose entropy sends the keys [k; 0; 0; 0] with k < 8 to
    bucket 0 in both positions, those with 8 <= k < 16 to bucket 1 in both
    positions, key 16 to buckets 0 and 1, and key 17 to buckets 0 and 1 with
    tag 0x12. *)

Definition TABLE_ex (idx : Z) : Z :=
  if idx <? 8 then 0
  else if idx <? 16 then 1
  else if idx =? 17 then 1179648
  else if (1032 <=? idx) && (idx <=? 1041) then 1
  else 0.

Definition BUFFER_MAX_ex : Z := 2147483647.

Definition key (n : Z) : list Z := [n; 0; 0; 0].
Definition val (n : Z) : list Z := [n; n; n; n].
Definition opset (n : Z) : Op := OpSet (key n) 0 (val n) 0.
Definition opcache (n : Z) : Op := OpCache (key n) 0 (val n) 0.

Definition sets8 : list Op :=
  [opset 0; opset 1; opset 2; opset 3; opset 4; opset 5; opset 6; opset 7].
Definition sets9 : list Op := sets8 ++ [opset 17].
Definition sets16 : list Op :=
  sets8 ++ [opset 8; opset 9; opset 10; opset 11; opset 12; opset 13; opset 14; opset 15].
Definition caches8 : list Op :=
  [opcache 17; opcache 0; opcache 1; opcache 2; opcache 3; opcache 4; opcache 5; opcache 6].

(** One shard of two buckets, and the containers after the runs above. *)
Definition ex_new : HashTable := new_HashTable 4 4 1 2.
Definition ex_h8 : HashTable := run TABLE_ex BUFFER_MAX_ex ex_new sets8.
Definition ex_h9 : HashTable := run TABLE_ex BUFFER_MAX_ex ex_new sets9.
Definition ex_h16 : HashTable := run TABLE_ex BUFFER_MAX_ex ex_new sets16.
Definition ex_t8 : Table := shard ex_h8 0.
Definition ex_t9 : Table := shard ex_h9 0.
(** A cache of one bucket after eight [cache] calls. *)
Definition ex_c8 : Table := shard (run TABLE_ex BUFFER_MAX_ex (new_HashTable 4 4 1 1) caches8) 0.

Ltac ok_buf := split; [repeat constructor; lia | simpl; lia].
Ltac ok_ops :=
  unfold sets9, sets16, sets8, caches8, app;
  repeat (constructor; [cbv [opset opcache op_ok key val]; split; ok_buf|]);
  try constructor.
Ltac by_compute :=
  repeat match goal with |- _ /\ _ => split end;
  vm_compute; first [reflexivity | discriminate].
Ltac ok_cfg := unfold valid_config; repeat split; first [lia | reflexivity].

Lemma C1_set_then_get_witness :
  exists h2 out',
    HashTable_get TABLE_ex
      (state_of (HashTable_set TABLE_ex BUFFER_MAX_ex ex_h8 (key 17) 0 (val 17) 0))
      (key 17) 0 [9; 9; 9; 9] 0 = (h2, out', 1) /\
    slice out' 0 (Z.to_nat 4) = slice (val 17) 0 (Z.to_nat 4).
Proof.
  apply (C1_set_then_get TABLE_ex BUFFER_MAX_ex 4 4 1 2 sets8 (key 17) 0 (val 17) 0
           [9; 9; 9; 9] 0 _ 0).
  - ok_cfg.
  - ok_ops.
  - ok_buf.
  - ok_buf.
  - ok_buf.
  - vm_compute. reflexivity.
Defined.

Lemma C2_length_counts_occupied_witness :
  ht_length ex_h9 = total (tables ex_h9).
Proof.
  apply (C2_length_counts_occupied TABLE_ex BUFFER_MAX_ex 4 4 1 2 sets9).
  - ok_cfg.
  - ok_ops.
Defined.


Lemma C3_second_position_counter_witness :
  exists t',
    Table_set TABLE_ex ex_t8 1179648 1 (key 17) 0 (val 17) 0 = Ret t' 0 /\
    K t' 1 0 = key 17 /\ V t' 1 0 = val 17 /\
    C t' 0 = C ex_t8 0 + 1 /\ C t' 1 = C ex_t8 1.
Proof.
  destruct (C3_second_position_counter TABLE_ex BUFFER_MAX_ex ex_t8 1179648 1 (key 17) 0 (val 17) 0)
    as (t' & Hset & _ & _ & _ & HK & HV & _ & HC1 & HC2).
  - apply (Inv_b_sound TABLE_ex BUFFER_MAX_ex). vm_compute. reflexivity.
  - split; [repeat constructor; lia | vm_compute; split; discriminate].
  - split; [repeat constructor; lia | vm_compute; split; discriminate].
  - vm_compute. reflexivity.
  - vm_compute. reflexivity.
  - vm_compute. reflexivity.
  - vm_compute. reflexivity.
  - exists t'. split; [exact Hset|]. split; [exact HK|]. split; [exact HV|].
    split; [exact HC1|exact HC2].
Defined.

Lemma C3_counter_of_b2_counterexample :
  Hash TABLE_ex (key 17) 0 4 = (1179648, 1) /\
  M ex_t8 0 9 = 255 /\ P ex_t8 1 0 = false /\
  exists t',
    Table_set TABLE_ex ex_t8 1179648 1 (key 17) 0 (val 17) 0 = Ret t' 0 /\
    P t' 1 0 = true /\ K t' 1 0 = key 17 /\
    C ex_t8 1 = 0 /\ C t' 1 = 0 /\ C t' 1 <> C ex_t8 1 + 1 /\
    C ex_t8 0 = 0 /\ C t' 0 = 1.
Proof.
  split; [by_compute|]. split; [by_compute|]. split; [by_compute|].
  exists (state_of (Table_set TABLE_ex ex_t8 1179648 1 (key 17) 0 (val 17) 0)).
  by_compute.
Qed.

Lemma C4_second_position_unset_witness :
  exists t',
    Table_unset ex_t9 1179648 1 (key 17) 0 = Ret t' 1 /\
    P t' 1 0 = false /\ C t' 0 = 0 /\
    t' = filterReset_all 8 (put (remove ex_t9 1 0) 0 8 [0]) 0 0.
Proof.
  destruct (C4_second_position_unset TABLE_ex BUFFER_MAX_ex ex_t9 1179648 1 (key 17) 0)
    as (t' & Hun & HP & HC & _ & Hall).
  - apply (Inv_b_sound TABLE_ex BUFFER_MAX_ex). vm_compute. reflexivity.
  - repeat constructor; lia.
  - vm_compute. reflexivity.
  - vm_compute. discriminate.
  - vm_compute. reflexivity.
  - exists t'. split; [exact Hun|]. split; [exact HP|].
    assert (E : C t' 0 = 0) by exact HC.
    split; [exact E|]. exact (Hall E).
Defined.

Lemma C4_filters_of_b1_counterexample :
  Hash TABLE_ex (key 17) 0 4 = (1179648, 1) /\
  P ex_t9 1 0 = true /\ K ex_t9 1 0 = key 17 /\
  scan ex_t9 0 18 (key 17) 0 = 8 /\ scan ex_t9 128 18 (key 17) 0 = 0 /\
  exists t',
    Table_unset ex_t9 1179648 1 (key 17) 0 = Ret t' 1 /\
    F ex_t9 0 1 = 4 /\ F t' 0 1 = 0 /\ F t' 0 1 <> F ex_t9 0 1 /\
    C ex_t9 0 = 1 /\ C t' 0 = 0.
Proof.
  do 5 (split; [by_compute|]).
  exists (state_of (Table_unset ex_t9 1179648 1 (key 17) 0)).
  by_compute.
Qed.

(** [cache] with the reset that the specification words: the filter of
    the victim, [(victimTag >> 4) & 7]. *)
Definition cache_evict_claimed (t : Table) (tag b1 f1 f2 : Z) (key : list Z) (keyOff : Z)
    (value : list Z) (valueOff : Z) : Table * Z :=
  let '(t, s3) := evict t b1 in
  let eviction := Z.land (bget t (b1 + 9)) (Z.shiftl 1 s3) in
  let t :=
    if negb (eviction =? 0) then
      let t := bset t (b1 + 9) (Z.land (bget t (b1 + 9)) (Z.lnot (Z.shiftl 1 s3))) in
      filterReset t b1 (Z.land (Z.shiftr (bget t (b1 + 9 + 1 + s3)) 4) 7)
    else t in
  let t := assign t b1 tag s3 (Ext key) keyOff (Ext value) valueOff in
  let t := bset t (b1 + f1) (Z.lor (bget t (b1 + f1)) f2) in
  let t := bset t (b1 + 18) (Z.lor (bget t (b1 + 18)) (Z.shiftl 1 s3)) in
  (t, if negb (eviction =? 0) then 2 else 0).

Definition Table_cache_claimed (t : Table) (h1 h2 : Z) (key : list Z) (keyOff : Z)
    (value : list Z) (valueOff : Z) : Table * Z :=
  let tag := Z.land (Z.shiftr h1 16) 255 in
  let b1 := Z.land h1 (mask t) * bucket t in
  let f1 := Z.land (Z.shiftr tag 4) 7 in
  let f2 := Z.shiftl 1 (Z.land tag 7) in
  if negb (Z.land (bget t (b1 + f1)) f2 =? 0) then
    let s1 := scan t b1 tag key keyOff in
    if s1 <? 8 then
      let t := bset t (b1 + 18) (Z.lor (bget t (b1 + 18)) (Z.shiftl 1 s1)) in
      (with_buffer t (copyValue t (Ext value) valueOff (buffer t) (valueOffset t b1 s1)), 1)
    else cache_evict_claimed t tag b1 f1 f2 key keyOff value valueOff
  else cache_evict_claimed t tag b1 f1 f2 key keyOff value valueOff.

(** C5: [cache] resets the filter that the low three bits of the victim's
    tag select, and not the filter of the victim.  In the cache [ex_c8]
    the hand is at slot 0, which holds key 17 with tag 0x12; its filter
    bit is bit 2 of filter 1.  The ninth [cache] evicts it and leaves
    that bit set, where the reset of filter [(tag >> 4) & 7] clears it. *)
Theorem C5_cache_resets_low_bits_filter :
  let t := ex_c8 in
  let r := Table_cache t 0 0 (key 7) 0 (val 7) 0 in
  let r' := Table_cache_claimed t 0 0 (key 7) 0 (val 7) 0 in
  Hash TABLE_ex (key 7) 0 4 = (0, 0) /\
  HD t 0 = 0 /\ P t 0 0 = true /\ TG t 0 0 = 18 /\ K t 0 0 = key 17 /\
  F t 0 1 = 4 /\
  r.2 = 2 /\ K r.1 0 0 = key 7 /\ TG r.1 0 0 = 0 /\
  (forall s, 0 <= s < 8 -> filter_of (TG r.1 0 s) <> 1) /\
  F r.1 0 1 = 4 /\
  r'.2 = 2 /\ F r'.1 0 1 = 0.
Proof.
  cbv zeta.
  do 9 (split; [by_compute|]).
  split.
  { intros s Hs.
    assert (Hc : s = 0 \/ s = 1 \/ s = 2 \/ s = 3 \/ s = 4 \/ s = 5 \/ s = 6 \/ s = 7) by lia.
    destruct Hc as [-> |[-> |[-> |[-> |[-> |[-> |[-> | ->]]]]]]]; vm_compute; discriminate. }
  by_compute.
Qed.

Lemma C6_retry_requests_witness :
  let h := run TABLE_ex BUFFER_MAX_ex (new_HashTable 4 4 1 2) sets16 in
  let hm := with_mode h 1 in
  let vv := if 4 =? 0 then (VALUE, 0) else (val 16, 0) in
  let hh := Hash TABLE_ex (key 16) 0 4 in
  let idx := shard_index h hh.1 hh.2 in
  let B := buckets (shard h idx) in
  HashTable_set TABLE_ex BUFFER_MAX_ex h (key 16) 0 (val 16) 0 =
  attempt TABLE_ex BUFFER_MAX_ex hm idx hh.1 hh.2 (key 16) 0 vv.1 vv.2 (Z.shiftl B 1)
    (fun h' =>
       attempt TABLE_ex BUFFER_MAX_ex h' idx hh.1 hh.2 (key 16) 0 vv.1 vv.2
         (if buckets (shard h' idx) =? B then Z.shiftl B 2 else Z.shiftl B 3)
         (fun h'' => Throw h'' ERROR_SET)).
Proof.
  apply (C6_retry_requests TABLE_ex BUFFER_MAX_ex 4 4 1 2 sets16 (key 16) 0 (val 16) 0
           (shard (run TABLE_ex BUFFER_MAX_ex (new_HashTable 4 4 1 2) sets16) 0)).
  - ok_cfg.
  - ok_ops.
  - ok_buf.
  - ok_buf.
  - vm_compute. discriminate.
  - vm_compute. reflexivity.
Defined.

Lemma C6_second_request_counterexample :
  let r := HashTable_set TABLE_ex BUFFER_MAX_ex ex_h16 (key 16) 0 (val 16) 0 in
  let r' := HashTable_set_claimed TABLE_ex BUFFER_MAX_ex ex_h16 (key 16) 0 (val 16) 0 in
  buckets (shard ex_h16 0) = 2 /\
  Table_set TABLE_ex (shard ex_h16 0) 0 1 (key 16) 0 (val 16) 0 = Ret (shard ex_h16 0) (-1) /\
  buckets (shard (state_of r) 0) = 16 /\
  buckets (shard (state_of r') 0) = 8 /\
  r <> r'.
Proof.
  cbv zeta.
  do 4 (split; [by_compute|]).
  intros E.
  assert (E' : buckets (shard (state_of
             (HashTable_set TABLE_ex BUFFER_MAX_ex ex_h16 (key 16) 0 (val 16) 0)) 0) =
               buckets (shard (state_of
             (HashTable_set_claimed TABLE_ex BUFFER_MAX_ex ex_h16 (key 16) 0 (val 16) 0)) 0))
    by (by rewrite E).
  vm_compute in E'. discriminate.
Qed.

Lemma C7_filter_bit_of_occupied_slot_witness :
  let t := ex_t9 in
  Z.testbit (F t (home TABLE_ex t (K t 1 0)) (Z.land (Z.shiftr (TG t 1 0) 4) 7))
    (Z.land (TG t 1 0) 7) = true /\
  TG t 1 0 = tagk TABLE_ex t (K t 1 0) /\
  negb (Z.land (bget t (home TABLE_ex t (K t 1 0) * bucket t +
                        Z.land (Z.shiftr (TG t 1 0) 4) 7))
          (Z.shiftl 1 (Z.land (TG t 1 0) 7)) =? 0) = true.
Proof.
  apply (C7_filter_bit_of_occupied_slot TABLE_ex BUFFER_MAX_ex 4 4 1 2 sets9 ex_t9 1 0).
  - ok_cfg.
  - ok_ops.
  - vm_compute. constructor.
  - vm_compute. split; [discriminate|reflexivity].
  - lia.
  - vm_compute. reflexivity.
Defined.

(** A hash table whose entropy makes a rebuild fail: on four buckets the
    keys [k; 0; 0; 0] with k < 8 have the buckets 2 and 3, those with
    8 <= k < 16 the buckets 2 and 1, and key 16 bucket 3 twice; on eight
    buckets they have the buckets 6 and 7, 6 and 5, and 7 twice. *)
Definition TABLE_stuck (idx : Z) : Z :=
  if idx <? 16 then 6
  else if idx =? 16 then 7
  else if (1024 <=? idx) && (idx <? 1032) then 7
  else if (1032 <=? idx) && (idx <? 1040) then 5
  else if idx =? 1040 then 7
  else 0.

(** One shard of four buckets that holds the seventeen keys. *)
Definition ex_stuck : Table :=
  shard (run TABLE_stuck BUFFER_MAX_ex (new_HashTable 4 4 1 4) (sets16 ++ [opset 16])) 0.

Lemma C8_resize_atomic_witness :
  (exists t', resize TABLE_ex BUFFER_MAX_ex ex_t8 4 = Ret t' 1 /\
     buckets t' = 4 /\ mask t' = 4 - 1 /\ Inv TABLE_ex t' /\
     occupied t' = occupied ex_t8 /\
     (forall k v, holds t' k v <-> holds ex_t8 k v) /\
     forall i s, inb ex_t8 i -> 0 <= s < 8 -> P ex_t8 i s = true ->
       exists tm, rebuild_set TABLE_ex ex_t8 4 i s = Some (Ret tm 0)) /\
  (rebuild_fails TABLE_stuck ex_stuck 8 /\
   exists t', resize TABLE_stuck BUFFER_MAX_ex ex_stuck 8 = Ret t' 0 /\ t' = ex_stuck /\
     buffer t' = buffer ex_stuck /\ buckets t' = buckets ex_stuck /\
     mask t' = mask ex_stuck).
Proof.
  split.
  - destruct (C8_resize_atomic TABLE_ex BUFFER_MAX_ex ex_t8 4) as [_ H].
    + apply (Inv_b_sound TABLE_ex BUFFER_MAX_ex). vm_compute. reflexivity.
    + apply (Uniq_b_sound TABLE_ex BUFFER_MAX_ex). vm_compute. reflexivity.
    + destruct H as (H1 & H2 & [Hf|Hn]).
      * unfold resize_accepts. by_compute.
      * destruct (H1 Hf) as (t' & E & _). vm_compute in E. discriminate E.
      * exact (H2 Hn).
  - assert (Hf : rebuild_fails TABLE_stuck ex_stuck 8).
    { exists 3, 0. eexists. split; [vm_compute; split; [discriminate|reflexivity]|].
      split; [lia|]. split; vm_compute; reflexivity. }
    split; [exact Hf|].
    destruct (C8_resize_atomic TABLE_stuck BUFFER_MAX_ex ex_stuck 8) as [_ H].
    + apply (Inv_b_sound TABLE_stuck BUFFER_MAX_ex). vm_compute. reflexivity.
    + apply (Uniq_b_sound TABLE_stuck BUFFER_MAX_ex). vm_compute. reflexivity.
    + destruct H as (H1 & _).
      * unfold resize_accepts. by_compute.
      * exact (H1 Hf).
Defined.

Lemma C10_vacate_error_unreachable_witness :
  (forall s, 0 <= s < 8 ->
     0 = home TABLE_ex ex_t8 (K ex_t8 0 s) \/ 0 = alt TABLE_ex ex_t8 (K ex_t8 0 s)) /\
  (forall t', vacate TABLE_ex ex_t8 (0 * bucket ex_t8) <> Throw t' ERROR_VACATE) /\
  (forall key ko value vo h' e,
     buf_ok key ko 4 -> buf_ok value vo 4 ->
     HashTable_set TABLE_ex BUFFER_MAX_ex
       (run TABLE_ex BUFFER_MAX_ex (new_HashTable 4 4 1 2) sets8) key ko value vo =
     Throw h' e ->
     e <> ERROR_VACATE).
Proof.
  apply (C10_vacate_error_unreachable TABLE_ex BUFFER_MAX_ex 4 4 1 2 sets8 ex_t8 0).
  - ok_cfg.
  - ok_ops.
  - vm_compute. constructor.
  - vm_compute. split; [discriminate|reflexivity].
  - vm_compute. reflexivity.
Defined.


(** ** Concrete runs for the further properties *)

(** The cache of one bucket after the eight [cache] calls, and the table
    after a [set] that had to resize. *)
Definition ex_hc8 : HashTable := run TABLE_ex BUFFER_MAX_ex (new_HashTable 4 4 1 1) caches8.
Definition sets17 : list Op := sets16 ++ [opset 16].
Definition ex_t16 : Table := shard ex_h16 0.

Ltac ok_ops17 :=
  unfold sets17, sets16, sets8, app;
  repeat (constructor; [cbv [opset op_ok key val]; split; ok_buf|]);
  try constructor.

Lemma get_agrees_with_exist_witness :
  (HashTable_exist TABLE_ex ex_h8 (key 3) 0 = 0 \/
   HashTable_exist TABLE_ex ex_h8 (key 3) 0 = 1) /\
  (HashTable_get TABLE_ex ex_h8 (key 3) 0 [9; 9; 9; 9] 0).2 =
    HashTable_exist TABLE_ex ex_h8 (key 3) 0 /\
  (HashTable_exist TABLE_ex ex_h8 (key 3) 0 = 0 ->
   (HashTable_get TABLE_ex ex_h8 (key 3) 0 [9; 9; 9; 9] 0).1.2 = [9; 9; 9; 9]).
Proof.
  apply (get_agrees_with_exist TABLE_ex BUFFER_MAX_ex 4 4 1 2 sets8 (key 3) 0 [9; 9; 9; 9] 0).
  - ok_cfg.
  - ok_ops.
  - ok_buf.
Defined.

Lemma get_writes_value_only_witness :
  length (HashTable_get TABLE_ex ex_h8 (key 3) 0 [9; 9; 9; 9; 9; 9] 1).1.2 =
    length [9; 9; 9; 9; 9; 9] /\
  rd (HashTable_get TABLE_ex ex_h8 (key 3) 0 [9; 9; 9; 9; 9; 9] 1).1.2 5 =
    rd [9; 9; 9; 9; 9; 9] 5.
Proof.
  apply (get_writes_value_only TABLE_ex BUFFER_MAX_ex 4 4 1 2 sets8 (key 3) 0
           [9; 9; 9; 9; 9; 9] 1 5).
  - ok_cfg.
  - ok_ops.
  - ok_buf.
  - lia.
Defined.

Lemma get_keeps_answers_witness :
  same_answers TABLE_ex ex_h8
    (HashTable_get TABLE_ex ex_h8 (key 3) 0 [9; 9; 9; 9] 0).1.1 (key 5) 0 /\
  ht_length (HashTable_get TABLE_ex ex_h8 (key 3) 0 [9; 9; 9; 9] 0).1.1 = ht_length ex_h8.
Proof.
  apply (get_keeps_answers TABLE_ex BUFFER_MAX_ex 4 4 1 2 sets8 (key 3) 0 [9; 9; 9; 9] 0
           (key 5) 0).
  - ok_cfg.
  - ok_ops.
  - ok_buf.
  - ok_buf.
Defined.

Lemma set_returns_presence_witness :
  1 = HashTable_exist TABLE_ex ex_h8 (key 3) 0 /\
  ht_length (state_of (HashTable_set TABLE_ex BUFFER_MAX_ex ex_h8 (key 3) 0 (val 7) 0)) =
    ht_length ex_h8 + 1 - 1 /\
  HashTable_exist TABLE_ex
    (state_of (HashTable_set TABLE_ex BUFFER_MAX_ex ex_h8 (key 3) 0 (val 7) 0)) (key 3) 0 = 1.
Proof.
  apply (set_returns_presence TABLE_ex BUFFER_MAX_ex 4 4 1 2 sets8 (key 3) 0 (val 7) 0).
  - ok_cfg.
  - ok_ops.
  - ok_buf.
  - ok_buf.
  - vm_compute. reflexivity.
Defined.

Lemma set_keeps_other_keys_witness :
  same_answers TABLE_ex ex_h8
    (state_of (HashTable_set TABLE_ex BUFFER_MAX_ex ex_h8 (key 17) 0 (val 17) 0)) (key 3) 0.
Proof.
  apply (set_keeps_other_keys TABLE_ex BUFFER_MAX_ex 4 4 1 2 sets8 (key 17) 0 (val 17) 0
           (key 3) 0).
  - ok_cfg.
  - ok_ops.
  - ok_buf.
  - ok_buf.
  - ok_buf.
  - vm_compute. discriminate.
Defined.

Lemma failed_set_changes_nothing_witness :
  ht_length (state_of (HashTable_set TABLE_ex BUFFER_MAX_ex ex_h16 (key 16) 0 (val 16) 0)) =
    ht_length ex_h16 /\
  same_answers TABLE_ex ex_h16
    (state_of (HashTable_set TABLE_ex BUFFER_MAX_ex ex_h16 (key 16) 0 (val 16) 0)) (key 3) 0 /\
  (ERROR_SET <> ERROR_MODE -> HashTable_exist TABLE_ex ex_h16 (key 16) 0 = 0).
Proof.
  apply (failed_set_changes_nothing TABLE_ex BUFFER_MAX_ex 4 4 1 2 sets16 (key 16) 0 (val 16) 0
           _ ERROR_SET (key 3) 0).
  - ok_cfg.
  - ok_ops.
  - ok_buf.
  - ok_buf.
  - ok_buf.
  - vm_compute. reflexivity.
Defined.

Lemma unset_removes_key_witness :
  exists h',
    HashTable_unset TABLE_ex ex_h8 (key 3) 0 =
      Ret h' (HashTable_exist TABLE_ex ex_h8 (key 3) 0) /\
    ht_length h' = ht_length ex_h8 - HashTable_exist TABLE_ex ex_h8 (key 3) 0 /\
    HashTable_exist TABLE_ex h' (key 3) 0 = 0 /\
    (HashTable_exist TABLE_ex ex_h8 (key 3) 0 = 0 -> h' = ex_h8).
Proof.
  apply (unset_removes_key TABLE_ex BUFFER_MAX_ex 4 4 1 2 sets8 (key 3) 0).
  - ok_cfg.
  - ok_ops.
  - ok_buf.
Defined.

Lemma unset_keeps_other_keys_witness :
  same_answers TABLE_ex ex_h8 (state_of (HashTable_unset TABLE_ex ex_h8 (key 3) 0)) (key 5) 0.
Proof.
  apply (unset_keeps_other_keys TABLE_ex BUFFER_MAX_ex 4 4 1 2 sets8 (key 3) 0 (key 5) 0).
  - ok_cfg.
  - ok_ops.
  - ok_buf.
  - ok_buf.
  - vm_compute. discriminate.
Defined.


Lemma cache_then_get_witness :
  exists h' r,
    HashTable_cache TABLE_ex ex_hc8 (key 7) 0 (val 7) 0 = Ret h' r /\
    (r = 0 \/ r = 1 \/ r = 2) /\
    (r = 1 <-> HashTable_exist TABLE_ex ex_hc8 (key 7) 0 = 1) /\
    ht_length h' = ht_length ex_hc8 + (if r =? 0 then 1 else 0) /\
    (HashTable_get TABLE_ex h' (key 7) 0 [9; 9; 9; 9] 0).2 = 1 /\
    slice (HashTable_get TABLE_ex h' (key 7) 0 [9; 9; 9; 9] 0).1.2 0 (Z.to_nat 4) =
      slice (val 7) 0 (Z.to_nat 4).
Proof.
  apply (cache_then_get TABLE_ex BUFFER_MAX_ex 4 4 1 1 caches8 (key 7) 0 (val 7) 0
           [9; 9; 9; 9] 0).
  - ok_cfg.
  - ok_ops.
  - ok_buf.
  - ok_buf.
  - ok_buf.
  - vm_compute. discriminate.
Defined.

Lemma cache_evicts_one_witness :
  exists ke,
    length ke = Z.to_nat 4 /\ ke <> slice (key 7) 0 (Z.to_nat 4) /\
    HashTable_exist TABLE_ex ex_hc8 ke 0 = 1 /\
    HashTable_exist TABLE_ex
      (state_of (HashTable_cache TABLE_ex ex_hc8 (key 7) 0 (val 7) 0)) ke 0 = 0.
Proof.
  destruct (cache_evicts_one TABLE_ex BUFFER_MAX_ex 4 4 1 1 caches8 (key 7) 0 (val 7) 0
              (state_of (HashTable_cache TABLE_ex ex_hc8 (key 7) 0 (val 7) 0)) 2)
    as [_ H].
  - ok_cfg.
  - ok_ops.
  - ok_buf.
  - ok_buf.
  - vm_compute. reflexivity.
  - destruct (H eq_refl) as (ke & Hl & _ & Hne & H1 & H0 & _).
    exists ke. split; [exact Hl|]. split; [exact Hne|]. split; [exact H1|exact H0].
Defined.

Lemma capacity_counts_slots_witness :
  capacity (run TABLE_ex BUFFER_MAX_ex (new_HashTable 4 4 1 2) sets17) =
    8 * all_buckets (tables (run TABLE_ex BUFFER_MAX_ex (new_HashTable 4 4 1 2) sets17)) /\
  0 <= ht_length (run TABLE_ex BUFFER_MAX_ex (new_HashTable 4 4 1 2) sets17) <=
    capacity (run TABLE_ex BUFFER_MAX_ex (new_HashTable 4 4 1 2) sets17) /\
  HashTable_size (run TABLE_ex BUFFER_MAX_ex (new_HashTable 4 4 1 2) sets17) =
    Some (Ret (run TABLE_ex BUFFER_MAX_ex (new_HashTable 4 4 1 2) sets17)
            (all_bytes (tables (run TABLE_ex BUFFER_MAX_ex (new_HashTable 4 4 1 2) sets17)))).
Proof.
  apply (capacity_counts_slots TABLE_ex BUFFER_MAX_ex 4 4 1 2 sets17).
  - ok_cfg.
  - ok_ops17.
Defined.

Lemma new_container_is_empty_witness :
  HashTable_exist TABLE_ex (new_HashTable 4 4 1 2) (key 3) 0 = 0 /\
  (HashTable_get TABLE_ex (new_HashTable 4 4 1 2) (key 3) 0 [9; 9; 9; 9] 0).2 = 0 /\
  (HashTable_get TABLE_ex (new_HashTable 4 4 1 2) (key 3) 0 [9; 9; 9; 9] 0).1.2 = [9; 9; 9; 9].
Proof.
  apply (new_container_is_empty TABLE_ex BUFFER_MAX_ex 4 4 1 2 (key 3) 0 [9; 9; 9; 9] 0).
  - ok_cfg.
  - ok_buf.
Defined.

Lemma keys_stored_once_witness : 0 = 0 /\ 0 = 0 /\ 3 = 3.
Proof.
  apply (keys_stored_once TABLE_ex BUFFER_MAX_ex 4 4 1 2 sets8 0 0 3 0 0 3).
  - ok_cfg.
  - ok_ops.
  - vm_compute. split; discriminate.
  - vm_compute. split; [discriminate|reflexivity].
  - lia.
  - vm_compute. split; discriminate.
  - vm_compute. split; [discriminate|reflexivity].
  - lia.
  - vm_compute. reflexivity.
  - vm_compute. reflexivity.
  - reflexivity.
Defined.

Lemma cache_keeps_first_position_witness :
  C ex_c8 0 = 0 /\ (P ex_c8 0 0 = true -> 0 = home TABLE_ex ex_c8 (K ex_c8 0 0)).
Proof.
  apply (cache_keeps_first_position TABLE_ex BUFFER_MAX_ex 4 4 1 1 caches8 ex_c8 0 0).
  - ok_cfg.
  - ok_ops.
  - vm_compute. discriminate.
  - vm_compute. constructor.
  - vm_compute. split; [discriminate|reflexivity].
  - lia.
Defined.

Lemma capacity_never_shrinks_witness :
  capacity ex_h16 <= capacity (apply_op TABLE_ex BUFFER_MAX_ex ex_h16 (opset 16)) /\
  (capacity ex_h16 < capacity (apply_op TABLE_ex BUFFER_MAX_ex ex_h16 (opset 16)) ->
   exists key ko value vo, opset 16 = OpSet key ko value vo).
Proof.
  apply (capacity_never_shrinks TABLE_ex BUFFER_MAX_ex 4 4 1 2 sets16 (opset 16)).
  - ok_cfg.
  - ok_ops.
  - cbv [opset op_ok key val]. split; ok_buf.
Defined.

Lemma get_marks_recently_used_witness :
  exists i s, inb ex_t8 i /\ 0 <= s < 8 /\ P ex_t8 i s = true /\
    K ex_t8 i s = slice (key 3) 0 (Z.to_nat (keySize ex_t8)) /\
    M (Table_get ex_t8 0 0 (key 3) 0 [9; 9; 9; 9] 0).1.1 i 18 =
      Z.lor (M ex_t8 i 18) (Z.shiftl 1 s) /\
    Z.testbit (M (Table_get ex_t8 0 0 (key 3) 0 [9; 9; 9; 9] 0).1.1 i 18) s = true /\
    forall j c, inb ex_t8 j -> 0 <= c < 20 -> ~ (j = i /\ c = 18) ->
      M (Table_get ex_t8 0 0 (key 3) 0 [9; 9; 9; 9] 0).1.1 j c = M ex_t8 j c.
Proof.
  destruct (get_marks_recently_used TABLE_ex BUFFER_MAX_ex ex_t8 0 0 (key 3) 0 [9; 9; 9; 9] 0)
    as (_ & _ & H & _).
  - apply (Inv_b_sound TABLE_ex BUFFER_MAX_ex). vm_compute. reflexivity.
  - split; [repeat constructor; lia | vm_compute; split; discriminate].
  - vm_compute. reflexivity.
  - apply H. vm_compute. reflexivity.
Defined.


Lemma SLOT_first_clear_bit_witness :
  0 <= rd SLOT 7 <= 8 /\
  (rd SLOT 7 = 8 <-> 7 = 255) /\
  (rd SLOT 7 < 8 -> Z.testbit 7 (rd SLOT 7) = false) /\
  (forall j, 0 <= j < rd SLOT 7 -> Z.testbit 7 j = true).
Proof.
  apply (SLOT_first_clear_bit TABLE_ex BUFFER_MAX_ex 7). lia.
Defined.

Lemma Hash_reads_key_bytes_witness :
  Hash TABLE_ex (key 3) 0 4 = Hash TABLE_ex [5; 3; 0; 0; 0] 1 4.
Proof.
  apply (Hash_reads_key_bytes TABLE_ex BUFFER_MAX_ex (key 3) 0 [5; 3; 0; 0; 0] 1 4).
  - lia.
  - reflexivity.
  - ok_buf.
  - ok_buf.
  - vm_compute. reflexivity.
Defined.

Lemma equal_compares_bytes_witness :
  (slice [1; 2; 3] 1 (Z.to_nat 2) = slice [2; 3; 4] 0 (Z.to_nat 2) ->
   equal [1; 2; 3] 1 [2; 3; 4] 0 2 = 1) /\
  (slice [1; 2; 3] 1 (Z.to_nat 2) <> slice [2; 3; 4] 0 (Z.to_nat 2) ->
   equal [1; 2; 3] 1 [2; 3; 4] 0 2 = 0).
Proof.
  apply (equal_compares_bytes TABLE_ex BUFFER_MAX_ex [1; 2; 3] 1 [2; 3; 4] 0 2).
  - lia.
  - ok_buf.
  - ok_buf.
Defined.

Lemma scan_first_match_witness :
  0 <= scan ex_t8 (0 * bucket ex_t8) 0 (key 3) 0 <= 8 /\
  (scan ex_t8 (0 * bucket ex_t8) 0 (key 3) 0 < 8 ->
   TG ex_t8 0 (scan ex_t8 (0 * bucket ex_t8) 0 (key 3) 0) = 0 /\
   P ex_t8 0 (scan ex_t8 (0 * bucket ex_t8) 0 (key 3) 0) = true /\
   K ex_t8 0 (scan ex_t8 (0 * bucket ex_t8) 0 (key 3) 0) =
     slice (key 3) 0 (Z.to_nat (keySize ex_t8))) /\
  (TG ex_t8 0 3 = 0 /\ P ex_t8 0 3 = true /\
   K ex_t8 0 3 = slice (key 3) 0 (Z.to_nat (keySize ex_t8)) ->
   scan ex_t8 (0 * bucket ex_t8) 0 (key 3) 0 <= 3).
Proof.
  apply (scan_first_match TABLE_ex BUFFER_MAX_ex ex_t8 0 0 (key 3) 0 3).
  - apply (Shape_b_sound TABLE_ex BUFFER_MAX_ex). vm_compute. reflexivity.
  - vm_compute. split; [discriminate|reflexivity].
  - split; [repeat constructor; lia | vm_compute; split; discriminate].
  - lia.
Defined.

Lemma Assert_P2_accepts_powers_witness :
  Assert_P2 "buckets" 8 = None <-> exists k, 0 <= k /\ 8 = 2 ^ k.
Proof.
  apply (Assert_P2_accepts_powers TABLE_ex BUFFER_MAX_ex "buckets" 8). lia.
Defined.

Lemma bucket_is_aligned_witness :
  exists b, HashTable_bucket_checked 4 4 = inr b /\ b = 128.
Proof.
  destruct (bucket_is_aligned TABLE_ex BUFFER_MAX_ex 4 4) as [[_ H] H2].
  destruct H as [b Hb]; [vm_compute; repeat split; discriminate|].
  exists b. split; [exact Hb|]. destruct (H2 b Hb) as [-> _]. reflexivity.
Defined.

Lemma evict_second_chance_witness :
  exists d, 0 <= d <= 8 /\
    (evict ex_c8 (0 * bucket ex_c8)).2 = (HD ex_c8 0 + d) mod 8 /\
    (d < 8 -> Z.testbit (M ex_c8 0 18) (evict ex_c8 (0 * bucket ex_c8)).2 = false) /\
    HD (evict ex_c8 (0 * bucket ex_c8)).1 0 = ((evict ex_c8 (0 * bucket ex_c8)).2 + 1) mod 8.
Proof.
  destruct (evict_second_chance TABLE_ex BUFFER_MAX_ex ex_c8 0
              (evict ex_c8 (0 * bucket ex_c8)).1 (evict ex_c8 (0 * bucket ex_c8)).2 0)
    as (d & Hd & Hs & _ & Hc & Hh & _).
  - apply (Inv_b_sound TABLE_ex BUFFER_MAX_ex). vm_compute. reflexivity.
  - vm_compute. split; [discriminate|reflexivity].
  - lia.
  - apply surjective_pairing.
  - exists d. split; [exact Hd|]. split; [exact Hs|]. split; [exact Hc|exact Hh].
Defined.

Lemma filterReset_rebuilds_witness :
  (C ex_t8 0 <> 0 \/ F ex_t8 0 0 = 0 -> filterReset ex_t8 (0 * bucket ex_t8) 0 = ex_t8) /\
  (C ex_t8 0 = 0 -> F ex_t8 0 0 <> 0 ->
   Z.testbit (F (filterReset ex_t8 (0 * bucket ex_t8) 0) 0 0) 0 = true <->
   exists s, 0 <= s < 8 /\ P ex_t8 0 s = true /\
     filter_of (TG ex_t8 0 s) = 0 /\ Z.land (TG ex_t8 0 s) 7 = 0).
Proof.
  apply (filterReset_rebuilds TABLE_ex BUFFER_MAX_ex ex_t8 0 0 0).
  - apply (Shape_b_sound TABLE_ex BUFFER_MAX_ex). vm_compute. reflexivity.
  - vm_compute. split; [discriminate|reflexivity].
  - lia.
  - lia.
Defined.

Lemma set_asks_resize_when_stuck_witness :
  ex_t16 = ex_t16 /\ M ex_t16 0 9 = 255 /\
  M ex_t16 (home TABLE_ex ex_t16 (K ex_t16 0 0)) 9 = 255 /\
  M ex_t16 (alt TABLE_ex ex_t16 (K ex_t16 0 0)) 9 = 255.
Proof.
  apply (set_asks_resize_when_stuck TABLE_ex BUFFER_MAX_ex ex_t16 0 1 (key 16) 0 (val 16) 0
           ex_t16 0 0).
  - apply (Inv_b_sound TABLE_ex BUFFER_MAX_ex). vm_compute. reflexivity.
  - apply (Uniq_b_sound TABLE_ex BUFFER_MAX_ex). vm_compute. reflexivity.
  - repeat constructor; lia.
  - repeat constructor; lia.
  - vm_compute. reflexivity.
  - vm_compute. reflexivity.
  - left. vm_compute. reflexivity.
  - lia.
Defined.

Lemma table_is_a_finite_map_witness :
  match
    model TABLE_ex BUFFER_MAX_ex (new_HashTable 4 4 1 2) (fun _ => None) sets8
      (slice (key 3) 0 (Z.to_nat 4))
  with
  | Some v =>
      HashTable_exist TABLE_ex ex_h8 (key 3) 0 = 1 /\
      (HashTable_get TABLE_ex ex_h8 (key 3) 0 [9; 9; 9; 9] 0).2 = 1 /\
      (HashTable_get TABLE_ex ex_h8 (key 3) 0 [9; 9; 9; 9] 0).1.2 =
        (if 4 =? 0 then [9; 9; 9; 9] else write_bytes [9; 9; 9; 9] 0 v)
  | None =>
      HashTable_exist TABLE_ex ex_h8 (key 3) 0 = 0 /\
      (HashTable_get TABLE_ex ex_h8 (key 3) 0 [9; 9; 9; 9] 0).2 = 0 /\
      (HashTable_get TABLE_ex ex_h8 (key 3) 0 [9; 9; 9; 9] 0).1.2 = [9; 9; 9; 9]
  end.
Proof.
  apply (table_is_a_finite_map TABLE_ex BUFFER_MAX_ex 4 4 1 2 sets8 (key 3) 0 [9; 9; 9; 9] 0).
  - ok_cfg.
  - ok_ops.
  - unfold sets8. repeat constructor.
  - ok_buf.
Defined.
